(** * ARI value model and text codec of dtnma-tools: a shallow embedding

    The development follows the C sources
      - [ari_text_util.c]  lexical primitives and time codecs,
      - [ari_type.c]       the type-name registry,
      - [ari_algo.c]       visitor, translator, hash and equality,
      - [ari_text_enc.c]   the text encoder.

    Conventions of the embedding.
      - A [char]/[uint8_t] is a [Z] in [0, 256); a C string, a [string_t]
        and the bytes of an [ari_data_t] are [list Z].
      - A pointer into a buffer is a [nat] offset; reading at or past the
        length of a buffer yields the terminating NUL (every text buffer of
        the library is NUL terminated).
      - Fixed-width integers are [Z] with the wrap-around written out.
      - A function returning an [int] status and appending to a [string_t]
        returns the pair of both; a decoder that writes its result only on
        success returns a [result].
      - Loops whose cursor advances by a computed amount carry a fuel
        counter initialised from the length of the input. *)

From Stdlib Require Import ZArith List Bool Lia Ascii String.
Import ListNotations.
Local Open Scope Z_scope.
Local Abbreviation length := Datatypes.length (only parsing).

(** ** Characters and strings *)

Definition ch (a : ascii) : Z := Z.of_N (N_of_ascii a).
Arguments ch a%_char.

Definition cstr (s : string) : list Z := map ch (list_ascii_of_string s).
Arguments cstr s%_string.

Definition is_byte (c : Z) : Prop := 0 <= c < 256.

(** The double quote character. *)
Definition DQUOTE : Z := 34.

(** Result of a decoder: [Ok v] is status zero with [v] stored through the
    output pointer, [Err c] is the non-zero status [c] with the output
    left untouched. *)
Inductive result (A : Type) : Type :=
| Ok (v : A)
| Err (code : Z).
Arguments Ok {A} v.
Arguments Err {A} code.

(** Memory read: the byte at offset [i] of a NUL-terminated buffer. *)
Definition peek (buf : list Z) (i : nat) : Z := nth i buf 0.

Definition mem (c : Z) (set : list Z) : bool := existsb (Z.eqb c) set.

(** The bytes of a C string, up to its terminator. *)
Fixpoint c_string (s : list Z) : list Z :=
  match s with
  | c :: s' => if c =? 0 then [] else c :: c_string s'
  | [] => []
  end.

(** ** C library: character classes, scanning, number conversion *)

Module Libc.

(** [isprint] in the C locale. *)
Definition isprint (c : Z) : bool := (32 <=? c) && (c <=? 126).

(** [isspace] in the C locale. *)
Definition isspace (c : Z) : bool := (c =? 32) || ((9 <=? c) && (c <=? 13)).

Definition tolower (c : Z) : Z :=
  if (ch "A" <=? c) && (c <=? ch "Z") then c + 32 else c.

(** [strspn(s, accept)]: length of the leading run of bytes of [accept].
    The NUL terminator is never in [accept]. *)
Fixpoint strspn (s accept : list Z) : nat :=
  match s with
  | c :: s' => if negb (c =? 0) && mem c accept then S (strspn s' accept) else O
  | [] => O
  end.

(** [strcspn(s, reject)]: length of the leading run free of [reject]. *)
Fixpoint strcspn (s reject : list Z) : nat :=
  match s with
  | c :: s' => if (c =? 0) || mem c reject then O else S (strcspn s' reject)
  | [] => O
  end.

(** [strchr(s, c)] for a non-NUL [c]: offset of the first [c] before the
    terminator, [None] for a NULL result. *)
Fixpoint strchr (s : list Z) (c : Z) : option nat :=
  match s with
  | x :: s' =>
      if x =? c then Some O
      else if x =? 0 then None
      else option_map S (strchr s' c)
  | [] => None
  end.

(** [printf("%.*s", n, s)]: at most [n] bytes, stopping at a NUL. *)
Fixpoint take_str (n : nat) (s : list Z) : list Z :=
  match n, s with
  | S n', c :: s' => if c =? 0 then [] else c :: take_str n' s'
  | _, _ => []
  end.

(** [strcasecmp(a, b) == 0]. *)
Fixpoint strcaseeq (a b : list Z) : bool :=
  match a, b with
  | [], [] => true
  | x :: a', y :: b' => (tolower x =? tolower y) && strcaseeq a' b'
  | _, _ => false
  end.

(** Digit of value [d] in the chosen letter case. *)
Definition digit_char (upper : bool) (d : Z) : Z :=
  if d <? 10 then ch "0" + d
  else (if upper then ch "A" else ch "a") + (d - 10).

(** Value of a digit character, any base up to 36. *)
Definition digit_val (c : Z) : option Z :=
  if (ch "0" <=? c) && (c <=? ch "9") then Some (c - ch "0")
  else if (ch "a" <=? c) && (c <=? ch "z") then Some (c - ch "a" + 10)
  else if (ch "A" <=? c) && (c <=? ch "Z") then Some (c - ch "A" + 10)
  else None.

(** Digits of [n >= 0] in [base], most significant first, as the integer
    conversions of [printf] produce them (no padding). *)
Fixpoint digits_aux (fuel : nat) (upper : bool) (base n : Z) (acc : list Z)
  : list Z :=
  match fuel with
  | O => acc
  | S f =>
      let acc' := digit_char upper (n mod base) :: acc in
      if n / base =? 0 then acc' else digits_aux f upper base (n / base) acc'
  end.

Definition to_digits (upper : bool) (base n : Z) : list Z :=
  digits_aux (S (Z.to_nat (Z.log2 n))) upper base n [].

(** [printf("%" PRIu64, n)], [printf("%zu", n)]. *)
Definition fmt_u (n : Z) : list Z := to_digits false 10 n.

(** [printf("%" PRId64, n)]. *)
Definition fmt_d (n : Z) : list Z :=
  if n <? 0 then ch "-" :: to_digits false 10 (- n) else to_digits false 10 n.

(** [printf("%" PRIX64, n)]. *)
Definition fmt_X (n : Z) : list Z := to_digits true 16 n.

(** Zero padding on the left up to [width] characters. *)
Definition pad0 (width : nat) (s : list Z) : list Z :=
  repeat (ch "0") (width - length s) ++ s.

(** Leading run of digits of [s] valid in [base], folded into [acc]:
    the value and the number of digits read. *)
Fixpoint parse_digits (base acc : Z) (s : list Z) : Z * nat :=
  match s with
  | c :: s' =>
      match digit_val c with
      | Some d =>
          if d <? base
          then let '(v, n) := parse_digits base (acc * base + d) s' in (v, S n)
          else (acc, O)
      | None => (acc, O)
      end
  | [] => (acc, O)
  end.

Definition ULONG_MAX : Z := 2 ^ 64 - 1.

Fixpoint skip_space (s : list Z) : nat :=
  match s with
  | c :: s' => if isspace c then S (skip_space s') else O
  | [] => O
  end.

(** [strtoul(s, &end, base)] and [strtoull] on an LP64 target: the value
    and the offset of [end] from [s] (zero when no conversion is made).
    White space and a sign are skipped, a [0x] prefix is taken for base 16
    or 0 when a hex digit follows, base 0 selects octal after a leading
    [0] and decimal otherwise; out-of-range input yields [ULONG_MAX] and a
    minus sign negates modulo 2^64. *)
Definition strtoul (s : list Z) (base : Z) : Z * nat :=
  let i := skip_space s in
  let s1 := skipn i s in
  let '(neg, j) :=
    match s1 with
    | c :: _ => if c =? ch "-" then (true, S i)
                else if c =? ch "+" then (false, S i) else (false, i)
    | [] => (false, i)
    end in
  let s2 := skipn j s in
  let has0x :=
    ((base =? 0) || (base =? 16)) && (peek s2 0 =? ch "0")
    && ((peek s2 1 =? ch "x") || (peek s2 1 =? ch "X"))
    && match digit_val (peek s2 2) with Some d => d <? 16 | None => false end in
  let '(b, k) :=
    if has0x then (16, (j + 2)%nat)
    else if base =? 0 then (if peek s2 0 =? ch "0" then 8 else 10, j)
    else (base, j) in
  let '(v, n) := parse_digits b 0 (skipn k s) in
  match n with
  | O => (0, O)
  | _ =>
      let v' := if ULONG_MAX <? v then ULONG_MAX
                else if neg then (2 ^ 64 - v) mod 2 ^ 64 else v in
      (v', (k + n)%nat)
  end.

End Libc.

(** ** ari_text_util.c *)

(** [text_real_len]: the size of text ignoring a terminating null. *)
Definition text_real_len (data : list Z) : nat :=
  match data with
  | [] => O
  | _ => if last data 1 =? 0 then (length data - 1)%nat else length data
  end.

(** [ari_uint64_encode], base 2: the loop filling [tmp] from its end. *)
Fixpoint uint64_bits (fuel : nat) (value : Z) (tmp : list Z) : list Z :=
  match fuel with
  | O => tmp
  | S f =>
      if value =? 0 then tmp
      else uint64_bits f (value / 2)
             ((if value mod 2 =? 1 then ch "1" else ch "0") :: tmp)
  end.

Definition ari_uint64_encode (out : list Z) (value base : Z) : Z * list Z :=
  if base =? 2 then
    let tmp := uint64_bits 64 value [] in
    let tmp := match tmp with [] => [ch "0"] | _ => tmp end in
    (0, out ++ [ch "0"; ch "b"] ++ tmp)
  else if base =? 10 then (0, out ++ Libc.fmt_u value)
  else if base =? 16 then (0, out ++ cstr "0x" ++ Libc.fmt_X value)
  else (1, out).

(** [ari_uint64_decode], binary path: the loop over [ix >= 2]. *)
Fixpoint uint64_unbits (tmp : Z) (rest : list Z) : result Z :=
  match rest with
  | [] => Ok tmp
  | bit :: rest' =>
      let tmp := Z.shiftl tmp 1 mod 2 ^ 64 in
      if bit =? ch "0" then uint64_unbits tmp rest'
      else if bit =? ch "1" then uint64_unbits ((tmp + 1) mod 2 ^ 64) rest'
      else Err 2
  end.

Definition ari_uint64_decode (input : list Z) : result Z :=
  let in_len := length input in
  if (2 <=? in_len)%nat && (peek input 0 =? ch "0") && (peek input 1 =? ch "b")
  then uint64_unbits 0 (skipn 2 input)
  else
    let '(tmp, numend) := Libc.strtoul input 0 in
    if (numend =? in_len)%nat then Ok tmp else Err 2.

(** [take_hex_1byte]: two characters converted by [strtoul] in base 16.
    The result is the byte and the advanced cursor. *)
Definition take_hex_1byte (buf : list Z) (curs end_ : nat) : result (Z * nat) :=
  if (end_ <? curs + 2)%nat then Err 1
  else
    let b := [peek buf curs; peek buf (curs + 1)] in
    let '(v, numend) := Libc.strtoul b 16 in
    if (numend <? 2)%nat then Err 2 else Ok (v mod 256, (curs + 2)%nat).

(** [take_hex_2byte]: four characters, a 16-bit value. *)
Definition take_hex_2byte (buf : list Z) (curs end_ : nat) : result (Z * nat) :=
  if (end_ <? curs + 4)%nat then Err 1
  else
    let b := [peek buf curs; peek buf (curs + 1);
              peek buf (curs + 2); peek buf (curs + 3)] in
    let '(v, numend) := Libc.strtoul b 16 in
    if (numend <? 4)%nat then Err 2 else Ok (v mod 65536, (curs + 4)%nat).

Definition id_text_first : list Z :=
  cstr "ABCDEFGHIJKLMNOPQRSTUVWXYZabcdefghijklmnopqrstuvwxyz_".
Definition id_text_rest : list Z :=
  cstr "ABCDEFGHIJKLMNOPQRSTUVWXYZabcdefghijklmnopqrstuvwxyz0123456789_.-".

(** [ari_text_is_identity].  [strchr(id_text_first, c)] also matches the
    terminator of [id_text_first] when [c] is NUL. *)
Definition ari_text_is_identity (text : list Z) : bool :=
  let in_len := text_real_len text in
  if (in_len <? 1)%nat then false
  else if negb (mem (peek text 0) (id_text_first ++ [0])) then false
  else if (Libc.strspn (skipn 1 text) id_text_rest <? in_len - 1)%nat then false
  else true.

(** Set of unreserved characters from Section 2.3 of RFC 3986. *)
Definition unreserved : list Z :=
  cstr "ABCDEFGHIJKLMNOPQRSTUVWXYZabcdefghijklmnopqrstuvwxyz0123456789_.-~".

(** [printf("%02X", chr)] and [printf("%02x", chr)]. *)
Definition fmt_02X (upper : bool) (chr : Z) : list Z :=
  Libc.pad0 2 (Libc.to_digits upper 16 chr).

(** The loop of [uri_percent_encode]. *)
Fixpoint uri_percent_encode_loop (fuel : nat) (allsafe buf : list Z)
    (end_ curs : nat) (out : list Z) : list Z :=
  match fuel with
  | O => out
  | S f =>
      if (curs <? end_)%nat then
        let partlen := Libc.strspn (skipn curs buf) allsafe in
        let out := if (partlen =? 0)%nat then out
                   else out ++ Libc.take_str partlen (skipn curs buf) in
        let curs := (curs + partlen)%nat in
        if (end_ <=? curs)%nat then out
        else
          let chr := peek buf curs in
          uri_percent_encode_loop f allsafe buf end_ (S curs)
            (out ++ ch "%" :: fmt_02X true chr)
      else out
  end.

Definition uri_percent_encode (out input safe : list Z) : Z * list Z :=
  let in_len := text_real_len input in
  let allsafe := unreserved ++ c_string safe in
  (0, uri_percent_encode_loop (S in_len) allsafe input in_len O out).

(** The loop of [uri_percent_decode]. *)
Fixpoint uri_percent_decode_loop (fuel : nat) (buf : list Z)
    (end_ curs : nat) (out : list Z) : Z * list Z :=
  match fuel with
  | O => (0, out)
  | S f =>
      if (curs <? end_)%nat then
        let partend := match Libc.strchr (skipn curs buf) (ch "%") with
                       | Some k => (curs + k)%nat
                       | None => end_
                       end in
        let partlen := (partend - curs)%nat in
        let out := if (partlen =? 0)%nat then out
                   else out ++ Libc.take_str partlen (skipn curs buf) in
        let curs := (curs + partlen + 1)%nat in
        if (end_ <? curs)%nat then (0, out)
        else
          match take_hex_1byte buf curs end_ with
          | Err _ => (2, out)
          | Ok (val, curs) =>
              uri_percent_decode_loop f buf end_ curs (out ++ [val])
          end
      else (0, out)
  end.

Definition uri_percent_decode (out input : list Z) : Z * list Z :=
  let in_len := text_real_len input in
  uri_percent_decode_loop (S in_len) input in_len O out.

(** ** Time codecs *)

(** Conversion to a signed 64-bit integer ([time_t], [long], [int64_t]). *)
Definition sint64 (z : Z) : Z := (z + 2 ^ 63) mod 2 ^ 64 - 2 ^ 63.

(** Conversion to an unsigned 64-bit integer ([subsec_t], [uint64_t]). *)
Definition uint64 (z : Z) : Z := z mod 2 ^ 64.

(** [struct timespec]. *)
Record timespec : Type := mk_timespec { tv_sec : Z; tv_nsec : Z }.

(** [subsec_decode]: an optional [.ddddddddd] between the cursor and
    [end_], as nanoseconds.  The result is the new [*subsec] and cursor. *)
Definition subsec_decode (buf : list Z) (subsec : Z) (curs end_ : nat)
  : result (Z * nat) :=
  if (curs =? end_)%nat then Ok (subsec, curs)
  else if negb (peek buf curs =? ch ".") then Err 2
  else
    let curs := S curs in
    if (curs <? end_)%nat then
      let '(v, digits) := Libc.strtoul (skipn curs buf) 10 in
      if (digits =? 0)%nat then Err 2
      else if (9 <? digits)%nat then Err 4
      else Ok (Nat.iter (9 - digits) (fun s => uint64 (s * 10)) v,
               (curs + digits)%nat)
    else Ok (subsec, curs).

(** [subsec_encode], the loop trimming trailing zeros of a non-zero
    [subsec]: the remaining value and digit count. *)
Fixpoint subsec_trim (fuel : nat) (subsec digits : Z) : Z * Z :=
  match fuel with
  | O => (subsec, digits)
  | S f =>
      if subsec mod 10 =? 0 then subsec_trim f (subsec / 10) (digits - 1)
      else (subsec, digits)
  end.

(** [subsec_encode].  [printf(".%.*u", digits, subsec)] prints the low 32
    bits of [subsec] with at least [digits] digits. *)
Definition subsec_encode (out : list Z) (subsec : Z) : Z * list Z :=
  if subsec =? 0 then (0, out)
  else
    let '(subsec, digits) := subsec_trim 20 subsec 9 in
    (0, out ++ ch "." :: Libc.pad0 (Z.to_nat digits) (Libc.fmt_u (subsec mod 2 ^ 32))).

(** [decfrac_encode]. *)
Definition decfrac_encode (out : list Z) (input : timespec) : Z * list Z :=
  let out := out ++ Libc.fmt_d (tv_sec input) in
  let '(_, out) := subsec_encode out (uint64 (tv_nsec input)) in
  (0, out).

Definition TIMEPERIOD_DAY : Z := 24 * 3600.
Definition TIMEPERIOD_HOUR : Z := 3600.
Definition TIMEPERIOD_MINUTE : Z := 60.

(** One of the three blocks of [timeperiod_encode] that emit a whole
    number of [unit]s when [fullsec] holds at least one. *)
Definition timeperiod_encode_part (unit_len : Z) (letter : Z)
    (fullsec : Z) (out : list Z) : Z * list Z :=
  if unit_len <=? fullsec then
    let part := Z.quot fullsec unit_len in
    (Z.rem fullsec unit_len, out ++ Libc.fmt_d part ++ [letter])
  else (fullsec, out).

(** [timeperiod_encode]. *)
Definition timeperiod_encode (out : list Z) (input : timespec) : Z * list Z :=
  if (tv_sec input =? 0) && (tv_nsec input =? 0) then (0, out ++ cstr "PT0S")
  else
    let fullsec := tv_sec input in
    let subsec := uint64 (tv_nsec input) in
    let '(fullsec, out) :=
      if fullsec <? 0 then (sint64 (- fullsec), out ++ [ch "-"])
      else (fullsec, out) in
    let out := out ++ [ch "P"] in
    let '(fullsec, out) :=
      timeperiod_encode_part TIMEPERIOD_DAY (ch "D") fullsec out in
    let out := out ++ [ch "T"] in
    let '(fullsec, out) :=
      timeperiod_encode_part TIMEPERIOD_HOUR (ch "H") fullsec out in
    let '(fullsec, out) :=
      timeperiod_encode_part TIMEPERIOD_MINUTE (ch "M") fullsec out in
    let out :=
      if negb (fullsec =? 0) || negb (subsec =? 0) then
        let out := out ++ Libc.fmt_d fullsec in
        let '(_, out) := subsec_encode out subsec in
        out ++ [ch "S"]
      else out in
    (0, out).

(** One of the three blocks of [timeperiod_decode] that look for a unit
    letter and add the number in front of it: the result is the new
    [fullsec] and cursor. *)
Definition timeperiod_decode_part (buf : list Z) (unit_len : Z) (letter : Z)
    (fullsec : Z) (curs : nat) : result (Z * nat) :=
  match Libc.strchr (skipn curs buf) letter with
  | Some k =>
      let partend := (curs + k)%nat in
      let '(v, numend) := Libc.strtoul (skipn curs buf) 10 in
      let fullsec := sint64 (uint64 fullsec + uint64 (unit_len * v)) in
      if (numend =? 0)%nat then Err 2 else Ok (fullsec, S partend)
  | None => Ok (fullsec, curs)
  end.

(** The last block of [timeperiod_decode], for seconds with an optional
    fraction: the result is the new [fullsec], [subsec] and cursor. *)
Definition timeperiod_decode_seconds (buf : list Z) (fullsec subsec : Z)
    (curs : nat) : result (Z * Z * nat) :=
  match Libc.strchr (skipn curs buf) (ch "S") with
  | Some k =>
      let partend := (curs + k)%nat in
      let '(v, numend) := Libc.strtoul (skipn curs buf) 10 in
      let fullsec := sint64 (uint64 fullsec + v) in
      if (numend =? 0)%nat then Err 2
      else
        match subsec_decode buf subsec (curs + numend) partend with
        | Err _ => Err 2
        | Ok (subsec, _) => Ok (fullsec, subsec, S partend)
        end
  | None => Ok (fullsec, subsec, curs)
  end.

(** [timeperiod_decode]. *)
Definition timeperiod_decode (input : list Z) : result timespec :=
  let in_len := text_real_len input in
  let end_ := in_len in
  let curs := O in
  let sign_neg := peek input curs =? ch "-" in
  let curs := if (peek input curs =? ch "-") || (peek input curs =? ch "+")
              then S curs else curs in
  if negb (peek input curs =? ch "P") then Err 2
  else
    let curs := S curs in
    let fullsec := 0 in
    let subsec := 0 in
    match timeperiod_decode_part input TIMEPERIOD_DAY (ch "D") fullsec curs with
    | Err e => Err e
    | Ok (fullsec, curs) =>
    if negb (peek input curs =? ch "T") then Err 2
    else
      let curs := S curs in
      match timeperiod_decode_part input TIMEPERIOD_HOUR (ch "H") fullsec curs with
      | Err e => Err e
      | Ok (fullsec, curs) =>
      match timeperiod_decode_part input TIMEPERIOD_MINUTE (ch "M") fullsec curs with
      | Err e => Err e
      | Ok (fullsec, curs) =>
      match timeperiod_decode_seconds input fullsec subsec curs with
      | Err e => Err e
      | Ok (fullsec, subsec, curs) =>
          if (curs <? end_)%nat then Err 3
          else
            let fullsec := if sign_neg then sint64 (- fullsec) else fullsec in
            Ok (mk_timespec fullsec (sint64 subsec))
      end
      end
      end
    end.

(** ** M*LIB strings: UTF-8 iteration and [string_push_u]

    The string iterator of M*LIB decodes one code point per step and
    yields an error value for an ill-formed sequence, which it skips. *)

Module MString.

Definition UNICODE_ERROR : Z := 2 ^ 32 - 1.

Definition is_cont (b : Z) : bool := Z.land b 192 =? 128.

(** One code point at the head of [s] and the number of bytes it takes. *)
Definition utf8_decode_one (s : list Z) : Z * nat :=
  match s with
  | [] => (UNICODE_ERROR, 1%nat)
  | b0 :: t =>
      if b0 <? 128 then (b0, 1%nat)
      else if (192 <=? b0) && (b0 <? 224) then
        match t with
        | b1 :: _ =>
            if is_cont b1
            then (Z.lor (Z.shiftl (Z.land b0 31) 6) (Z.land b1 63), 2%nat)
            else (UNICODE_ERROR, 1%nat)
        | _ => (UNICODE_ERROR, 1%nat)
        end
      else if (224 <=? b0) && (b0 <? 240) then
        match t with
        | b1 :: b2 :: _ =>
            if is_cont b1 && is_cont b2
            then (Z.lor (Z.shiftl (Z.land b0 15) 12)
                    (Z.lor (Z.shiftl (Z.land b1 63) 6) (Z.land b2 63)), 3%nat)
            else (UNICODE_ERROR, 1%nat)
        | _ => (UNICODE_ERROR, 1%nat)
        end
      else if (240 <=? b0) && (b0 <? 248) then
        match t with
        | b1 :: b2 :: b3 :: _ =>
            if is_cont b1 && is_cont b2 && is_cont b3
            then (Z.lor (Z.shiftl (Z.land b0 7) 18)
                    (Z.lor (Z.shiftl (Z.land b1 63) 12)
                       (Z.lor (Z.shiftl (Z.land b2 63) 6) (Z.land b3 63))),
                  4%nat)
            else (UNICODE_ERROR, 1%nat)
        | _ => (UNICODE_ERROR, 1%nat)
        end
      else (UNICODE_ERROR, 1%nat)
  end.

(** The code points met by [string_it] .. [string_next] over a C string. *)
Fixpoint codepoints (fuel : nat) (s : list Z) : list Z :=
  match fuel with
  | O => []
  | S f =>
      match s with
      | [] => []
      | b0 :: _ =>
          if b0 =? 0 then []
          else let '(u, n) := utf8_decode_one s in
               u :: codepoints f (skipn n s)
      end
  end.

Definition string_codepoints (s : list Z) : list Z := codepoints (length s) s.

(** [m_str1ng_utf8_valid_str_p]. *)
Definition utf8_valid_str_p (s : list Z) : bool :=
  forallb (fun u => negb (u =? UNICODE_ERROR)) (string_codepoints s).

(** [string_push_u]: the UTF-8 encoding of a code point. *)
Definition push_u (u : Z) : list Z :=
  if u <? 128 then [u]
  else if u <? 2048 then
    [Z.lor 192 (Z.shiftr u 6); Z.lor 128 (Z.land u 63)]
  else if u <? 65536 then
    [Z.lor 224 (Z.shiftr u 12); Z.lor 128 (Z.land (Z.shiftr u 6) 63);
     Z.lor 128 (Z.land u 63)]
  else
    [Z.lor 240 (Z.land (Z.shiftr u 18) 7);
     Z.lor 128 (Z.land (Z.shiftr u 12) 63);
     Z.lor 128 (Z.land (Z.shiftr u 6) 63); Z.lor 128 (Z.land u 63)].

End MString.

(** A [double] is held as its IEEE-754 binary64 bit pattern. *)
Definition f64_exponent (bits : Z) : Z := (bits / 2 ^ 52) mod 2 ^ 11.
Definition f64_mantissa (bits : Z) : Z := bits mod 2 ^ 52.
Definition f64_sign (bits : Z) : bool := (bits / 2 ^ 63) mod 2 =? 1.
Definition isnan (bits : Z) : bool :=
  (f64_exponent bits =? 2047) && negb (f64_mantissa bits =? 0).
Definition isinf (bits : Z) : bool :=
  (f64_exponent bits =? 2047) && (f64_mantissa bits =? 0).

(** The comparison [a == b] of two doubles. *)
Definition f64_eq (a b : Z) : bool :=
  if isnan a || isnan b then false
  else if (a mod 2 ^ 63 =? 0) && (b mod 2 ^ 63 =? 0) then true
  else a =? b.

Section Float.

(** [printf] with one of the conversions [%f], [%g], [%e] and [%a] of a
    finite double: the conversion letter and the bits. *)
Variable printf_double : Z -> Z -> list Z.

(** [ari_float64_encode]. *)
Definition ari_float64_encode (out : list Z) (value : Z) (form : Z)
  : Z * list Z :=
  if isnan value then (0, out ++ cstr "NaN")
  else if isinf value then
    (0, (out ++ [if f64_sign value then ch "-" else ch "+"]) ++ cstr "Infinity")
  else if form =? ch "f" then (0, out ++ printf_double (ch "f") value)
  else if form =? ch "g" then (0, out ++ printf_double (ch "g") value)
  else if form =? ch "e" then (0, out ++ printf_double (ch "e") value)
  else if form =? ch "a" then (0, out ++ printf_double (ch "a") value)
  else (1, out).

End Float.

(** [ari_data_is_utf8]: the only NUL is the last byte and the text is
    valid UTF-8. *)
Definition ari_data_is_utf8 (input : list Z) : bool :=
  match input with
  | [] => false
  | _ =>
      if negb (forallb (fun c => negb (c =? 0)) (removelast input)
               && (last input 1 =? 0))
      then false
      else MString.utf8_valid_str_p input
  end.

(** [printf("\\u%04" PRIX16, v)]. *)
Definition fmt_u04X (v : Z) : list Z :=
  ch "\" :: ch "u" :: Libc.pad0 4 (Libc.to_digits true 16 (v mod 2 ^ 16)).

(** The body of the loop of [slash_escape] for one code point. *)
Definition slash_escape_char (quote : Z) (chr : Z) : list Z :=
  if chr =? quote then [ch "\"; quote]
  else if chr =? 8 then cstr "\b"
  else if chr =? 12 then cstr "\f"
  else if chr =? 10 then cstr "\n"
  else if chr =? 13 then cstr "\r"
  else if chr =? 9 then cstr "\t"
  else if (chr <=? 255) && Libc.isprint chr then MString.push_u chr
  else if (chr <=? 55295) || ((57344 <=? chr) && (chr <=? 65535)) then
    fmt_u04X chr
  else
    let uprime := (chr - 65536) mod 2 ^ 32 in
    let high := (55296 + Z.shiftr uprime 10) mod 2 ^ 16 in
    let low := (56320 + Z.land uprime 1023) mod 2 ^ 16 in
    fmt_u04X high ++ fmt_u04X low.

(** [slash_escape]. *)
Definition slash_escape (out input : list Z) (quote : Z) : Z * list Z :=
  match input with
  | [] => (0, out)
  | _ =>
      let in_text := c_string input in
      (0, fold_left (fun out chr => out ++ slash_escape_char quote chr)
            (MString.string_codepoints in_text) out)
  end.

(** The loop of [slash_unescape]. *)
Fixpoint slash_unescape_loop (fuel : nat) (buf : list Z) (end_ curs : nat)
    (out : list Z) : Z * list Z :=
  match fuel with
  | O => (0, out)
  | S f =>
      if (curs <? end_)%nat then
        let partend := match Libc.strchr (skipn curs buf) (ch "\") with
                       | Some k => (curs + k)%nat
                       | None => end_
                       end in
        let partlen := (partend - curs)%nat in
        let out := if (partlen =? 0)%nat then out
                   else out ++ Libc.take_str partlen (skipn curs buf) in
        let curs := (curs + partlen + 1)%nat in
        if (end_ <? curs)%nat then (0, out)
        else if (curs =? end_)%nat then (3, out)
        else
          let c := peek buf curs in
          if c =? ch "b" then slash_unescape_loop f buf end_ (curs + 1) (out ++ [8])
          else if c =? ch "f" then slash_unescape_loop f buf end_ (curs + 1) (out ++ [12])
          else if c =? ch "n" then slash_unescape_loop f buf end_ (curs + 1) (out ++ [10])
          else if c =? ch "r" then slash_unescape_loop f buf end_ (curs + 1) (out ++ [13])
          else if c =? ch "t" then slash_unescape_loop f buf end_ (curs + 1) (out ++ [9])
          else if c =? ch "u" then
            let curs := S curs in
            match take_hex_2byte buf curs end_ with
            | Err _ => (5, out)
            | Ok (val, curs) =>
                if (55296 <=? val) && (val <=? 57343) then
                  let unival := Z.shiftl (val - 55296) 10 in
                  if (end_ <=? curs + 2)%nat then (5, out)
                  else if negb (peek buf curs =? ch "\") then (5, out)
                  else
                    let curs := S curs in
                    if negb (peek buf curs =? ch "u") then (5, out)
                    else
                      let curs := S curs in
                      match take_hex_2byte buf curs end_ with
                      | Err _ => (5, out)
                      | Ok (val, curs) =>
                          let unival :=
                            Z.lor unival ((val - 56320) mod 2 ^ 32) in
                          let unival := (unival + 65536) mod 2 ^ 32 in
                          slash_unescape_loop f buf end_ curs
                            (out ++ MString.push_u unival)
                      end
                else
                  slash_unescape_loop f buf end_ curs (out ++ MString.push_u val)
            end
          else slash_unescape_loop f buf end_ (curs + 1) (out ++ [c])
      else (0, out)
  end.

(** [slash_unescape]. *)
Definition slash_unescape (out input : list Z) : Z * list Z :=
  let in_len := text_real_len input in
  if (in_len =? 0)%nat then (0, out)
  else slash_unescape_loop (S in_len) input in_len O out.

(** [base16_encode]. *)
Definition base16_encode (out input : list Z) (uppercase : bool) : Z * list Z :=
  (0, fold_left (fun out c => out ++ fmt_02X uppercase c) input out).

Definition base64_alphabet : list Z :=
  cstr "ABCDEFGHIJKLMNOPQRSTUVWXYZabcdefghijklmnopqrstuvwxyz0123456789+/".
Definition base64url_alphabet : list Z :=
  cstr "ABCDEFGHIJKLMNOPQRSTUVWXYZabcdefghijklmnopqrstuvwxyz0123456789-_".

(** The loop of [base64_encode]: three input bytes per round, with [=]
    in place of the characters of absent bytes.  The counter [out_len] of
    the source reaches zero exactly when the input is used up. *)
Fixpoint base64_encode_loop (abet curs out : list Z) : list Z :=
  let sym byte := peek abet (Z.to_nat (Z.land byte 63)) in
  match curs with
  | [] => out
  | [c0] =>
      out ++ [sym (Z.shiftr c0 2); sym (Z.shiftl c0 4); ch "="; ch "="]
  | [c0; c1] =>
      out ++ [sym (Z.shiftr c0 2);
              sym (Z.lor (Z.shiftl c0 4) (Z.shiftr c1 4));
              sym (Z.shiftl c1 2); ch "="]
  | c0 :: c1 :: c2 :: rest =>
      base64_encode_loop abet rest
        (out ++ [sym (Z.shiftr c0 2);
                 sym (Z.lor (Z.shiftl c0 4) (Z.shiftr c1 4));
                 sym (Z.lor (Z.shiftl c1 2) (Z.shiftr c2 6));
                 sym c2])
  end.

(** [base64_encode]. *)
Definition base64_encode (out input : list Z) (useurl : bool) : Z * list Z :=
  let abet := if useurl then base64url_alphabet else base64_alphabet in
  (0, base64_encode_loop abet input out).

(** ** C library: calendar time *)

Module LibcTime.

(** [struct tm], the fields [strftime] reads here. *)
Record tm : Type := mk_tm {
  tm_year : Z; (* years since 1900 *)
  tm_mon : Z;  (* 0 .. 11 *)
  tm_mday : Z; tm_hour : Z; tm_min : Z; tm_sec : Z }.

(** Civil date of a day count relative to 1970-01-01 in the proleptic
    Gregorian calendar: year, month 1..12, day 1..31. *)
Definition civil_from_days (days : Z) : Z * Z * Z :=
  let z := days + 719468 in
  let era := z / 146097 in
  let doe := z - era * 146097 in
  let yoe := (doe - doe / 1460 + doe / 36524 - doe / 146096) / 365 in
  let y := yoe + era * 400 in
  let doy := doe - (365 * yoe + yoe / 4 - yoe / 100) in
  let mp := (5 * doy + 2) / 153 in
  let d := doy - (153 * mp + 2) / 5 + 1 in
  let m := if mp <? 10 then mp + 3 else mp - 9 in
  (if m <=? 2 then y + 1 else y, m, d).

(** [gmtime_r]: [None] when the year does not fit an [int]. *)
Definition gmtime_r (t : Z) : option tm :=
  let days := t / 86400 in
  let rem := t mod 86400 in
  let '(y, m, d) := civil_from_days days in
  if (y - 1900 <? - 2 ^ 31) || (2 ^ 31 - 1 <? y - 1900) then None
  else Some (mk_tm (y - 1900) (m - 1) d (rem / 3600) (rem mod 3600 / 60) (rem mod 60)).

Definition fmt_2d (v : Z) : list Z := Libc.pad0 2 (Libc.to_digits false 10 v).

(** [%Y]: the year with at least four digits. *)
Definition fmt_year (y : Z) : list Z :=
  if y <? 0 then ch "-" :: Libc.pad0 4 (Libc.to_digits false 10 (- y))
  else Libc.pad0 4 (Libc.to_digits false 10 y).

(** [strftime(buf, max, fmt, &parts)] for the two formats of
    [utctime_encode]: [None] when the text and its terminator exceed
    [max] bytes, in which case the buffer contents are unspecified. *)
Definition strftime (max : nat) (usesep : bool) (parts : tm) : option (list Z) :=
  let date_sep := if usesep then [ch "-"] else [] in
  let time_sep := if usesep then [ch ":"] else [] in
  let text :=
    fmt_year (tm_year parts + 1900) ++ date_sep
    ++ fmt_2d (tm_mon parts + 1) ++ date_sep ++ fmt_2d (tm_mday parts)
    ++ [ch "T"]
    ++ fmt_2d (tm_hour parts) ++ time_sep ++ fmt_2d (tm_min parts)
    ++ time_sep ++ fmt_2d (tm_sec parts) in
  if (length text <? max)%nat then Some text else None.

End LibcTime.

(** POSIX time at 2000-01-01T00:00:00Z. *)
Definition dtn_epoch : Z := 946684800.

Section UtcTime.

(** Contents of the 20-byte buffer of [utctime_encode] after a
    [strftime] that did not fit, up to the first NUL. *)
Variable strftime_unspecified : list Z.

(** [utctime_encode]. *)
Definition utctime_encode (out : list Z) (input : timespec) (usesep : bool)
  : Z * list Z :=
  let fullsecs := sint64 (dtn_epoch + tv_sec input) in
  match LibcTime.gmtime_r fullsecs with
  | None => (2, out)
  | Some parts =>
      let fullsec := match LibcTime.strftime 20 usesep parts with
                     | Some text => text
                     | None => strftime_unspecified
                     end in
      let out := out ++ fullsec in
      let '(_, out) := subsec_encode out (uint64 (tv_nsec input)) in
      (0, out ++ [ch "Z"])
  end.

End UtcTime.

(** ** ari_type.c: the type registry *)

(** The enumerators of [ari_type_t] named by the registry. *)
Inductive ari_type_t : Type :=
| ARI_TYPE_LITERAL | ARI_TYPE_NULL | ARI_TYPE_BOOL | ARI_TYPE_BYTE
| ARI_TYPE_INT | ARI_TYPE_UINT | ARI_TYPE_VAST | ARI_TYPE_UVAST
| ARI_TYPE_REAL32 | ARI_TYPE_REAL64 | ARI_TYPE_TEXTSTR | ARI_TYPE_BYTESTR
| ARI_TYPE_TP | ARI_TYPE_TD | ARI_TYPE_LABEL | ARI_TYPE_CBOR
| ARI_TYPE_ARITYPE | ARI_TYPE_AC | ARI_TYPE_AM | ARI_TYPE_TBL
| ARI_TYPE_EXECSET | ARI_TYPE_RPTSET
| ARI_TYPE_OBJECT | ARI_TYPE_IDENT | ARI_TYPE_CONST | ARI_TYPE_CTRL.

Definition ari_type_eqb (a b : ari_type_t) : bool :=
  match a, b with
  | ARI_TYPE_LITERAL, ARI_TYPE_LITERAL | ARI_TYPE_NULL, ARI_TYPE_NULL
  | ARI_TYPE_BOOL, ARI_TYPE_BOOL | ARI_TYPE_BYTE, ARI_TYPE_BYTE
  | ARI_TYPE_INT, ARI_TYPE_INT | ARI_TYPE_UINT, ARI_TYPE_UINT
  | ARI_TYPE_VAST, ARI_TYPE_VAST | ARI_TYPE_UVAST, ARI_TYPE_UVAST
  | ARI_TYPE_REAL32, ARI_TYPE_REAL32 | ARI_TYPE_REAL64, ARI_TYPE_REAL64
  | ARI_TYPE_TEXTSTR, ARI_TYPE_TEXTSTR | ARI_TYPE_BYTESTR, ARI_TYPE_BYTESTR
  | ARI_TYPE_TP, ARI_TYPE_TP | ARI_TYPE_TD, ARI_TYPE_TD
  | ARI_TYPE_LABEL, ARI_TYPE_LABEL | ARI_TYPE_CBOR, ARI_TYPE_CBOR
  | ARI_TYPE_ARITYPE, ARI_TYPE_ARITYPE | ARI_TYPE_AC, ARI_TYPE_AC
  | ARI_TYPE_AM, ARI_TYPE_AM | ARI_TYPE_TBL, ARI_TYPE_TBL
  | ARI_TYPE_EXECSET, ARI_TYPE_EXECSET | ARI_TYPE_RPTSET, ARI_TYPE_RPTSET
  | ARI_TYPE_OBJECT, ARI_TYPE_OBJECT | ARI_TYPE_IDENT, ARI_TYPE_IDENT
  | ARI_TYPE_CONST, ARI_TYPE_CONST | ARI_TYPE_CTRL, ARI_TYPE_CTRL => true
  | _, _ => false
  end.

(** Map from literal type enumerations to names. *)
Definition _ari_type_names : list (ari_type_t * list Z) :=
  [ (ARI_TYPE_LITERAL, cstr "LITERAL");
    (ARI_TYPE_NULL, cstr "NULL");
    (ARI_TYPE_BOOL, cstr "BOOL");
    (ARI_TYPE_BYTE, cstr "BYTE");
    (ARI_TYPE_INT, cstr "INT");
    (ARI_TYPE_UINT, cstr "UINT");
    (ARI_TYPE_VAST, cstr "VAST");
    (ARI_TYPE_UVAST, cstr "UVAST");
    (ARI_TYPE_REAL32, cstr "REAL32");
    (ARI_TYPE_REAL64, cstr "REAL64");
    (ARI_TYPE_TEXTSTR, cstr "TEXTSTR");
    (ARI_TYPE_BYTESTR, cstr "BYTESTR");
    (ARI_TYPE_TP, cstr "TP");
    (ARI_TYPE_TD, cstr "TD");
    (ARI_TYPE_LABEL, cstr "LABEL");
    (ARI_TYPE_CBOR, cstr "CBOR");
    (ARI_TYPE_ARITYPE, cstr "ARITYPE");
    (ARI_TYPE_AC, cstr "AC");
    (ARI_TYPE_AM, cstr "AM");
    (ARI_TYPE_TBL, cstr "TBL");
    (ARI_TYPE_EXECSET, cstr "EXECSET");
    (ARI_TYPE_RPTSET, cstr "RPTSET");
    (ARI_TYPE_OBJECT, cstr "OBJECT");
    (ARI_TYPE_IDENT, cstr "IDENT");
    (ARI_TYPE_CONST, cstr "CONST");
    (ARI_TYPE_CTRL, cstr "CTRL") ].

(** An M*LIB dictionary at its interface: [set_at] replaces the binding
    of a key the EQUAL operator accepts or adds one, [get] finds it. *)
Section Dict.
Context {K V : Type}.
Variable key_equal : K -> K -> bool.

Fixpoint dict_set_at (d : list (K * V)) (k : K) (v : V) : list (K * V) :=
  match d with
  | [] => [(k, v)]
  | (k', v') :: d' =>
      if key_equal k' k then (k', v) :: d' else (k', v') :: dict_set_at d' k v
  end.

Fixpoint dict_get (d : list (K * V)) (k : K) : option V :=
  match d with
  | [] => None
  | (k', v') :: d' => if key_equal k' k then Some v' else dict_get d' k
  end.

End Dict.

Section TypeRegistry.

(** The integer value of each enumerator, declared in [ari_type.h]. *)
Variable type_code : ari_type_t -> Z.

(** *** With [ENABLE_LUT_CACHE] *)

(** [_ari_type_dict_init]: both dictionaries after the one-time
    initialiser has run. *)
Definition _ari_type_id_dict : list (Z * list Z) :=
  fold_left (fun d curs => dict_set_at Z.eqb d (type_code (fst curs)) (snd curs))
            _ari_type_names [].

Definition _ari_type_name_dict : list (list Z * Z) :=
  fold_left (fun d curs => dict_set_at Libc.strcaseeq d (snd curs) (type_code (fst curs)))
            _ari_type_names [].

Definition ari_type_to_name_lut (typenum : Z) : option (list Z) :=
  dict_get Z.eqb _ari_type_id_dict typenum.

(** [typenum] is the integer behind the output pointer, [None] for a
    null pointer; likewise [name].  The result is the status and the
    integer behind the pointer afterwards. *)
Definition ari_type_from_name_lut (typenum : option Z) (name : option (list Z))
  : Z * option Z :=
  match name with
  | None => (1, typenum)
  | Some name =>
      let found := dict_get Libc.strcaseeq _ari_type_name_dict name in
      match typenum, found with
      | Some _, Some t => (0, Some t)
      | _, Some _ => (0, typenum)
      | _, None => (1, typenum)
      end
  end.

(** *** Without [ENABLE_LUT_CACHE] *)

Fixpoint ari_type_to_name_loop (curs : list (ari_type_t * list Z)) (typenum : Z)
  : option (list Z) :=
  match curs with
  | [] => None
  | (type, name) :: curs' =>
      if type_code type =? typenum then Some name
      else ari_type_to_name_loop curs' typenum
  end.

Definition ari_type_to_name_scan (typenum : Z) : option (list Z) :=
  ari_type_to_name_loop _ari_type_names typenum.

Fixpoint ari_type_from_name_loop (curs : list (ari_type_t * list Z))
    (name : list Z) : Z :=
  match curs with
  | [] => 0 (* return NULL *)
  | (type, cname) :: curs' =>
      if Libc.strcaseeq cname name then type_code type (* return curs->type *)
      else ari_type_from_name_loop curs' name
  end.

Definition ari_type_from_name_scan (typenum : option Z) (name : option (list Z))
  : Z * option Z :=
  match typenum, name with
  | None, _ => (1, typenum)
  | _, None => (1, typenum)
  | Some _, Some name => (ari_type_from_name_loop _ari_type_names name, typenum)
  end.

End TypeRegistry.

(** ** The ARI value model *)

Inductive ari_prim_type_t : Type :=
| ARI_PRIM_UNDEFINED | ARI_PRIM_NULL | ARI_PRIM_BOOL | ARI_PRIM_UINT64
| ARI_PRIM_INT64 | ARI_PRIM_FLOAT64 | ARI_PRIM_TSTR | ARI_PRIM_BSTR
| ARI_PRIM_TIMESPEC | ARI_PRIM_OTHER.

Definition ari_prim_type_eqb (a b : ari_prim_type_t) : bool :=
  match a, b with
  | ARI_PRIM_UNDEFINED, ARI_PRIM_UNDEFINED | ARI_PRIM_NULL, ARI_PRIM_NULL
  | ARI_PRIM_BOOL, ARI_PRIM_BOOL | ARI_PRIM_UINT64, ARI_PRIM_UINT64
  | ARI_PRIM_INT64, ARI_PRIM_INT64 | ARI_PRIM_FLOAT64, ARI_PRIM_FLOAT64
  | ARI_PRIM_TSTR, ARI_PRIM_TSTR | ARI_PRIM_BSTR, ARI_PRIM_BSTR
  | ARI_PRIM_TIMESPEC, ARI_PRIM_TIMESPEC | ARI_PRIM_OTHER, ARI_PRIM_OTHER => true
  | _, _ => false
  end.

(** The position of an enumerator of [ari_prim_type_t]. *)
Definition ari_prim_type_code (p : ari_prim_type_t) : Z :=
  match p with
  | ARI_PRIM_UNDEFINED => 0 | ARI_PRIM_NULL => 1 | ARI_PRIM_BOOL => 2
  | ARI_PRIM_UINT64 => 3 | ARI_PRIM_INT64 => 4 | ARI_PRIM_FLOAT64 => 5
  | ARI_PRIM_TSTR => 6 | ARI_PRIM_BSTR => 7 | ARI_PRIM_TIMESPEC => 8
  | ARI_PRIM_OTHER => 9
  end.

(** Identity segment [ari_idseg_t]. *)
Inductive ari_idseg_t : Type :=
| ARI_IDSEG_NULL
| ARI_IDSEG_TEXT (as_text : list Z)
| ARI_IDSEG_INT (as_int : Z).

(** Object path [ari_objpath_t]. *)
Record ari_objpath_t : Type := mk_objpath {
  ns_id : ari_idseg_t;
  type_id : ari_idseg_t;
  obj_id : ari_idseg_t;
  objpath_has_ari_type : bool;
  objpath_ari_type : ari_type_t }.

(** The union [value] of a literal over the type [A] of contained ARIs.
    [as_other] stands for a union that holds none of the members below. *)
Inductive ari_report (A : Type) : Type :=
| mk_report (reltime source : A) (items : list A).
Arguments mk_report {A} reltime source items.

Inductive ari_value (A : Type) : Type :=
| as_other
| as_bool (b : bool)
| as_uint64 (v : Z)
| as_int64 (v : Z)
| as_float64 (bits : Z)
| as_data (bytes : list Z)
| as_timespec (ts : timespec)
| as_ac (items : list A)
| as_am (items : list (A * A))
| as_tbl (ncols : Z) (items : list A)
| as_execset (nonce : A) (targets : list A)
| as_rptset (nonce reftime : A) (reports : list (ari_report A)).
Arguments as_other {A}.
Arguments as_bool {A} b.
Arguments as_uint64 {A} v.
Arguments as_int64 {A} v.
Arguments as_float64 {A} bits.
Arguments as_data {A} bytes.
Arguments as_timespec {A} ts.
Arguments as_ac {A} items.
Arguments as_am {A} items.
Arguments as_tbl {A} ncols items.
Arguments as_execset {A} nonce targets.
Arguments as_rptset {A} nonce reftime reports.

(** Literal [ari_lit_t]. *)
Record ari_lit (A : Type) : Type := mk_lit {
  has_ari_type : bool;
  ari_type : ari_type_t;
  prim_type : ari_prim_type_t;
  value : ari_value A }.
Arguments mk_lit {A} has_ari_type ari_type prim_type value.
Arguments has_ari_type {A} a.
Arguments ari_type {A} a.
Arguments prim_type {A} a.
Arguments value {A} a.

(** Parameters [ari_params_t]: the state and the container it selects. *)
Inductive ari_params (A : Type) : Type :=
| ARI_PARAMS_NONE
| ARI_PARAMS_AC (as_ac : list A)
| ARI_PARAMS_AM (as_am : list (A * A)).
Arguments ARI_PARAMS_NONE {A}.
Arguments ARI_PARAMS_AC {A} as_ac.
Arguments ARI_PARAMS_AM {A} as_am.

(** Reference [ari_ref_t]. *)
Record ari_ref (A : Type) : Type := mk_ref {
  objpath : ari_objpath_t;
  params : ari_params A }.
Arguments mk_ref {A} objpath params.
Arguments objpath {A} a.
Arguments params {A} a.

(** [ari_t]: the flag [is_ref] and the union of [as_lit] and [as_ref]. *)
#[warnings="-register-all"]
Inductive ari_t : Type :=
| ARI_LIT (as_lit : ari_lit ari_t)
| ARI_REF (as_ref : ari_ref ari_t).

Definition ari_lit_t : Type := ari_lit ari_t.
Definition ari_ref_t : Type := ari_ref ari_t.
Definition ari_report_t : Type := ari_report ari_t.

Definition is_ref (ari : ari_t) : bool :=
  match ari with ARI_REF _ => true | ARI_LIT _ => false end.

(** [ARI_INIT_UNDEFINED]. *)
Definition ARI_INIT_UNDEFINED : ari_t :=
  ARI_LIT (mk_lit false ARI_TYPE_NULL ARI_PRIM_UNDEFINED as_other).

(** [CHKERRVAL] after an assignment of [retval]: leave with the value when
    it is not zero. *)
Notation "'CHKERRVAL' ( r , s ) <- e ;; k" :=
  (let '(r, s) := e in if Z.eqb r 0 then k else (r%Z, s))
  (at level 10, r name, s name, e at level 100, k at level 200).

(** ** ari_algo.c: equality

    The container comparisons [ari_ac_equal], [ari_am_equal],
    [ari_tbl_equal], [ari_execset_equal] and [ari_rptset_equal], and the
    leaf comparisons [ari_idseg_equal] and [ari_data_equal], belong to
    files that are not among the sources. *)

(** Modelled from the spec: [ari_idseg_equal] is absent; two segments are
    equal when forms match and contents are byte-equal (TEXT) or
    integer-equal (INT). *)
Definition ari_idseg_equal (left right : ari_idseg_t) : bool :=
  match left, right with
  | ARI_IDSEG_NULL, ARI_IDSEG_NULL => true
  | ARI_IDSEG_TEXT a, ARI_IDSEG_TEXT b =>
      (length a =? length b)%nat && forallb (fun p => fst p =? snd p) (combine a b)
  | ARI_IDSEG_INT a, ARI_IDSEG_INT b => a =? b
  | _, _ => false
  end.

(** Modelled from the spec: [ari_data_equal] is absent; byte sequences
    are compared byte for byte. *)
Definition ari_data_equal (left right : list Z) : bool :=
  (length left =? length right)%nat
  && forallb (fun p => fst p =? snd p) (combine left right).

(** [ari_objpath_equal]. *)
Definition ari_objpath_equal (left right : ari_objpath_t) : bool :=
  (* prefer derived values *)
  let type_equal :=
    if objpath_has_ari_type left && objpath_has_ari_type right
    then ari_type_eqb (objpath_ari_type left) (objpath_ari_type right)
    else ari_idseg_equal (type_id left) (type_id right) in
  ari_idseg_equal (ns_id left) (ns_id right) && type_equal
  && ari_idseg_equal (obj_id left) (obj_id right).

Section ContainerEqual.

Variable ari_equal : ari_t -> ari_t -> bool.

(** Modelled from the spec: [ari_ac_equal] is absent; AC is compared
    element-wise in order. *)
Fixpoint ari_ac_equal (left right : list ari_t) : bool :=
  match left, right with
  | [], [] => true
  | x :: left', y :: right' => ari_equal x y && ari_ac_equal left' right'
  | _, _ => false
  end.

(** Modelled from the spec: [ari_am_equal] is absent; AM is compared as
    key-set equal and per-key value equal. *)
Definition ari_am_equal (left right : list (ari_t * ari_t)) : bool :=
  (length left =? length right)%nat
  && forallb (fun p : ari_t * ari_t =>
                let (k, v) := p in
                match find (fun q : ari_t * ari_t => ari_equal k (fst q)) right with
                | Some q => ari_equal v (snd q)
                | None => false
                end) left.

(** Modelled from the spec: [ari_tbl_equal] is absent; TBL is compared
    as equal [ncols] and ordered cells. *)
Definition ari_tbl_equal (lcols : Z) (left : list ari_t)
    (rcols : Z) (right : list ari_t) : bool :=
  (lcols =? rcols) && ari_ac_equal left right.

(** Modelled from the spec: [ari_execset_equal] is absent; compared
    field-wise. *)
Definition ari_execset_equal (lnonce : ari_t) (left : list ari_t)
    (rnonce : ari_t) (right : list ari_t) : bool :=
  ari_equal lnonce rnonce && ari_ac_equal left right.

(** Modelled from the spec: the comparison of reports is absent; Report
    is compared field-wise. *)
Definition ari_report_equal (left right : ari_report_t) : bool :=
  match left, right with
  | mk_report lrel lsrc litems, mk_report rrel rsrc ritems =>
      ari_equal lrel rrel && ari_equal lsrc rsrc && ari_ac_equal litems ritems
  end.

Fixpoint ari_report_list_equal (left right : list ari_report_t) : bool :=
  match left, right with
  | [], [] => true
  | x :: left', y :: right' =>
      ari_report_equal x y && ari_report_list_equal left' right'
  | _, _ => false
  end.

(** Modelled from the spec: [ari_rptset_equal] is absent; RPTSET is
    compared field-wise. *)
Definition ari_rptset_equal (lnonce lreftime : ari_t) (left : list ari_report_t)
    (rnonce rreftime : ari_t) (right : list ari_report_t) : bool :=
  ari_equal lnonce rnonce && ari_equal lreftime rreftime
  && ari_report_list_equal left right.

(** [ari_params_equal]. *)
Definition ari_params_equal (left right : ari_params ari_t) : bool :=
  match left, right with
  | ARI_PARAMS_NONE, ARI_PARAMS_NONE => true
  | ARI_PARAMS_AC l, ARI_PARAMS_AC r => ari_ac_equal l r
  | ARI_PARAMS_AM l, ARI_PARAMS_AM r => ari_am_equal l r
  | _, _ => false (* left->state != right->state *)
  end.

End ContainerEqual.

(** The comparison of the primitive values at the end of [ari_equal].
    A union member other than the one [prim_type] names is outside the
    data model; the model reports such values as different. *)
Definition ari_prim_equal {A : Type} (prim : ari_prim_type_t)
    (left right : ari_value A) : bool :=
  match prim with
  | ARI_PRIM_UNDEFINED | ARI_PRIM_NULL => true
  | ARI_PRIM_BOOL =>
      match left, right with
      | as_bool a, as_bool b => Bool.eqb a b | _, _ => false end
  | ARI_PRIM_UINT64 =>
      match left, right with
      | as_uint64 a, as_uint64 b => a =? b | _, _ => false end
  | ARI_PRIM_INT64 =>
      match left, right with
      | as_int64 a, as_int64 b => a =? b | _, _ => false end
  | ARI_PRIM_FLOAT64 =>
      match left, right with
      | as_float64 a, as_float64 b =>
          if negb (Bool.eqb (isnan a) (isnan b)) then false
          else if negb (isnan a) && negb (f64_eq a b) then false
          else true
      | _, _ => false
      end
  | ARI_PRIM_TSTR | ARI_PRIM_BSTR =>
      match left, right with
      | as_data a, as_data b => ari_data_equal a b | _, _ => false end
  | ARI_PRIM_TIMESPEC =>
      match left, right with
      | as_timespec a, as_timespec b =>
          (tv_sec a =? tv_sec b) && (tv_nsec a =? tv_nsec b)
      | _, _ => false
      end
  | ARI_PRIM_OTHER => true
  end.

(** [ari_equal]. *)
Fixpoint ari_equal (left right : ari_t) {struct left} : bool :=
  match left, right with
  | ARI_REF lref, ARI_REF rref =>
      ari_objpath_equal (objpath lref) (objpath rref)
      && ari_params_equal ari_equal (params lref) (params rref)
  | ARI_LIT llit, ARI_LIT rlit =>
      if negb (Bool.eqb (has_ari_type llit) (has_ari_type rlit)) then false
      else if has_ari_type llit
                && negb (ari_type_eqb (ari_type llit) (ari_type rlit))
      then false
      else if has_ari_type llit
                && negb
                     match ari_type llit, value llit, value rlit with
                     | ARI_TYPE_AC, as_ac l, as_ac r => ari_ac_equal ari_equal l r
                     | ARI_TYPE_AM, as_am l, as_am r => ari_am_equal ari_equal l r
                     | ARI_TYPE_TBL, as_tbl lc l, as_tbl rc r =>
                         ari_tbl_equal ari_equal lc l rc r
                     | ARI_TYPE_EXECSET, as_execset ln l, as_execset rn r =>
                         ari_execset_equal ari_equal ln l rn r
                     | ARI_TYPE_RPTSET, as_rptset ln lr l, as_rptset rn rr r =>
                         ari_rptset_equal ari_equal ln lr l rn rr r
                     | (ARI_TYPE_AC | ARI_TYPE_AM | ARI_TYPE_TBL
                        | ARI_TYPE_EXECSET | ARI_TYPE_RPTSET), _, _ => false
                     | _, _, _ => true
                     end
      then false
      else if negb (ari_prim_type_eqb (prim_type llit) (prim_type rlit)) then false
      else ari_prim_equal (prim_type llit) (value llit) (value rlit)
  | _, _ => false (* left->is_ref != right->is_ref *)
  end.

(** ** ari_algo.c: the visitor *)

(** [ari_visit_ctx_t]; the [user_data] it points to is the state [U]
    threaded through the traversal. *)
Record ari_visit_ctx_t : Type := mk_ctx {
  parent : option ari_t;
  is_map_key : bool }.

Section Visit.

Context {U : Type}.

(** A visitor function: the node, the context and the user data, giving
    the status and the user data afterwards. *)
Definition visit_fn (A : Type) : Type := A -> ari_visit_ctx_t -> U -> Z * U.

(** [ari_visitor_t]: each function pointer may be null. *)
Record ari_visitor_t : Type := mk_visitor {
  visit_ari : option (visit_fn ari_t);
  visit_ref : option (visit_fn ari_ref_t);
  visit_objpath : option (visit_fn ari_objpath_t);
  visit_lit : option (visit_fn ari_lit_t) }.

(** [if (visitor->f) { retval = visitor->f(node, ctx); CHKERRVAL(retval); }]
    followed by the rest [k] of the function. *)
Definition if_visit {A : Type} (f : option (visit_fn A)) (node : A)
    (ctx : ari_visit_ctx_t) (retval : Z) (u : U) (k : Z -> U -> Z * U) : Z * U :=
  match f with
  | Some f => CHKERRVAL (retval, u) <- f node ctx u ;; k retval u
  | None => k retval u
  end.

Section VisitContainers.

Variable ari_visit_ari : ari_t -> ari_visit_ctx_t -> U -> Z * U.

Fixpoint ari_visit_ac (items : list ari_t) (ctx : ari_visit_ctx_t) (u : U)
  : Z * U :=
  match items with
  | [] => (0, u)
  | item :: items' =>
      CHKERRVAL (retval, u) <- ari_visit_ari item ctx u ;;
      ari_visit_ac items' ctx u
  end.

Fixpoint ari_visit_am (items : list (ari_t * ari_t)) (ctx : ari_visit_ctx_t)
    (u : U) : Z * U :=
  match items with
  | [] => (0, u)
  | (key, val) :: items' =>
      let ctx := mk_ctx (parent ctx) true in
      CHKERRVAL (retval, u) <- ari_visit_ari key ctx u ;;
      let ctx := mk_ctx (parent ctx) false in
      CHKERRVAL (retval, u) <- ari_visit_ari val ctx u ;;
      ari_visit_am items' ctx u
  end.

Definition ari_visit_tbl (items : list ari_t) (ctx : ari_visit_ctx_t) (u : U)
  : Z * U :=
  ari_visit_ac items ctx u.

Definition ari_visit_execset (targets : list ari_t) (ctx : ari_visit_ctx_t)
    (u : U) : Z * U :=
  ari_visit_ac targets ctx u.

Definition ari_visit_report (obj : ari_report_t) (ctx : ari_visit_ctx_t)
    (u : U) : Z * U :=
  match obj with
  | mk_report reltime source items =>
      CHKERRVAL (retval, u) <- ari_visit_ari reltime ctx u ;;
      CHKERRVAL (retval, u) <- ari_visit_ari source ctx u ;;
      ari_visit_ac items ctx u
  end.

Fixpoint ari_visit_report_list (reports : list ari_report_t)
    (ctx : ari_visit_ctx_t) (u : U) : Z * U :=
  match reports with
  | [] => (0, u)
  | item :: reports' =>
      CHKERRVAL (retval, u) <- ari_visit_report item ctx u ;;
      ari_visit_report_list reports' ctx u
  end.

Definition ari_visit_rptset (nonce reftime : ari_t)
    (reports : list ari_report_t) (ctx : ari_visit_ctx_t) (u : U) : Z * U :=
  CHKERRVAL (retval, u) <- ari_visit_ari nonce ctx u ;;
  CHKERRVAL (retval, u) <- ari_visit_ari reftime ctx u ;;
  ari_visit_report_list reports ctx u.

End VisitContainers.

(** The value read from the local [int retval] of [ari_visit_ari] where
    no assignment precedes the read. *)
Variable stale : Z.

Variable visitor : ari_visitor_t.

(** [ari_visit_ari].  A tagged container literal whose union does not
    hold that container is outside the data model; nothing is visited
    below it. *)
Fixpoint ari_visit_ari (ari : ari_t) (ctx : ari_visit_ctx_t) (u : U)
    {struct ari} : Z * U :=
  let retval := stale in
  (* visit main ARI first *)
  if_visit (visit_ari visitor) ari ctx retval u (fun retval u =>
  let sub_ctx := mk_ctx (Some ari) false in
  (* dive into contents *)
  match ari with
  | ARI_REF ref =>
      if_visit (visit_ref visitor) ref sub_ctx retval u (fun retval u =>
      if_visit (visit_objpath visitor) (objpath ref) sub_ctx retval u
        (fun retval u =>
      match params ref with
      | ARI_PARAMS_NONE => (retval, u)
      | ARI_PARAMS_AC items => ari_visit_ac ari_visit_ari items sub_ctx u
      | ARI_PARAMS_AM items => ari_visit_am ari_visit_ari items sub_ctx u
      end))
  | ARI_LIT lit =>
      if_visit (visit_lit visitor) lit sub_ctx retval u (fun retval u =>
      if has_ari_type lit then
        match ari_type lit, value lit with
        | ARI_TYPE_AC, as_ac items =>
            ari_visit_ac ari_visit_ari items sub_ctx u
        | ARI_TYPE_AM, as_am items =>
            ari_visit_am ari_visit_ari items sub_ctx u
        | ARI_TYPE_TBL, as_tbl _ items =>
            ari_visit_tbl ari_visit_ari items sub_ctx u
        | ARI_TYPE_EXECSET, as_execset _ targets =>
            ari_visit_execset ari_visit_ari targets sub_ctx u
        | ARI_TYPE_RPTSET, as_rptset nonce reftime reports =>
            ari_visit_rptset ari_visit_ari nonce reftime reports sub_ctx u
        | _, _ => (retval, u)
        end
      else (retval, u))
  end).

(** [ari_visit], for non-null [ari] and [visitor]. *)
Definition ari_visit (ari : ari_t) (user_data : U) : Z * U :=
  let sub_ctx := mk_ctx None false in
  ari_visit_ari ari sub_ctx user_data.

End Visit.

Arguments ari_visitor_t U : clear implicits.
Arguments visit_fn U A : clear implicits.

(** ** ari_algo.c: the translator *)

(** Modelled from the spec: [ari_lit_init_container] is absent; a
    literal of a container type carries the tag and the corresponding
    container handle, empty after initialisation. *)
Definition ari_lit_init_container (ctype : ari_type_t) : ari_lit_t :=
  mk_lit true ctype ARI_PRIM_OTHER
    match ctype with
    | ARI_TYPE_AC => as_ac []
    | ARI_TYPE_AM => as_am []
    | ARI_TYPE_TBL => as_tbl 0 []
    | ARI_TYPE_EXECSET => as_execset ARI_INIT_UNDEFINED []
    | ARI_TYPE_RPTSET => as_rptset ARI_INIT_UNDEFINED ARI_INIT_UNDEFINED []
    | _ => as_other
    end.

(** Modelled from the spec: [ari_lit_copy] and [ari_objpath_copy] are
    absent; the default behaviours copy the literal and the path. *)
Definition ari_lit_copy (src : ari_lit_t) : ari_lit_t := src.
Definition ari_objpath_copy (src : ari_objpath_t) : ari_objpath_t := src.

(** The members of the union of [*out] as the translator writes them.  A
    member that the flag [is_ref] does not select starts from a blank
    value. *)
Definition out_as_ref (out : ari_t) : ari_ref_t :=
  match out with
  | ARI_REF r => r
  | ARI_LIT _ =>
      mk_ref (mk_objpath ARI_IDSEG_NULL ARI_IDSEG_NULL ARI_IDSEG_NULL
                false ARI_TYPE_NULL) ARI_PARAMS_NONE
  end.

Definition out_as_lit (out : ari_t) : ari_lit_t :=
  match out with
  | ARI_LIT l => l
  | ARI_REF _ => mk_lit false ARI_TYPE_NULL ARI_PRIM_UNDEFINED as_other
  end.

(** [out->is_ref = flag]. *)
Definition set_is_ref (out : ari_t) (flag : bool) : ari_t :=
  if flag then ARI_REF (out_as_ref out) else ARI_LIT (out_as_lit out).

Section Translate.

Context {U : Type}.

(** A mapping function: the current [*out], the input and the user data,
    giving the status, the new [*out] and the user data afterwards. *)
Definition map_fn (A : Type) : Type := A -> A -> U -> Z * (A * U).

(** [ari_translator_t]: each function pointer may be null. *)
Record ari_translator_t : Type := mk_translator {
  map_ari : option (map_fn ari_t);
  map_objpath : option (map_fn ari_objpath_t);
  map_lit : option (map_fn ari_lit_t) }.

Section MapContainers.

Variable ari_translate : ari_t -> ari_t -> U -> Z * (ari_t * U).

(** [ari_map_ac]: [out] holds the items pushed so far. *)
Fixpoint ari_map_ac (out : list ari_t) (input : list ari_t) (u : U)
  : Z * (list ari_t * U) :=
  match input with
  | [] => (0, (out, u))
  | in_item :: input' =>
      (* ari_list_push_back_new *)
      let '(retval, (out_item, u)) := ari_translate in_item ARI_INIT_UNDEFINED u in
      let out := out ++ [out_item] in
      if retval =? 0 then ari_map_ac out input' u else (retval, (out, u))
  end.

(** [ari_map_am].  The dictionary is an association list searched with
    [ari_equal]; [ari_dict_safe_get] adds an undefined value under a key
    that is not present. *)
Fixpoint ari_map_am (out : list (ari_t * ari_t)) (input : list (ari_t * ari_t))
    (u : U) : Z * (list (ari_t * ari_t) * U) :=
  match input with
  | [] => (0, (out, u))
  | (key, val) :: input' =>
      let '(retval, (out_key, u)) := ari_translate key ARI_INIT_UNDEFINED u in
      let out_val := match dict_get ari_equal out out_key with
                     | Some v => v
                     | None => ARI_INIT_UNDEFINED
                     end in
      let out := dict_set_at ari_equal out out_key out_val in
      if retval =? 0 then
        let '(retval, (out_val, u)) := ari_translate val out_val u in
        let out := dict_set_at ari_equal out out_key out_val in
        if retval =? 0 then ari_map_am out input' u else (retval, (out, u))
      else (retval, (out, u))
  end.

(** [ari_map_tbl], the loop over the cells. *)
Fixpoint ari_map_tbl (out : list ari_t) (input : list ari_t) (u : U)
  : Z * (list ari_t * U) :=
  match input with
  | [] => (0, (out, u))
  | in_item :: input' =>
      let '(retval, (out_item, u)) := ari_translate in_item ARI_INIT_UNDEFINED u in
      let out := out ++ [out_item] in (* ari_array_push_move *)
      if retval =? 0 then ari_map_tbl out input' u else (retval, (out, u))
  end.

End MapContainers.

(** The value read from the local [int retval] of [ari_translate] where
    no assignment precedes the read. *)
Variable stale : Z.

Variable translator : ari_translator_t.

(** [ari_translate], for non-null pointers: the input, the current
    [*out] and the user data.  A container literal whose union does not
    hold that container is outside the data model; the copy is kept. *)
Fixpoint ari_translate (input : ari_t) (out : ari_t) (u : U) {struct input}
  : Z * (ari_t * U) :=
  let retval := stale in
  (* handle main ARI first *)
  let k (retval : Z) (out : ari_t) (u : U) : Z * (ari_t * U) :=
    match input with
    | ARI_REF in_ref =>
        let k (retval : Z) (out_objpath : ari_objpath_t) (u : U) :=
          match params in_ref with
          | ARI_PARAMS_NONE =>
              (retval, (ARI_REF (mk_ref out_objpath ARI_PARAMS_NONE), u))
          | ARI_PARAMS_AC in_ac =>
              let '(retval, (tmp, u)) := ari_map_ac ari_translate [] in_ac u in
              if retval =? 0 then
                (* out->as_ref.params.state = ARI_PARAMS_NONE;
                   out->as_ref.params.as_ac = tmp.value.as_ac; *)
                (retval, (ARI_REF (mk_ref out_objpath ARI_PARAMS_NONE), u))
              else
                (retval, (ARI_REF (mk_ref out_objpath (params (out_as_ref out))), u))
          | ARI_PARAMS_AM in_am =>
              let '(retval, (tmp, u)) := ari_map_am ari_translate [] in_am u in
              if retval =? 0 then
                (retval, (ARI_REF (mk_ref out_objpath ARI_PARAMS_NONE), u))
              else
                (retval, (ARI_REF (mk_ref out_objpath (params (out_as_ref out))), u))
          end in
        match map_objpath translator with
        | Some f =>
            let '(retval, (out_objpath, u)) :=
              f (objpath (out_as_ref out)) (objpath in_ref) u in
            if retval =? 0 then k retval out_objpath u
            else (retval, (ARI_REF (mk_ref out_objpath (params (out_as_ref out))), u))
        | None => k retval (ari_objpath_copy (objpath in_ref)) u
        end
    | ARI_LIT in_lit =>
        let k (retval : Z) (out_lit : ari_lit_t) (u : U) :=
          if has_ari_type in_lit then
            match ari_type in_lit, value in_lit with
            | ARI_TYPE_AC, as_ac in_ac =>
                let out_lit := ari_lit_init_container ARI_TYPE_AC in
                let '(retval, (items, u)) := ari_map_ac ari_translate [] in_ac u in
                (retval, (ARI_LIT (mk_lit (has_ari_type out_lit) (ari_type out_lit)
                                     (prim_type out_lit) (as_ac items)), u))
            | ARI_TYPE_AM, as_am in_am =>
                let out_lit := ari_lit_init_container ARI_TYPE_AM in
                let '(retval, (items, u)) := ari_map_am ari_translate [] in_am u in
                (retval, (ARI_LIT (mk_lit (has_ari_type out_lit) (ari_type out_lit)
                                     (prim_type out_lit) (as_am items)), u))
            | ARI_TYPE_TBL, as_tbl in_ncols in_items =>
                let out_lit := ari_lit_init_container ARI_TYPE_TBL in
                let '(retval, (items, u)) :=
                  ari_map_tbl ari_translate [] in_items u in
                (retval, (ARI_LIT (mk_lit (has_ari_type out_lit) (ari_type out_lit)
                                     (prim_type out_lit) (as_tbl in_ncols items)), u))
            | _, _ => (retval, (ARI_LIT out_lit, u))
            end
          else (retval, (ARI_LIT out_lit, u)) in
        match map_lit translator with
        | Some f =>
            let '(retval, (out_lit, u)) := f (out_as_lit out) in_lit u in
            if retval =? 0 then k retval out_lit u
            else (retval, (ARI_LIT out_lit, u))
        | None => k retval (ari_lit_copy in_lit) u
        end
    end in
  match map_ari translator with
  | Some f =>
      let '(retval, (out, u)) := f out input u in
      if retval =? 0 then k retval out u else (retval, (out, u))
  | None => k retval (set_is_ref out (is_ref input)) u
  end.

End Translate.

Arguments ari_translator_t U : clear implicits.
Arguments map_fn U A : clear implicits.

(** ** ari_algo.c: hashing *)

(** The hash primitives of M*LIB ([M_HASH_DECL], [M_HASH_UP],
    [M_HASH_FINAL], [M_HASH_DEFAULT] on 32- and 64-bit integers,
    [M_HASH_POD_DEFAULT] on the bytes of an object) and the leaf hashes
    [ari_idseg_hash] and [ari_data_hash], none of which is among the
    sources. *)
Record hash_ops : Type := mk_hash_ops {
  M_HASH_SEED : Z;
  M_HASH_UP : Z -> Z -> Z;
  M_HASH_FINAL : Z -> Z;
  M_HASH_INT32 : Z -> Z;
  M_HASH_INT64 : Z -> Z;
  M_HASH_POD : list Z -> Z;
  ari_idseg_hash : ari_idseg_t -> Z;
  ari_data_hash : list Z -> Z }.

(** The [n] bytes of an integer object in memory, least significant
    first. *)
Fixpoint le_bytes (n : nat) (v : Z) : list Z :=
  match n with
  | O => []
  | S n' => v mod 256 :: le_bytes n' (v / 256)
  end.

Section Hash.

Variable type_code : ari_type_t -> Z.
Variable H : hash_ops.

(** [ari_hash_visit_objpath]. *)
Definition ari_hash_visit_objpath (path : ari_objpath_t)
    (ctx : ari_visit_ctx_t) (accum : Z) : Z * Z :=
  let accum := M_HASH_UP H accum (ari_idseg_hash H (ns_id path)) in
  let accum :=
    if objpath_has_ari_type path
    then M_HASH_UP H accum (uint64 (type_code (objpath_ari_type path)))
    else M_HASH_UP H accum (ari_idseg_hash H (type_id path)) in
  let accum := M_HASH_UP H accum (ari_idseg_hash H (obj_id path)) in
  (0, accum).

(** [ari_hash_visit_lit].  A union member other than the one the tags
    name is outside the data model and adds nothing. *)
Definition ari_hash_visit_lit (obj : ari_lit_t) (ctx : ari_visit_ctx_t)
    (accum : Z) : Z * Z :=
  let accum :=
    M_HASH_UP H accum (M_HASH_INT32 H (if has_ari_type obj then 1 else 0)) in
  let accum :=
    if has_ari_type obj then
      let accum := M_HASH_UP H accum (M_HASH_INT32 H (type_code (ari_type obj))) in
      match ari_type obj, value obj with
      | ARI_TYPE_TBL, as_tbl ncols _ =>
          (* include metadata *)
          M_HASH_UP H accum (M_HASH_INT64 H ncols)
      | _, _ =>
          (* container contents are visited separately *)
          accum
      end
    else accum in
  let accum :=
    M_HASH_UP H accum (M_HASH_INT32 H (ari_prim_type_code (prim_type obj))) in
  let accum :=
    match prim_type obj, value obj with
    | ARI_PRIM_BOOL, as_bool b =>
        M_HASH_UP H accum (M_HASH_POD H [if b then 1 else 0])
    | ARI_PRIM_UINT64, as_uint64 v => M_HASH_UP H accum (M_HASH_INT64 H v)
    | ARI_PRIM_INT64, as_int64 v => M_HASH_UP H accum (M_HASH_INT64 H v)
    | ARI_PRIM_FLOAT64, as_float64 bits =>
        M_HASH_UP H accum (M_HASH_POD H (le_bytes 8 bits))
    | (ARI_PRIM_TSTR | ARI_PRIM_BSTR), as_data bytes =>
        M_HASH_UP H accum (ari_data_hash H bytes)
    | ARI_PRIM_TIMESPEC, as_timespec ts =>
        M_HASH_UP H accum
          (M_HASH_POD H (le_bytes 8 (uint64 (tv_sec ts))
                         ++ le_bytes 8 (uint64 (tv_nsec ts))))
    | _, _ => accum
    end in
  (0, accum).

Definition ari_hash_visitor : ari_visitor_t Z :=
  mk_visitor None None (Some ari_hash_visit_objpath) (Some ari_hash_visit_lit).

(** [ari_hash], for a non-null [ari]; [stale] is the uninitialised local
    of [ari_visit_ari]. *)
Definition ari_hash (stale : Z) (ari : ari_t) : Z :=
  let accum := M_HASH_SEED H in
  let '(_, accum) := ari_visit stale ari_hash_visitor ari accum in
  M_HASH_FINAL H accum.

End Hash.

(** ** ari_text_enc.c: the text encoder *)

Inductive scheme_prefix_e : Type :=
| ARI_TEXT_SCHEME_NONE | ARI_TEXT_SCHEME_FIRST | ARI_TEXT_SCHEME_ALL.

Inductive show_ari_type_e : Type :=
| ARI_TEXT_ARITYPE_ORIG | ARI_TEXT_ARITYPE_TEXT | ARI_TEXT_ARITYPE_INT.

Inductive ari_bstr_form_e : Type :=
| ARI_TEXT_BSTR_RAW | ARI_TEXT_BSTR_BASE16 | ARI_TEXT_BSTR_BASE64URL.

(** [ari_text_enc_opts_t].  [int_base] is the integer stored in the
    enumeration [ari_int_base_e] and [float_form] a [char]. *)
Record ari_text_enc_opts_t : Type := mk_opts {
  scheme_prefix : scheme_prefix_e;
  show_ari_type : show_ari_type_e;
  int_base : Z;
  float_form : Z;
  text_identity : bool;
  bstr_form : ari_bstr_form_e;
  time_text : bool }.

Definition ARI_TEXT_INT_BASE2 : Z := 2.
Definition ARI_TEXT_INT_BASE10 : Z := 10.
Definition ARI_TEXT_INT_BASE16 : Z := 16.

Definition ARI_TEXT_ENC_OPTS_DEFAULT : ari_text_enc_opts_t :=
  mk_opts ARI_TEXT_SCHEME_FIRST ARI_TEXT_ARITYPE_TEXT ARI_TEXT_INT_BASE10
    (ch "g") true ARI_TEXT_BSTR_BASE16 true.

(** [ari_text_enc_state_t]. *)
Record ari_text_enc_state_t : Type := mk_state {
  out : list Z;    (* Output string stream *)
  depth : Z;       (* Current nesting depth. The top ARI is depth zero. *)
  opts : ari_text_enc_opts_t }.

Definition push_back (state : ari_text_enc_state_t) (c : Z) : ari_text_enc_state_t :=
  mk_state (out state ++ [c]) (depth state) (opts state).

Definition cat_str (state : ari_text_enc_state_t) (s : list Z) : ari_text_enc_state_t :=
  mk_state (out state ++ s) (depth state) (opts state).

Definition set_out (state : ari_text_enc_state_t) (o : list Z) : ari_text_enc_state_t :=
  mk_state o (depth state) (opts state).

Definition add_depth (state : ari_text_enc_state_t) (d : Z) : ari_text_enc_state_t :=
  mk_state (out state) (depth state + d) (opts state).

Definition set_opts (state : ari_text_enc_state_t) (o : ari_text_enc_opts_t)
  : ari_text_enc_state_t :=
  mk_state (out state) (depth state) o.

Definition set_scheme_prefix (o : ari_text_enc_opts_t) (p : scheme_prefix_e)
  : ari_text_enc_opts_t :=
  mk_opts p (show_ari_type o) (int_base o) (float_form o) (text_identity o)
    (bstr_form o) (time_text o).

(** Additional safe characters for ARI as defined in Section 4.1 of
    ietf-dtn-ari-00. *)
Definition uri_safe : list Z := cstr "!'+:@".

(** [ari_text_percent_helper]: [buf] is viewed with its terminator. *)
Definition ari_text_percent_helper (out buf : list Z) : Z * list Z :=
  let view := buf ++ [0] in
  uri_percent_encode out view uri_safe.

Section TextEncoder.

Variable type_code : ari_type_t -> Z.
Variable printf_double : Z -> Z -> list Z.
Variable strftime_unspecified : list Z.

(** [ari_type_to_name] as the encoder calls it. *)
Definition ari_type_to_name : Z -> option (list Z) :=
  ari_type_to_name_scan type_code.

(** [ari_text_encode_prefix]. *)
Definition ari_text_encode_prefix (state : ari_text_enc_state_t)
  : ari_text_enc_state_t :=
  match scheme_prefix (opts state) with
  | ARI_TEXT_SCHEME_NONE => state
  | ARI_TEXT_SCHEME_FIRST =>
      if 0 <? depth state then state else cat_str state (cstr "ari:")
  | ARI_TEXT_SCHEME_ALL => cat_str state (cstr "ari:")
  end.

(** [ari_text_encode_idseg]. *)
Definition ari_text_encode_idseg (state : ari_text_enc_state_t)
    (obj : ari_idseg_t) : Z * ari_text_enc_state_t :=
  match obj with
  | ARI_IDSEG_NULL => (0, state)
  | ARI_IDSEG_TEXT as_text => (0, cat_str state as_text)
  | ARI_IDSEG_INT as_int => (0, cat_str state (Libc.fmt_d as_int))
  end.

(** [ari_text_encode_aritype]; [idseg] may be null. *)
Definition ari_text_encode_aritype (state : ari_text_enc_state_t)
    (val : ari_type_t) (idseg : option ari_idseg_t) : ari_text_enc_state_t :=
  let finish (name : option (list Z)) :=
    match name with
    | Some name => cat_str state name
    | None => cat_str state (Libc.fmt_d (type_code val))
    end in
  match show_ari_type (opts state) with
  | ARI_TEXT_ARITYPE_TEXT => finish (ari_type_to_name (type_code val))
  | ARI_TEXT_ARITYPE_INT => finish None
  | ARI_TEXT_ARITYPE_ORIG =>
      match idseg with
      | Some idseg => snd (ari_text_encode_idseg state idseg)
      | None => finish (ari_type_to_name (type_code val))
      end
  end.

Section EncodeContainers.

Variable ari_text_encode_stream :
  ari_text_enc_state_t -> ari_t -> Z * ari_text_enc_state_t.

(** The loop shared by [ari_text_encode_ac], [ari_text_encode_execset]
    and [ari_text_encode_report]: items separated by commas, stopping
    with status 2 at the first failure. *)
Fixpoint ari_text_encode_items (items : list ari_t) (sep : bool)
    (state : ari_text_enc_state_t) : Z * ari_text_enc_state_t :=
  match items with
  | [] => (0, state)
  | item :: items' =>
      let state := if sep then push_back state (ch ",") else state in
      let '(ret, state) := ari_text_encode_stream state item in
      if ret =? 0 then ari_text_encode_items items' true state else (2, state)
  end.

(** [ari_text_encode_ac]. *)
Definition ari_text_encode_ac (state : ari_text_enc_state_t) (ctr : list ari_t)
  : Z * ari_text_enc_state_t :=
  let state := add_depth state 1 in
  let state := push_back state (ch "(") in
  let '(retval, state) := ari_text_encode_items ctr false state in
  let state := add_depth state (-1) in
  (retval, push_back state (ch ")")).

(** The loop of [ari_text_encode_am]. *)
Fixpoint ari_text_encode_pairs (items : list (ari_t * ari_t)) (sep : bool)
    (state : ari_text_enc_state_t) : Z * ari_text_enc_state_t :=
  match items with
  | [] => (0, state)
  | (key, val) :: items' =>
      let state := if sep then push_back state (ch ",") else state in
      let '(ret, state) := ari_text_encode_stream state key in
      if ret =? 0 then
        let state := push_back state (ch "=") in
        let '(ret, state) := ari_text_encode_stream state val in
        if ret =? 0 then ari_text_encode_pairs items' true state else (2, state)
      else (2, state)
  end.

(** [ari_text_encode_am]. *)
Definition ari_text_encode_am (state : ari_text_enc_state_t)
    (ctr : list (ari_t * ari_t)) : Z * ari_text_enc_state_t :=
  let state := add_depth state 1 in
  let state := push_back state (ch "(") in
  let '(retval, state) := ari_text_encode_pairs ctr false state in
  let state := add_depth state (-1) in
  (retval, push_back state (ch ")")).

(** The two nested loops of [ari_text_encode_tbl] over the flat array of
    cells: the state is inside row [row_ix] before column [col_ix]. *)
Fixpoint ari_text_encode_cells (ncols nrows : Z) (items : list ari_t)
    (row_ix col_ix : Z) (sep : bool) (state : ari_text_enc_state_t)
  : Z * ari_text_enc_state_t :=
  match items with
  | [] => (0, state)
  | item :: items' =>
      let state := if sep then push_back state (ch ",") else state in
      let '(ret, state) := ari_text_encode_stream state item in
      if ret =? 0 then
        let col_ix := col_ix + 1 in
        if col_ix <? ncols
        then ari_text_encode_cells ncols nrows items' row_ix col_ix true state
        else
          let state := push_back state (ch ")") in
          let row_ix := row_ix + 1 in
          if row_ix <? nrows
          then ari_text_encode_cells ncols nrows items' row_ix 0 false
                 (push_back state (ch "("))
          else (0, state)
      else (2, push_back state (ch ")"))
  end.

(** [ari_text_encode_tbl]. *)
Definition ari_text_encode_tbl (state : ari_text_enc_state_t) (ncols : Z)
    (items : list ari_t) : Z * ari_text_enc_state_t :=
  let state := cat_str state (cstr "c=" ++ Libc.fmt_u ncols ++ cstr ";") in
  if ncols =? 0 then (0, state)
  else
    let state := add_depth state 1 in
    let nrows := Z.of_nat (length items) / ncols in
    let '(retval, state) :=
      if 0 <? nrows
      then ari_text_encode_cells ncols nrows items 0 0 false
             (push_back state (ch "("))
      else (0, state) in
    (retval, add_depth state (-1)).

(** A header field of an execset, rptset or report: the value is
    encoded with [scheme_prefix] forced to NONE and its status is
    dropped. *)
Definition ari_text_encode_field (state : ari_text_enc_state_t)
    (label : list Z) (val : ari_t) : ari_text_enc_state_t :=
  let state := cat_str state label in
  let '(_, state) := ari_text_encode_stream state val in
  push_back state (ch ";").

(** [ari_text_encode_execset]. *)
Definition ari_text_encode_execset (state : ari_text_enc_state_t)
    (nonce : ari_t) (targets : list ari_t) : Z * ari_text_enc_state_t :=
  let saveopts := opts state in
  let state := set_opts state (set_scheme_prefix (opts state) ARI_TEXT_SCHEME_NONE) in
  let state := ari_text_encode_field state (cstr "n=") nonce in
  let state := set_opts state saveopts in
  let state := add_depth state 1 in
  let state := push_back state (ch "(") in
  let '(retval, state) := ari_text_encode_items targets false state in
  let state := add_depth state (-1) in
  (retval, push_back state (ch ")")).

(** [ari_text_encode_report]. *)
Definition ari_text_encode_report (state : ari_text_enc_state_t)
    (rpt : ari_report_t) : Z * ari_text_enc_state_t :=
  match rpt with
  | mk_report reltime source items =>
      let state := push_back state (ch "(") in
      let saveopts := opts state in
      let state := set_opts state (set_scheme_prefix (opts state) ARI_TEXT_SCHEME_NONE) in
      let state := ari_text_encode_field state (cstr "t=") reltime in
      let state := ari_text_encode_field state (cstr "s=") source in
      let state := set_opts state saveopts in
      let state := push_back state (ch "(") in
      let '(retval, state) := ari_text_encode_items items false state in
      let state := push_back state (ch ")") in
      (retval, push_back state (ch ")"))
  end.

(** The loop of [ari_text_encode_rptset]. *)
Fixpoint ari_text_encode_reports (reports : list ari_report_t)
    (state : ari_text_enc_state_t) : Z * ari_text_enc_state_t :=
  match reports with
  | [] => (0, state)
  | rpt :: reports' =>
      let '(ret, state) := ari_text_encode_report state rpt in
      if ret =? 0 then ari_text_encode_reports reports' state else (2, state)
  end.

(** [ari_text_encode_rptset]. *)
Definition ari_text_encode_rptset (state : ari_text_enc_state_t)
    (nonce reftime : ari_t) (reports : list ari_report_t)
  : Z * ari_text_enc_state_t :=
  let state := add_depth state 1 in
  let saveopts := opts state in
  let state := set_opts state (set_scheme_prefix (opts state) ARI_TEXT_SCHEME_NONE) in
  let state := ari_text_encode_field state (cstr "n=") nonce in
  let state := ari_text_encode_field state (cstr "r=") reftime in
  let state := set_opts state saveopts in
  let '(retval, state) := ari_text_encode_reports reports state in
  (retval, add_depth state (-1)).

End EncodeContainers.

(** [ari_text_encode_lit]: [ari_text_encode_stream] is the function of
    that name, which the container encoders call back. *)
Definition ari_text_encode_lit
    (ari_text_encode_stream :
       ari_text_enc_state_t -> ari_t -> Z * ari_text_enc_state_t)
    (state : ari_text_enc_state_t) (obj : ari_lit_t)
  : Z * ari_text_enc_state_t :=
  let state := ari_text_encode_prefix state in
  (* the primitive values, after any tagged payload *)
  let prims (state : ari_text_enc_state_t) : Z * ari_text_enc_state_t :=
    match prim_type obj, value obj with
    | ARI_PRIM_UNDEFINED, _ => (0, cat_str state (cstr "undefined"))
    | ARI_PRIM_NULL, _ => (0, cat_str state (cstr "null"))
    | ARI_PRIM_BOOL, as_bool b =>
        (0, cat_str state (if b then cstr "true" else cstr "false"))
    | ARI_PRIM_UINT64, as_uint64 v =>
        let '(ret, o) := ari_uint64_encode (out state) v (int_base (opts state)) in
        if ret =? 0 then (0, set_out state o) else (2, set_out state o)
    | ARI_PRIM_INT64, as_int64 v =>
        let '(absval, state) :=
          if v <? 0 then (uint64 (- v), push_back state (ch "-"))
          else (uint64 v, state) in
        let '(ret, o) := ari_uint64_encode (out state) absval (int_base (opts state)) in
        if ret =? 0 then (0, set_out state o) else (2, set_out state o)
    | ARI_PRIM_FLOAT64, as_float64 bits =>
        let '(_, o) := ari_float64_encode printf_double (out state) bits
                         (float_form (opts state)) in
        (0, set_out state o)
    | ARI_PRIM_TSTR, as_data data =>
        if text_identity (opts state) && ari_text_is_identity data
        then (0, cat_str state (c_string data))
        else
          let buf := [DQUOTE] in
          let '(_, buf) := slash_escape buf data DQUOTE in
          let buf := buf ++ [DQUOTE] in
          let '(_, o) := ari_text_percent_helper (out state) buf in
          (0, set_out state o)
    | ARI_PRIM_BSTR, as_data data =>
        match bstr_form (opts state) with
        | ARI_TEXT_BSTR_RAW =>
            (* force null termination for this output mode *)
            let terminated := data ++ [0] in
            if ari_data_is_utf8 terminated then
              let buf := [ch "'"] in
              let '(_, buf) := slash_escape buf terminated (ch "'") in
              let buf := buf ++ [ch "'"] in
              let '(_, o) := ari_text_percent_helper (out state) buf in
              (0, set_out state o)
            else
              (* this value cannot be represented as text *)
              let state := cat_str state (cstr "h'") in
              let '(_, o) := base16_encode (out state) data true in
              (0, push_back (set_out state o) (ch "'"))
        | ARI_TEXT_BSTR_BASE16 =>
            let state := cat_str state (cstr "h'") in
            let '(_, o) := base16_encode (out state) data true in
            (0, push_back (set_out state o) (ch "'"))
        | ARI_TEXT_BSTR_BASE64URL =>
            let state := cat_str state (cstr "b64'") in
            let '(_, o) := base64_encode (out state) data true in
            (0, push_back (set_out state o) (ch "'"))
        end
    | _, _ =>
        (* TIMESPEC, OTHER: already handled above; so is, in the model, a
           union member that [prim_type] does not name *)
        (0, state)
    end in
  if has_ari_type obj then
    let state := push_back state (ch "/") in
    let state := ari_text_encode_aritype state (ari_type obj) None in
    let state := push_back state (ch "/") in
    match ari_type obj, value obj with
    | ARI_TYPE_TP, as_timespec ts =>
        if time_text (opts state) then
          (* never use separators *)
          let '(ret, o) := utctime_encode strftime_unspecified (out state) ts false in
          if ret =? 0 then prims (set_out state o) else (2, set_out state o)
        else
          let '(ret, o) := decfrac_encode (out state) ts in
          if ret =? 0 then prims (set_out state o) else (2, set_out state o)
    | ARI_TYPE_TD, as_timespec ts =>
        if time_text (opts state) then
          let '(ret, o) := timeperiod_encode (out state) ts in
          if ret =? 0 then prims (set_out state o) else (2, set_out state o)
        else
          let '(ret, o) := decfrac_encode (out state) ts in
          if ret =? 0 then prims (set_out state o) else (2, set_out state o)
    | ARI_TYPE_AC, as_ac items =>
        prims (snd (ari_text_encode_ac ari_text_encode_stream state items))
    | ARI_TYPE_AM, as_am items =>
        prims (snd (ari_text_encode_am ari_text_encode_stream state items))
    | ARI_TYPE_TBL, as_tbl ncols items =>
        prims (snd (ari_text_encode_tbl ari_text_encode_stream state ncols items))
    | ARI_TYPE_EXECSET, as_execset nonce targets =>
        prims (snd (ari_text_encode_execset ari_text_encode_stream state nonce targets))
    | ARI_TYPE_RPTSET, as_rptset nonce reftime reports =>
        prims (snd (ari_text_encode_rptset ari_text_encode_stream state
                      nonce reftime reports))
    | _, _ =>
        (* Fall through to primitives below *)
        prims state
    end
  else prims state.

(** [ari_text_encode_objref]. *)
Definition ari_text_encode_objref
    (ari_text_encode_stream :
       ari_text_enc_state_t -> ari_t -> Z * ari_text_enc_state_t)
    (state : ari_text_enc_state_t) (obj : ari_ref_t)
  : Z * ari_text_enc_state_t :=
  let state := ari_text_encode_prefix state in
  let state := cat_str state (cstr "//") in
  let '(_, state) := ari_text_encode_idseg state (ns_id (objpath obj)) in
  let state := push_back state (ch "/") in
  match type_id (objpath obj) with
  | ARI_IDSEG_NULL =>
      (* case for a namespace reference only *)
      (0, state)
  | _ =>
      let state :=
        if objpath_has_ari_type (objpath obj)
        then ari_text_encode_aritype state (objpath_ari_type (objpath obj))
               (Some (type_id (objpath obj)))
        else snd (ari_text_encode_idseg state (type_id (objpath obj))) in
      let state := push_back state (ch "/") in
      let '(_, state) := ari_text_encode_idseg state (obj_id (objpath obj)) in
      match params obj with
      | ARI_PARAMS_NONE => (0, state) (* nothing to do *)
      | ARI_PARAMS_AC items =>
          (0, snd (ari_text_encode_ac ari_text_encode_stream state items))
      | ARI_PARAMS_AM items =>
          (0, snd (ari_text_encode_am ari_text_encode_stream state items))
      end
  end.

(** [ari_text_encode_stream]: the status of the two encoders is not
    looked at and the function returns zero. *)
Fixpoint ari_text_encode_stream (state : ari_text_enc_state_t) (ari : ari_t)
    {struct ari} : Z * ari_text_enc_state_t :=
  match ari with
  | ARI_REF obj =>
      let '(_, state) := ari_text_encode_objref ari_text_encode_stream state obj in
      (0, state)
  | ARI_LIT obj =>
      let '(_, state) := ari_text_encode_lit ari_text_encode_stream state obj in
      (0, state)
  end.

(** [ari_text_encode], for non-null pointers: the status and the content
    of [text] afterwards. *)
Definition ari_text_encode (text : list Z) (ari : ari_t)
    (opts : ari_text_enc_opts_t) : Z * list Z :=
  let state := mk_state [] 0 opts in
  let '(ret, state) := ari_text_encode_stream state ari in
  if ret =? 0 then (0, out state) (* string_move(text, state.out) *)
  else (2, text).

End TextEncoder.

(* ===================================================================== *)
(** ** ari_text_util.c: the decoders of the binary and decimal forms *)

Module LibcSigned.

Definition LLONG_MAX : Z := 2 ^ 63 - 1.
Definition LLONG_MIN : Z := - 2 ^ 63.

(** [strtoll(s, &end, base)] on an LP64 target: the value and the offset
    of [end] from [s] (zero when no conversion is made).  The text is
    scanned as by [strtoul]; a value out of range yields [LLONG_MAX] or
    [LLONG_MIN]. *)
Definition strtoll (s : list Z) (base : Z) : Z * nat :=
  let i := Libc.skip_space s in
  let s1 := skipn i s in
  let '(neg, j) :=
    match s1 with
    | c :: _ => if c =? ch "-" then (true, S i)
                else if c =? ch "+" then (false, S i) else (false, i)
    | [] => (false, i)
    end in
  let s2 := skipn j s in
  let has0x :=
    ((base =? 0) || (base =? 16)) && (peek s2 0 =? ch "0")
    && ((peek s2 1 =? ch "x") || (peek s2 1 =? ch "X"))
    && match Libc.digit_val (peek s2 2) with Some d => d <? 16 | None => false end in
  let '(b, k) :=
    if has0x then (16, (j + 2)%nat)
    else if base =? 0 then (if peek s2 0 =? ch "0" then 8 else 10, j)
    else (base, j) in
  let '(v, n) := Libc.parse_digits b 0 (skipn k s) in
  match n with
  | O => (0, O)
  | _ =>
      let v' := if neg then (if - LLONG_MIN <? v then LLONG_MIN else - v)
                else (if LLONG_MAX <? v then LLONG_MAX else v) in
      (v', (k + n)%nat)
  end.

End LibcSigned.

(** [decfrac_decode]: whole seconds read by [strtoll], then the optional
    fraction, with nothing left over. *)
Definition decfrac_decode (input : list Z) : result timespec :=
  let in_len := text_real_len input in
  let end_ := in_len in
  let '(sec_num, subend) := LibcSigned.strtoll input 10 in
  if (subend =? 0)%nat then Err 2
  else
    let curs := subend in
    match subsec_decode input 0 curs end_ with
    | Err _ => Err 2
    | Ok (subsec, curs) =>
        if (curs <? end_)%nat then Err 3
        else Ok (mk_timespec sec_num (sint64 subsec))
    end.

(** The loop of [strip_chars]: a run free of [chars] is copied, the run of
    [chars] behind it is skipped.  A round that meets a NUL before [end_]
    does not move the cursor and the loop of the source never ends; the
    model then runs out of fuel and yields [None]. *)
Fixpoint strip_chars_loop (fuel : nat) (buf : list Z) (end_ curs : nat)
    (chars out : list Z) : option (list Z) :=
  if (curs <? end_)%nat then
    match fuel with
    | O => None
    | S f =>
        let plen := Libc.strcspn (skipn curs buf) chars in
        let out := out ++ Libc.take_str plen (skipn curs buf) in
        let curs := (curs + plen)%nat in
        let plen := Libc.strspn (skipn curs buf) chars in
        let curs := (curs + plen)%nat in
        strip_chars_loop f buf end_ curs chars out
    end
  else Some out.

(** [strip_chars]. *)
Definition strip_chars (out input : list Z) (in_len : nat) (chars : list Z)
  : option (list Z) :=
  strip_chars_loop in_len input in_len O chars out.

(** [strip_space]: the characters of the string [" \b\f\n\r\t"]. *)
Definition strip_space (out input : list Z) (in_len : nat) : option (list Z) :=
  strip_chars out input in_len [32; 8; 12; 10; 13; 9].

(** [base16_decode_table]. *)
Definition base16_decode_table : list Z :=
  [ -1; -1; -1; -1; -1; -1; -1; -1; -1; -2; -2; -1; -1; -2; -1; -1;
    -1; -1; -1; -1; -1; -1; -1; -1; -1; -1; -1; -1; -1; -1; -1; -1;
    -2; -1; -1; -1; -1; -1; -1; -1; -1; -1; -1; -1; -1; -1; -1; -1;
     0;  1;  2;  3;  4;  5;  6;  7;  8;  9; -1; -1; -1; -1; -1; -1;
    -1; 10; 11; 12; 13; 14; 15; -1; -1; -1; -1; -1; -1; -1; -1; -1;
    -1; -1; -1; -1; -1; -1; -1; -1; -1; -1; -1; -1; -1; -1; -1; -1;
    -1; 10; 11; 12; 13; 14; 15; -1; -1; -1; -1; -1; -1; -1; -1; -1;
    -1; -1; -1; -1; -1; -1; -1; -1; -1; -1; -1; -1; -1; -1; -1; -1 ].

Definition base16_decode_lim : Z := 128.

(** [base16_decode_char] of a [uint8_t]. *)
Definition base16_decode_char (chr : Z) : Z :=
  if base16_decode_lim <=? chr then -1
  else nth (Z.to_nat chr) base16_decode_table (-1).

(** One round of [base16_decode]: two characters make a byte. *)
Definition base16_decode_pair (c1 c2 : Z) : option Z :=
  let high := base16_decode_char c1 in
  let low := base16_decode_char c2 in
  if (high <? 0) || (low <? 0) then None
  else Some (Z.lor (Z.shiftl high 4) low mod 256).

(** The loop of [base16_decode] over the characters left, two per round;
    the second character of a last odd round is the terminator. *)
Fixpoint base16_decode_loop (curs : list Z) (out : list Z) : Z * list Z :=
  match curs with
  | [] => (0, out)
  | [c1] =>
      match base16_decode_pair c1 0 with
      | None => (3, out)
      | Some byte => (0, out ++ [byte])
      end
  | c1 :: c2 :: rest =>
      match base16_decode_pair c1 c2 with
      | None => (3, out)
      | Some byte => base16_decode_loop rest (out ++ [byte])
      end
  end.

(** [base16_decode]: the status and the bytes of [out].  A text of odd
    length leaves [out] as it was; otherwise [out] is resized and filled
    from its start, and after status 3 only the bytes stored so far are
    given (the rest of the resized buffer is not written).  Allocation
    by [ari_data_resize] is taken to succeed. *)
Definition base16_decode (out input : list Z) : Z * list Z :=
  let in_len := length input in
  if negb (in_len mod 2 =? 0)%nat then (1, out)
  else base16_decode_loop input [].

(** [base64_decode_table], shared by both alphabets. *)
Definition base64_decode_table : list Z :=
  [ -1; -1; -1; -1; -1; -1; -1; -1; -1; -2; -2; -2; -2; -2; -1; -1;
    -1; -1; -1; -1; -1; -1; -1; -1; -1; -1; -1; -1; -1; -1; -1; -1;
    -2; -1; -1; -1; -1; -1; -1; -1; -1; -1; -1; 62; -1; 62; -1; 63;
    52; 53; 54; 55; 56; 57; 58; 59; 60; 61; -1; -1; -1; -1; -1; -1;
    -1;  0;  1;  2;  3;  4;  5;  6;  7;  8;  9; 10; 11; 12; 13; 14;
    15; 16; 17; 18; 19; 20; 21; 22; 23; 24; 25; -1; -1; -1; -1; 63;
    -1; 26; 27; 28; 29; 30; 31; 32; 33; 34; 35; 36; 37; 38; 39; 40;
    41; 42; 43; 44; 45; 46; 47; 48; 49; 50; 51; -1; -1; -1; -1; -1 ].

Definition base64_decode_lim : Z := 128.

(** [base64_decode_char] of a [uint8_t]. *)
Definition base64_decode_char (chr : Z) : Z :=
  if base64_decode_lim <=? chr then -1
  else nth (Z.to_nat chr) base64_decode_table (-1).

(** A guarded store of [base64_decode]: one byte through [out_curs]
    while [out_len] is not used up. *)
Definition base64_store (out_len : Z) (out : list Z) (byte : Z) : Z * list Z :=
  if out_len =? 0 then (out_len, out)
  else (out_len - 1, out ++ [byte mod 256]).

(** How the [for] loop of [base64_decode] is left: by [return 3], or by
    [break] or its condition with the cursor and the count of characters
    it had then. *)
Inductive base64_exit : Type :=
| base64_return3 (out : list Z)
| base64_break (curs : nat) (in_len : Z) (out : list Z).

(** The [for] loop of [base64_decode]: four characters per round. *)
Fixpoint base64_decode_loop (fuel : nat) (buf : list Z) (curs : nat)
    (in_len out_len : Z) (out : list Z) : base64_exit :=
  match fuel with
  | O => base64_break curs in_len out
  | S f =>
      if 2 <? in_len then
        let c i := peek buf (curs + i) in
        let next out_len out :=
          base64_decode_loop f buf (curs + 4) (uint64 (in_len - 4)) out_len out in
        if c 0%nat =? ch "=" then base64_break curs in_len out
        else
          let seg0 := base64_decode_char (c 0%nat) in
          let seg1 := base64_decode_char (c 1%nat) in
          if (seg0 <? 0) || (seg1 <? 0) then base64_return3 out
          else
            let '(out_len, out) :=
              base64_store out_len out
                (Z.lor (Z.shiftl seg0 2) (Z.shiftr seg1 4)) in
            if in_len =? 2 then base64_break curs in_len out
            else if c 2%nat =? ch "=" then
              if negb (in_len =? 4) then base64_break curs in_len out
              else if negb (c 3%nat =? ch "=") then base64_break curs in_len out
              else next out_len out
            else
              let seg2 := base64_decode_char (c 2%nat) in
              if seg2 <? 0 then base64_return3 out
              else
                let '(out_len, out) :=
                  base64_store out_len out
                    (Z.lor (Z.land (Z.shiftl seg1 4) 240) (Z.shiftr seg2 2)) in
                if in_len =? 3 then base64_break curs in_len out
                else if c 3%nat =? ch "=" then
                  if negb (in_len =? 4) then base64_break curs in_len out
                  else next out_len out
                else
                  let seg3 := base64_decode_char (c 3%nat) in
                  if seg3 <? 0 then base64_return3 out
                  else
                    let '(out_len, out) :=
                      base64_store out_len out
                        (Z.lor (Z.land (Z.shiftl seg2 6) 192) seg3) in
                    next out_len out
      else base64_break curs in_len out
  end.

(** [base64_decode]: the status and the bytes of [out].  The buffer is
    resized to hold every byte the text can give and trimmed to the bytes
    stored once the loop is left; after status 3 it is not trimmed and
    only the bytes stored so far are given.  Allocation by
    [ari_data_resize] is taken to succeed. *)
Definition base64_decode (input : list Z) : Z * list Z :=
  let in_len := Z.of_nat (length input) in
  let out_len := in_len / 4 * 3 + 2 in
  match base64_decode_loop (S (length input)) input O in_len out_len [] with
  | base64_return3 out => (3, out)
  | base64_break curs in_len out =>
      (* Per Section 3.3 of RFC 4648, ignoring excess padding *)
      let pad := Libc.strspn (skipn curs input) [ch "="] in
      let in_len := uint64 (in_len - Z.of_nat pad) in
      (if 0 <? in_len then 4 else 0, out)
  end.

(* ===================================================================== *)
(** * Properties *)
(* ===================================================================== *)

Example uint64_encode_ex1 :
  ari_uint64_encode [] 10 2 = (0, cstr "0b1010")
  /\ ari_uint64_encode [] 255 16 = (0, cstr "0xFF")
  /\ ari_uint64_encode [] 1234567890123 10 = (0, cstr "1234567890123")
  /\ ari_uint64_encode [] 0 2 = (0, cstr "0b0")
  /\ ari_uint64_encode [] 0 16 = (0, cstr "0x0")
  /\ ari_uint64_encode [] (2^64-1) 10 = (0, cstr "18446744073709551615").
Proof. vm_compute. repeat split. Qed.

Example uint64_decode_ex1 :
  ari_uint64_decode (cstr "0b1010") = Ok 10
  /\ ari_uint64_decode (cstr "0xFF") = Ok 255
  /\ ari_uint64_decode (cstr "017") = Ok 15
  /\ ari_uint64_decode (cstr "18446744073709551615") = Ok (2^64-1)
  /\ ari_uint64_decode (cstr "18446744073709551616") = Ok (2^64-1)
  /\ ari_uint64_decode (cstr "12a") = Err 2
  /\ ari_uint64_decode (cstr "0x") = Err 2
  /\ ari_uint64_decode (cstr "") = Ok 0.
Proof. vm_compute. repeat split. Qed.

(** ** Number conversion: printing and parsing are inverse *)

Ltac chs :=
  repeat match goal with
  | |- context [ch ?a] =>
      let v := eval vm_compute in (ch a) in change (ch a) with v
  | H : context [ch ?a] |- _ =>
      let v := eval vm_compute in (ch a) in change (ch a) with v in H
  end.

Ltac zb :=
  repeat match goal with
  | H : (_ =? _) = true |- _ => apply Z.eqb_eq in H
  | H : (_ =? _) = false |- _ => apply Z.eqb_neq in H
  | H : (_ <? _) = true |- _ => apply Z.ltb_lt in H
  | H : (_ <? _) = false |- _ => apply Z.ltb_ge in H
  | H : (_ <=? _) = true |- _ => apply Z.leb_le in H
  | H : (_ <=? _) = false |- _ => apply Z.leb_gt in H
  | H : (_ && _) = true |- _ => apply andb_true_iff in H; destruct H
  | H : (_ || _) = false |- _ => apply orb_false_iff in H; destruct H
  end.

Section Digits.

Import Libc.

Variable upper : bool.
Variable base : Z.
Hypothesis base_lo : 2 <= base.
Hypothesis base_hi : base <= 36.

Lemma digit_val_char d :
  0 <= d < base -> digit_val (digit_char upper d) = Some d.
Proof using base_hi.
  intros Hd. unfold digit_val, digit_char. chs.
  destruct (d <? 10) eqn:E; zb.
  - replace ((48 <=? 48 + d) && (48 + d <=? 57)) with true
      by (symmetry; apply andb_true_iff; split; apply Z.leb_le; lia).
    f_equal. lia.
  - destruct upper.
    + replace ((48 <=? 65 + (d - 10)) && (65 + (d - 10) <=? 57)) with false
        by (symmetry; apply andb_false_iff; right; apply Z.leb_gt; lia).
      replace ((97 <=? 65 + (d - 10)) && (65 + (d - 10) <=? 122)) with false
        by (symmetry; apply andb_false_iff; left; apply Z.leb_gt; lia).
      replace ((65 <=? 65 + (d - 10)) && (65 + (d - 10) <=? 90)) with true
        by (symmetry; apply andb_true_iff; split; apply Z.leb_le; lia).
      f_equal. lia.
    + replace ((48 <=? 97 + (d - 10)) && (97 + (d - 10) <=? 57)) with false
        by (symmetry; apply andb_false_iff; right; apply Z.leb_gt; lia).
      replace ((97 <=? 97 + (d - 10)) && (97 + (d - 10) <=? 122)) with true
        by (symmetry; apply andb_true_iff; split; apply Z.leb_le; lia).
      f_equal. lia.
Qed.

(** A string of digit characters of the base. *)
Definition digit_string (ds : list Z) : Prop :=
  Forall (fun c => exists d, 0 <= d < base /\ digit_val c = Some d) ds.

(** The number a digit string denotes, continuing from [acc]. *)
Definition digits_value (acc : Z) (ds : list Z) : Z :=
  fold_left (fun a c => a * base + match digit_val c with Some d => d | None => 0 end)
            ds acc.

Lemma parse_digits_app ds rest acc :
  digit_string ds ->
  parse_digits base acc (ds ++ rest) =
    (fst (parse_digits base (digits_value acc ds) rest),
     (length ds + snd (parse_digits base (digits_value acc ds) rest))%nat).
Proof.
  intros H. revert acc. induction H as [|c ds (d & Hd & Hv) _ IH]; intros acc.
  - cbn. destruct (parse_digits base acc rest); reflexivity.
  - cbn [app parse_digits digits_value fold_left]. rewrite Hv.
    replace (d <? base) with true by (symmetry; apply Z.ltb_lt; lia).
    fold (digits_value (acc * base + d) ds). rewrite IH. reflexivity.
Qed.

Lemma digits_aux_acc fuel n acc :
  digits_aux fuel upper base n acc = digits_aux fuel upper base n [] ++ acc.
Proof.
  revert n acc. induction fuel as [|f IH]; intros n acc; cbn; [reflexivity|].
  destruct (n / base =? 0); [reflexivity|].
  rewrite IH, (IH _ [_]), <- app_assoc. reflexivity.
Qed.

Lemma digits_aux_snoc f n :
  digits_aux (S f) upper base n [] =
    if n / base =? 0 then [digit_char upper (n mod base)]
    else digits_aux f upper base (n / base) [] ++ [digit_char upper (n mod base)].
Proof.
  cbn. destruct (n / base =? 0); [reflexivity|]. apply digits_aux_acc.
Qed.

Lemma digits_value_snoc acc ds c :
  digits_value acc (ds ++ [c]) =
    digits_value acc ds * base + match digit_val c with Some d => d | None => 0 end.
Proof. unfold digits_value. rewrite fold_left_app. reflexivity. Qed.

Lemma digits_aux_spec fuel : forall n,
  0 <= n < 2 ^ Z.of_nat (S fuel) ->
  let ds := digits_aux (S fuel) upper base n [] in
  digit_string ds /\ ds <> [] /\
  (forall acc, digits_value acc ds = acc * base ^ Z.of_nat (length ds) + n) /\
  (exists d tl, ds = digit_char upper d :: tl /\ 0 <= d < base /\ (d = 0 -> n = 0 /\ tl = [])).
Proof using base_lo base_hi.
  induction fuel as [|f IH]; intros n Hn ds; subst ds; rewrite digits_aux_snoc;
    assert (Hm : 0 <= n mod base < base) by (apply Z.mod_pos_bound; lia);
    destruct (n / base =? 0) eqn:E; zb.
  1, 3: assert (n mod base = n) by (rewrite (Z.div_mod n base) at 2; lia);
    repeat split;
    [ constructor; [|constructor]; eexists; split; [|apply digit_val_char]; lia
    | discriminate
    | intros acc; cbn; rewrite digit_val_char by lia; lia
    | exists (n mod base), []; repeat split; try lia ].
  - exfalso. change (2 ^ Z.of_nat 1) with 2 in Hn.
    assert (n / base = 0) by (apply Z.div_small; lia). lia.
  - assert (Hq : 0 <= n / base < 2 ^ Z.of_nat (S f)).
    { split; [apply Z.div_pos; lia|].
      apply Z.div_lt_upper_bound; [lia|].
      rewrite (Nat2Z.inj_succ (S f)), Z.pow_succ_r in Hn by lia. nia. }
    destruct (IH _ Hq) as (Hds & Hne & Hval & (d & tl & Heq & Hd & Hz)).
    repeat split.
    + apply Forall_app; split; [exact Hds|].
      constructor; [|constructor]. eexists; split; [|apply digit_val_char]; lia.
    + intros C. apply app_eq_nil in C. destruct C; discriminate.
    + intros acc. rewrite digits_value_snoc, Hval, digit_val_char by lia.
      rewrite length_app, Nat2Z.inj_add. cbn [length].
      change (Z.of_nat 1) with 1. rewrite Z.pow_add_r, Z.pow_1_r by lia.
      pose proof (Z.div_mod n base ltac:(lia)) as Hdm.
      set (L := base ^ _). set (q := n / base) in *. set (r := n mod base) in *.
      rewrite Hdm. ring.
    + exists d, (tl ++ [digit_char upper (n mod base)]). rewrite Heq.
      repeat split; try lia; intros ->; destruct Hz; try reflexivity; lia.
Qed.

Lemma to_digits_spec n :
  0 <= n ->
  let ds := to_digits upper base n in
  digit_string ds /\ ds <> [] /\
  (forall acc, digits_value acc ds = acc * base ^ Z.of_nat (length ds) + n) /\
  (exists d tl, ds = digit_char upper d :: tl /\ 0 <= d < base /\ (d = 0 -> n = 0 /\ tl = [])).
Proof using base_lo base_hi.
  intros Hn. unfold to_digits. apply digits_aux_spec. split; [lia|].
  rewrite Nat2Z.inj_succ, Z2Nat.id by apply Z.log2_nonneg.
  destruct (Z.eq_dec n 0) as [->|]; [cbn; lia|].
  apply Z.log2_spec. lia.
Qed.

(** Parsing what was printed gives the number back and stops at [rest]. *)
Lemma parse_to_digits n rest :
  0 <= n ->
  (forall c tl d, rest = c :: tl -> digit_val c = Some d -> base <= d) ->
  parse_digits base 0 (to_digits upper base n ++ rest) =
    (n, length (to_digits upper base n)).
Proof using base_lo base_hi.
  intros Hn Hrest. destruct (to_digits_spec n Hn) as (Hds & _ & Hval & _).
  rewrite parse_digits_app by exact Hds. rewrite Hval.
  replace (parse_digits base (0 * _ + n) rest) with (n, O).
  - cbn. f_equal. lia.
  - cbn [Z.mul Z.add]. destruct rest as [|c tl]; [reflexivity|]. cbn.
    destruct (digit_val c) as [d|] eqn:E; [|reflexivity].
    specialize (Hrest c tl d eq_refl E).
    replace (d <? base) with false by (symmetry; apply Z.ltb_ge; lia).
    reflexivity.
Qed.

End Digits.

(** ** Unsigned integer radix codec *)

Lemma strtoul_plain (b : Z) (c : Z) (tl : list Z) (base : Z) :
  Libc.isspace c = false -> c <> ch "-" -> c <> ch "+" ->
  (base = 0 /\ b = (if c =? ch "0" then 8 else 10) \/ base = b /\ base <> 0) ->
  (c = ch "0" -> base = 0 \/ base = 16 ->
     ((peek tl 0 =? ch "x") || (peek tl 0 =? ch "X")) = false) ->
  Libc.strtoul (c :: tl) base =
    let '(v, n) := Libc.parse_digits b 0 (c :: tl) in
    match n with
    | O => (0, O)
    | _ => (if Libc.ULONG_MAX <? v then Libc.ULONG_MAX else v, n)
    end.
Proof.
  intros Hsp Hm Hp Hb Hx. unfold Libc.strtoul.
  cbn [Libc.skip_space]. rewrite Hsp. cbn [skipn].
  replace (c =? ch "-") with false by (symmetry; apply Z.eqb_neq; exact Hm).
  replace (c =? ch "+") with false by (symmetry; apply Z.eqb_neq; exact Hp).
  cbn [skipn]. unfold peek at 1 2 3. cbn [nth].
  fold (peek tl 0).
  assert (Hno : ((base =? 0) || (base =? 16)) && (c =? ch "0")
      && ((peek tl 0 =? ch "x") || (peek tl 0 =? ch "X")) = false).
  { destruct ((base =? 0) || (base =? 16)) eqn:E1; [|reflexivity].
    destruct (c =? ch "0") eqn:E2; [|reflexivity]. cbn.
    apply Hx; [apply Z.eqb_eq; exact E2|].
    apply orb_true_iff in E1. destruct E1 as [E|E]; apply Z.eqb_eq in E; auto. }
  rewrite Hno. cbn [andb].
  destruct Hb as [[-> ->]|[-> Hb]].
  - cbn [Z.eqb]. unfold peek. cbn [nth skipn].
    destruct (Libc.parse_digits _ 0 (c :: tl)) as [v [|n]]; reflexivity.
  - replace (b =? 0) with false by (symmetry; apply Z.eqb_neq; exact Hb).
    cbn [skipn].
    destruct (Libc.parse_digits _ 0 (c :: tl)) as [v [|n]]; reflexivity.
Qed.

Lemma digit_char_dec up d : 0 <= d < 10 -> Libc.digit_char up d = 48 + d.
Proof.
  intros H. unfold Libc.digit_char.
  replace (d <? 10) with true by (symmetry; apply Z.ltb_lt; lia). reflexivity.
Qed.

Lemma digit_char_range up d :
  0 <= d < 36 ->
  let c := Libc.digit_char up d in
  48 <= c <= 122 /\ Libc.isspace c = false /\ c <> ch "-" /\ c <> ch "+"
  /\ (c = ch "0" -> d = 0).
Proof.
  intros H c. subst c. unfold Libc.digit_char, Libc.isspace. chs.
  destruct (d <? 10) eqn:E; zb; [|destruct up]; chs; repeat split; lia.
Qed.

(** [strtoull] with base 0 reads back a decimal rendering. *)
Lemma strtoul_fmt_u v :
  0 <= v < 2 ^ 64 ->
  Libc.strtoul (Libc.fmt_u v) 0 = (v, length (Libc.fmt_u v)).
Proof.
  intros Hv. unfold Libc.fmt_u.
  destruct (to_digits_spec false 10 ltac:(lia) ltac:(lia) v ltac:(lia))
    as (Hds & Hne & Hval & (d & tl & Heq & Hd & Hz)).
  pose proof (parse_to_digits false 10 ltac:(lia) ltac:(lia) v [] ltac:(lia)) as Hp.
  rewrite app_nil_r in Hp. specialize (Hp ltac:(discriminate)).
  destruct (digit_char_range false d ltac:(lia)) as (_ & Hsp & Hm & Hpl & H0).
  rewrite Heq in *.
  destruct (Z.eq_dec d 0) as [->|Hd0].
  - destruct (Hz eq_refl) as [-> ->]. reflexivity.
  - rewrite (strtoul_plain 10); auto.
    + rewrite Hp. cbn [length].
      replace (Libc.ULONG_MAX <? v) with false; [reflexivity|].
      symmetry. apply Z.ltb_ge. unfold Libc.ULONG_MAX. lia.
    + left. split; [reflexivity|].
      replace (_ =? ch "0") with false; [reflexivity|].
      symmetry. apply Z.eqb_neq. auto.
    + intros C. apply H0 in C. contradiction.
Qed.

(** [strtoull] with base 0 reads back a [0x]-prefixed hex rendering. *)
Lemma strtoul_fmt_X v :
  0 <= v < 2 ^ 64 ->
  Libc.strtoul (cstr "0x" ++ Libc.fmt_X v) 0 = (v, (2 + length (Libc.fmt_X v))%nat).
Proof.
  intros Hv. unfold Libc.fmt_X.
  destruct (to_digits_spec true 16 ltac:(lia) ltac:(lia) v ltac:(lia))
    as (Hds & Hne & Hval & (d & tl & Heq & Hd & Hz)).
  pose proof (parse_to_digits true 16 ltac:(lia) ltac:(lia) v [] ltac:(lia)) as Hp.
  rewrite app_nil_r in Hp. specialize (Hp ltac:(discriminate)).
  rewrite Heq in *.
  unfold Libc.strtoul. change (cstr "0x") with [48; 120]. cbn [app].
  cbn [Libc.skip_space]. change (Libc.isspace 48) with false. cbn [skipn].
  change (48 =? ch "-") with false. change (48 =? ch "+") with false.
  cbn [skipn]. unfold peek. cbn [nth].
  rewrite (digit_val_char true 16 ltac:(lia)) by lia.
  replace (d <? 16) with true by (symmetry; apply Z.ltb_lt; lia).
  change (((0 =? 0) || (0 =? 16)) && (48 =? ch "0")
          && ((120 =? ch "x") || (120 =? ch "X")) && true) with true.
  cbn iota. cbn [Nat.add skipn]. rewrite Hp. cbn [length].
  replace (Libc.ULONG_MAX <? v) with false; [reflexivity|].
  symmetry. apply Z.ltb_ge. unfold Libc.ULONG_MAX. lia.
Qed.

Lemma uint64_bits_acc fuel v acc :
  uint64_bits fuel v acc = uint64_bits fuel v [] ++ acc.
Proof.
  revert v acc. induction fuel as [|f IH]; intros v acc; cbn; [reflexivity|].
  destruct (v =? 0); [reflexivity|].
  rewrite IH, (IH _ [_]), <- app_assoc. reflexivity.
Qed.

Lemma uint64_unbits_snoc ds : forall tmp bit,
  uint64_unbits tmp (ds ++ [bit]) =
    match uint64_unbits tmp ds with
    | Ok t => uint64_unbits t [bit]
    | Err e => Err e
    end.
Proof.
  induction ds as [|c ds IH]; intros tmp bit; [reflexivity|].
  cbn [app uint64_unbits].
  destruct (c =? ch "0"); [apply IH|].
  destruct (c =? ch "1"); [apply IH|reflexivity].
Qed.

(** The binary digits written by the encoder are read back by the
    dedicated binary path of the decoder. *)
Lemma uint64_unbits_bits fuel : forall v,
  (fuel <= 64)%nat -> 0 <= v < 2 ^ Z.of_nat fuel ->
  uint64_unbits 0 (uint64_bits fuel v []) = Ok v
  /\ (v <> 0 -> uint64_bits fuel v [] <> []).
Proof.
  induction fuel as [|f IH]; intros v Hf Hv.
  - change (2 ^ Z.of_nat 0) with 1 in Hv. assert (v = 0) by lia. subst v.
    split; [reflexivity|contradiction].
  - cbn [uint64_bits]. destruct (v =? 0) eqn:E; zb.
    + subst v. split; [reflexivity|contradiction].
    + rewrite uint64_bits_acc.
      assert (Hq : 0 <= v / 2 < 2 ^ Z.of_nat f).
      { rewrite Nat2Z.inj_succ, Z.pow_succ_r in Hv by lia.
        split; [apply Z.div_pos; lia|apply Z.div_lt_upper_bound; lia]. }
      destruct (IH (v / 2) ltac:(lia) Hq) as [IH1 _].
      split; [|intros _ C; apply app_eq_nil in C; destruct C; discriminate].
      rewrite uint64_unbits_snoc, IH1. cbn [uint64_unbits].
      assert (Hf' : 2 ^ Z.of_nat f <= 2 ^ 63)
        by (apply Z.pow_le_mono_r; lia).
      rewrite Z.shiftl_mul_pow2, Z.pow_1_r by lia.
      pose proof (Z.div_mod v 2 ltac:(lia)) as Hdm.
      pose proof (Z.mod_pos_bound v 2 ltac:(lia)) as Hm.
      rewrite (Z.mod_small (v / 2 * 2)) by lia.
      destruct (v mod 2 =? 1) eqn:E1; zb; chs.
      * cbn [Z.eqb Pos.eqb]. rewrite Z.mod_small by lia. f_equal. lia.
      * cbn [Z.eqb Pos.eqb]. f_equal. lia.
Qed.

(** C10. For every 64-bit unsigned value and every base of 2, 10 and 16,
    [ari_uint64_encode] succeeds and appends a text that
    [ari_uint64_decode] accepts and maps back to the value.  The text is
    [0b] and binary digits (a single [0] for zero) read by the binary
    loop, [0x] and upper-case hexadecimal digits, or plain decimal digits,
    the latter two read through [strtoull] with base 0. *)
Theorem ari_uint64_roundtrip (out : list Z) (v base : Z) :
  0 <= v < 2 ^ 64 ->
  base = 2 \/ base = 10 \/ base = 16 ->
  exists text,
    ari_uint64_encode out v base = (0, out ++ text)
    /\ ari_uint64_decode text = Ok v
    /\ (base = 2 ->
          text = cstr "0b" ++ (if v =? 0 then cstr "0" else uint64_bits 64 v [])
          /\ ari_uint64_decode text = uint64_unbits 0 (skipn 2 text))
    /\ (base = 10 -> text = Libc.fmt_u v)
    /\ (base = 16 -> text = cstr "0x" ++ Libc.fmt_X v).
Proof.
  intros Hv [-> | [-> | ->]]; unfold ari_uint64_encode; cbn [Z.eqb Pos.eqb].
  - destruct (uint64_unbits_bits 64 v ltac:(lia) Hv) as [Hrt Hne].
    destruct (v =? 0) eqn:E; zb.
    + subst v. eexists. split; [reflexivity|].
      repeat split; try reflexivity; discriminate.
    + specialize (Hne E).
      destruct (uint64_bits 64 v []) as [|b bs] eqn:Eb; [contradiction|].
      exists (cstr "0b" ++ b :: bs).
      assert (Hd : ari_uint64_decode (cstr "0b" ++ b :: bs)
                   = uint64_unbits 0 (b :: bs)).
      { unfold ari_uint64_decode. reflexivity. }
      repeat split; try discriminate; try reflexivity; rewrite Hd; auto.
  - exists (Libc.fmt_u v). split; [reflexivity|].
    repeat split; try discriminate.
    unfold ari_uint64_decode.
    destruct (to_digits_spec false 10 ltac:(lia) ltac:(lia) v ltac:(lia))
      as (_ & _ & _ & (d & tl & Heq & Hd & Hz)).
    assert (Hb : ((2 <=? length (Libc.fmt_u v))%nat
                  && (peek (Libc.fmt_u v) 0 =? ch "0")
                  && (peek (Libc.fmt_u v) 1 =? ch "b")) = false).
    { unfold Libc.fmt_u. rewrite Heq. unfold peek. cbn [nth].
      destruct (Z.eq_dec d 0) as [->|Hd0].
      - destruct (Hz eq_refl) as [_ ->]. reflexivity.
      - destruct (digit_char_range false d ltac:(lia)) as (_ & _ & _ & _ & H0).
        replace (_ =? ch "0") with false
          by (symmetry; apply Z.eqb_neq; intros C; apply H0 in C; lia).
        rewrite andb_false_r. reflexivity. }
    rewrite Hb, strtoul_fmt_u, Nat.eqb_refl by exact Hv. reflexivity.
  - exists (cstr "0x" ++ Libc.fmt_X v). split; [reflexivity|].
    repeat split; try discriminate.
    unfold ari_uint64_decode.
    change (peek (cstr "0x" ++ Libc.fmt_X v) 1) with (ch "x").
    change (ch "x" =? ch "b") with false. rewrite andb_false_r.
    rewrite strtoul_fmt_X by exact Hv.
    rewrite length_app. cbn [length cstr map list_ascii_of_string].
    rewrite Nat.eqb_refl. reflexivity.
Qed.

Lemma ari_uint64_roundtrip_witness :
  exists text,
    ari_uint64_encode [] 2024 16 = (0, [] ++ text)
    /\ ari_uint64_decode text = Ok 2024
    /\ (16 = 2 ->
          text = cstr "0b" ++ (if 2024 =? 0 then cstr "0" else uint64_bits 64 2024 [])
          /\ ari_uint64_decode text = uint64_unbits 0 (skipn 2 text))
    /\ (16 = 10 -> text = Libc.fmt_u 2024)
    /\ (16 = 16 -> text = cstr "0x" ++ Libc.fmt_X 2024).
Proof.
  apply (ari_uint64_roundtrip [] 2024 16); [lia | right; right; reflexivity].
Defined.

(** ** Percent encoding *)

Example uri_percent_ex1 :
  uri_percent_encode [] (cstr "hi there" ++ [0]) (cstr "!'+:@")
    = (0, cstr "hi%20there")
  /\ uri_percent_encode [] [0; 65; 255] [] = (0, cstr "%00A%FF")
  /\ uri_percent_decode [] (cstr "hi%20there") = (0, cstr "hi there")
  /\ uri_percent_decode [] (cstr "%00A%fF" ++ [0]) = (0, [0; 65; 255])
  /\ uri_percent_decode [] (cstr "ab%4") = (2, cstr "ab")
  /\ uri_percent_decode [] (cstr "ab%4g") = (2, cstr "ab")
  /\ uri_percent_decode [] (cstr "ab%") = (2, cstr "ab").
Proof. vm_compute. repeat split. Qed.

(** What the encoder emits for one byte. *)
Definition pct_char (allsafe : list Z) (c : Z) : list Z :=
  if negb (c =? 0) && mem c allsafe then [c] else ch "%" :: fmt_02X true c.

Definition pct_text (allsafe : list Z) (l : list Z) : list Z :=
  flat_map (pct_char allsafe) l.

(** The terminator following a text: nothing, or a NUL. *)
Definition nul_or_end (tail : list Z) : Prop :=
  tail = [] \/ exists t, tail = 0 :: t.

Definition byte_range : list Z := map Z.of_nat (seq 0 256).

Lemma byte_range_forall (P : Z -> bool) :
  forallb P byte_range = true -> forall c, is_byte c -> P c = true.
Proof.
  intros H c Hc. rewrite forallb_forall in H. apply H.
  unfold byte_range. apply in_map_iff. exists (Z.to_nat c).
  split; [apply Z2Nat.id; apply Hc|].
  apply in_seq. unfold is_byte in Hc. lia.
Qed.

Lemma fmt_02X_strtoul c :
  is_byte c ->
  exists h1 h2,
    fmt_02X true c = [h1; h2] /\ Libc.strtoul [h1; h2] 16 = (c, 2%nat)
    /\ h1 <> 0 /\ h2 <> 0.
Proof.
  intros Hc.
  pose (P := fun c =>
    match fmt_02X true c with
    | [h1; h2] =>
        let '(v, n) := Libc.strtoul [h1; h2] 16 in
        (v =? c) && (n =? 2)%nat && negb (h1 =? 0) && negb (h2 =? 0)
    | _ => false
    end).
  assert (H : forallb P byte_range = true) by (vm_compute; reflexivity).
  pose proof (byte_range_forall P H c Hc) as Hp. unfold P in Hp. clear H P.
  destruct (fmt_02X true c) as [|h1 [|h2 [|]]]; try discriminate.
  exists h1, h2. destruct (Libc.strtoul [h1; h2] 16) as [v n].
  apply andb_true_iff in Hp. destruct Hp as [Hp H2].
  apply andb_true_iff in Hp. destruct Hp as [Hp H1].
  apply andb_true_iff in Hp. destruct Hp as [Hv Hn].
  apply Z.eqb_eq in Hv. apply Nat.eqb_eq in Hn.
  apply negb_true_iff, Z.eqb_neq in H1. apply negb_true_iff, Z.eqb_neq in H2.
  subst. auto.
Qed.

Section Spans.

Variable A : list Z.

Definition safe_char (c : Z) : bool := negb (c =? 0) && mem c A.

Lemma strspn_app_end s tail :
  nul_or_end tail -> Libc.strspn (s ++ tail) A = Libc.strspn s A.
Proof.
  intros Ht. induction s as [|c s IH]; cbn.
  - destruct Ht as [->|[t ->]]; reflexivity.
  - rewrite IH. reflexivity.
Qed.

Lemma strspn_split s :
  exists span rest,
    s = span ++ rest /\ Libc.strspn s A = length span
    /\ Forall (fun c => safe_char c = true) span
    /\ (rest = [] \/ exists c r, rest = c :: r /\ safe_char c = false).
Proof.
  induction s as [|c s (span & rest & Hs & Hn & Hf & Hr)].
  - exists [], []. repeat split; auto.
  - cbn. fold (safe_char c). destruct (safe_char c) eqn:E.
    + exists (c :: span), rest. subst s. cbn. repeat split; auto.
    + exists [], (c :: s). repeat split; auto. right. eauto.
Qed.

Lemma take_str_span span x :
  Forall (fun c => safe_char c = true) span ->
  Libc.take_str (length span) (span ++ x) = span.
Proof.
  induction 1 as [|c span Hc _ IH]; cbn; [reflexivity|].
  unfold safe_char in Hc. apply andb_true_iff in Hc. destruct Hc as [Hc _].
  apply negb_true_iff in Hc. rewrite Hc, IH. reflexivity.
Qed.

Lemma pct_text_span span :
  Forall (fun c => safe_char c = true) span -> pct_text A span = span.
Proof.
  induction 1 as [|c span Hc _ IH]; cbn; [reflexivity|].
  unfold pct_char. fold (safe_char c). rewrite Hc. cbn. f_equal. exact IH.
Qed.

Lemma pct_text_app x y : pct_text A (x ++ y) = pct_text A x ++ pct_text A y.
Proof. apply flat_map_app. Qed.

Lemma pct_text_nonzero x :
  Forall is_byte x -> Forall (fun c => c <> 0) (pct_text A x).
Proof.
  induction 1 as [|c x Hc _ IH]; cbn; [constructor|].
  apply Forall_app. split; [|exact IH].
  unfold pct_char. destruct (negb (c =? 0) && mem c A) eqn:E.
  - apply andb_true_iff in E. destruct E as [E _].
    apply negb_true_iff, Z.eqb_neq in E. repeat constructor. exact E.
  - destruct (fmt_02X_strtoul c Hc) as (h1 & h2 & -> & _ & H1 & H2).
    repeat constructor; auto. discriminate.
Qed.

(** The encoder loop emits [pct_text] of the text between cursor and end. *)
Lemma uri_percent_encode_loop_spec fuel :
  forall pre rem tail buf end_ curs out,
    (length rem < fuel)%nat -> nul_or_end tail ->
    buf = pre ++ rem ++ tail -> curs = length pre ->
    end_ = (curs + length rem)%nat ->
    uri_percent_encode_loop fuel A buf end_ curs out = out ++ pct_text A rem.
Proof.
  induction fuel as [|f IH]; intros pre rem tail buf end_ curs out Hf Ht Hb Hc He;
    [lia|].
  cbn [uri_percent_encode_loop].
  destruct rem as [|r0 rem0] eqn:Erem.
  { replace (curs <? end_)%nat with false
      by (symmetry; apply Nat.ltb_ge; cbn in He; lia).
    cbn. rewrite app_nil_r. reflexivity. }
  rewrite <- Erem in *. clear Erem r0 rem0.
  destruct (curs <? end_)%nat eqn:Elt; [|cbn; apply Nat.ltb_ge in Elt].
  2: { destruct rem; [|cbn in He; lia]. cbn. rewrite app_nil_r. reflexivity. }
  assert (Hsk : skipn curs buf = rem ++ tail).
  { subst buf curs. rewrite skipn_app, Nat.sub_diag, skipn_all. reflexivity. }
  rewrite Hsk, strspn_app_end by exact Ht.
  destruct (strspn_split rem) as (span & rest & Hs & Hn & Hsafe & Hrest).
  rewrite Hn. subst rem. rewrite <- app_assoc, take_str_span by exact Hsafe.
  assert (Hout : (if (length span =? 0)%nat then out else out ++ span)
                 = out ++ span).
  { destruct span; cbn; [rewrite app_nil_r|]; reflexivity. }
  rewrite Hout, pct_text_app, pct_text_span by exact Hsafe.
  rewrite length_app in He.
  destruct Hrest as [->|(c & r & -> & Hc0)].
  - replace (end_ <=? curs + length span)%nat with true
      by (symmetry; apply Nat.leb_le; cbn in He; lia).
    cbn. rewrite app_nil_r. reflexivity.
  - replace (end_ <=? curs + length span)%nat with false
      by (symmetry; apply Nat.leb_gt; cbn in He; lia).
    assert (Hpk : peek buf (curs + length span) = c).
    { replace buf with ((pre ++ span) ++ c :: r ++ tail)
        by (subst buf; rewrite <- !app_assoc; reflexivity).
      subst curs. unfold peek.
      rewrite <- length_app, app_nth2, Nat.sub_diag by lia. reflexivity. }
    rewrite Hpk.
    rewrite (IH (pre ++ span ++ [c]) r tail buf end_ _ _).
    + cbn [pct_text flat_map].
      replace (pct_char A c) with (ch "%" :: fmt_02X true c)
        by (unfold pct_char; fold (safe_char c); rewrite Hc0; reflexivity).
      unfold pct_text. rewrite <- !app_assoc. reflexivity.
    + cbn in Hf. rewrite length_app in Hf. cbn in Hf. lia.
    + exact Ht.
    + subst buf. rewrite <- !app_assoc. reflexivity.
    + subst curs. rewrite ?length_app. cbn. lia.
    + subst curs. rewrite ?length_app in *. cbn in *. lia.
Qed.

End Spans.

Section PercentDecode.

Variable A : list Z.
Hypothesis percent_unsafe : mem (ch "%") A = false.

Lemma safe_char_plain c :
  safe_char A c = true -> c <> 0 /\ c <> ch "%".
Proof using percent_unsafe.
  unfold safe_char. intros H. apply andb_true_iff in H. destruct H as [H0 Hm].
  apply negb_true_iff, Z.eqb_neq in H0. split; [exact H0|].
  intros ->. rewrite percent_unsafe in Hm. discriminate.
Qed.

Lemma strchr_span_none span tail :
  Forall (fun c => safe_char A c = true) span -> nul_or_end tail ->
  Libc.strchr (span ++ tail) (ch "%") = None.
Proof using percent_unsafe.
  intros Hs Ht. induction Hs as [|c span Hc _ IH]; cbn [Libc.strchr app].
  - destruct Ht as [->|[t ->]]; reflexivity.
  - destruct (safe_char_plain c Hc) as [H0 Hp].
    apply Z.eqb_neq in H0, Hp. rewrite H0, Hp, IH. reflexivity.
Qed.

Lemma strchr_span_hit span x :
  Forall (fun c => safe_char A c = true) span ->
  Libc.strchr (span ++ ch "%" :: x) (ch "%") = Some (length span).
Proof using percent_unsafe.
  intros Hs. induction Hs as [|c span Hc _ IH]; cbn [Libc.strchr app length].
  - rewrite Z.eqb_refl. reflexivity.
  - destruct (safe_char_plain c Hc) as [H0 Hp].
    apply Z.eqb_neq in H0, Hp. rewrite H0, Hp, IH. reflexivity.
Qed.

(** The decoder loop inverts [pct_text]. *)
Lemma uri_percent_decode_loop_spec fuel :
  forall x pre tail buf end_ curs out,
    (length (pct_text A x) < fuel)%nat -> Forall is_byte x -> nul_or_end tail ->
    buf = pre ++ pct_text A x ++ tail -> curs = length pre ->
    end_ = (curs + length (pct_text A x))%nat ->
    uri_percent_decode_loop fuel buf end_ curs out = (0, out ++ x).
Proof using percent_unsafe.
  induction fuel as [|f IH]; intros x pre tail buf end_ curs out Hf Hx Ht Hb Hc He;
    [lia|].
  cbn [uri_percent_decode_loop].
  destruct (strspn_split A x) as (span & rest & Hs & _ & Hsafe & Hrest).
  subst x. rewrite pct_text_app, pct_text_span in * by exact Hsafe.
  assert (Hsk : skipn curs buf = (span ++ pct_text A rest) ++ tail).
  { subst buf curs. rewrite skipn_app, Nat.sub_diag, skipn_all. reflexivity. }
  rewrite Hsk. rewrite length_app in He, Hf.
  destruct Hrest as [->|(c & r & -> & Hc0)].
  - cbn [pct_text flat_map] in *. rewrite app_nil_r in *. cbn [length] in *.
    destruct (curs <? end_)%nat eqn:Elt.
    + rewrite strchr_span_none by assumption.
      apply Nat.ltb_lt in Elt.
      replace (end_ - curs)%nat with (length span) by lia.
      rewrite (take_str_span A) by exact Hsafe.
      replace (length span =? 0)%nat with false
        by (symmetry; apply Nat.eqb_neq; lia).
      replace (end_ <? curs + length span + 1)%nat with true
        by (symmetry; apply Nat.ltb_lt; lia).
      reflexivity.
    + apply Nat.ltb_ge in Elt. destruct span; [|cbn in He; lia].
      rewrite app_nil_r. reflexivity.
  - apply Forall_app in Hx. destruct Hx as [_ Hx].
    apply Forall_cons_iff in Hx. destruct Hx as [Hcb Hr].
    destruct (fmt_02X_strtoul c Hcb) as (h1 & h2 & Hfmt & Hstr & _).
    assert (Henc : pct_text A (c :: r) = ch "%" :: h1 :: h2 :: pct_text A r).
    { cbn [pct_text flat_map]. unfold pct_char at 1. fold (safe_char A c).
      rewrite Hc0, Hfmt. reflexivity. }
    rewrite Henc in *. cbn [length] in *.
    replace (curs <? end_)%nat with true by (symmetry; apply Nat.ltb_lt; lia).
    replace ((span ++ ch "%" :: h1 :: h2 :: pct_text A r) ++ tail)
      with (span ++ ch "%" :: (h1 :: h2 :: pct_text A r ++ tail))
      by (rewrite <- app_assoc; reflexivity).
    rewrite strchr_span_hit by exact Hsafe.
    replace (curs + length span - curs)%nat with (length span) by lia.
    rewrite (take_str_span A) by exact Hsafe.
    assert (Hout : (if (length span =? 0)%nat then out else out ++ span)
                   = out ++ span).
    { destruct span; cbn; [rewrite app_nil_r|]; reflexivity. }
    rewrite Hout.
    replace (end_ <? curs + length span + 1)%nat with false
      by (symmetry; apply Nat.ltb_ge; lia).
    unfold take_hex_1byte.
    replace (end_ <? curs + length span + 1 + 2)%nat with false
      by (symmetry; apply Nat.ltb_ge; lia).
    assert (Hbuf : buf = (pre ++ span ++ [ch "%"]) ++ h1 :: h2 :: pct_text A r ++ tail).
    { subst buf. rewrite <- !app_assoc. reflexivity. }
    assert (Hlen : (curs + length span + 1)%nat = length (pre ++ span ++ [ch "%"])).
    { subst curs. rewrite !length_app. cbn. lia. }
    assert (Hp1 : peek buf (curs + length span + 1) = h1).
    { rewrite Hlen, Hbuf. unfold peek.
      rewrite app_nth2, Nat.sub_diag by lia. reflexivity. }
    assert (Hp2 : peek buf (curs + length span + 1 + 1) = h2).
    { rewrite Hlen, Hbuf. unfold peek.
      rewrite app_nth2 by lia.
      replace (_ + 1 - _)%nat with 1%nat by lia. reflexivity. }
    rewrite Hp1, Hp2, Hstr. cbn [Nat.ltb Nat.leb].
    rewrite (Z.mod_small c 256) by exact Hcb.
    rewrite (IH r (pre ++ span ++ [ch "%"; h1; h2]) tail buf end_ _ _).
    + rewrite <- !app_assoc. reflexivity.
    + lia.
    + exact Hr.
    + exact Ht.
    + subst buf. rewrite <- !app_assoc. reflexivity.
    + subst curs. rewrite ?length_app. cbn. lia.
    + subst curs. rewrite ?length_app. cbn. lia.
Qed.

End PercentDecode.

Lemma text_real_len_snoc pre l :
  text_real_len (pre ++ [l]) = if l =? 0 then length pre else S (length pre).
Proof.
  unfold text_real_len. destruct (pre ++ [l]) eqn:E.
  - apply app_eq_nil in E. destruct E; discriminate.
  - rewrite <- E, last_last, length_app. cbn. destruct (l =? 0); lia.
Qed.

Lemma text_real_len_split b :
  exists tail,
    b = firstn (text_real_len b) b ++ tail
    /\ length (firstn (text_real_len b) b) = text_real_len b
    /\ nul_or_end tail /\ (tail = [] \/ tail = [0]).
Proof.
  pattern b. apply rev_ind; [|clear b; intros l pre _].
  - exists []. cbn. repeat split; auto. left. reflexivity.
  - rewrite text_real_len_snoc. destruct (l =? 0) eqn:E; zb.
    + exists [0]. subst l.
      rewrite firstn_app, Nat.sub_diag, firstn_all. cbn. rewrite app_nil_r.
      repeat split; auto. right. eauto.
    + exists []. replace (S (length pre)) with (length (pre ++ [l]))
        by (rewrite length_app; cbn; lia).
      rewrite firstn_all, app_nil_r.
      repeat split; auto. left. reflexivity.
Qed.

Lemma text_real_len_nonzero s :
  Forall (fun c => c <> 0) s ->
  text_real_len s = length s /\ text_real_len (s ++ [0]) = length s.
Proof.
  intros H. split; [|rewrite text_real_len_snoc; reflexivity].
  revert H. pattern s. apply rev_ind; [reflexivity|clear s; intros l pre _ H].
  rewrite text_real_len_snoc, length_app. cbn.
  apply Forall_app in H. destruct H as [_ H].
  apply Forall_cons_iff in H. destruct H as [H _].
  replace (l =? 0) with false by (symmetry; apply Z.eqb_neq; exact H). lia.
Qed.




(** ** ISO 8601 duration *)

Example timeperiod_ex1 :
  timeperiod_encode [] (mk_timespec 3661 500000000) = (0, cstr "PT1H1M1.5S")
  /\ timeperiod_encode [] (mk_timespec 0 0) = (0, cstr "PT0S")
  /\ timeperiod_encode [] (mk_timespec (-86400) 0) = (0, cstr "-P1DT")
  /\ timeperiod_encode [] (mk_timespec 90061 1000) = (0, cstr "P1DT1H1M1.000001S")
  /\ timeperiod_encode [] (mk_timespec 120 7) = (0, cstr "PT2M0.000000007S")
  /\ timeperiod_decode (cstr "PT1H1M1.5S") = Ok (mk_timespec 3661 500000000)
  /\ timeperiod_decode (cstr "-P1DT" ++ [0]) = Ok (mk_timespec (-86400) 0)
  /\ timeperiod_decode (cstr "P1DT1H1M1.000001S") = Ok (mk_timespec 90061 1000)
  /\ timeperiod_decode (cstr "PT2M0.000000007S") = Ok (mk_timespec 120 7)
  /\ timeperiod_decode (cstr "PT0S") = Ok (mk_timespec 0 0)
  /\ timeperiod_decode (cstr "PT1.0000000001S") = Err 2
  /\ timeperiod_decode (cstr "PT1Sx") = Err 3
  /\ timeperiod_decode (cstr "P1D") = Err 2.
Proof. vm_compute. repeat split. Qed.

Lemma sint64_small z : - 2 ^ 63 <= z < 2 ^ 63 -> sint64 z = z.
Proof. intros H. unfold sint64. rewrite Z.mod_small; lia. Qed.

Lemma uint64_small z : 0 <= z < 2 ^ 64 -> uint64 z = z.
Proof. intros H. unfold uint64. apply Z.mod_small. lia. Qed.

(** Strings of decimal digits. *)
Definition dec_string (ds : list Z) : Prop :=
  Forall (fun c => 48 <= c <= 57) ds.

Lemma dec_string_digit_string ds : dec_string ds -> digit_string 10 ds.
Proof.
  apply Forall_impl. intros c Hc. exists (c - 48). split; [lia|].
  unfold Libc.digit_val. chs.
  replace ((48 <=? c) && (c <=? 57)) with true by lia. reflexivity.
Qed.

Lemma to_digits_dec v : 0 <= v -> dec_string (Libc.to_digits false 10 v).
Proof.
  intros Hv.
  destruct (to_digits_spec false 10 ltac:(lia) ltac:(lia) v Hv) as (Hds & _).
  revert Hds. apply Forall_impl. intros c (d & Hd & Hc).
  unfold Libc.digit_val in Hc. chs.
  destruct ((48 <=? c) && (c <=? 57)) eqn:E1; [lia|].
  destruct ((97 <=? c) && (c <=? 122)) eqn:E2; [injection Hc; lia|].
  destruct ((65 <=? c) && (c <=? 90)) eqn:E3; [injection Hc; lia|discriminate].
Qed.

Lemma fmt_d_nonneg v : 0 <= v -> Libc.fmt_d v = Libc.to_digits false 10 v.
Proof.
  intros Hv. unfold Libc.fmt_d.
  replace (v <? 0) with false by lia. reflexivity.
Qed.

Lemma digits_value_zeros j ds acc :
  digits_value 10 acc (repeat (ch "0") j ++ ds)
  = digits_value 10 (acc * 10 ^ Z.of_nat j) ds.
Proof.
  revert acc. induction j as [|j IH]; intros acc.
  - cbn [repeat app]. f_equal. change (10 ^ Z.of_nat 0) with 1. lia.
  - cbn [repeat app]. unfold digits_value in *. cbn [fold_left].
    rewrite IH. f_equal. change (Libc.digit_val (ch "0")) with (Some 0).
    rewrite Nat2Z.inj_succ, Z.pow_succ_r by lia. ring.
Qed.

(** [strtoul] in base 10 on a non-empty digit string followed by
    something that is not a digit. *)
Lemma strtoul_dec_string ds rest :
  dec_string ds -> ds <> [] ->
  (forall c tl, rest = c :: tl -> ~ 48 <= c <= 57) ->
  digits_value 10 0 ds < 2 ^ 64 ->
  Libc.strtoul (ds ++ rest) 10 = (digits_value 10 0 ds, length ds).
Proof.
  intros Hds Hne Hrest Hv.
  destruct ds as [|c ds']; [contradiction|]. clear Hne.
  pose proof (Forall_inv Hds) as Hc. cbn beta in Hc.
  cbn [app]. rewrite (strtoul_plain 10).
  - change (c :: ds' ++ rest) with ((c :: ds') ++ rest).
    rewrite (parse_digits_app 10) by (apply dec_string_digit_string; exact Hds).
    assert (Hp : Libc.parse_digits 10 (digits_value 10 0 (c :: ds')) rest
                 = (digits_value 10 0 (c :: ds'), O)).
    { destruct rest as [|r tl]; [reflexivity|]. cbn [Libc.parse_digits].
      specialize (Hrest r tl eq_refl).
      unfold Libc.digit_val. chs.
      replace ((48 <=? r) && (r <=? 57)) with false by lia.
      destruct ((97 <=? r) && (r <=? 122)) eqn:E2.
      { replace (r - 97 + 10 <? 10) with false by lia. reflexivity. }
      destruct ((65 <=? r) && (r <=? 90)) eqn:E3; [|reflexivity].
      replace (r - 65 + 10 <? 10) with false by lia. reflexivity. }
    rewrite Hp. cbn [fst snd length Nat.add].
    replace (Libc.ULONG_MAX <? _) with false
      by (unfold Libc.ULONG_MAX; lia).
    rewrite Nat.add_0_r. reflexivity.
  - unfold Libc.isspace. lia.
  - chs. lia.
  - chs. lia.
  - right. split; [reflexivity|lia].
  - intros _ [C|C]; discriminate.
Qed.

Lemma strchr_none s tail c :
  Forall (fun x => x <> c) s -> nul_or_end tail -> c <> 0 ->
  Libc.strchr (s ++ tail) c = None.
Proof.
  intros Hs Ht Hc. induction Hs as [|x s Hx _ IH]; cbn [app Libc.strchr].
  - destruct Ht as [->|[t ->]]; [reflexivity|]. cbn [Libc.strchr].
    replace (0 =? c) with false by lia. reflexivity.
  - replace (x =? c) with false by lia. rewrite IH.
    destruct (x =? 0); reflexivity.
Qed.

Lemma strchr_hit s rest c :
  Forall (fun x => x <> c /\ x <> 0) s ->
  Libc.strchr (s ++ c :: rest) c = Some (length s).
Proof.
  intros Hs. induction Hs as [|x s [Hx H0] _ IH]; cbn [app Libc.strchr length].
  - rewrite Z.eqb_refl. reflexivity.
  - replace (x =? c) with false by lia. replace (x =? 0) with false by lia.
    rewrite IH. reflexivity.
Qed.

Lemma peek_skipn buf curs i : peek buf (curs + i) = peek (skipn curs buf) i.
Proof.
  unfold peek. revert buf. induction curs as [|n IH]; intros buf; [reflexivity|].
  destruct buf as [|b buf]; cbn [skipn Nat.add nth].
  - destruct i; reflexivity.
  - apply IH.
Qed.

Lemma skipn_skipn_app buf curs (piece rest : list Z) :
  skipn curs buf = piece ++ rest ->
  skipn (curs + length piece) buf = rest.
Proof.
  intros H. rewrite Nat.add_comm, <- skipn_skipn, H.
  rewrite skipn_app, Nat.sub_diag, skipn_all. reflexivity.
Qed.

Lemma digits_aux_length up base f : forall n k,
  2 <= base -> 0 <= n < base ^ Z.of_nat (S k) -> n < 2 ^ Z.of_nat (S f) ->
  (length (Libc.digits_aux (S f) up base n []) <= S k)%nat.
Proof.
  induction f as [|f IH]; intros n k Hb Hn Hf; rewrite digits_aux_snoc;
    destruct (n / base =? 0) eqn:E; zb; cbn [length]; try lia.
  - exfalso. change (2 ^ Z.of_nat 1) with 2 in Hf.
    assert (n / base = 0) by (apply Z.div_small; lia). lia.
  - rewrite length_app. cbn [length].
    destruct k as [|k].
    { exfalso. change (base ^ Z.of_nat 1) with (base ^ 1) in Hn.
      rewrite Z.pow_1_r in Hn.
      assert (n / base = 0) by (apply Z.div_small; lia). lia. }
    assert (Hq : 0 <= n / base < base ^ Z.of_nat (S k)).
    { split; [apply Z.div_pos; lia|].
      apply Z.div_lt_upper_bound; [lia|].
      rewrite (Nat2Z.inj_succ (S k)), Z.pow_succ_r in Hn by lia. lia. }
    assert (Hq2 : n / base < 2 ^ Z.of_nat (S f)).
    { apply Z.div_lt_upper_bound; [lia|].
      rewrite (Nat2Z.inj_succ (S f)), Z.pow_succ_r in Hf by lia. nia. }
    specialize (IH (n / base) k Hb Hq Hq2). lia.
Qed.

Lemma to_digits_length up base n k :
  2 <= base -> 0 <= n < base ^ Z.of_nat (S k) ->
  (length (Libc.to_digits up base n) <= S k)%nat.
Proof.
  intros Hb Hn. unfold Libc.to_digits. apply digits_aux_length; auto.
  rewrite Nat2Z.inj_succ, Z2Nat.id by apply Z.log2_nonneg.
  destruct (Z.eq_dec n 0) as [->|]; [cbn; lia|].
  apply Z.log2_spec. lia.
Qed.

(** The trimming loop of [subsec_encode] on a value below [10 ^ d]. *)
Lemma subsec_trim_spec fuel : forall s d,
  (Z.to_nat d <= fuel)%nat -> 0 < s < 10 ^ d -> 0 <= d ->
  let '(m, k) := subsec_trim fuel s d in
  m mod 10 <> 0 /\ 0 < m < 10 ^ k /\ s = m * 10 ^ (d - k) /\ 1 <= k <= d.
Proof.
  induction fuel as [|f IH]; intros s d Hf Hs Hd.
  - assert (d = 0) by lia. subst d. cbn in Hs. lia.
  - cbn [subsec_trim]. destruct (s mod 10 =? 0) eqn:E; zb.
    + assert (Hs10 : s = 10 * (s / 10)).
      { pose proof (Z.div_mod s 10 ltac:(lia)). lia. }
      assert (Hd1 : 1 <= d).
      { destruct (Z.eq_dec d 0) as [->|]; [cbn in Hs; lia|lia]. }
      assert (Hq : 0 < s / 10 < 10 ^ (d - 1)).
      { split; [lia|]. apply Z.div_lt_upper_bound; [lia|].
        rewrite <- Z.pow_succ_r by lia. replace (Z.succ (d - 1)) with d by lia.
        lia. }
      specialize (IH (s / 10) (d - 1) ltac:(lia) Hq ltac:(lia)).
      destruct (subsec_trim f (s / 10) (d - 1)) as [m k].
      destruct IH as (Hm & Hmk & Hsm & Hk).
      repeat split; try lia.
      rewrite Hs10, Hsm.
      replace (d - k) with (Z.succ (d - 1 - k)) by lia.
      rewrite Z.pow_succ_r by lia. ring.
    + repeat split; try lia.
      * rewrite Z.sub_diag. cbn. lia.
      * destruct (Z.eq_dec d 0) as [->|]; [cbn in Hs; lia|lia].
Qed.

(** The text [subsec_encode] appends for [0 < nsec < 10^9], and what
    [strtoul] and the padding loop of [subsec_decode] make of it. *)
Lemma subsec_encode_spec out nsec :
  0 < nsec < 10 ^ 9 ->
  exists frac,
    subsec_encode out nsec = (0, out ++ ch "." :: frac)
    /\ dec_string frac /\ (1 <= length frac <= 9)%nat
    /\ Nat.iter (9 - length frac) (fun s => uint64 (s * 10))
         (digits_value 10 0 frac) = nsec
    /\ digits_value 10 0 frac < 2 ^ 64.
Proof.
  intros Hn. unfold subsec_encode.
  replace (nsec =? 0) with false by lia.
  pose proof (subsec_trim_spec 20 nsec 9 ltac:(cbn; lia) Hn ltac:(lia)) as Ht.
  destruct (subsec_trim 20 nsec 9) as [m k].
  destruct Ht as (Hm & Hmk & Hs & Hk).
  assert (Hm9 : m < 10 ^ 9).
  { apply Z.lt_le_trans with (10 ^ k); [lia|]. apply Z.pow_le_mono_r; lia. }
  rewrite (Z.mod_small m (2 ^ 32)) by lia.
  eexists. split; [reflexivity|].
  unfold Libc.fmt_u, Libc.pad0.
  set (ds := Libc.to_digits false 10 m).
  assert (Hlen : (length ds <= Z.to_nat k)%nat).
  { destruct (Z.to_nat k) as [|k'] eqn:Ek; [lia|].
    apply to_digits_length; [lia|].
    rewrite <- Ek, Z2Nat.id by lia. lia. }
  destruct (to_digits_spec false 10 ltac:(lia) ltac:(lia) m ltac:(lia))
    as (_ & Hne & Hval & _). fold ds in Hne, Hval.
  assert (Hl : length (repeat (ch "0") (Z.to_nat k - length ds) ++ ds)
               = Z.to_nat k).
  { rewrite length_app, repeat_length. lia. }
  assert (Hv : digits_value 10 0
                 (repeat (ch "0") (Z.to_nat k - length ds) ++ ds) = m).
  { rewrite digits_value_zeros, Hval. lia. }
  repeat split.
  - apply Forall_app. split; [|apply to_digits_dec; lia].
    apply Forall_forall. intros x Hx. apply repeat_spec in Hx. subst x. chs. lia.
  - lia.
  - lia.
  - rewrite Hl, Hv.
    assert (Hit : forall j x, 0 <= x -> x * 10 ^ Z.of_nat j < 2 ^ 64 ->
              Nat.iter j (fun s => uint64 (s * 10)) x = x * 10 ^ Z.of_nat j).
    { induction j as [|j IHj]; intros x Hx Hb.
      - cbn. lia.
      - rewrite Nat2Z.inj_succ, Z.pow_succ_r in Hb by lia.
        rewrite Nat2Z.inj_succ, Z.pow_succ_r by lia.
        assert (0 < 10 ^ Z.of_nat j) by (apply Z.pow_pos_nonneg; lia).
        rewrite Nat.iter_succ, IHj by nia. rewrite uint64_small by nia. ring. }
    assert (Hk9 : Z.of_nat (9 - Z.to_nat k) = 9 - k) by lia.
    rewrite Hit; rewrite ?Hk9; try lia.
  - rewrite Hv. lia.
Qed.

(** The text of one optional unit of a duration. *)
Definition tp_part (letter : Z) (present : bool) (v : Z) : list Z :=
  if present then Libc.fmt_d v ++ [letter] else [].

Lemma timeperiod_encode_part_spec U L f out :
  0 < U -> 0 <= f ->
  timeperiod_encode_part U L f out
  = (f mod U, out ++ tp_part L (U <=? f) (f / U)).
Proof.
  intros HU Hf. unfold timeperiod_encode_part, tp_part.
  destruct (U <=? f) eqn:E; zb.
  - rewrite Z.quot_div_nonneg, Z.rem_mod_nonneg by lia. reflexivity.
  - rewrite Z.mod_small, app_nil_r by lia. reflexivity.
Qed.

Lemma to_digits_plain v c :
  0 <= v -> ~ 48 <= c <= 57 ->
  Forall (fun x => x <> c /\ x <> 0) (Libc.to_digits false 10 v).
Proof.
  intros Hv Hc. pose proof (to_digits_dec v Hv) as H.
  revert H. apply Forall_impl. intros x Hx. lia.
Qed.

Lemma to_digits_value v :
  0 <= v -> digits_value 10 0 (Libc.to_digits false 10 v) = v.
Proof.
  intros Hv.
  destruct (to_digits_spec false 10 ltac:(lia) ltac:(lia) v Hv)
    as (_ & _ & Hval & _).
  rewrite Hval. lia.
Qed.

Lemma to_digits_nonempty v : 0 <= v -> Libc.to_digits false 10 v <> [].
Proof.
  intros Hv.
  destruct (to_digits_spec false 10 ltac:(lia) ltac:(lia) v Hv) as (_ & H & _).
  exact H.
Qed.

Lemma timeperiod_decode_part_spec buf U L f curs present v rest :
  skipn curs buf = tp_part L present v ++ rest ->
  Libc.strchr rest L = None ->
  ~ 48 <= L <= 57 -> L <> 0 ->
  0 <= v -> 0 <= U -> 0 <= f -> f + U * v < 2 ^ 63 -> v < 2 ^ 63 ->
  (present = false -> v = 0) ->
  timeperiod_decode_part buf U L f curs
  = Ok (f + U * v, (curs + length (tp_part L present v))%nat).
Proof.
  intros Hsk Hrest HL HL0 Hv HU Hf Hb Hv63 Hp.
  unfold timeperiod_decode_part. rewrite Hsk. unfold tp_part in *.
  destruct present.
  - rewrite fmt_d_nonneg in * by exact Hv. rewrite <- app_assoc. cbn [app].
    rewrite strchr_hit by (apply to_digits_plain; assumption).
    rewrite strtoul_dec_string.
    + rewrite to_digits_value by exact Hv.
      pose proof (to_digits_nonempty v Hv) as Hne.
      destruct (Libc.to_digits false 10 v) as [|d ds]; [contradiction|].
      cbn [length Nat.eqb].
      rewrite (uint64_small f), (uint64_small (U * v)), sint64_small by nia.
      f_equal. f_equal. rewrite length_app. cbn. lia.
    + apply to_digits_dec. exact Hv.
    + apply to_digits_nonempty. exact Hv.
    + intros c tl [= <- _]. exact HL.
    + rewrite to_digits_value by exact Hv. lia.
  - cbn [app] in *. rewrite Hrest, (Hp eq_refl). cbn [length].
    f_equal. f_equal; lia.
Qed.

(** The optional fraction of the seconds of a duration. *)
Definition frac_text (nsec : Z) (fp : list Z) : Prop :=
  (nsec = 0 /\ fp = [])
  \/ exists frac,
       fp = ch "." :: frac /\ dec_string frac /\ (1 <= length frac <= 9)%nat
       /\ Nat.iter (9 - length frac) (fun s => uint64 (s * 10))
            (digits_value 10 0 frac) = nsec
       /\ digits_value 10 0 frac < 2 ^ 64.

(** The seconds of a duration: absent when both parts are zero. *)
Inductive secs_text (s nsec : Z) : list Z -> Prop :=
| secs_none : s = 0 -> nsec = 0 -> secs_text s nsec []
| secs_some fp :
    frac_text nsec fp ->
    secs_text s nsec (Libc.fmt_d s ++ fp ++ [ch "S"]).

Lemma frac_text_plain nsec fp c :
  frac_text nsec fp -> ~ 48 <= c <= 57 -> c <> ch "." ->
  Forall (fun x => x <> c /\ x <> 0) fp.
Proof.
  intros [[_ ->]|(frac & -> & Hd & _)] Hc Hdot; constructor.
  - split; [congruence|discriminate].
  - revert Hd. apply Forall_impl. intros x Hx. lia.
Qed.

Lemma subsec_decode_spec buf curs nsec fp rest :
  skipn curs buf = fp ++ ch "S" :: rest ->
  frac_text nsec fp ->
  subsec_decode buf 0 curs (curs + length fp) = Ok (nsec, (curs + length fp)%nat).
Proof.
  intros Hsk [[-> ->]|(frac & -> & Hd & Hlen & Hit & Hv)]; unfold subsec_decode.
  - cbn [length]. rewrite Nat.add_0_r, Nat.eqb_refl. reflexivity.
  - cbn [length].
    replace (curs =? curs + S (length frac))%nat with false
      by (symmetry; apply Nat.eqb_neq; lia).
    rewrite <- (Nat.add_0_r curs) at 1. rewrite peek_skipn, Hsk.
    change (peek ((ch "." :: frac) ++ ch "S" :: rest) 0) with (ch ".").
    rewrite Z.eqb_refl. cbn [negb].
    replace (S curs <? curs + S (length frac))%nat with true
      by (symmetry; apply Nat.ltb_lt; lia).
    assert (Hsk' : skipn (S curs) buf = frac ++ ch "S" :: rest).
    { replace (S curs) with (curs + length [ch "."])%nat by (cbn; lia).
      apply skipn_skipn_app. rewrite Hsk. reflexivity. }
    rewrite Hsk', strtoul_dec_string; auto.
    + replace (length frac =? 0)%nat with false
        by (symmetry; apply Nat.eqb_neq; lia).
      replace (9 <? length frac)%nat with false
        by (symmetry; apply Nat.ltb_ge; lia).
      rewrite Hit. f_equal. f_equal. lia.
    + intros C. subst frac. cbn in Hlen. lia.
    + intros c tl [= <- _]. chs. lia.
Qed.

Lemma timeperiod_decode_seconds_spec buf f curs s nsec secs tail :
  skipn curs buf = secs ++ tail ->
  secs_text s nsec secs -> nul_or_end tail ->
  0 <= s < 2 ^ 62 -> 0 <= f -> f + s < 2 ^ 63 ->
  timeperiod_decode_seconds buf f 0 curs
  = Ok (f + s, nsec, (curs + length secs)%nat).
Proof.
  intros Hsk Hsecs Ht Hs Hf Hb. unfold timeperiod_decode_seconds.
  rewrite Hsk. destruct Hsecs as [-> ->|fp Hfp].
  - change ([] ++ tail) with (@nil Z ++ tail).
    rewrite strchr_none; auto; [|chs; lia].
    cbn [length]. f_equal. f_equal; [f_equal|]; lia.
  - rewrite fmt_d_nonneg in * by lia.
    set (ds := Libc.to_digits false 10 s) in *.
    assert (Hplain : Forall (fun x => x <> ch "S" /\ x <> 0) (ds ++ fp)).
    { apply Forall_app. split.
      - apply to_digits_plain; [lia|chs; lia].
      - apply (frac_text_plain nsec); [exact Hfp|chs; lia|chs; lia]. }
    replace ((ds ++ fp ++ [ch "S"]) ++ tail) with ((ds ++ fp) ++ ch "S" :: tail)
      by (rewrite <- !app_assoc; reflexivity).
    rewrite strchr_hit by exact Hplain.
    rewrite <- app_assoc, strtoul_dec_string.
    + replace (digits_value 10 0 ds) with s
        by (unfold ds; rewrite to_digits_value; lia).
      pose proof (to_digits_nonempty s ltac:(lia)) as Hne. fold ds in Hne.
      replace (length ds =? 0)%nat with false
        by (symmetry; apply Nat.eqb_neq; destruct ds; [contradiction|cbn; lia]).
      rewrite length_app, Nat.add_assoc.
      rewrite (subsec_decode_spec buf (curs + length ds) nsec fp tail); auto.
      * rewrite uint64_small, sint64_small by lia.
        f_equal. f_equal. rewrite !length_app. cbn. lia.
      * apply skipn_skipn_app. rewrite Hsk, <- !app_assoc. reflexivity.
    + apply to_digits_dec. lia.
    + apply to_digits_nonempty. lia.
    + intros c tl Hc.
      destruct Hfp as [[_ ->]|(frac & -> & _)]; injection Hc as <- _; chs; lia.
    + unfold ds. rewrite to_digits_value by lia. lia.
Qed.

(** Texts made of decimal digits and of the given letters. *)
Definition chars_in (letters s : list Z) : Prop :=
  Forall (fun x => 48 <= x <= 57 \/ In x letters) s.

Lemma chars_in_part letters L p v :
  0 <= v -> In L letters -> chars_in letters (tp_part L p v).
Proof.
  intros Hv HL. unfold tp_part. destruct p; [|constructor].
  rewrite fmt_d_nonneg by exact Hv. apply Forall_app. split.
  - pose proof (to_digits_dec v Hv) as H. revert H.
    apply Forall_impl. intros x Hx. left. exact Hx.
  - constructor; [right; exact HL|constructor].
Qed.

Lemma chars_in_secs letters s nsec secs :
  0 <= s -> secs_text s nsec secs ->
  In (ch ".") letters -> In (ch "S") letters -> chars_in letters secs.
Proof.
  intros Hs Hsecs Hdot HS. destruct Hsecs as [|fp Hfp]; [constructor|].
  rewrite fmt_d_nonneg by exact Hs. repeat (apply Forall_app; split).
  - pose proof (to_digits_dec s Hs) as H. revert H.
    apply Forall_impl. intros x Hx. left. exact Hx.
  - destruct Hfp as [[_ ->]|(frac & -> & Hd & _)]; constructor.
    + right. exact Hdot.
    + revert Hd. apply Forall_impl. intros x Hx. left. exact Hx.
  - constructor; [right; exact HS|constructor].
Qed.

Lemma chars_in_neq letters s c :
  chars_in letters s -> ~ 48 <= c <= 57 -> ~ In c letters ->
  Forall (fun x => x <> c) s.
Proof.
  intros H Hc Hn. revert H. apply Forall_impl.
  intros x [Hx|Hx] ->; [apply Hc, Hx|apply Hn, Hx].
Qed.

Lemma chars_in_nonzero letters s :
  chars_in letters s -> ~ In 0 letters -> Forall (fun x => x <> 0) s.
Proof. intros H Hn. apply (chars_in_neq letters); auto. lia. Qed.

Lemma peek_of_skipn buf c x r : skipn c buf = x :: r -> peek buf c = x.
Proof.
  intros H. rewrite <- (Nat.add_0_r c), peek_skipn, H. reflexivity.
Qed.

Lemma skipn_S_of (buf : list Z) c x r :
  skipn c buf = x :: r -> skipn (S c) buf = r.
Proof.
  intros H. replace (S c) with (c + length [x])%nat by (cbn; lia).
  apply skipn_skipn_app. rewrite H. reflexivity.
Qed.

(** The text [timeperiod_encode] produces for a non-zero duration. *)
Lemma timeperiod_encode_shape sec nsec :
  - 2 ^ 62 < sec < 2 ^ 62 -> 0 <= nsec < 10 ^ 9 ->
  ~ (sec = 0 /\ nsec = 0) ->
  let a := Z.abs sec in
  let r1 := a mod TIMEPERIOD_DAY in
  let r2 := r1 mod TIMEPERIOD_HOUR in
  let s := r2 mod TIMEPERIOD_MINUTE in
  exists secs,
    secs_text s nsec secs
    /\ timeperiod_encode [] (mk_timespec sec nsec)
       = (0, (if sec <? 0 then [ch "-"] else [])
             ++ ch "P" :: tp_part (ch "D") (TIMEPERIOD_DAY <=? a) (a / TIMEPERIOD_DAY)
             ++ ch "T" :: tp_part (ch "H") (TIMEPERIOD_HOUR <=? r1) (r1 / TIMEPERIOD_HOUR)
             ++ tp_part (ch "M") (TIMEPERIOD_MINUTE <=? r2) (r2 / TIMEPERIOD_MINUTE)
             ++ secs).
Proof.
  intros Hsec Hnsec Hnz a r1 r2 s.
  assert (Hr1 : 0 <= r1 < TIMEPERIOD_DAY)
    by (apply Z.mod_pos_bound; reflexivity).
  assert (Hr2 : 0 <= r2 < TIMEPERIOD_HOUR)
    by (apply Z.mod_pos_bound; reflexivity).
  assert (Hs : 0 <= s < TIMEPERIOD_MINUTE)
    by (apply Z.mod_pos_bound; reflexivity).
  unfold timeperiod_encode. cbn [tv_sec tv_nsec].
  replace ((sec =? 0) && (nsec =? 0)) with false by lia.
  rewrite uint64_small by lia.
  assert (Hfull : (if sec <? 0 then (sint64 (- sec), [] ++ [ch "-"]) else (sec, []))
                  = (a, if sec <? 0 then [ch "-"] else [])).
  { unfold a. destruct (sec <? 0) eqn:E; zb.
    - rewrite sint64_small by lia. f_equal. lia.
    - f_equal. lia. }
  rewrite Hfull.
  rewrite timeperiod_encode_part_spec by (try reflexivity; unfold a; lia).
  fold r1.
  rewrite timeperiod_encode_part_spec by (try reflexivity; lia). fold r2.
  rewrite timeperiod_encode_part_spec by (try reflexivity; lia). fold s.
  destruct (negb (s =? 0) || negb (nsec =? 0)) eqn:E.
  - destruct (Z.eq_dec nsec 0) as [->|Hn0].
    + exists (Libc.fmt_d s ++ [] ++ [ch "S"]). split.
      * constructor. left. auto.
      * cbn [subsec_encode Z.eqb]. rewrite <- !app_assoc. reflexivity.
    + match goal with
      | |- context [subsec_encode ?o nsec] =>
          destruct (subsec_encode_spec o nsec ltac:(lia))
            as (frac & Henc & Hd & Hl & Hit & Hv)
      end.
      exists (Libc.fmt_d s ++ (ch "." :: frac) ++ [ch "S"]). split.
      * constructor. right. exists frac. auto.
      * rewrite <- !app_assoc in Henc. rewrite <- !app_assoc.
        cbn [app] in *. rewrite Henc.
        repeat (rewrite <- app_assoc || rewrite <- app_comm_cons). reflexivity.
  - exists []. split.
    + constructor; lia.
    + rewrite <- !app_assoc. cbn [app]. rewrite app_nil_r. reflexivity.
Qed.

(** [timeperiod_decode] reads back the text of a non-zero duration. *)
Lemma timeperiod_decode_shape sec nsec secs tail :
  - 2 ^ 62 < sec < 2 ^ 62 -> 0 <= nsec < 10 ^ 9 ->
  let a := Z.abs sec in
  let r1 := a mod TIMEPERIOD_DAY in
  let r2 := r1 mod TIMEPERIOD_HOUR in
  let s := r2 mod TIMEPERIOD_MINUTE in
  secs_text s nsec secs ->
  tail = [] \/ tail = [0] ->
  timeperiod_decode
    (((if sec <? 0 then [ch "-"] else [])
      ++ ch "P" :: tp_part (ch "D") (TIMEPERIOD_DAY <=? a) (a / TIMEPERIOD_DAY)
      ++ ch "T" :: tp_part (ch "H") (TIMEPERIOD_HOUR <=? r1) (r1 / TIMEPERIOD_HOUR)
      ++ tp_part (ch "M") (TIMEPERIOD_MINUTE <=? r2) (r2 / TIMEPERIOD_MINUTE)
      ++ secs) ++ tail)
  = Ok (mk_timespec sec nsec).
Proof.
  intros Hsec Hnsec a r1 r2 s Hsecs Htail.
  assert (Ha : 0 <= a < 2 ^ 62) by (unfold a; lia).
  assert (Hr1 : 0 <= r1 < TIMEPERIOD_DAY)
    by (apply Z.mod_pos_bound; reflexivity).
  assert (Hr2 : 0 <= r2 < TIMEPERIOD_HOUR)
    by (apply Z.mod_pos_bound; reflexivity).
  assert (Hs : 0 <= s < TIMEPERIOD_MINUTE)
    by (apply Z.mod_pos_bound; reflexivity).
  pose proof (Z.div_mod a TIMEPERIOD_DAY ltac:(discriminate)) as Ea.
  pose proof (Z.div_mod r1 TIMEPERIOD_HOUR ltac:(discriminate)) as E1.
  pose proof (Z.div_mod r2 TIMEPERIOD_MINUTE ltac:(discriminate)) as E2.
  fold r1 in Ea. fold r2 in E1. fold s in E2.
  set (vd := a / TIMEPERIOD_DAY) in *.
  set (vh := r1 / TIMEPERIOD_HOUR) in *.
  set (vm := r2 / TIMEPERIOD_MINUTE) in *.
  assert (Hvd : 0 <= vd) by (apply Z.div_pos; [lia|reflexivity]).
  assert (Hvh : 0 <= vh) by (apply Z.div_pos; [lia|reflexivity]).
  assert (Hvm : 0 <= vm) by (apply Z.div_pos; [lia|reflexivity]).
  assert (Hpd : (TIMEPERIOD_DAY <=? a) = false -> vd = 0)
    by (intros; apply Z.div_small; lia).
  assert (Hph : (TIMEPERIOD_HOUR <=? r1) = false -> vh = 0)
    by (intros; apply Z.div_small; lia).
  assert (Hpm : (TIMEPERIOD_MINUTE <=? r2) = false -> vm = 0)
    by (intros; apply Z.div_small; lia).
  set (pD := tp_part (ch "D") (TIMEPERIOD_DAY <=? a) vd) in *.
  set (pH := tp_part (ch "H") (TIMEPERIOD_HOUR <=? r1) vh) in *.
  set (pM := tp_part (ch "M") (TIMEPERIOD_MINUTE <=? r2) vm) in *.
  assert (Hnt : nul_or_end tail)
    by (destruct Htail as [->| ->]; [left|right; eexists]; reflexivity).
  assert (HcD : chars_in [ch "D"] pD) by (apply chars_in_part; cbn; auto).
  assert (HcH : chars_in [ch "H"; ch "M"; ch "."; ch "S"] pH)
    by (apply chars_in_part; cbn; auto).
  assert (HcM : chars_in [ch "M"; ch "."; ch "S"] pM)
    by (apply chars_in_part; cbn; auto).
  assert (HcS : chars_in [ch "."; ch "S"] secs)
    by (apply (chars_in_secs _ s nsec); cbn; auto; lia).
  assert (Hwiden : forall l1 l2 x, chars_in l1 x -> incl l1 l2 -> chars_in l2 x).
  { intros l1 l2 x H Hi. revert H. apply Forall_impl.
    intros y [Hy|Hy]; [left; exact Hy|right; apply Hi, Hy]. }
  set (all := [ch "-"; ch "P"; ch "D"; ch "T"; ch "H"; ch "M"; ch "."; ch "S"]).
  set (enc := (if sec <? 0 then [ch "-"] else [])
              ++ ch "P" :: pD ++ ch "T" :: pH ++ pM ++ secs).
  assert (Hall : chars_in all enc).
  { unfold enc. apply Forall_app. split.
    { destruct (sec <? 0); [|constructor].
      constructor; [right; cbn; auto|constructor]. }
    constructor; [right; cbn; auto|].
    apply Forall_app. split.
    { apply (Hwiden _ _ _ HcD). intros x [<-|[]]. cbn. auto 10. }
    constructor; [right; cbn; auto 10|].
    apply Forall_app. split.
    { apply (Hwiden _ _ _ HcH). intros x Hx. cbn in *. intuition. }
    apply Forall_app. split.
    { apply (Hwiden _ _ _ HcM). intros x Hx. cbn in *. intuition. }
    apply (Hwiden _ _ _ HcS). intros x Hx. cbn in *. intuition. }
  assert (Hlen : text_real_len (enc ++ tail) = length enc).
  { assert (Hnz : Forall (fun x => x <> 0) enc).
    { apply (chars_in_nonzero all); [exact Hall|].
      cbn. chs. intuition discriminate. }
    destruct (text_real_len_nonzero enc Hnz) as [L1 L2].
    destruct Htail as [->| ->]; [rewrite app_nil_r|]; assumption. }
  unfold timeperiod_decode. rewrite Hlen.
  set (R4 := secs ++ tail).
  set (R3 := pM ++ R4).
  set (R2 := pH ++ R3).
  set (R1 := pD ++ ch "T" :: R2).
  assert (Hbuf : enc ++ tail = (if sec <? 0 then [ch "-"] else []) ++ ch "P" :: R1).
  { unfold enc, R1, R2, R3, R4.
    repeat (rewrite <- app_assoc || rewrite <- app_comm_cons). reflexivity. }
  assert (HnoD : Libc.strchr (ch "T" :: R2) (ch "D") = None).
  { replace (ch "T" :: R2) with ((ch "T" :: pH ++ pM ++ secs) ++ tail)
      by (unfold R2, R3, R4; cbn [app]; rewrite <- !app_assoc; reflexivity).
    apply strchr_none; [|exact Hnt|chs; lia].
    apply (chars_in_neq [ch "T"; ch "H"; ch "M"; ch "."; ch "S"]);
      [|chs; lia|cbn; chs; intuition discriminate].
    constructor; [right; cbn; auto|].
    repeat (apply Forall_app; split).
    - apply (Hwiden _ _ _ HcH). intros x Hx. cbn in *. intuition.
    - apply (Hwiden _ _ _ HcM). intros x Hx. cbn in *. intuition.
    - apply (Hwiden _ _ _ HcS). intros x Hx. cbn in *. intuition. }
  assert (HnoH : Libc.strchr R3 (ch "H") = None).
  { replace R3 with ((pM ++ secs) ++ tail)
      by (unfold R3, R4; rewrite <- !app_assoc; reflexivity).
    apply strchr_none; [|exact Hnt|chs; lia].
    apply (chars_in_neq [ch "M"; ch "."; ch "S"]);
      [|chs; lia|cbn; chs; intuition discriminate].
    apply Forall_app; split; [exact HcM|].
    apply (Hwiden _ _ _ HcS). intros x Hx. cbn in *. intuition. }
  assert (HnoM : Libc.strchr R4 (ch "M") = None).
  { unfold R4. apply strchr_none; [|exact Hnt|chs; lia].
    apply (chars_in_neq [ch "."; ch "S"]);
      [exact HcS|chs; lia|cbn; chs; intuition discriminate]. }
  rewrite Hbuf. set (buf := _ ++ ch "P" :: R1) in *.
  assert (Hstart : exists c0,
    (peek buf 0 =? ch "-") = (sec <? 0)
    /\ (if (peek buf 0 =? ch "-") || (peek buf 0 =? ch "+") then 1%nat else O) = c0
    /\ peek buf c0 = ch "P" /\ skipn (S c0) buf = R1).
  { unfold buf. destruct (sec <? 0); [exists 1%nat|exists O]; repeat split. }
  destruct Hstart as (c0 & Hsign & Hc0 & HP & Hsk1).
  rewrite Hc0, HP, Hsign, Z.eqb_refl. cbn [negb].
  rewrite (timeperiod_decode_part_spec buf _ _ 0 (S c0)
             (TIMEPERIOD_DAY <=? a) vd (ch "T" :: R2) Hsk1);
    auto; try lia; try (chs; lia);
    try (unfold TIMEPERIOD_DAY, TIMEPERIOD_HOUR, TIMEPERIOD_MINUTE in *; lia).
  fold pD.
  assert (Hsk2 : skipn (S c0 + length pD) buf = ch "T" :: R2)
    by (apply skipn_skipn_app; exact Hsk1).
  rewrite (peek_of_skipn _ _ _ _ Hsk2), Z.eqb_refl. cbn [negb].
  pose proof (skipn_S_of _ _ _ _ Hsk2) as Hsk3.
  rewrite (timeperiod_decode_part_spec buf _ _ _ _
             (TIMEPERIOD_HOUR <=? r1) vh R3 Hsk3);
    auto; try lia; try (chs; lia); try (unfold TIMEPERIOD_DAY, TIMEPERIOD_HOUR in *; lia).
  fold pH.
  assert (Hsk4 : skipn (S (S c0 + length pD) + length pH) buf = R3)
    by (apply skipn_skipn_app; exact Hsk3).
  rewrite (timeperiod_decode_part_spec buf _ _ _ _
             (TIMEPERIOD_MINUTE <=? r2) vm R4 Hsk4);
    auto; try lia; try (chs; lia);
    try (unfold TIMEPERIOD_DAY, TIMEPERIOD_HOUR, TIMEPERIOD_MINUTE in *; lia).
  fold pM.
  assert (Hsk5 : skipn (S (S c0 + length pD) + length pH + length pM) buf = R4)
    by (apply skipn_skipn_app; exact Hsk4).
  rewrite (timeperiod_decode_seconds_spec buf _ _ s nsec secs tail Hsk5);
    auto; try lia;
    try (unfold TIMEPERIOD_DAY, TIMEPERIOD_HOUR, TIMEPERIOD_MINUTE in *; lia).
  assert (Hsk6 : skipn (S (S c0 + length pD) + length pH + length pM + length secs)
                   buf = tail)
    by (apply skipn_skipn_app; exact Hsk5).
  assert (Hend : (S (S c0 + length pD) + length pH + length pM + length secs
                  <? length enc)%nat = false).
  { apply Nat.ltb_ge.
    pose proof (f_equal (@length Z) Hsk6) as Hl.
    rewrite length_skipn, <- Hbuf, length_app in Hl. lia. }
  rewrite Hend.
  assert (Hsum : 0 + TIMEPERIOD_DAY * vd + TIMEPERIOD_HOUR * vh
                 + TIMEPERIOD_MINUTE * vm + s = a) by lia.
  rewrite Hsum, (sint64_small nsec) by lia.
  f_equal. f_equal. unfold a in *.
  destruct (sec <? 0) eqn:E; zb; [rewrite sint64_small by lia|]; lia.
Qed.

(** C7. For every [timespec] with [|tv_sec| < 2^62] and
    [0 <= tv_nsec < 10^9], [timeperiod_encode] returns zero and
    [timeperiod_decode] of the text it produced (with or without a
    terminator) returns zero and yields exactly that [timespec]; the
    zero duration is encoded as the text [PT0S]. *)
Theorem timeperiod_roundtrip (td : timespec) :
  - 2 ^ 62 < tv_sec td < 2 ^ 62 ->
  0 <= tv_nsec td < 10 ^ 9 ->
  (exists text,
     timeperiod_encode [] td = (0, text)
     /\ timeperiod_decode text = Ok td
     /\ timeperiod_decode (text ++ [0]) = Ok td)
  /\ timeperiod_encode [] (mk_timespec 0 0) = (0, cstr "PT0S").
Proof.
  intros Hsec Hnsec. split; [|reflexivity].
  destruct td as [sec nsec]. cbn [tv_sec tv_nsec] in *.
  destruct (Z.eq_dec sec 0) as [Hs0|Hs0];
    [destruct (Z.eq_dec nsec 0) as [Hn0|Hn0]|].
  - subst. exists (cstr "PT0S"). repeat split.
  - destruct (timeperiod_encode_shape sec nsec Hsec Hnsec ltac:(lia))
      as (secs & Hsecs & Henc).
    eexists. split; [exact Henc|]. split.
    + rewrite <- (app_nil_r (_ ++ _)).
      apply timeperiod_decode_shape; auto.
    + apply timeperiod_decode_shape; auto.
  - destruct (timeperiod_encode_shape sec nsec Hsec Hnsec ltac:(lia))
      as (secs & Hsecs & Henc).
    eexists. split; [exact Henc|]. split.
    + rewrite <- (app_nil_r (_ ++ _)).
      apply timeperiod_decode_shape; auto.
    + apply timeperiod_decode_shape; auto.
Qed.

Lemma timeperiod_roundtrip_witness :
  (exists text,
     timeperiod_encode [] (mk_timespec (-90061) 250000000) = (0, text)
     /\ timeperiod_decode text = Ok (mk_timespec (-90061) 250000000)
     /\ timeperiod_decode (text ++ [0]) = Ok (mk_timespec (-90061) 250000000))
  /\ timeperiod_encode [] (mk_timespec 0 0) = (0, cstr "PT0S").
Proof.
  apply (timeperiod_roundtrip (mk_timespec (-90061) 250000000)); cbn; lia.
Defined.

(** ** Type registry *)

Section TypeRegistryFacts.

Variable type_code : ari_type_t -> Z.
Hypothesis type_code_inj : forall a b, type_code a = type_code b -> a = b.

Lemma ari_type_eqb_eq a b : ari_type_eqb a b = true <-> a = b.
Proof. split; [destruct a, b; (reflexivity || discriminate)|intros ->; destruct b; reflexivity]. Qed.

Lemma type_code_eqb a b : (type_code a =? type_code b) = ari_type_eqb a b.
Proof using type_code_inj.
  destruct (ari_type_eqb a b) eqn:E.
  - apply ari_type_eqb_eq in E. subst. apply Z.eqb_refl.
  - apply Z.eqb_neq. intros C. apply type_code_inj in C.
    apply ari_type_eqb_eq in C. congruence.
Qed.

(** With distinct enumerator values the identifier dictionary holds the
    table as it is. *)
Lemma _ari_type_id_dict_table :
  _ari_type_id_dict type_code
  = map (fun p => (type_code (fst p), snd p)) _ari_type_names.
Proof using type_code_inj.
  unfold _ari_type_id_dict, _ari_type_names.
  repeat (cbn [fold_left dict_set_at fst snd map ari_type_eqb];
          rewrite ?type_code_eqb).
  reflexivity.
Qed.

Lemma dict_get_table tbl typenum :
  dict_get Z.eqb (map (fun p => (type_code (fst p), snd p)) tbl) typenum
  = ari_type_to_name_loop type_code tbl typenum.
Proof.
  induction tbl as [|[t n] tbl IH]; [reflexivity|].
  cbn [map dict_get ari_type_to_name_loop fst snd]. rewrite IH. reflexivity.
Qed.

(** Both implementations of [ari_type_to_name] agree on every integer,
    the registered name for a registered code and nothing otherwise. *)
Lemma ari_type_to_name_lut_scan typenum :
  ari_type_to_name_lut type_code typenum = ari_type_to_name_scan type_code typenum.
Proof using type_code_inj.
  unfold ari_type_to_name_lut, ari_type_to_name_scan.
  rewrite _ari_type_id_dict_table. apply dict_get_table.
Qed.

Lemma ari_type_to_name_registered t name :
  In (t, name) _ari_type_names ->
  ari_type_to_name_scan type_code (type_code t) = Some name.
Proof using type_code_inj.
  intros H. unfold ari_type_to_name_scan, _ari_type_names in *.
  cbn [ari_type_to_name_loop]. rewrite !type_code_eqb.
  cbn [In] in H.
  repeat (destruct H as [[= <- <-]|H]; [reflexivity|]). contradiction.
Qed.

Lemma ari_type_to_name_unregistered typenum :
  (forall t, type_code t <> typenum) ->
  ari_type_to_name_scan type_code typenum = None.
Proof.
  intros H. unfold ari_type_to_name_scan, _ari_type_names.
  cbn [ari_type_to_name_loop].
  repeat match goal with
  | |- context [type_code ?t =? typenum] =>
      replace (type_code t =? typenum) with false
        by (symmetry; apply Z.eqb_neq; apply H)
  end.
  reflexivity.
Qed.

End TypeRegistryFacts.

(** C4 (the linear-scan build departs from it).  For every numbering of
    the enumerators and every initial content [tn] of [*typenum]: on the
    registered name [bool] the dictionary implementation stores the code
    of BOOL and returns zero, while the linear scan returns that code as
    its status and stores nothing; on the unknown name [nope] the
    dictionary implementation returns one and the linear scan zero. *)
Theorem ari_type_from_name_scan_diverges (type_code : ari_type_t -> Z) (tn : Z) :
  ari_type_from_name_lut type_code (Some tn) (Some (cstr "bool"))
    = (0, Some (type_code ARI_TYPE_BOOL))
  /\ ari_type_from_name_scan type_code (Some tn) (Some (cstr "bool"))
    = (type_code ARI_TYPE_BOOL, Some tn)
  /\ ari_type_from_name_lut type_code (Some tn) (Some (cstr "nope")) = (1, Some tn)
  /\ ari_type_from_name_scan type_code (Some tn) (Some (cstr "nope")) = (0, Some tn).
Proof. repeat split. Qed.

(** ** Text encoder *)

(** The values of the enumerators in the IANA registry of literal and
    managed object types: one admissible numbering, used to instantiate
    statements that hold for every numbering. *)
Definition iana_type_code (t : ari_type_t) : Z :=
  match t with
  | ARI_TYPE_LITERAL => 255 | ARI_TYPE_NULL => 0 | ARI_TYPE_BOOL => 1
  | ARI_TYPE_BYTE => 2 | ARI_TYPE_INT => 4 | ARI_TYPE_UINT => 5
  | ARI_TYPE_VAST => 6 | ARI_TYPE_UVAST => 7 | ARI_TYPE_REAL32 => 8
  | ARI_TYPE_REAL64 => 9 | ARI_TYPE_TEXTSTR => 10 | ARI_TYPE_BYTESTR => 11
  | ARI_TYPE_TP => 12 | ARI_TYPE_TD => 13 | ARI_TYPE_LABEL => 14
  | ARI_TYPE_CBOR => 15 | ARI_TYPE_ARITYPE => 16 | ARI_TYPE_AC => 17
  | ARI_TYPE_AM => 18 | ARI_TYPE_TBL => 19 | ARI_TYPE_EXECSET => 20
  | ARI_TYPE_RPTSET => 21 | ARI_TYPE_OBJECT => -256 | ARI_TYPE_IDENT => -1
  | ARI_TYPE_CONST => -2 | ARI_TYPE_CTRL => -3
  end.

Lemma iana_type_code_inj a b : iana_type_code a = iana_type_code b -> a = b.
Proof. destruct a, b; cbn; intros H; (reflexivity || discriminate H). Qed.

(** An untagged literal. *)
Definition untagged (p : ari_prim_type_t) (v : ari_value ari_t) : ari_t :=
  ARI_LIT (mk_lit false ARI_TYPE_NULL p v).

(** A tagged literal. *)
Definition tagged (t : ari_type_t) (p : ari_prim_type_t) (v : ari_value ari_t)
  : ari_t :=
  ARI_LIT (mk_lit true t p v).

Example ari_text_encode_scenarios :
  let enc a := ari_text_encode iana_type_code (fun _ _ => []) [] [] a
                 ARI_TEXT_ENC_OPTS_DEFAULT in
  enc (untagged ARI_PRIM_NULL as_other) = (0, cstr "ari:null")
  /\ enc (tagged ARI_TYPE_INT ARI_PRIM_INT64 (as_int64 (-42)))
     = (0, cstr "ari:/INT/-42")
  /\ enc (tagged ARI_TYPE_TEXTSTR ARI_PRIM_TSTR (as_data (cstr "hello" ++ [0])))
     = (0, cstr "ari:/TEXTSTR/hello")
  /\ enc (tagged ARI_TYPE_TEXTSTR ARI_PRIM_TSTR (as_data (cstr "hi there" ++ [0])))
     = (0, cstr "ari:/TEXTSTR/%22hi%20there%22")
  /\ enc (tagged ARI_TYPE_BYTESTR ARI_PRIM_BSTR (as_data [104; 105]))
     = (0, cstr "ari:/BYTESTR/h'6869'")
  /\ enc (tagged ARI_TYPE_AC ARI_PRIM_OTHER
            (as_ac [untagged ARI_PRIM_INT64 (as_int64 1);
                    untagged ARI_PRIM_INT64 (as_int64 2);
                    untagged ARI_PRIM_INT64 (as_int64 3)]))
     = (0, cstr "ari:/AC/(1,2,3)")
  /\ enc (tagged ARI_TYPE_TD ARI_PRIM_TIMESPEC
            (as_timespec (mk_timespec 3661 500000000)))
     = (0, cstr "ari:/TD/PT1H1M1.5S")
  /\ enc (ARI_REF (mk_ref (mk_objpath (ARI_IDSEG_TEXT (cstr "ns1"))
                             (ARI_IDSEG_TEXT (cstr "CTRL")) (ARI_IDSEG_INT 7)
                             true ARI_TYPE_CTRL) ARI_PARAMS_NONE))
     = (0, cstr "ari://ns1/CTRL/7")
  /\ enc (tagged ARI_TYPE_REAL64 ARI_PRIM_FLOAT64 (as_float64 0x7FF8000000000000))
     = (0, cstr "ari:/REAL64/NaN").
Proof. vm_compute. repeat split. Qed.

(** C9. Encoding the literal tagged TP whose value is the [timespec]
    {0, 0} under the default options returns zero and produces exactly
    [ari:/TP/20000101T000000Z], whatever the previous content of the
    output buffer: the prefix at depth zero, the registered name of the
    tag, then the UTC time at the DTN epoch without separators and with a
    trailing [Z]. *)
Theorem ari_text_encode_tp_epoch
    (type_code : ari_type_t -> Z) (printf_double : Z -> Z -> list Z)
    (strftime_unspecified text : list Z) :
  (forall a b, type_code a = type_code b -> a = b) ->
  ari_text_encode type_code printf_double strftime_unspecified text
    (tagged ARI_TYPE_TP ARI_PRIM_TIMESPEC (as_timespec (mk_timespec 0 0)))
    ARI_TEXT_ENC_OPTS_DEFAULT
  = (0, cstr "ari:/TP/20000101T000000Z")
  /\ utctime_encode strftime_unspecified [] (mk_timespec 0 0) false
     = (0, cstr "20000101T000000Z").
Proof.
  intros Hinj. split; [|reflexivity].
  pose proof (ari_type_to_name_registered type_code Hinj ARI_TYPE_TP (cstr "TP")) as Hn.
  unfold ari_text_encode, tagged. cbn [ari_text_encode_stream].
  unfold ari_text_encode_lit.
  cbn [has_ari_type ari_type prim_type value opts ARI_TEXT_ENC_OPTS_DEFAULT].
  unfold ari_text_encode_aritype.
  cbn [opts ARI_TEXT_ENC_OPTS_DEFAULT show_ari_type ari_text_encode_prefix
       scheme_prefix push_back cat_str out depth].
  unfold ari_type_to_name. rewrite Hn.
  - reflexivity.
  - unfold _ari_type_names. cbn. auto 20.
Qed.

Lemma ari_text_encode_tp_epoch_witness :
  ari_text_encode iana_type_code (fun _ _ => []) [] []
    (tagged ARI_TYPE_TP ARI_PRIM_TIMESPEC (as_timespec (mk_timespec 0 0)))
    ARI_TEXT_ENC_OPTS_DEFAULT
  = (0, cstr "ari:/TP/20000101T000000Z")
  /\ utctime_encode [] [] (mk_timespec 0 0) false
     = (0, cstr "20000101T000000Z").
Proof.
  apply (ari_text_encode_tp_epoch iana_type_code (fun _ _ => []) [] []).
  exact iana_type_code_inj.
Defined.

(** [ari_text_encode_stream] drops the status of the encoder it calls. *)
Lemma ari_text_encode_stream_zero type_code printf_double su state ari :
  fst (ari_text_encode_stream type_code printf_double su state ari) = 0.
Proof.
  destruct ari as [obj|obj]; cbn [ari_text_encode_stream];
    match goal with
    | |- fst (let '(_, _) := ?e in _) = _ => destruct e; reflexivity
    end.
Qed.

(** C2 (the code departs from it).  [ari_text_encode] returns zero for
    every ARI and every options record.  With the unknown format letter
    [x], [ari_float64_encode] fails on the double 1.5, yet encoding that
    literal returns zero and replaces the caller's buffer by the partial
    text [ari:]; the same happens for the unsigned integer 5 with the
    base 8, where [ari_uint64_encode] fails. *)
Theorem ari_text_encode_ignores_failure
    (type_code : ari_type_t -> Z) (printf_double : Z -> Z -> list Z)
    (strftime_unspecified text : list Z) :
  (forall ari opts,
     fst (ari_text_encode type_code printf_double strftime_unspecified text
            ari opts) = 0)
  /\ (let opts := mk_opts ARI_TEXT_SCHEME_FIRST ARI_TEXT_ARITYPE_TEXT
                    ARI_TEXT_INT_BASE10 (ch "x") true ARI_TEXT_BSTR_BASE16 true in
      ari_float64_encode printf_double (cstr "ari:") 0x3FF8000000000000 (ch "x")
        = (1, cstr "ari:")
      /\ ari_text_encode type_code printf_double strftime_unspecified text
           (untagged ARI_PRIM_FLOAT64 (as_float64 0x3FF8000000000000)) opts
         = (0, cstr "ari:"))
  /\ (let opts := mk_opts ARI_TEXT_SCHEME_FIRST ARI_TEXT_ARITYPE_TEXT
                    8 (ch "g") true ARI_TEXT_BSTR_BASE16 true in
      ari_uint64_encode (cstr "ari:") 5 8 = (1, cstr "ari:")
      /\ ari_text_encode type_code printf_double strftime_unspecified text
           (untagged ARI_PRIM_UINT64 (as_uint64 5)) opts
         = (0, cstr "ari:")).
Proof.
  split; [|split; split; reflexivity].
  intros ari opts. unfold ari_text_encode.
  pose proof (ari_text_encode_stream_zero type_code printf_double
                strftime_unspecified (mk_state [] 0 opts) ari) as H.
  destruct (ari_text_encode_stream _ _ _ _ _) as [ret state].
  cbn in H. subst ret. reflexivity.
Qed.

(** ** Visitor and translator *)

Definition null_lit : ari_t := untagged ARI_PRIM_NULL as_other.

Definition ctrl7 : ari_objpath_t :=
  mk_objpath (ARI_IDSEG_TEXT (cstr "ns1")) (ARI_IDSEG_TEXT (cstr "CTRL"))
    (ARI_IDSEG_INT 7) true ARI_TYPE_CTRL.

(** A visitor whose only function logs each object path and returns
    zero. *)
Definition log_objpath : ari_visitor_t (list ari_objpath_t) :=
  mk_visitor None None (Some (fun path _ log => (0, log ++ [path]))) None.

(** With a function for every node kind on the way, each read of
    [retval] follows an assignment: a visitor that has [visit_ari] and
    returns zero everywhere makes [ari_visit_ari] return zero on a
    literal without container. *)
Lemma ari_visit_plain_literal_zero {U : Type} (stale : Z)
    (f : visit_fn U ari_t) (u : U) (p : ari_prim_type_t) (v : ari_value ari_t) :
  (forall a c s, fst (f a c s) = 0) ->
  fst (ari_visit stale (mk_visitor (Some f) None None None) (untagged p v) u) = 0.
Proof.
  intros Hf. unfold ari_visit, untagged. cbn [ari_visit_ari if_visit visit_ari].
  specialize (Hf (ARI_LIT (mk_lit false ARI_TYPE_NULL p v)) (mk_ctx None false) u).
  destruct (f _ _ u) as [r u']. cbn in Hf. subst r. reflexivity.
Qed.

(** C8 (the code departs from it).  [ari_visit_ari] returns its local
    [retval] without having assigned it when the visitor has no function
    for the node at hand.  On a literal and a visitor without functions
    the result is whatever [retval] held.  On the array holding a null
    literal and a reference, with a visitor that only has
    [visit_objpath], the value returned for the first item decides: when
    it is not zero the walk stops there, the path of the reference is
    never visited and the value is returned, although no function
    returned non-zero. *)
Theorem ari_visit_returns_unassigned (stale : Z) :
  (forall (U : Type) (u : U),
     ari_visit stale (mk_visitor None None None None) null_lit u = (stale, u))
  /\ ari_visit stale log_objpath
       (tagged ARI_TYPE_AC ARI_PRIM_OTHER
          (as_ac [null_lit; ARI_REF (mk_ref ctrl7 ARI_PARAMS_NONE)])) []
     = if stale =? 0 then (0, [ctrl7]) else (stale, []).
Proof.
  split; [reflexivity|].
  unfold ari_visit, tagged, null_lit, untagged, log_objpath.
  cbn [ari_visit_ari if_visit visit_ari visit_lit visit_ref visit_objpath
       has_ari_type ari_type value ari_visit_ac objpath params].
  destruct (stale =? 0) eqn:E; [|reflexivity].
  apply Z.eqb_eq in E. subst stale. reflexivity.
Qed.

Definition no_translator {U : Type} : ari_translator_t U :=
  mk_translator None None None.

(** C3 (the code departs from it).  With no mapping function, the
    translation of a reference whose parameters are an AC (here the
    empty one, and one holding a null literal) or an AM returns zero but
    leaves the parameters of the output in state NONE, so that the output
    is not [ari_equal] to the input; the translation of a plain literal
    copies it and returns the unassigned local [retval]. *)
Theorem ari_translate_loses_params (stale : Z) (out0 : ari_t) :
  (let input := ARI_REF (mk_ref ctrl7 (ARI_PARAMS_AC [])) in
   let output := ARI_REF (mk_ref ctrl7 ARI_PARAMS_NONE) in
   ari_translate stale no_translator input out0 tt = (0, (output, tt))
   /\ ari_equal output input = false)
  /\ (let input := ARI_REF (mk_ref ctrl7 (ARI_PARAMS_AM [])) in
      let output := ARI_REF (mk_ref ctrl7 ARI_PARAMS_NONE) in
      ari_translate stale no_translator input out0 tt = (0, (output, tt))
      /\ ari_equal output input = false)
  /\ (let input := ARI_REF (mk_ref ctrl7 (ARI_PARAMS_AC [null_lit])) in
      let output := ARI_REF (mk_ref ctrl7 ARI_PARAMS_NONE) in
      ari_translate 0 no_translator input out0 tt = (0, (output, tt))
      /\ ari_equal output input = false)
  /\ ari_translate stale no_translator null_lit out0 tt = (stale, (null_lit, tt))
  /\ ari_equal null_lit null_lit = true.
Proof. repeat split. Qed.

(** Where the output keeps what the input has, the translation is a
    copy: with no mapping function an array literal of plain literals is
    translated into an equal one. *)
Example ari_translate_ac_literal :
  let input := tagged ARI_TYPE_AC ARI_PRIM_OTHER
                 (as_ac [untagged ARI_PRIM_INT64 (as_int64 1); null_lit]) in
  ari_translate 0 no_translator input ARI_INIT_UNDEFINED tt = (0, (input, tt))
  /\ ari_equal input input = true.
Proof. repeat split. Qed.

(** ** Hash and equality *)

(** A sample instance of the hash primitives: a multiply-and-add
    accumulator, a folding finaliser, shift-and-xor integer hashes and a
    byte-wise hash of objects and strings. *)
Definition sample_hash_ops : hash_ops :=
  let pod := fun bytes => fold_left (fun h b => (h * 31 + b + 1) mod 2 ^ 64) bytes 7 in
  let int64 := fun a => Z.lxor (uint64 a) (Z.shiftl (uint64 a) 11) mod 2 ^ 64 in
  mk_hash_ops 0
    (fun h1 h2 => (h1 * 33 + h2) mod 2 ^ 64)
    (fun h => Z.lor (Z.shiftr h 32) h)
    int64 int64 pod
    (fun seg => match seg with
                | ARI_IDSEG_NULL => 0
                | ARI_IDSEG_TEXT s => pod s
                | ARI_IDSEG_INT i => int64 i
                end)
    pod.

(** What [ari_hash] computes for a reference without parameters. *)
Lemma ari_hash_reference type_code H stale path :
  ari_hash type_code H stale (ARI_REF (mk_ref path ARI_PARAMS_NONE))
  = M_HASH_FINAL H
      (M_HASH_UP H
         (M_HASH_UP H
            (M_HASH_UP H (M_HASH_SEED H) (ari_idseg_hash H (ns_id path)))
            (if objpath_has_ari_type path
             then uint64 (type_code (objpath_ari_type path))
             else ari_idseg_hash H (type_id path)))
         (ari_idseg_hash H (obj_id path))).
Proof.
  unfold ari_hash, ari_visit. cbn. destruct (objpath_has_ari_type path); reflexivity.
Qed.

(** What [ari_hash] computes for an untagged FLOAT64 literal: the bytes
    of the double enter the hash. *)
Lemma ari_hash_float64 type_code H stale bits :
  ari_hash type_code H stale (untagged ARI_PRIM_FLOAT64 (as_float64 bits))
  = M_HASH_FINAL H
      (M_HASH_UP H
         (M_HASH_UP H
            (M_HASH_UP H (M_HASH_SEED H) (M_HASH_INT32 H 0))
            (M_HASH_INT32 H (ari_prim_type_code ARI_PRIM_FLOAT64)))
         (M_HASH_POD H (le_bytes 8 bits))).
Proof. reflexivity. Qed.

(** The path of [ctrl7] as decoded without its derived type. *)
Definition ctrl7_underived : ari_objpath_t :=
  mk_objpath (ARI_IDSEG_TEXT (cstr "ns1")) (ARI_IDSEG_TEXT (cstr "CTRL"))
    (ARI_IDSEG_INT 7) false ARI_TYPE_NULL.

(** C1 (the code departs from it).  Three pairs of ARIs that [ari_equal]
    accepts and that [ari_hash] separates under the sample primitives:
    two references whose paths differ only in whether the derived type is
    present (equality compares [type_id], the hash takes [ari_type] on
    one side and the hash of [type_id] on the other), two NaN doubles
    with different payloads, and the doubles 0.0 and -0.0 (equality
    compares values, the hash takes the bytes). *)
Theorem ari_hash_separates_equal (stale : Z) :
  let hash := ari_hash iana_type_code sample_hash_ops stale in
  (let a := ARI_REF (mk_ref ctrl7 ARI_PARAMS_NONE) in
   let b := ARI_REF (mk_ref ctrl7_underived ARI_PARAMS_NONE) in
   ari_equal a b = true /\ hash a <> hash b)
  /\ (let a := untagged ARI_PRIM_FLOAT64 (as_float64 0x7FF8000000000000) in
      let b := untagged ARI_PRIM_FLOAT64 (as_float64 0x7FF8000000000001) in
      ari_equal a b = true /\ hash a <> hash b)
  /\ (let a := untagged ARI_PRIM_FLOAT64 (as_float64 0) in
      let b := untagged ARI_PRIM_FLOAT64 (as_float64 0x8000000000000000) in
      ari_equal a b = true /\ hash a <> hash b).
Proof.
  cbv zeta. rewrite !ari_hash_reference, !ari_hash_float64.
  repeat split; try reflexivity; vm_compute; discriminate.
Qed.

(** ** String escaping *)

Example slash_escape_surrogates :
  slash_escape [] [240; 159; 152; 128; 0] DQUOTE = (0, cstr "\uD83D\uDE00")
  /\ slash_unescape [] (cstr "\uD83D\uDE00") = (0, [240; 159; 152; 128])
  /\ slash_escape [] [240; 144; 128; 128; 0] DQUOTE = (0, cstr "\uD800\uDC00")
  /\ slash_unescape [] (cstr "\uD800\uDC00") = (0, [240; 144; 128; 128])
  /\ slash_escape [] [244; 143; 191; 191; 0] DQUOTE = (0, cstr "\uDBFF\uDFFF")
  /\ slash_unescape [] (cstr "\uDBFF\uDFFF") = (0, [244; 143; 191; 191]).
Proof. vm_compute. repeat split. Qed.

(** C6 (the code departs from it).  [slash_escape] has no case for the
    backslash, which is printable and goes out as it is, for either
    quote.  The text of one backslash is escaped to one backslash, which
    [slash_unescape] rejects with status 3 as a dangling escape; the
    text [a\b] is escaped to itself and unescaped to [a] followed by the
    byte 0x08. *)
Theorem slash_escape_keeps_backslash :
  (slash_escape [] (cstr "\" ++ [0]) DQUOTE = (0, cstr "\")
   /\ slash_escape [] (cstr "\" ++ [0]) (ch "'") = (0, cstr "\")
   /\ slash_unescape [] (cstr "\") = (3, [])
   /\ slash_unescape [] (cstr "\" ++ [0]) = (3, []))
  /\ (slash_escape [] (cstr "a\b" ++ [0]) DQUOTE = (0, cstr "a\b")
      /\ slash_unescape [] (cstr "a\b") = (0, [97; 8])
      /\ [97; 8] <> cstr "a\b").
Proof. vm_compute. repeat split; discriminate. Qed.

(* ===================================================================== *)
(** * Base16 and base64 *)

(** Induction over a list two elements at a time. *)
Lemma list_pair_ind {A : Type} (P : list A -> Prop) :
  P [] -> (forall a, P [a]) -> (forall a b l, P l -> P (a :: b :: l)) ->
  forall l, P l.
Proof.
  intros H0 H1 H2.
  assert (H : forall l, P l /\ forall a, P (a :: l)).
  { induction l as [|x l [IH1 IH2]]; split; auto. }
  intros l. apply H.
Qed.

Lemma fold_left_app_flat_map {A : Type} (f : A -> list Z) (l : list A) (out : list Z) :
  fold_left (fun out c => out ++ f c) l out = out ++ flat_map f l.
Proof.
  revert out. induction l as [|x l IH]; intros out; cbn.
  - rewrite app_nil_r. reflexivity.
  - rewrite IH, <- app_assoc. reflexivity.
Qed.

(** The hexadecimal digits in either case. *)
Definition is_hex (c : Z) : bool :=
  ((48 <=? c) && (c <=? 57)) || ((65 <=? c) && (c <=? 70))
  || ((97 <=? c) && (c <=? 102)).

Lemma base16_decode_char_hex c :
  (base16_decode_char c <? 0) = negb (is_hex c).
Proof.
  destruct (Z_lt_le_dec c 0) as [Hn|Hp].
  - unfold base16_decode_char, base16_decode_lim.
    replace (128 <=? c) with false by lia.
    replace (Z.to_nat c) with O by lia. unfold is_hex. cbn. lia.
  - destruct (Z_lt_le_dec c 256) as [Hb|Hb].
    + pose (P := fun c => Bool.eqb (base16_decode_char c <? 0) (negb (is_hex c))).
      assert (H : forallb P byte_range = true) by (vm_compute; reflexivity).
      pose proof (byte_range_forall P H c (conj Hp Hb)) as Hc.
      apply Bool.eqb_prop in Hc. exact Hc.
    + unfold base16_decode_char, base16_decode_lim.
      replace (128 <=? c) with true by lia. unfold is_hex. cbn. lia.
Qed.

Lemma base16_decode_pair_hex c1 c2 :
  base16_decode_pair c1 c2 = None <-> is_hex c1 && is_hex c2 = false.
Proof.
  unfold base16_decode_pair. rewrite !base16_decode_char_hex.
  destruct (is_hex c1), (is_hex c2); cbn; split; congruence.
Qed.

Lemma base16_decode_pair_fmt upper c :
  is_byte c ->
  exists h l, fmt_02X upper c = [h; l] /\ base16_decode_pair h l = Some c.
Proof.
  intros Hc.
  pose (P := fun up c =>
    match fmt_02X up c with
    | [h; l] => match base16_decode_pair h l with
                | Some v => v =? c
                | None => false
                end
    | _ => false
    end).
  assert (H : forall up, forallb (P up) byte_range = true)
    by (intros [|]; vm_compute; reflexivity).
  pose proof (byte_range_forall (P upper) (H upper) c Hc) as Hp.
  unfold P in Hp. clear H P.
  destruct (fmt_02X upper c) as [|h [|l [|]]]; try discriminate.
  exists h, l. split; [reflexivity|].
  destruct (base16_decode_pair h l); [|discriminate].
  apply Z.eqb_eq in Hp. congruence.
Qed.

Lemma base16_decode_loop_status text :
  Nat.even (length text) = true ->
  forall out,
    fst (base16_decode_loop text out) = (if forallb is_hex text then 0 else 3)
    /\ (forallb is_hex text = true ->
        length (snd (base16_decode_loop text out))
        = (length out + Nat.div2 (length text))%nat).
Proof.
  pattern text. apply list_pair_ind; clear text.
  - intros _ out. cbn. split; [reflexivity|]. intros _. lia.
  - discriminate.
  - intros a b l IH Hev out. cbn [length Nat.even] in Hev. specialize (IH Hev).
    cbn [base16_decode_loop forallb].
    destruct (base16_decode_pair a b) as [byte|] eqn:E.
    + assert (Hh : is_hex a && is_hex b = true).
      { destruct (is_hex a && is_hex b) eqn:E'; [reflexivity|].
        apply base16_decode_pair_hex in E'. congruence. }
      apply andb_true_iff in Hh. destruct Hh as [-> ->]. cbn [andb].
      destruct (IH (out ++ [byte])) as [IH1 IH2]. split; [exact IH1|].
      intros Hl. rewrite (IH2 Hl), length_app. cbn [length Nat.div2]. lia.
    + apply base16_decode_pair_hex in E.
      replace (is_hex a && (is_hex b && forallb is_hex l)) with false
        by (destruct (is_hex a), (is_hex b); cbn in *; congruence).
      split; [reflexivity|discriminate].
Qed.

(** [base16_decode] accepts exactly the texts of even length made of
    hexadecimal digits of either case: a text of odd length has status 1
    and leaves the output as it was, any other character (white space
    too, which the table marks apart) gives status 3, and an accepted
    text gives half as many bytes as it has characters. *)
Theorem base16_decode_accepts (out text : list Z) :
  fst (base16_decode out text)
  = (if Nat.odd (length text) then 1
     else if forallb is_hex text then 0 else 3)
  /\ (Nat.odd (length text) = true -> snd (base16_decode out text) = out)
  /\ (fst (base16_decode out text) = 0 ->
      (2 * length (snd (base16_decode out text)) = length text)%nat).
Proof.
  unfold base16_decode.
  assert (Hodd : (length text mod 2 =? 0)%nat = negb (Nat.odd (length text))).
  { rewrite <- Nat.negb_even, negb_involutive.
    destruct (Nat.even (length text)) eqn:E.
    - apply Nat.even_spec in E. destruct E as [k ->].
      apply Nat.eqb_eq. rewrite Nat.mul_comm. apply Nat.Div0.mod_mul.
    - apply Nat.eqb_neq. intros C. apply Nat.Div0.mod_divides in C.
      destruct C as [k Hk]. rewrite Hk, Nat.even_mul in E. discriminate. }
  rewrite Hodd, negb_involutive.
  destruct (Nat.odd (length text)) eqn:E.
  - repeat split; [discriminate].
  - assert (Hev : Nat.even (length text) = true).
    { rewrite <- Nat.negb_odd, E. reflexivity. }
    destruct (base16_decode_loop_status text Hev []) as [H1 H2].
    split; [exact H1|]. split; [discriminate|].
    intros H0. rewrite H0 in H1.
    destruct (forallb is_hex text); [|discriminate].
    rewrite (H2 eq_refl). cbn [length].
    pose proof (Nat.Even_double _ (proj1 (Nat.even_spec _) Hev)) as Hd.
    unfold Nat.double in Hd. lia.
Qed.

Lemma base16_decode_loop_encoded upper b out :
  Forall is_byte b ->
  base16_decode_loop (flat_map (fmt_02X upper) b) out = (0, out ++ b).
Proof.
  intros Hb. revert out. induction Hb as [|c b Hc Hb IH]; intros out.
  - cbn. rewrite app_nil_r. reflexivity.
  - destruct (base16_decode_pair_fmt upper c Hc) as (h & l & Hf & Hp).
    cbn [flat_map]. rewrite Hf. cbn [app base16_decode_loop].
    rewrite Hp, IH, <- app_assoc. reflexivity.
Qed.

Lemma flat_map_fmt_02X_length upper b :
  Forall is_byte b ->
  length (flat_map (fmt_02X upper) b) = (2 * length b)%nat.
Proof.
  induction 1 as [|c b Hc Hb IH]; [reflexivity|].
  destruct (base16_decode_pair_fmt upper c Hc) as (h & l & Hf & _).
  cbn [flat_map]. rewrite length_app, Hf, IH. cbn [length]. lia.
Qed.

(** Every byte sequence written by [base16_encode], in either letter
    case, is read back by [base16_decode] with status zero: the text has
    two characters per byte and decodes to the bytes encoded, whatever
    the output buffer held before. *)
Theorem base16_roundtrip (b : list Z) (uppercase : bool) (out : list Z) :
  Forall is_byte b ->
  exists text,
    base16_encode [] b uppercase = (0, text)
    /\ length text = (2 * length b)%nat
    /\ base16_decode out text = (0, b).
Proof.
  intros Hb. exists (flat_map (fmt_02X uppercase) b).
  unfold base16_encode. rewrite fold_left_app_flat_map. cbn [app].
  split; [reflexivity|].
  pose proof (flat_map_fmt_02X_length uppercase b Hb) as Hlen.
  split; [exact Hlen|].
  unfold base16_decode. rewrite Hlen.
  replace ((2 * length b) mod 2 =? 0)%nat with true.
  - cbn [negb]. rewrite base16_decode_loop_encoded by assumption. reflexivity.
  - symmetry. apply Nat.eqb_eq. rewrite Nat.mul_comm. apply Nat.Div0.mod_mul.
Qed.

Lemma base16_roundtrip_witness :
  exists text,
    base16_encode [] [0; 74; 255] false = (0, text)
    /\ length text = (2 * length [0; 74; 255]%Z)%nat
    /\ base16_decode [9] text = (0, [0; 74; 255]).
Proof.
  apply (base16_roundtrip [0; 74; 255] false [9]).
  repeat constructor; unfold is_byte; lia.
Defined.

(** Induction over a list three elements at a time. *)
Lemma list_triple_ind {A : Type} (P : list A -> Prop) :
  P [] -> (forall a, P [a]) -> (forall a b, P [a; b]) ->
  (forall a b c l, P l -> P (a :: b :: c :: l)) ->
  forall l, P l.
Proof.
  intros H0 H1 H2 H3.
  assert (H : forall l, P l /\ (forall a, P (a :: l)) /\ forall a b, P (a :: b :: l)).
  { induction l as [|x l (IH1 & IH2 & IH3)]; repeat split; auto. }
  intros l. apply H.
Qed.

(** The character of a 6-bit group, as [base64_encode] looks it up. *)
Definition base64_sym (abet : list Z) (byte : Z) : Z :=
  peek abet (Z.to_nat (Z.land byte 63)).

(** The text of [base64_encode] for a byte sequence. *)
Fixpoint base64_text (abet b : list Z) : list Z :=
  match b with
  | [] => []
  | [c0] =>
      [base64_sym abet (Z.shiftr c0 2); base64_sym abet (Z.shiftl c0 4);
       ch "="; ch "="]
  | [c0; c1] =>
      [base64_sym abet (Z.shiftr c0 2);
       base64_sym abet (Z.lor (Z.shiftl c0 4) (Z.shiftr c1 4));
       base64_sym abet (Z.shiftl c1 2); ch "="]
  | c0 :: c1 :: c2 :: rest =>
      [base64_sym abet (Z.shiftr c0 2);
       base64_sym abet (Z.lor (Z.shiftl c0 4) (Z.shiftr c1 4));
       base64_sym abet (Z.lor (Z.shiftl c1 2) (Z.shiftr c2 6));
       base64_sym abet c2] ++ base64_text abet rest
  end.

Lemma base64_encode_loop_text abet b :
  forall out, base64_encode_loop abet b out = out ++ base64_text abet b.
Proof.
  pattern b. apply list_triple_ind; clear b.
  - intros out. cbn. rewrite app_nil_r. reflexivity.
  - reflexivity.
  - reflexivity.
  - intros a b c l IH out.
    cbn [base64_encode_loop base64_text]. rewrite IH, <- app_assoc. reflexivity.
Qed.

Lemma base64_text_length abet b :
  length (base64_text abet b) = (4 * ((length b + 2) / 3))%nat.
Proof.
  pattern b. apply list_triple_ind; clear b; try reflexivity.
  intros a b c l IH. cbn [base64_text]. rewrite length_app, IH. cbn [length].
  replace (S (S (S (length l))) + 2)%nat with ((length l + 2) + 1 * 3)%nat by lia.
  rewrite Nat.div_add by lia. lia.
Qed.

Definition is_base64_alphabet (abet : list Z) : Prop :=
  abet = base64_alphabet \/ abet = base64url_alphabet.

(** Both alphabets are read back by the one decoding table, and neither
    holds the padding character. *)
Lemma base64_sym_decode abet x :
  is_base64_alphabet abet ->
  base64_decode_char (base64_sym abet x) = Z.land x 63
  /\ (base64_sym abet x =? ch "=") = false
  /\ 0 <= Z.land x 63 < 64.
Proof.
  intros Habet.
  assert (Hr : 0 <= Z.land x 63 < 64).
  { change 63 with (Z.ones 6). rewrite Z.land_ones by lia.
    apply Z.mod_pos_bound. lia. }
  pose (P := fun abet v =>
    (base64_decode_char (peek abet (Z.to_nat v)) =? v)
    && negb (peek abet (Z.to_nat v) =? ch "=")).
  assert (H : forall v, 0 <= v < 64 -> P abet v = true).
  { intros v Hv.
    assert (Hall : forallb (P abet) (map Z.of_nat (seq 0 64)) = true)
      by (destruct Habet as [-> | ->]; vm_compute; reflexivity).
    rewrite forallb_forall in Hall. apply Hall.
    apply in_map_iff. exists (Z.to_nat v). split; [lia|]. apply in_seq. lia. }
  specialize (H _ Hr). unfold P in H. apply andb_true_iff in H.
  destruct H as [H1 H2]. apply Z.eqb_eq in H1. apply negb_true_iff in H2.
  unfold base64_sym. auto.
Qed.

Definition base64_join0 (c0 c1 : Z) : bool :=
  Z.lor (Z.shiftl (Z.land (Z.shiftr c0 2) 63) 2)
        (Z.shiftr (Z.land (Z.lor (Z.shiftl c0 4) (Z.shiftr c1 4)) 63) 4) mod 256
  =? c0.

Definition base64_join1 (c0 c1 e : Z) : bool :=
  Z.lor (Z.land (Z.shiftl (Z.land (Z.lor (Z.shiftl c0 4) (Z.shiftr c1 4)) 63) 4) 240)
        (Z.shiftr (Z.land (Z.lor (Z.shiftl c1 2) e) 63) 2) mod 256
  =? c1.

Definition base64_join2 (c1 c2 : Z) : bool :=
  Z.lor (Z.land (Z.shiftl (Z.land (Z.lor (Z.shiftl c1 2) (Z.shiftr c2 6)) 63) 6) 192)
        (Z.land c2 63) mod 256
  =? c2.

Lemma base64_join0_ok c0 c1 :
  is_byte c0 -> is_byte c1 -> base64_join0 c0 c1 = true.
Proof.
  intros H0 H1.
  assert (H : forallb (fun c0 => forallb (base64_join0 c0) byte_range) byte_range = true)
    by (vm_compute; reflexivity).
  pose proof (byte_range_forall _ H c0 H0) as H'. cbn beta in H'.
  exact (byte_range_forall _ H' c1 H1).
Qed.

Lemma base64_join1_ok c0 c1 e :
  is_byte c0 -> is_byte c1 -> 0 <= e < 4 -> base64_join1 c0 c1 e = true.
Proof.
  intros H0 H1 He.
  assert (H : forallb (fun c0 => forallb (fun c1 =>
                forallb (base64_join1 c0 c1) [0; 1; 2; 3]) byte_range) byte_range = true)
    by (vm_compute; reflexivity).
  pose proof (byte_range_forall _ H c0 H0) as H'. cbn beta in H'.
  pose proof (byte_range_forall _ H' c1 H1) as H''. cbn beta in H''.
  rewrite forallb_forall in H''. apply H''. cbn. lia.
Qed.

Lemma base64_join2_ok c1 c2 :
  is_byte c1 -> is_byte c2 -> base64_join2 c1 c2 = true.
Proof.
  intros H1 H2.
  assert (H : forallb (fun c1 => forallb (base64_join2 c1) byte_range) byte_range = true)
    by (vm_compute; reflexivity).
  pose proof (byte_range_forall _ H c1 H1) as H'. cbn beta in H'.
  exact (byte_range_forall _ H' c2 H2).
Qed.

Lemma shiftr_byte_6 c : is_byte c -> 0 <= Z.shiftr c 6 < 4.
Proof.
  intros Hc. rewrite Z.shiftr_div_pow2 by lia. unfold is_byte in Hc.
  split; [apply Z.div_pos; lia|apply Z.div_lt_upper_bound; lia].
Qed.

Lemma peek_app_add pre l i : peek (pre ++ l) (length pre + i) = peek l i.
Proof.
  unfold peek. rewrite app_nth2 by lia. f_equal. lia.
Qed.

Lemma base64_store_some out_len out byte :
  0 < out_len ->
  base64_store out_len out byte = (out_len - 1, out ++ [byte mod 256]).
Proof.
  intros H. unfold base64_store. replace (out_len =? 0) with false by lia.
  reflexivity.
Qed.

(** One round of the decoder over four characters of the alphabet. *)
Lemma base64_decode_loop_full f buf curs in_len out_len out s0 s1 s2 s3 :
  peek buf (curs + 0) = s0 -> peek buf (curs + 1) = s1 ->
  peek buf (curs + 2) = s2 -> peek buf (curs + 3) = s3 ->
  (s0 =? ch "=") = false -> (s2 =? ch "=") = false -> (s3 =? ch "=") = false ->
  0 <= base64_decode_char s0 -> 0 <= base64_decode_char s1 ->
  0 <= base64_decode_char s2 -> 0 <= base64_decode_char s3 ->
  4 <= in_len -> 3 <= out_len ->
  base64_decode_loop (S f) buf curs in_len out_len out
  = base64_decode_loop f buf (curs + 4) (uint64 (in_len - 4)) (out_len - 3)
      (out ++ [Z.lor (Z.shiftl (base64_decode_char s0) 2)
                     (Z.shiftr (base64_decode_char s1) 4) mod 256;
               Z.lor (Z.land (Z.shiftl (base64_decode_char s1) 4) 240)
                     (Z.shiftr (base64_decode_char s2) 2) mod 256;
               Z.lor (Z.land (Z.shiftl (base64_decode_char s2) 6) 192)
                     (base64_decode_char s3) mod 256]).
Proof.
  intros P0 P1 P2 P3 E0 E2 E3 D0 D1 D2 D3 Hin Hout.
  cbn [base64_decode_loop]. rewrite P0, P1, P2, P3, E0, E2, E3.
  replace (2 <? in_len) with true by lia.
  replace (base64_decode_char s0 <? 0) with false by lia.
  replace (base64_decode_char s1 <? 0) with false by lia.
  replace (base64_decode_char s2 <? 0) with false by lia.
  replace (base64_decode_char s3 <? 0) with false by lia.
  cbn [orb].
  rewrite base64_store_some by lia.
  replace (in_len =? 2) with false by lia.
  rewrite base64_store_some by lia.
  replace (in_len =? 3) with false by lia.
  rewrite base64_store_some by lia.
  repeat rewrite <- app_assoc. cbn [app].
  f_equal. lia.
Qed.

(** The last round over three characters and one padding character. *)
Lemma base64_decode_loop_pad1 f buf curs out_len out s0 s1 s2 :
  peek buf (curs + 0) = s0 -> peek buf (curs + 1) = s1 ->
  peek buf (curs + 2) = s2 -> peek buf (curs + 3) = ch "=" ->
  (s0 =? ch "=") = false -> (s2 =? ch "=") = false ->
  0 <= base64_decode_char s0 -> 0 <= base64_decode_char s1 ->
  0 <= base64_decode_char s2 ->
  2 <= out_len ->
  base64_decode_loop (S f) buf curs 4 out_len out
  = base64_break (curs + 4) 0
      (out ++ [Z.lor (Z.shiftl (base64_decode_char s0) 2)
                     (Z.shiftr (base64_decode_char s1) 4) mod 256;
               Z.lor (Z.land (Z.shiftl (base64_decode_char s1) 4) 240)
                     (Z.shiftr (base64_decode_char s2) 2) mod 256]).
Proof.
  intros P0 P1 P2 P3 E0 E2 D0 D1 D2 Hout.
  cbn [base64_decode_loop]. rewrite P0, P1, P2, P3, E0, E2.
  replace (base64_decode_char s0 <? 0) with false by lia.
  replace (base64_decode_char s1 <? 0) with false by lia.
  replace (base64_decode_char s2 <? 0) with false by lia.
  cbn [orb].
  rewrite base64_store_some by lia.
  rewrite base64_store_some by lia.
  repeat rewrite <- app_assoc. cbn [app].
  change (2 <? 4) with true. change (4 =? 2) with false.
  change (4 =? 3) with false. change (4 =? 4) with true.
  change (ch "=" =? ch "=") with true. cbn [negb].
  change (uint64 (4 - 4)) with 0.
  destruct f; reflexivity.
Qed.

(** The last round over two characters and two padding characters. *)
Lemma base64_decode_loop_pad2 f buf curs out_len out s0 s1 :
  peek buf (curs + 0) = s0 -> peek buf (curs + 1) = s1 ->
  peek buf (curs + 2) = ch "=" -> peek buf (curs + 3) = ch "=" ->
  (s0 =? ch "=") = false ->
  0 <= base64_decode_char s0 -> 0 <= base64_decode_char s1 ->
  1 <= out_len ->
  base64_decode_loop (S f) buf curs 4 out_len out
  = base64_break (curs + 4) 0
      (out ++ [Z.lor (Z.shiftl (base64_decode_char s0) 2)
                     (Z.shiftr (base64_decode_char s1) 4) mod 256]).
Proof.
  intros P0 P1 P2 P3 E0 D0 D1 Hout.
  cbn [base64_decode_loop]. rewrite P0, P1, P2, P3, E0.
  replace (base64_decode_char s0 <? 0) with false by lia.
  replace (base64_decode_char s1 <? 0) with false by lia.
  cbn [orb].
  rewrite base64_store_some by lia.
  change (2 <? 4) with true. change (4 =? 2) with false.
  change (4 =? 4) with true.
  change (ch "=" =? ch "=") with true. cbn [negb].
  change (uint64 (4 - 4)) with 0.
  destruct f; reflexivity.
Qed.

Lemma base64_decode_loop_text abet b :
  is_base64_alphabet abet -> Forall is_byte b ->
  forall pre out out_len fuel,
    Z.of_nat (length b) <= out_len -> (length b < fuel)%nat ->
    Z.of_nat (length (base64_text abet b)) < 2 ^ 64 ->
    base64_decode_loop fuel (pre ++ base64_text abet b) (length pre)
      (Z.of_nat (length (base64_text abet b))) out_len out
    = base64_break (length pre + length (base64_text abet b)) 0 (out ++ b).
Proof.
  intros Habet. pattern b. apply list_triple_ind; clear b.
  - intros _ pre out out_len fuel _ _ _. cbn [base64_text length Z.of_nat].
    rewrite !app_nil_r, Nat.add_0_r. destruct fuel; reflexivity.
  - intros a Hb pre out out_len fuel Hout Hfuel _.
    pose proof (Forall_inv Hb) as Ha.
    destruct fuel as [|f]; [cbn in Hfuel; lia|].
    cbn [base64_text length]. change (Z.of_nat 4) with 4.
    destruct (base64_sym_decode abet (Z.shiftr a 2) Habet) as (D0 & E0 & R0).
    destruct (base64_sym_decode abet (Z.shiftl a 4) Habet) as (D1 & E1 & R1).
    rewrite (base64_decode_loop_pad2 f _ _ out_len out
               (base64_sym abet (Z.shiftr a 2)) (base64_sym abet (Z.shiftl a 4)));
      try (rewrite peek_app_add; reflexivity); try lia;
      [|cbn [length] in Hout; lia].
    rewrite D0, D1. f_equal. f_equal. f_equal.
    pose proof (base64_join0_ok a 0 Ha ltac:(unfold is_byte; lia)) as J.
    unfold base64_join0 in J. apply Z.eqb_eq in J.
    change (Z.shiftr 0 4) with 0 in J. rewrite Z.lor_0_r in J. exact J.
  - intros a c Hb pre out out_len fuel Hout Hfuel _.
    pose proof (Forall_inv Hb) as Ha.
    pose proof (Forall_inv (Forall_inv_tail Hb)) as Hc.
    destruct fuel as [|f]; [cbn in Hfuel; lia|].
    cbn [base64_text length]. change (Z.of_nat 4) with 4.
    destruct (base64_sym_decode abet (Z.shiftr a 2) Habet) as (D0 & E0 & R0).
    destruct (base64_sym_decode abet (Z.lor (Z.shiftl a 4) (Z.shiftr c 4)) Habet)
      as (D1 & E1 & R1).
    destruct (base64_sym_decode abet (Z.shiftl c 2) Habet) as (D2 & E2 & R2).
    rewrite (base64_decode_loop_pad1 f _ _ out_len out
               (base64_sym abet (Z.shiftr a 2))
               (base64_sym abet (Z.lor (Z.shiftl a 4) (Z.shiftr c 4)))
               (base64_sym abet (Z.shiftl c 2)));
      try (rewrite peek_app_add; reflexivity); try lia;
      [|cbn [length] in Hout; lia].
    rewrite D0, D1, D2. f_equal. f_equal.
    pose proof (base64_join0_ok a c Ha Hc) as J0.
    pose proof (base64_join1_ok a c 0 Ha Hc ltac:(lia)) as J1.
    unfold base64_join0 in J0. unfold base64_join1 in J1.
    apply Z.eqb_eq in J0. apply Z.eqb_eq in J1.
    rewrite Z.lor_0_r in J1. rewrite J0, J1. reflexivity.
  - intros a c d l IH Hb pre out out_len fuel Hout Hfuel Hlen.
    pose proof (Forall_inv Hb) as Ha.
    pose proof (Forall_inv (Forall_inv_tail Hb)) as Hc.
    pose proof (Forall_inv (Forall_inv_tail (Forall_inv_tail Hb))) as Hd.
    pose proof (Forall_inv_tail (Forall_inv_tail (Forall_inv_tail Hb))) as Hl.
    destruct fuel as [|f]; [cbn in Hfuel; lia|].
    cbn [base64_text] in *. rewrite length_app in *. cbn [length] in *.
    destruct (base64_sym_decode abet (Z.shiftr a 2) Habet) as (D0 & E0 & R0).
    destruct (base64_sym_decode abet (Z.lor (Z.shiftl a 4) (Z.shiftr c 4)) Habet)
      as (D1 & E1 & R1).
    destruct (base64_sym_decode abet (Z.lor (Z.shiftl c 2) (Z.shiftr d 6)) Habet)
      as (D2 & E2 & R2).
    destruct (base64_sym_decode abet d Habet) as (D3 & E3 & R3).
    rewrite (base64_decode_loop_full f _ _ _ out_len out
               (base64_sym abet (Z.shiftr a 2))
               (base64_sym abet (Z.lor (Z.shiftl a 4) (Z.shiftr c 4)))
               (base64_sym abet (Z.lor (Z.shiftl c 2) (Z.shiftr d 6)))
               (base64_sym abet d));
      try (rewrite peek_app_add; reflexivity); try lia.
    rewrite D0, D1, D2, D3.
    pose proof (base64_join0_ok a c Ha Hc) as J0.
    pose proof (base64_join1_ok a c (Z.shiftr d 6) Ha Hc (shiftr_byte_6 d Hd)) as J1.
    pose proof (base64_join2_ok c d Hc Hd) as J2.
    unfold base64_join0 in J0. unfold base64_join1 in J1. unfold base64_join2 in J2.
    apply Z.eqb_eq in J0. apply Z.eqb_eq in J1. apply Z.eqb_eq in J2.
    rewrite J0, J1, J2.
    set (syms := [base64_sym abet (Z.shiftr a 2);
                  base64_sym abet (Z.lor (Z.shiftl a 4) (Z.shiftr c 4));
                  base64_sym abet (Z.lor (Z.shiftl c 2) (Z.shiftr d 6));
                  base64_sym abet d]).
    replace (pre ++ syms ++ base64_text abet l)
      with ((pre ++ syms) ++ base64_text abet l) by (rewrite <- app_assoc; reflexivity).
    replace (length pre + 4)%nat with (length (pre ++ syms))
      by (rewrite length_app; reflexivity).
    replace (uint64 (Z.of_nat (4 + length (base64_text abet l)) - 4))
      with (Z.of_nat (length (base64_text abet l)))
      by (unfold uint64; rewrite Z.mod_small; lia).
    rewrite IH; try assumption; try lia.
    rewrite length_app, <- app_assoc. cbn [length app]. f_equal.
    subst syms. cbn [length]. lia.
Qed.

(** Every byte sequence written by [base64_encode], in either alphabet,
    is read back by [base64_decode] with status zero: the text has four
    characters for every three bytes begun, padded with [=], and decodes
    to exactly the bytes encoded. *)
Theorem base64_roundtrip (b : list Z) (useurl : bool) :
  Forall is_byte b -> Z.of_nat (length b) < 2 ^ 62 ->
  exists text,
    base64_encode [] b useurl = (0, text)
    /\ length text = (4 * ((length b + 2) / 3))%nat
    /\ base64_decode text = (0, b).
Proof.
  intros Hb Hlen.
  set (abet := if useurl then base64url_alphabet else base64_alphabet).
  assert (Habet : is_base64_alphabet abet)
    by (unfold abet, is_base64_alphabet; destruct useurl; auto).
  exists (base64_text abet b).
  unfold base64_encode. fold abet. rewrite base64_encode_loop_text. cbn [app].
  split; [reflexivity|].
  pose proof (base64_text_length abet b) as Htl.
  split; [exact Htl|].
  assert (Hdiv : (3 * ((length b + 2) / 3) <= length b + 2)%nat)
    by (apply Nat.Div0.mul_div_le).
  assert (Hdiv' : (length b + 2 < 3 * S ((length b + 2) / 3))%nat)
    by (apply Nat.mul_succ_div_gt; lia).
  unfold base64_decode.
  pose proof (base64_decode_loop_text abet b Habet Hb [] []
                (Z.of_nat (length (base64_text abet b)) / 4 * 3 + 2)
                (S (length (base64_text abet b)))) as Hloop.
  cbn [app length Nat.add] in Hloop. rewrite Hloop.
  - rewrite skipn_all. cbn [Libc.strspn Z.of_nat]. reflexivity.
  - rewrite Htl, Nat2Z.inj_mul. change (Z.of_nat 4) with 4.
    rewrite (Z.mul_comm 4), Z.div_mul by lia. lia.
  - lia.
  - lia.
Qed.

Lemma base64_roundtrip_witness :
  exists text,
    base64_encode [] [0; 74; 255; 16] true = (0, text)
    /\ length text = (4 * ((length [0; 74; 255; 16]%Z + 2) / 3))%nat
    /\ base64_decode text = (0, [0; 74; 255; 16]).
Proof.
  apply (base64_roundtrip [0; 74; 255; 16] true).
  - repeat constructor; unfold is_byte; lia.
  - cbn. lia.
Defined.

(* ===================================================================== *)
(** * Decimal fractions *)

Lemma parse_digits_dec ds rest :
  dec_string ds ->
  (forall c tl, rest = c :: tl -> ~ 48 <= c <= 57) ->
  Libc.parse_digits 10 0 (ds ++ rest) = (digits_value 10 0 ds, length ds).
Proof.
  intros Hds Hrest.
  rewrite (parse_digits_app 10) by (apply dec_string_digit_string; exact Hds).
  assert (Hp : Libc.parse_digits 10 (digits_value 10 0 ds) rest
               = (digits_value 10 0 ds, O)).
  { destruct rest as [|r tl]; [reflexivity|]. cbn [Libc.parse_digits].
    specialize (Hrest r tl eq_refl).
    unfold Libc.digit_val. chs.
    replace ((48 <=? r) && (r <=? 57)) with false by lia.
    destruct ((97 <=? r) && (r <=? 122)) eqn:E2.
    { replace (r - 97 + 10 <? 10) with false by lia. reflexivity. }
    destruct ((65 <=? r) && (r <=? 90)) eqn:E3; [|reflexivity].
    replace (r - 65 + 10 <? 10) with false by lia. reflexivity. }
  rewrite Hp. cbn [fst snd]. rewrite Nat.add_0_r. reflexivity.
Qed.

(** [strtoll] in base 10 on an optional minus sign and a non-empty digit
    string followed by something that is not a digit. *)
Lemma strtoll_dec_string (neg : bool) ds rest :
  dec_string ds -> ds <> [] ->
  (forall c tl, rest = c :: tl -> ~ 48 <= c <= 57) ->
  digits_value 10 0 ds <= (if neg then 2 ^ 63 else 2 ^ 63 - 1) ->
  LibcSigned.strtoll ((if neg then [ch "-"] else []) ++ ds ++ rest) 10
  = (if neg then - digits_value 10 0 ds else digits_value 10 0 ds,
     (length (if neg then [ch "-"] else []) + length ds)%nat).
Proof.
  intros Hds Hne Hrest Hv.
  pose proof (parse_digits_dec ds rest Hds Hrest) as Hp.
  destruct ds as [|c ds']; [contradiction|]. clear Hne.
  pose proof (Forall_inv Hds) as Hc. cbn beta in Hc.
  assert (Hsp : Libc.isspace c = false) by (unfold Libc.isspace; lia).
  unfold LibcSigned.strtoll. destruct neg; cbn [app].
  - cbn [Libc.skip_space]. change (Libc.isspace (ch "-")) with false.
    cbn [skipn]. change (ch "-" =? ch "-") with true.
    cbn [Z.eqb Pos.eqb orb andb skipn].
    change (((c :: ds') ++ rest)) with (c :: ds' ++ rest) in Hp.
    rewrite Hp. cbn [length]. unfold LibcSigned.LLONG_MIN.
    replace (- - 2 ^ 63 <? digits_value 10 0 (c :: ds')) with false by lia.
    reflexivity.
  - cbn [Libc.skip_space]. rewrite Hsp. cbn [skipn].
    replace (c =? ch "-") with false by (chs; lia).
    replace (c =? ch "+") with false by (chs; lia).
    cbn [Z.eqb Pos.eqb orb andb skipn].
    change (((c :: ds') ++ rest)) with (c :: ds' ++ rest) in Hp.
    rewrite Hp. cbn [length]. unfold LibcSigned.LLONG_MAX.
    replace (2 ^ 63 - 1 <? digits_value 10 0 (c :: ds')) with false by lia.
    reflexivity.
Qed.

(** What [printf] writes for a signed number: a sign and digits. *)
Lemma fmt_d_sign_digits v :
  Libc.fmt_d v
  = (if v <? 0 then [ch "-"] else []) ++ Libc.to_digits false 10 (Z.abs v).
Proof.
  unfold Libc.fmt_d. destruct (v <? 0) eqn:E; zb.
  - rewrite Z.abs_neq by lia. reflexivity.
  - rewrite Z.abs_eq by lia. reflexivity.
Qed.

Lemma strtoll_fmt_d v rest :
  - 2 ^ 63 <= v < 2 ^ 63 ->
  (forall c tl, rest = c :: tl -> ~ 48 <= c <= 57) ->
  LibcSigned.strtoll (Libc.fmt_d v ++ rest) 10 = (v, length (Libc.fmt_d v)).
Proof.
  intros Hv Hrest. rewrite fmt_d_sign_digits, <- app_assoc.
  rewrite strtoll_dec_string.
  - rewrite to_digits_value by lia. rewrite length_app.
    destruct (v <? 0) eqn:E; zb; f_equal; lia.
  - apply to_digits_dec. lia.
  - apply to_digits_nonempty. lia.
  - exact Hrest.
  - rewrite to_digits_value by lia. destruct (v <? 0) eqn:E; zb; lia.
Qed.

(** [subsec_decode] on the text of a fraction that ends where something
    other than a digit follows. *)
Lemma subsec_decode_frac buf curs nsec fp rest :
  skipn curs buf = fp ++ rest ->
  frac_text nsec fp ->
  (forall c tl, rest = c :: tl -> ~ 48 <= c <= 57) ->
  subsec_decode buf 0 curs (curs + length fp) = Ok (nsec, (curs + length fp)%nat).
Proof.
  intros Hsk [[-> ->]|(frac & -> & Hd & Hlen & Hit & Hv)] Hrest;
    unfold subsec_decode.
  - cbn [length]. rewrite Nat.add_0_r, Nat.eqb_refl. reflexivity.
  - cbn [length].
    replace (curs =? curs + S (length frac))%nat with false
      by (symmetry; apply Nat.eqb_neq; lia).
    rewrite <- (Nat.add_0_r curs) at 1. rewrite peek_skipn, Hsk.
    change (peek ((ch "." :: frac) ++ rest) 0) with (ch ".").
    rewrite Z.eqb_refl. cbn [negb].
    replace (S curs <? curs + S (length frac))%nat with true
      by (symmetry; apply Nat.ltb_lt; lia).
    assert (Hsk' : skipn (S curs) buf = frac ++ rest).
    { replace (S curs) with (curs + length [ch "."])%nat by (cbn; lia).
      apply skipn_skipn_app. rewrite Hsk. reflexivity. }
    rewrite Hsk', strtoul_dec_string; auto.
    + replace (length frac =? 0)%nat with false
        by (symmetry; apply Nat.eqb_neq; lia).
      replace (9 <? length frac)%nat with false
        by (symmetry; apply Nat.ltb_ge; lia).
      rewrite Hit. f_equal. f_equal. lia.
    + intros C. subst frac. cbn in Hlen. lia.
Qed.

Lemma decfrac_encode_shape sec nsec :
  0 <= nsec < 10 ^ 9 ->
  exists fp,
    decfrac_encode [] (mk_timespec sec nsec) = (0, Libc.fmt_d sec ++ fp)
    /\ frac_text nsec fp.
Proof.
  intros Hn. unfold decfrac_encode. cbn [tv_sec tv_nsec app].
  rewrite uint64_small by lia.
  destruct (Z.eq_dec nsec 0) as [->|Hnz].
  - exists []. cbn [subsec_encode Z.eqb]. rewrite app_nil_r.
    split; [reflexivity|]. left. auto.
  - destruct (subsec_encode_spec (Libc.fmt_d sec) nsec ltac:(lia))
      as (frac & He & Hd & Hl & Hit & Hv).
    exists (ch "." :: frac). rewrite He. split; [reflexivity|].
    right. exists frac. auto.
Qed.

Lemma decfrac_decode_shape sec nsec fp tail :
  - 2 ^ 63 <= sec < 2 ^ 63 -> 0 <= nsec < 10 ^ 9 ->
  frac_text nsec fp -> tail = [] \/ tail = [0] ->
  decfrac_decode (Libc.fmt_d sec ++ fp ++ tail) = Ok (mk_timespec sec nsec).
Proof.
  intros Hs Hn Hfp Htail.
  set (text := Libc.fmt_d sec ++ fp).
  assert (Hnz : Forall (fun c => c <> 0) text).
  { unfold text. apply Forall_app. split.
    - rewrite fmt_d_sign_digits. apply Forall_app. split.
      + destruct (sec <? 0); repeat constructor. discriminate.
      + pose proof (to_digits_dec (Z.abs sec) ltac:(lia)) as H.
        revert H. apply Forall_impl. intros x Hx. lia.
    - pose proof (frac_text_plain nsec fp 0 Hfp ltac:(lia) ltac:(discriminate)) as H.
      revert H. apply Forall_impl. intros x [_ Hx]. exact Hx. }
  assert (Hlen : text_real_len (Libc.fmt_d sec ++ fp ++ tail) = length text).
  { rewrite app_assoc. fold text.
    destruct Htail as [-> | ->].
    - rewrite app_nil_r. apply text_real_len_nonzero, Hnz.
    - apply text_real_len_nonzero, Hnz. }
  assert (Hrest : forall c tl, fp ++ tail = c :: tl -> ~ 48 <= c <= 57).
  { intros c tl E. destruct Hfp as [[_ ->]|(frac & -> & _)].
    - destruct Htail as [-> | ->]; [discriminate|].
      injection E as <- _. lia.
    - injection E as <- _. chs. lia. }
  unfold decfrac_decode. rewrite Hlen, (strtoll_fmt_d sec _ Hs Hrest).
  assert (Hfl : length (Libc.fmt_d sec) <> O).
  { rewrite fmt_d_sign_digits, length_app.
    pose proof (to_digits_nonempty (Z.abs sec) ltac:(lia)) as H.
    destruct (Libc.to_digits false 10 (Z.abs sec)); [contradiction|]. cbn. lia. }
  replace (length (Libc.fmt_d sec) =? 0)%nat with false
    by (symmetry; apply Nat.eqb_neq; exact Hfl).
  replace (length text) with (length (Libc.fmt_d sec) + length fp)%nat
    by (unfold text; rewrite length_app; reflexivity).
  rewrite (subsec_decode_frac _ _ nsec fp tail).
  - rewrite Nat.ltb_irrefl, sint64_small by lia. reflexivity.
  - rewrite skipn_app, skipn_all, Nat.sub_diag. reflexivity.
  - exact Hfp.
  - intros c tl E. destruct Htail as [-> | ->]; [discriminate|].
    injection E as <- _. lia.
Qed.

(** Every [timespec] whose seconds fit 64 bits and whose nanoseconds
    are below 10^9 is written by [decfrac_encode] as a signed decimal
    number and read back by [decfrac_decode], from the text with or
    without its terminator, with status zero and the same value. *)
Theorem decfrac_roundtrip (ts : timespec) :
  - 2 ^ 63 <= tv_sec ts < 2 ^ 63 -> 0 <= tv_nsec ts < 10 ^ 9 ->
  exists text,
    decfrac_encode [] ts = (0, text)
    /\ decfrac_decode text = Ok ts
    /\ decfrac_decode (text ++ [0]) = Ok ts.
Proof.
  intros Hs Hn. destruct ts as [sec nsec]. cbn [tv_sec tv_nsec] in *.
  destruct (decfrac_encode_shape sec nsec Hn) as (fp & He & Hfp).
  exists (Libc.fmt_d sec ++ fp). split; [exact He|]. split.
  - rewrite <- (app_nil_r fp) at 1.
    apply decfrac_decode_shape; auto.
  - rewrite <- app_assoc. apply decfrac_decode_shape; auto.
Qed.

Lemma decfrac_roundtrip_witness :
  exists text,
    decfrac_encode [] (mk_timespec (-12) 500000000) = (0, text)
    /\ decfrac_decode text = Ok (mk_timespec (-12) 500000000)
    /\ decfrac_decode (text ++ [0]) = Ok (mk_timespec (-12) 500000000).
Proof.
  apply (decfrac_roundtrip (mk_timespec (-12) 500000000)); cbn; lia.
Defined.

(* ===================================================================== *)
(** * Removal of characters *)

Section StripChars.

Variable chars : list Z.

Definition kept (c : Z) : bool := negb (mem c chars).

Lemma strcspn_run rest tail :
  Forall (fun c => c <> 0) rest -> nul_or_end tail ->
  exists a r1,
    rest = a ++ r1
    /\ Libc.strcspn (rest ++ tail) chars = length a
    /\ Libc.take_str (length a) (rest ++ tail) = a
    /\ filter kept a = a
    /\ (r1 = [] \/ exists c r, r1 = c :: r /\ mem c chars = true).
Proof.
  intros Hnz Ht. induction Hnz as [|c rest Hc _ (a & r1 & Hr & Hn & Htk & Hf & Hh)].
  - exists [], []. cbn [app length Libc.take_str filter].
    repeat split; auto.
    destruct Ht as [->|[t ->]]; reflexivity.
  - cbn [app Libc.strcspn].
    replace (c =? 0) with false by (symmetry; apply Z.eqb_neq; exact Hc).
    cbn [orb]. destruct (mem c chars) eqn:E.
    + exists [], (c :: rest). cbn [app length Libc.take_str filter].
      repeat split; auto. right. eauto.
    + exists (c :: a), r1. cbn [app length Libc.take_str filter].
      replace (c =? 0) with false by (symmetry; apply Z.eqb_neq; exact Hc).
      unfold kept at 1. rewrite E. cbn [negb]. rewrite Hn, Htk, Hf.
      subst rest. repeat split; auto.
Qed.

Lemma strspn_run r1 tail :
  Forall (fun c => c <> 0) r1 -> nul_or_end tail ->
  exists b r2,
    r1 = b ++ r2
    /\ Libc.strspn (r1 ++ tail) chars = length b
    /\ filter kept b = []
    /\ (forall c r, r1 = c :: r -> mem c chars = true -> b <> []).
Proof.
  intros Hnz Ht. induction Hnz as [|c r1 Hc _ (b & r2 & Hr & Hn & Hf & Hh)].
  - exists [], []. cbn [app length filter]. repeat split; auto.
    + destruct Ht as [->|[t ->]]; reflexivity.
    + intros c r C. discriminate.
  - cbn [app Libc.strspn].
    replace (c =? 0) with false by (symmetry; apply Z.eqb_neq; exact Hc).
    cbn [negb andb]. destruct (mem c chars) eqn:E.
    + exists (c :: b), r2. cbn [app length filter]. unfold kept at 1.
      rewrite E. cbn [negb]. rewrite Hn. subst r1.
      repeat split; auto. intros; discriminate.
    + exists [], (c :: r1). cbn [app length filter].
      repeat split; auto. intros c' r [= <- _] C. congruence.
Qed.

Lemma strip_chars_loop_filter n :
  forall rest fuel buf curs tail out,
    (length rest <= n)%nat -> (length rest <= fuel)%nat ->
    Forall (fun c => c <> 0) rest -> nul_or_end tail ->
    skipn curs buf = rest ++ tail ->
    strip_chars_loop fuel buf (curs + length rest) curs chars out
    = Some (out ++ filter kept rest).
Proof.
  induction n as [|n IH]; intros rest fuel buf curs tail out Hn Hfuel Hnz Ht Hsk.
  - destruct rest; [|cbn in Hn; lia]. cbn [length filter].
    rewrite Nat.add_0_r, app_nil_r.
    destruct fuel; cbn [strip_chars_loop]; rewrite Nat.ltb_irrefl; reflexivity.
  - destruct rest as [|c0 rest0] eqn:Erest.
    { cbn [length filter]. rewrite Nat.add_0_r, app_nil_r.
      destruct fuel; cbn [strip_chars_loop]; rewrite Nat.ltb_irrefl; reflexivity. }
    rewrite <- Erest in *.
    assert (Hpos : (0 < length rest)%nat) by (rewrite Erest; cbn; lia).
    destruct fuel as [|f]; [lia|]. cbn [strip_chars_loop].
    replace (curs <? curs + length rest)%nat with true
      by (symmetry; apply Nat.ltb_lt; lia).
    destruct (strcspn_run rest tail Hnz Ht) as (a & r1 & Hr & Hn1 & Htk & Hfa & Hh).
    rewrite Hsk, Hn1, Htk.
    assert (Hnz1 : Forall (fun c => c <> 0) r1).
    { rewrite Hr in Hnz. apply Forall_app in Hnz. apply Hnz. }
    destruct (strspn_run r1 tail Hnz1 Ht) as (b & r2 & Hr2 & Hn2 & Hfb & Hb).
    assert (Hsk1 : skipn (curs + length a) buf = r1 ++ tail).
    { apply skipn_skipn_app. rewrite Hsk, Hr, <- app_assoc. reflexivity. }
    rewrite Hsk1, Hn2.
    assert (Hsk2 : skipn (curs + length a + length b) buf = r2 ++ tail).
    { apply skipn_skipn_app. rewrite Hsk1, Hr2, <- app_assoc. reflexivity. }
    assert (Hlen : length rest = (length a + length b + length r2)%nat).
    { rewrite Hr, Hr2, !length_app. lia. }
    assert (Hprog : (0 < length a + length b)%nat).
    { destruct a as [|x a]; [|cbn; lia].
      cbn [app] in Hr. destruct Hh as [->|(c & r & -> & Hc)].
      - rewrite Hr in Hpos. cbn in Hpos. lia.
      - specialize (Hb c r eq_refl Hc). destruct b; [contradiction|cbn; lia]. }
    replace (curs + length rest)%nat
      with (curs + length a + length b + length r2)%nat by lia.
    rewrite (IH r2 f buf _ tail); try lia; try assumption.
    + rewrite Hr, Hr2, !filter_app, Hfa, Hfb, <- app_assoc. reflexivity.
    + rewrite Hr2 in Hnz1. apply Forall_app in Hnz1. apply Hnz1.
Qed.

(** While the cursor has not passed a NUL that lies before [end_], no
    round of the loop moves it past that NUL: the loop never ends. *)
Lemma strip_chars_loop_stuck fuel :
  forall pre rest end_ curs out,
    Forall (fun c => c <> 0) pre ->
    (curs <= length pre)%nat -> (length pre < end_)%nat ->
    strip_chars_loop fuel (pre ++ 0 :: rest) end_ curs chars out = None.
Proof.
  induction fuel as [|f IH]; intros pre rest end_ curs out Hnz Hc He;
    cbn [strip_chars_loop];
    replace (curs <? end_)%nat with true by (symmetry; apply Nat.ltb_lt; lia);
    [reflexivity|].
  assert (Hsk : skipn curs (pre ++ 0 :: rest) = skipn curs pre ++ 0 :: rest).
  { rewrite skipn_app. replace (curs - length pre)%nat with O by lia.
    reflexivity. }
  assert (Hnz' : Forall (fun c => c <> 0) (skipn curs pre)).
  { rewrite <- (firstn_skipn curs pre) in Hnz. apply Forall_app in Hnz.
    apply Hnz. }
  assert (Hl : length (skipn curs pre) = (length pre - curs)%nat)
    by apply length_skipn.
  assert (Ht : nul_or_end (0 :: rest)) by (right; eauto).
  destruct (strcspn_run _ _ Hnz' Ht) as (a & r1 & Hr & Hn1 & _ & _ & _).
  rewrite Hsk, Hn1.
  assert (Hnz1 : Forall (fun c => c <> 0) r1).
  { rewrite Hr in Hnz'. apply Forall_app in Hnz'. apply Hnz'. }
  assert (Hsk1 : skipn (curs + length a) (pre ++ 0 :: rest) = r1 ++ 0 :: rest).
  { apply skipn_skipn_app. rewrite Hsk, Hr, <- app_assoc. reflexivity. }
  destruct (strspn_run r1 _ Hnz1 Ht) as (b & r2 & Hr2 & Hn2 & _ & _).
  rewrite Hsk1, Hn2.
  apply IH; try assumption.
  rewrite Hr, Hr2, !length_app in Hl. lia.
Qed.

End StripChars.

(** On a text without a NUL whose length is [in_len], [strip_chars]
    returns and appends the characters of the text that are not among
    [chars], in their order; the bytes behind the text are not read
    past its terminator. *)
Theorem strip_chars_filter (out text tail chars : list Z) :
  Forall (fun c => c <> 0) text -> nul_or_end tail ->
  strip_chars out (text ++ tail) (length text) chars
  = Some (out ++ filter (kept chars) text).
Proof.
  intros Hnz Ht. unfold strip_chars.
  apply (strip_chars_loop_filter chars (length text) text (length text)
           (text ++ tail) O tail out); auto.
Qed.

Lemma strip_chars_filter_witness :
  strip_chars [] (cstr "2000-01-01T00:00:00Z" ++ [0]) (length (cstr "2000-01-01T00:00:00Z"))
    (cstr "-:")
  = Some ([] ++ filter (kept (cstr "-:")) (cstr "2000-01-01T00:00:00Z")).
Proof.
  apply (strip_chars_filter [] (cstr "2000-01-01T00:00:00Z") [0] (cstr "-:")).
  - repeat constructor; discriminate.
  - right. exists []. reflexivity.
Defined.

(** When [in_len] reaches past a NUL of the input, the loop of
    [strip_chars] stops moving at that NUL and never ends: no amount of
    fuel makes the model return. *)
Theorem strip_chars_never_returns (fuel : nat) (out pre rest chars : list Z)
    (in_len : nat) :
  Forall (fun c => c <> 0) pre -> (length pre < in_len)%nat ->
  strip_chars_loop fuel (pre ++ 0 :: rest) in_len O chars out = None.
Proof.
  intros Hnz Hlen. apply strip_chars_loop_stuck; auto. lia.
Qed.

Lemma strip_chars_never_returns_witness :
  strip_chars_loop 1000 (cstr "2000" ++ 0 :: cstr "-01") 8 O (cstr "-:") [] = None.
Proof.
  apply (strip_chars_never_returns 1000 [] (cstr "2000") (cstr "-01") (cstr "-:") 8).
  - repeat constructor; discriminate.
  - cbn. lia.
Defined.

(* ===================================================================== *)
(** * Percent encoding and identifiers *)


Lemma mem_app c l1 l2 : mem c (l1 ++ l2) = mem c l1 || mem c l2.
Proof. apply existsb_app. Qed.


(** What [uri_percent_encode] appends for an input. *)
Lemma uri_percent_encode_text out b S :
  uri_percent_encode out b S
  = (0, out ++ pct_text (unreserved ++ c_string S) (firstn (text_real_len b) b)).
Proof.
  destruct (text_real_len_split b) as (tail & Hsplit & Hlen & Htail & _).
  unfold uri_percent_encode. f_equal.
  apply (uri_percent_encode_loop_spec _ _ [] (firstn (text_real_len b) b) tail);
    auto; lia.
Qed.





(** The characters [ari_text_is_identity] looks for in the span. *)
Definition id_rest_char (c : Z) : bool := negb (c =? 0) && mem c id_text_rest.

Lemma strspn_at_least s A n :
  (n <= length s)%nat ->
  ((n <= Libc.strspn s A)%nat
   <-> forallb (fun c => negb (c =? 0) && mem c A) (firstn n s) = true).
Proof.
  revert n. induction s as [|c s IH]; intros n Hn.
  - cbn in Hn. replace n with O by lia. cbn. split; auto.
  - destruct n as [|n]; [cbn; split; [auto|lia]|].
    cbn [Libc.strspn firstn forallb]. cbn [length] in Hn.
    destruct (negb (c =? 0) && mem c A).
    + cbn [andb]. rewrite <- IH by lia. lia.
    + cbn [andb]. split; [lia|discriminate].
Qed.

Lemma ari_text_is_identity_split text c rest tail :
  text = (c :: rest) ++ tail -> length (c :: rest) = text_real_len text ->
  ari_text_is_identity text
  = (mem c id_text_first || (c =? 0)) && forallb id_rest_char rest.
Proof.
  intros Hsplit Hlen. unfold ari_text_is_identity.
  cbn [length] in Hlen. rewrite <- Hlen.
  replace (S (length rest) <? 1)%nat with false
    by (symmetry; apply Nat.ltb_ge; lia).
  rewrite Hsplit. cbn [app]. unfold peek. cbn [nth skipn].
  rewrite mem_app. cbn [mem existsb]. rewrite orb_false_r.
  destruct (mem c id_text_first || (c =? 0)); cbn [negb andb]; [|reflexivity].
  replace (S (length rest) - 1)%nat with (length rest) by lia.
  destruct (forallb id_rest_char rest) eqn:Ef.
  + replace (Libc.strspn (rest ++ tail) id_text_rest <? length rest)%nat
      with false; [reflexivity|].
    symmetry. apply Nat.ltb_ge. apply strspn_at_least.
    * rewrite length_app. lia.
    * rewrite firstn_app, Nat.sub_diag, firstn_all. cbn [firstn].
      rewrite app_nil_r. exact Ef.
  + replace (Libc.strspn (rest ++ tail) id_text_rest <? length rest)%nat
      with true; [reflexivity|].
    symmetry. apply Nat.ltb_lt.
    destruct (Nat.lt_ge_cases (Libc.strspn (rest ++ tail) id_text_rest)
                (length rest)) as [|C]; [assumption|].
    apply strspn_at_least in C; [|rewrite length_app; lia].
    rewrite firstn_app, Nat.sub_diag, firstn_all in C. cbn [firstn] in C.
    rewrite app_nil_r in C. unfold id_rest_char in Ef. congruence.
Qed.

(** [ari_text_is_identity] accepts exactly the texts, taken without a
    terminating NUL, that are not empty, start with a letter, an
    underscore or a NUL byte (which [strchr] finds at the end of its
    set), and continue with letters, digits, underscores, dots and
    hyphens only. *)
Theorem ari_text_is_identity_accepts (text : list Z) :
  ari_text_is_identity text
  = match firstn (text_real_len text) text with
    | [] => false
    | c :: rest =>
        (mem c id_text_first || (c =? 0)) && forallb id_rest_char rest
    end.
Proof.
  destruct (text_real_len_split text) as (tail & Hsplit & Hlen & _).
  destruct (firstn (text_real_len text) text) as [|c rest] eqn:E.
  - unfold ari_text_is_identity. cbn in Hlen. rewrite <- Hlen. reflexivity.
  - apply (ari_text_is_identity_split text c rest tail); assumption.
Qed.



Definition hex_val (c : Z) : Z :=
  match Libc.digit_val c with Some d => d | None => 0 end.

(** What [uri_percent_decode] makes of a percent sign and the two
    characters behind it. *)
Definition escape_result (a b : Z) : Z * list Z :=
  if is_hex b then
    if is_hex a then (0, [16 * hex_val a + hex_val b])
    else if Libc.isspace a || (a =? ch "+") then (0, [hex_val b])
    else if a =? ch "-" then (0, [(256 - hex_val b) mod 256])
    else (2, [])
  else (2, []).

(** An escape is accepted by [uri_percent_decode] when [strtoul] uses up
    both characters behind the percent sign: two hexadecimal digits, but
    also a white space or a sign in front of one digit, the minus sign
    negating the byte; everything else has status 2 and gives no byte. *)
Theorem uri_percent_decode_escape (a b : Z) :
  is_byte a -> is_byte b ->
  uri_percent_decode [] [ch "%"; a; b] = escape_result a b.
Proof.
  intros Ha Hb.
  pose (P := fun a b =>
    let r := uri_percent_decode [] [ch "%"; a; b] in
    let e := escape_result a b in
    (fst r =? fst e) && (if list_eq_dec Z.eq_dec (snd r) (snd e) then true else false)).
  assert (H : forallb (fun a => forallb (P a) byte_range) byte_range = true)
    by (vm_compute; reflexivity).
  pose proof (byte_range_forall _ H a Ha) as H'. cbn beta in H'.
  pose proof (byte_range_forall _ H' b Hb) as Hp. unfold P in Hp. clear H H' P.
  cbv zeta in Hp. apply andb_true_iff in Hp. destruct Hp as [H1 H2].
  apply Z.eqb_eq in H1.
  destruct (list_eq_dec Z.eq_dec (snd (uri_percent_decode [] [ch "%"; a; b]))
              (snd (escape_result a b))) as [E|]; [|discriminate].
  destruct (uri_percent_decode [] [ch "%"; a; b]), (escape_result a b).
  cbn [fst snd] in *. congruence.
Qed.

Lemma uri_percent_decode_escape_witness :
  uri_percent_decode [] [ch "%"; ch "-"; ch "1"] = escape_result (ch "-") (ch "1").
Proof.
  apply (uri_percent_decode_escape (ch "-") (ch "1")); unfold is_byte; chs; lia.
Defined.

(* ===================================================================== *)
(** * Reading unsigned integers *)

(** The number a string of binary digits denotes. *)
Definition bin_value (acc : Z) (bits : list Z) : Z :=
  fold_left (fun a c => 2 * a + (c - ch "0")) bits acc.

Definition is_bit (c : Z) : bool := (c =? ch "0") || (c =? ch "1").

Lemma bin_value_mod bits : forall x y,
  x mod 2 ^ 64 = y mod 2 ^ 64 ->
  bin_value x bits mod 2 ^ 64 = bin_value y bits mod 2 ^ 64.
Proof.
  induction bits as [|c bits IH]; intros x y H; [exact H|].
  cbn [bin_value fold_left]. apply IH.
  rewrite (Z.add_mod (2 * x)), (Z.add_mod (2 * y)) by lia.
  rewrite (Z.mul_mod 2 x), (Z.mul_mod 2 y), H by lia. reflexivity.
Qed.

Lemma uint64_unbits_value bits : forall tmp,
  0 <= tmp < 2 ^ 64 ->
  uint64_unbits tmp bits
  = if forallb is_bit bits then Ok (bin_value tmp bits mod 2 ^ 64) else Err 2.
Proof.
  induction bits as [|c bits IH]; intros tmp Ht.
  - cbn. rewrite Z.mod_small by lia. reflexivity.
  - cbn [uint64_unbits forallb bin_value fold_left]. unfold is_bit at 1.
    rewrite Z.shiftl_mul_pow2, Z.pow_1_r by lia.
    destruct (c =? ch "0") eqn:E0; zb.
    + cbn [orb andb]. rewrite IH by (apply Z.mod_pos_bound; lia).
      destruct (forallb is_bit bits); [|reflexivity]. f_equal.
      apply bin_value_mod. subst c. rewrite Z.mod_mod by lia.
      f_equal. lia.
    + destruct (c =? ch "1") eqn:E1; zb.
      * cbn [orb andb]. rewrite IH by (apply Z.mod_pos_bound; lia).
        destruct (forallb is_bit bits); [|reflexivity]. f_equal.
        apply bin_value_mod. subst c. rewrite Z.mod_mod by lia.
        rewrite Zplus_mod_idemp_l. f_equal.
        change (ch "1" - ch "0") with 1. lia.
      * reflexivity.
Qed.

(** The binary path of [ari_uint64_decode]: after the prefix [0b] any
    number of the digits 0 and 1 is accepted, none at all giving zero,
    and a value that does not fit 64 bits is cut to its low 64 bits
    with status zero; any other character gives status 2. *)
Theorem ari_uint64_decode_binary (bits : list Z) :
  ari_uint64_decode (cstr "0b" ++ bits)
  = if forallb is_bit bits then Ok (bin_value 0 bits mod 2 ^ 64) else Err 2.
Proof.
  unfold ari_uint64_decode. cbn [cstr list_ascii_of_string map app length peek nth].
  change (ch "0" =? ch "0") with true. change (ch "b" =? ch "b") with true.
  replace (2 <=? S (S (length bits)))%nat with true
    by (symmetry; apply Nat.leb_le; lia).
  cbn [andb skipn]. apply uint64_unbits_value. lia.
Qed.

(** The decimal path of [ari_uint64_decode] does not report a number
    that is too large: the decimal text of any number from 2^64 on is
    accepted with status zero and read as 2^64 - 1. *)
Theorem ari_uint64_decode_saturates (n : Z) :
  2 ^ 64 <= n ->
  ari_uint64_decode (Libc.fmt_u n) = Ok (2 ^ 64 - 1).
Proof.
  intros Hn. unfold Libc.fmt_u.
  destruct (to_digits_spec false 10 ltac:(lia) ltac:(lia) n ltac:(lia))
    as (_ & _ & Hval & (d & tl & Hds & Hd & Hd0)).
  pose proof (to_digits_dec n ltac:(lia)) as Hdec.
  pose proof (parse_digits_dec _ [] Hdec ltac:(discriminate)) as Hp.
  rewrite app_nil_r, Hval in Hp.
  set (ds := Libc.to_digits false 10 n) in *.
  assert (Hd1 : 1 <= d) by (destruct (Z.eq_dec d 0) as [E|]; [apply Hd0 in E|]; lia).
  assert (Hc : Libc.digit_char false d = 48 + d) by (apply digit_char_dec; lia).
  rewrite Hds in *. rewrite Hc in *.
  unfold ari_uint64_decode. unfold peek at 1. cbn [nth].
  replace (48 + d =? ch "0") with false by (chs; lia).
  rewrite andb_false_r. cbn [andb].
  rewrite (strtoul_plain 10).
  - rewrite Hp. cbn [length]. unfold Libc.ULONG_MAX.
    replace (2 ^ 64 - 1 <? 0 * 10 ^ Z.of_nat (S (length tl)) + n) with true by lia.
    rewrite Nat.eqb_refl. reflexivity.
  - unfold Libc.isspace. lia.
  - chs. lia.
  - chs. lia.
  - left. split; [reflexivity|].
    replace (48 + d =? ch "0") with false by (chs; lia). reflexivity.
  - chs. lia.
Qed.

Lemma ari_uint64_decode_saturates_witness :
  ari_uint64_decode (Libc.fmt_u (2 ^ 64 + 5)) = Ok (2 ^ 64 - 1).
Proof.
  apply (ari_uint64_decode_saturates (2 ^ 64 + 5)). lia.
Defined.

(* ===================================================================== *)
(** * String escaping of ASCII text *)

Lemma c_string_terminated t tail :
  Forall (fun c => c <> 0) t -> c_string (t ++ 0 :: tail) = t.
Proof.
  induction 1 as [|c t Hc _ IH]; [reflexivity|].
  cbn [app c_string].
  replace (c =? 0) with false by (symmetry; apply Z.eqb_neq; exact Hc).
  rewrite IH. reflexivity.
Qed.

Definition is_ascii (c : Z) : Prop := 1 <= c < 128.

Lemma codepoints_ascii t : forall fuel,
  Forall is_ascii t -> (length t <= fuel)%nat ->
  MString.codepoints fuel t = t.
Proof.
  induction t as [|c t IH]; intros fuel Ht Hf.
  - destruct fuel; reflexivity.
  - destruct fuel as [|f]; [cbn in Hf; lia|].
    pose proof (Forall_inv Ht) as Hc. unfold is_ascii in Hc.
    cbn [MString.codepoints MString.utf8_decode_one].
    replace (c =? 0) with false by lia. replace (c <? 128) with true by lia.
    cbn [skipn]. rewrite IH; [reflexivity|apply (Forall_inv_tail Ht)|].
    cbn in Hf. lia.
Qed.

(** The text of [slash_escape] for a sequence of code points. *)
Definition slash_text (quote : Z) (t : list Z) : list Z :=
  flat_map (slash_escape_char quote) t.

Lemma slash_escape_ascii out t tail quote :
  Forall is_ascii t ->
  slash_escape out (t ++ 0 :: tail) quote = (0, out ++ slash_text quote t).
Proof.
  intros Ht. unfold slash_escape.
  assert (Hnz : Forall (fun c => c <> 0) t).
  { revert Ht. apply Forall_impl. unfold is_ascii. intros; lia. }
  destruct (t ++ 0 :: tail) eqn:E.
  - apply app_eq_nil in E. destruct E; discriminate.
  - rewrite <- E, c_string_terminated by exact Hnz.
    unfold MString.string_codepoints.
    rewrite codepoints_ascii, fold_left_app_flat_map by auto. reflexivity.
Qed.

Lemma fmt_u04X_strtoul c :
  is_byte c ->
  exists h0 h1 h2 h3,
    fmt_u04X c = [ch "\"; ch "u"; h0; h1; h2; h3]
    /\ Libc.strtoul [h0; h1; h2; h3] 16 = (c, 4%nat)
    /\ h0 <> 0 /\ h1 <> 0 /\ h2 <> 0 /\ h3 <> 0.
Proof.
  intros Hc.
  pose (P := fun c =>
    match fmt_u04X c with
    | [b; u; h0; h1; h2; h3] =>
        let '(v, n) := Libc.strtoul [h0; h1; h2; h3] 16 in
        (b =? ch "\") && (u =? ch "u") && (v =? c) && (n =? 4)%nat
        && negb (h0 =? 0) && negb (h1 =? 0) && negb (h2 =? 0) && negb (h3 =? 0)
    | _ => false
    end).
  assert (H : forallb P byte_range = true) by (vm_compute; reflexivity).
  pose proof (byte_range_forall P H c Hc) as Hp. unfold P in Hp. clear H P.
  destruct (fmt_u04X c) as [|b [|u [|h0 [|h1 [|h2 [|h3 [|]]]]]]]; try discriminate.
  exists h0, h1, h2, h3. destruct (Libc.strtoul [h0; h1; h2; h3] 16) as [v n].
  repeat (apply andb_true_iff in Hp; destruct Hp as [Hp ?]).
  repeat match goal with
         | H : negb _ = true |- _ => apply negb_true_iff, Z.eqb_neq in H
         | H : (_ =? _) = true |- _ => apply Z.eqb_eq in H
         | H : (_ =? _)%nat = true |- _ => apply Nat.eqb_eq in H
         end.
  subst. repeat split; auto.
Qed.

(** What [slash_unescape] stores for the character behind a backslash,
    when that character is not [u]. *)
Definition slash_letter (e : Z) : Z :=
  if e =? ch "b" then 8
  else if e =? ch "f" then 12
  else if e =? ch "n" then 10
  else if e =? ch "r" then 13
  else if e =? ch "t" then 9
  else e.

(** The three shapes of what [slash_escape] writes for an ASCII
    character other than the backslash. *)
Inductive slash_shape (quote c : Z) : list Z -> Prop :=
| shape_plain : c <> 0 -> c <> ch "\" -> slash_shape quote c [c]
| shape_letter e :
    e <> ch "u" -> e <> 0 -> slash_letter e = c ->
    slash_shape quote c [ch "\"; e]
| shape_unicode h0 h1 h2 h3 :
    Libc.strtoul [h0; h1; h2; h3] 16 = (c, 4%nat) ->
    h0 <> 0 -> h1 <> 0 -> h2 <> 0 -> h3 <> 0 ->
    slash_shape quote c [ch "\"; ch "u"; h0; h1; h2; h3].

Lemma slash_escape_char_shape quote c :
  quote = DQUOTE \/ quote = ch "'" ->
  is_ascii c -> c <> ch "\" ->
  slash_shape quote c (slash_escape_char quote c).
Proof.
  intros Hq Hc Hb. unfold is_ascii in Hc. unfold slash_escape_char.
  destruct (c =? quote) eqn:Eq; zb.
  { subst c. apply shape_letter.
    - destruct Hq as [-> | ->]; discriminate.
    - lia.
    - destruct Hq as [-> | ->]; reflexivity. }
  destruct (c =? 8) eqn:E8; zb; [subst; apply shape_letter; (discriminate || reflexivity)|].
  destruct (c =? 12) eqn:E12; zb; [subst; apply shape_letter; (discriminate || reflexivity)|].
  destruct (c =? 10) eqn:E10; zb; [subst; apply shape_letter; (discriminate || reflexivity)|].
  destruct (c =? 13) eqn:E13; zb; [subst; apply shape_letter; (discriminate || reflexivity)|].
  destruct (c =? 9) eqn:E9; zb; [subst; apply shape_letter; (discriminate || reflexivity)|].
  destruct ((c <=? 255) && Libc.isprint c) eqn:Ep.
  { unfold MString.push_u. replace (c <? 128) with true by lia.
    apply shape_plain; lia. }
  replace ((c <=? 55295) || ((57344 <=? c) && (c <=? 65535))) with true by lia.
  destruct (fmt_u04X_strtoul c ltac:(unfold is_byte; lia))
    as (h0 & h1 & h2 & h3 & -> & Hs & ? & ? & ? & ?).
  apply shape_unicode; auto.
Qed.

Lemma slash_shape_nonzero quote c e :
  slash_shape quote c e -> Forall (fun x => x <> 0) e /\ e <> [].
Proof.
  intros [H0 Hb|l Hu Hl Hv|h0 h1 h2 h3 Hs ? ? ? ?]; split;
    try discriminate; repeat constructor; auto; discriminate.
Qed.

Lemma skipn_cons_peek buf curs c s :
  skipn curs buf = c :: s ->
  peek buf curs = c /\ skipn (S curs) buf = s /\ (curs < length buf)%nat.
Proof.
  intros H. repeat split.
  - rewrite <- (Nat.add_0_r curs), peek_skipn, H. reflexivity.
  - replace (S curs) with (curs + length [c])%nat by (cbn; lia).
    apply skipn_skipn_app. exact H.
  - destruct (Nat.lt_ge_cases curs (length buf)) as [|C]; [assumption|].
    rewrite skipn_all2 in H by exact C. discriminate.
Qed.

(** A character that is neither a backslash nor a NUL passes through
    the loop of [slash_unescape]. *)
Lemma slash_unescape_loop_plain f buf end_ curs out c s :
  skipn curs buf = c :: s -> c <> 0 -> c <> ch "\" ->
  (curs < end_)%nat ->
  (S curs = end_ -> nul_or_end s) ->
  slash_unescape_loop (S f) buf end_ curs out
  = slash_unescape_loop (S f) buf end_ (S curs) (out ++ [c]).
Proof.
  intros Hsk H0 Hb Hlt Hend.
  destruct (skipn_cons_peek _ _ _ _ Hsk) as (_ & Hsk' & _).
  cbn [slash_unescape_loop]. rewrite Hsk, Hsk'.
  replace (curs <? end_)%nat with true by (symmetry; apply Nat.ltb_lt; lia).
  cbn [Libc.strchr].
  replace (c =? ch "\") with false by (symmetry; apply Z.eqb_neq; exact Hb).
  replace (c =? 0) with false by (symmetry; apply Z.eqb_neq; exact H0).
  destruct (Nat.eq_dec (S curs) end_) as [Heq|Hne].
  - assert (Hn : Libc.strchr s (ch "\") = None).
    { destruct (Hend Heq) as [->|[t ->]]; reflexivity. }
    rewrite Hn. cbn [option_map]. subst end_.
    replace (S curs - curs)%nat with 1%nat by lia.
    rewrite Nat.ltb_irrefl. cbn [Nat.eqb Libc.take_str].
    replace (c =? 0) with false by (symmetry; apply Z.eqb_neq; exact H0).
    replace (S curs <? curs + 1 + 1)%nat with true
      by (symmetry; apply Nat.ltb_lt; lia).
    reflexivity.
  - replace (S curs <? end_)%nat with true by (symmetry; apply Nat.ltb_lt; lia).
    destruct (Libc.strchr s (ch "\")) as [k|]; cbn [option_map].
    + replace (curs + S k - curs)%nat with (S k) by lia.
      replace (S curs + k - S curs)%nat with k by lia.
      cbn [Nat.eqb Libc.take_str].
      replace (c =? 0) with false by (symmetry; apply Z.eqb_neq; exact H0).
      replace (curs + S k + 1)%nat with (S curs + k + 1)%nat by lia.
      replace (if (k =? 0)%nat then out ++ [c]
               else (out ++ [c]) ++ Libc.take_str k s)
        with (out ++ c :: Libc.take_str k s).
      * reflexivity.
      * destruct k; cbn [Nat.eqb Libc.take_str];
          [reflexivity|rewrite <- app_assoc; reflexivity].
    + replace (end_ - curs)%nat with (S (end_ - S curs)) by lia.
      cbn [Nat.eqb Libc.take_str].
      replace (c =? 0) with false by (symmetry; apply Z.eqb_neq; exact H0).
      replace (curs + S (end_ - S curs) + 1)%nat
        with (S curs + (end_ - S curs) + 1)%nat by lia.
      replace (if (end_ - S curs =? 0)%nat then out ++ [c]
               else (out ++ [c]) ++ Libc.take_str (end_ - S curs) s)
        with (out ++ c :: Libc.take_str (end_ - S curs) s).
      * reflexivity.
      * destruct (end_ - S curs)%nat; cbn [Nat.eqb Libc.take_str];
          [reflexivity|rewrite <- app_assoc; reflexivity].
Qed.

(** A backslash and a character other than [u]. *)
Lemma slash_unescape_loop_letter f buf end_ curs out e s :
  skipn curs buf = ch "\" :: e :: s -> e <> ch "u" ->
  (curs + 2 <= end_)%nat ->
  slash_unescape_loop (S f) buf end_ curs out
  = slash_unescape_loop f buf end_ (curs + 2) (out ++ [slash_letter e]).
Proof.
  intros Hsk Hu Hlt.
  destruct (skipn_cons_peek _ _ _ _ Hsk) as (_ & Hsk' & _).
  destruct (skipn_cons_peek _ _ _ _ Hsk') as (Hp & _ & _).
  cbn [slash_unescape_loop]. rewrite Hsk.
  replace (curs <? end_)%nat with true by (symmetry; apply Nat.ltb_lt; lia).
  cbn [Libc.strchr]. rewrite Z.eqb_refl.
  replace (curs + 0 - curs)%nat with O by lia. cbn [Nat.eqb].
  replace (curs + 0 + 1)%nat with (S curs) by lia.
  replace (end_ <? S curs)%nat with false by (symmetry; apply Nat.ltb_ge; lia).
  replace (S curs =? end_)%nat with false by (symmetry; apply Nat.eqb_neq; lia).
  rewrite Hp. replace (S curs + 1)%nat with (curs + 2)%nat by lia.
  unfold slash_letter.
  replace (e =? ch "u") with false by (symmetry; apply Z.eqb_neq; exact Hu).
  destruct (e =? ch "b"); [reflexivity|].
  destruct (e =? ch "f"); [reflexivity|].
  destruct (e =? ch "n"); [reflexivity|].
  destruct (e =? ch "r"); [reflexivity|].
  destruct (e =? ch "t"); reflexivity.
Qed.

(** A backslash, [u] and four characters that [strtoul] reads as a
    number below the surrogates. *)
Lemma slash_unescape_loop_unicode f buf end_ curs out h0 h1 h2 h3 v s :
  skipn curs buf = ch "\" :: ch "u" :: h0 :: h1 :: h2 :: h3 :: s ->
  Libc.strtoul [h0; h1; h2; h3] 16 = (v, 4%nat) -> 0 <= v < 55296 ->
  (curs + 6 <= end_)%nat ->
  slash_unescape_loop (S f) buf end_ curs out
  = slash_unescape_loop f buf end_ (curs + 6) (out ++ MString.push_u v).
Proof.
  intros Hsk Hs Hv Hlt.
  destruct (skipn_cons_peek _ _ _ _ Hsk) as (_ & Hsk1 & _).
  destruct (skipn_cons_peek _ _ _ _ Hsk1) as (Hp1 & Hsk2 & _).
  destruct (skipn_cons_peek _ _ _ _ Hsk2) as (Hp2 & Hsk3 & _).
  destruct (skipn_cons_peek _ _ _ _ Hsk3) as (Hp3 & Hsk4 & _).
  destruct (skipn_cons_peek _ _ _ _ Hsk4) as (Hp4 & Hsk5 & _).
  destruct (skipn_cons_peek _ _ _ _ Hsk5) as (Hp5 & _ & _).
  cbn [slash_unescape_loop]. rewrite Hsk.
  replace (curs <? end_)%nat with true by (symmetry; apply Nat.ltb_lt; lia).
  cbn [Libc.strchr]. rewrite Z.eqb_refl.
  replace (curs + 0 - curs)%nat with O by lia. cbn [Nat.eqb].
  replace (curs + 0 + 1)%nat with (S curs) by lia.
  replace (end_ <? S curs)%nat with false by (symmetry; apply Nat.ltb_ge; lia).
  replace (S curs =? end_)%nat with false by (symmetry; apply Nat.eqb_neq; lia).
  rewrite Hp1. change (ch "u" =? ch "b") with false.
  change (ch "u" =? ch "f") with false. change (ch "u" =? ch "n") with false.
  change (ch "u" =? ch "r") with false. change (ch "u" =? ch "t") with false.
  change (ch "u" =? ch "u") with true. cbv iota.
  unfold take_hex_2byte.
  replace (end_ <? S (S curs) + 4)%nat with false
    by (symmetry; apply Nat.ltb_ge; lia).
  replace (S (S curs) + 1)%nat with (S (S (S curs))) by lia.
  replace (S (S curs) + 2)%nat with (S (S (S (S curs)))) by lia.
  replace (S (S curs) + 3)%nat with (S (S (S (S (S curs))))) by lia.
  rewrite Hp2, Hp3, Hp4, Hp5, Hs. cbn [Nat.ltb Nat.leb].
  rewrite (Z.mod_small v 65536) by lia.
  replace ((55296 <=? v) && (v <=? 57343)) with false by lia.
  replace (S (S curs) + 4)%nat with (curs + 6)%nat by lia.
  reflexivity.
Qed.

Lemma slash_unescape_loop_text quote tail :
  quote = DQUOTE \/ quote = ch "'" -> nul_or_end tail ->
  forall x, Forall (fun c => is_ascii c /\ c <> ch "\") x ->
  forall fuel pre out,
    (length (slash_text quote x) < fuel)%nat ->
    slash_unescape_loop fuel (pre ++ slash_text quote x ++ tail)
      (length pre + length (slash_text quote x)) (length pre) out
    = (0, out ++ x).
Proof.
  intros Hq Ht x Hx. induction Hx as [|c x [Hc Hb] _ IH]; intros fuel pre out Hf.
  - cbn [slash_text flat_map length]. rewrite Nat.add_0_r, app_nil_r.
    destruct fuel; cbn [slash_unescape_loop]; [reflexivity|].
    rewrite Nat.ltb_irrefl. reflexivity.
  - unfold slash_text in *. cbn [flat_map] in *. rewrite length_app in *.
    fold (slash_text quote x) in *.
    pose proof (slash_escape_char_shape quote c Hq Hc Hb) as Hshape.
    set (e := slash_escape_char quote c) in *.
    assert (Hsk : skipn (length pre) (pre ++ (e ++ slash_text quote x) ++ tail)
                  = e ++ slash_text quote x ++ tail).
    { rewrite skipn_app, Nat.sub_diag, skipn_all, <- app_assoc. reflexivity. }
    destruct fuel as [|f]; [lia|].
    inversion Hshape as [H0 Hbs He|l Hu Hl Hv He|h0 h1 h2 h3 Hs ? ? ? ? He];
      rewrite <- He in *; cbn [length app] in *.
    + rewrite (slash_unescape_loop_plain f _ _ _ out c
                 (slash_text quote x ++ tail)); auto; try lia.
      * change (pre ++ c :: slash_text quote x ++ tail)
          with (pre ++ [c] ++ slash_text quote x ++ tail).
        rewrite (app_assoc pre).
        replace (S (length pre)) with (length (pre ++ [c]))
          by (rewrite length_app; cbn; lia).
        replace (length pre + (1 + length (slash_text quote x)))%nat
          with (length (pre ++ [c]) + length (slash_text quote x))%nat
          by (rewrite length_app; cbn; lia).
        rewrite IH by lia. rewrite <- app_assoc. reflexivity.
      * intros Hend.
        assert (Hz : slash_text quote x = [])
          by (destruct (slash_text quote x); [reflexivity|cbn in Hend; lia]).
        rewrite Hz. exact Ht.
    + rewrite (slash_unescape_loop_letter f _ _ _ out l
                 (slash_text quote x ++ tail)); auto; try lia.
      change (pre ++ ch "\" :: l :: slash_text quote x ++ tail)
        with (pre ++ [ch "\"; l] ++ slash_text quote x ++ tail).
      rewrite (app_assoc pre), Hv.
      replace (length pre + 2)%nat with (length (pre ++ [ch "\"; l]))
        by (rewrite length_app; cbn; lia).
      replace (length pre + (2 + length (slash_text quote x)))%nat
        with (length (pre ++ [ch "\"; l]) + length (slash_text quote x))%nat
        by (rewrite length_app; cbn; lia).
      rewrite IH by lia. rewrite <- app_assoc. reflexivity.
    + unfold is_ascii in Hc.
      rewrite (slash_unescape_loop_unicode f _ _ _ out h0 h1 h2 h3 c
                 (slash_text quote x ++ tail)); auto; try lia.
      change (pre ++ ch "\" :: ch "u" :: h0 :: h1 :: h2 :: h3
                     :: slash_text quote x ++ tail)
        with (pre ++ [ch "\"; ch "u"; h0; h1; h2; h3]
                  ++ slash_text quote x ++ tail).
      rewrite (app_assoc pre).
      unfold MString.push_u. replace (c <? 128) with true by lia.
      replace (length pre + 6)%nat
        with (length (pre ++ [ch "\"; ch "u"; h0; h1; h2; h3]))
        by (rewrite length_app; cbn; lia).
      replace (length pre + (6 + length (slash_text quote x)))%nat
        with (length (pre ++ [ch "\"; ch "u"; h0; h1; h2; h3])
              + length (slash_text quote x))%nat
        by (rewrite length_app; cbn; lia).
      rewrite IH by lia. rewrite <- app_assoc. reflexivity.
Qed.

Lemma slash_text_nonzero quote x :
  quote = DQUOTE \/ quote = ch "'" ->
  Forall (fun c => is_ascii c /\ c <> ch "\") x ->
  Forall (fun c => c <> 0) (slash_text quote x)
  /\ (x <> [] -> slash_text quote x <> []).
Proof.
  intros Hq Hx. induction Hx as [|c x [Hc Hb] _ [IH1 IH2]].
  - split; [constructor|contradiction].
  - unfold slash_text in *. cbn [flat_map].
    destruct (slash_shape_nonzero _ _ _ (slash_escape_char_shape quote c Hq Hc Hb))
      as [Hn He].
    split; [apply Forall_app; split; assumption|].
    intros _ C. apply app_eq_nil in C. destruct C. contradiction.
Qed.



(* ===================================================================== *)
(** * Type registry: names and codes *)

(** With distinct enumerator values, both implementations of
    [ari_type_to_name] agree on every integer: they give the name the
    table pairs with the enumerator of that value, and nothing for an
    integer that is the value of no enumerator. *)
Theorem ari_type_to_name_agree (type_code : ari_type_t -> Z) (typenum : Z) :
  (forall a b, type_code a = type_code b -> a = b) ->
  ari_type_to_name_lut type_code typenum = ari_type_to_name_scan type_code typenum
  /\ (forall t, typenum = type_code t ->
        exists name, In (t, name) _ari_type_names
                     /\ ari_type_to_name_scan type_code typenum = Some name)
  /\ ((forall t, type_code t <> typenum) ->
        ari_type_to_name_scan type_code typenum = None).
Proof.
  intros Hinj. split; [apply ari_type_to_name_lut_scan; exact Hinj|]. split.
  - intros t ->.
    assert (Hin : exists name, In (t, name) _ari_type_names).
    { unfold _ari_type_names. destruct t; eexists; cbn [In]; tauto. }
    destruct Hin as [name Hin]. exists name. split; [exact Hin|].
    apply ari_type_to_name_registered; assumption.
  - apply ari_type_to_name_unregistered.
Qed.

Lemma ari_type_to_name_agree_witness :
  ari_type_to_name_lut iana_type_code 12 = ari_type_to_name_scan iana_type_code 12
  /\ (forall t, 12 = iana_type_code t ->
        exists name, In (t, name) _ari_type_names
                     /\ ari_type_to_name_scan iana_type_code 12 = Some name)
  /\ ((forall t, iana_type_code t <> 12) ->
        ari_type_to_name_scan iana_type_code 12 = None).
Proof.
  apply (ari_type_to_name_agree iana_type_code 12). exact iana_type_code_inj.
Defined.

(** With distinct enumerator values, the dictionaries of the
    [ENABLE_LUT_CACHE] build take every enumerator to its name and the
    name back: [ari_type_to_name] gives the name of the table and
    [ari_type_from_name] of that name returns zero and stores the value
    of the enumerator over whatever the integer held. *)
Theorem ari_type_name_roundtrip (type_code : ari_type_t -> Z) (t : ari_type_t)
    (old : Z) :
  (forall a b, type_code a = type_code b -> a = b) ->
  exists name,
    In (t, name) _ari_type_names
    /\ ari_type_to_name_lut type_code (type_code t) = Some name
    /\ ari_type_from_name_lut type_code (Some old) (Some name)
       = (0, Some (type_code t)).
Proof.
  intros Hinj.
  assert (Hin : exists name, In (t, name) _ari_type_names
                  /\ ari_type_from_name_lut type_code (Some old) (Some name)
                     = (0, Some (type_code t))).
  { unfold _ari_type_names. destruct t; eexists; (split; [cbn [In]; tauto|]);
      vm_compute; reflexivity. }
  destruct Hin as (name & Hin & Hfrom). exists name.
  split; [exact Hin|]. split; [|exact Hfrom].
  rewrite ari_type_to_name_lut_scan by exact Hinj.
  apply ari_type_to_name_registered; assumption.
Qed.

Lemma ari_type_name_roundtrip_witness :
  exists name,
    In (ARI_TYPE_EXECSET, name) _ari_type_names
    /\ ari_type_to_name_lut iana_type_code (iana_type_code ARI_TYPE_EXECSET) = Some name
    /\ ari_type_from_name_lut iana_type_code (Some 0) (Some name)
       = (0, Some (iana_type_code ARI_TYPE_EXECSET)).
Proof.
  apply (ari_type_name_roundtrip iana_type_code ARI_TYPE_EXECSET 0).
  exact iana_type_code_inj.
Defined.

(* ===================================================================== *)
(** * Induction over ARI values *)

Section AriInduction.

Variable P : ari_t -> Prop.

Definition report_all (r : ari_report_t) : Prop :=
  match r with
  | mk_report reltime source items => P reltime /\ P source /\ Forall P items
  end.

Definition pair_all (kv : ari_t * ari_t) : Prop := P (fst kv) /\ P (snd kv).

(** The property holds of every ARI directly contained in a value. *)
Definition value_all (v : ari_value ari_t) : Prop :=
  match v with
  | as_ac items => Forall P items
  | as_am items => Forall pair_all items
  | as_tbl _ items => Forall P items
  | as_execset nonce targets => P nonce /\ Forall P targets
  | as_rptset nonce reftime reports =>
      P nonce /\ P reftime /\ Forall report_all reports
  | _ => True
  end.

Definition params_all (p : ari_params ari_t) : Prop :=
  match p with
  | ARI_PARAMS_NONE => True
  | ARI_PARAMS_AC items => Forall P items
  | ARI_PARAMS_AM items => Forall pair_all items
  end.

Hypothesis P_lit : forall lit, value_all (value lit) -> P (ARI_LIT lit).
Hypothesis P_ref : forall ref, params_all (params ref) -> P (ARI_REF ref).

Section Containers.

Variable rec : forall a, P a.

Fixpoint all_items (items : list ari_t) : Forall P items :=
  match items with
  | [] => Forall_nil P
  | x :: items' => Forall_cons x (rec x) (all_items items')
  end.

Fixpoint all_pairs (items : list (ari_t * ari_t)) : Forall pair_all items :=
  match items with
  | [] => Forall_nil pair_all
  | (k, v) :: items' =>
      Forall_cons (k, v) (conj (rec k) (rec v)) (all_pairs items')
  end.

Definition all_report (r : ari_report_t) : report_all r :=
  match r with
  | mk_report reltime source items =>
      conj (rec reltime) (conj (rec source) (all_items items))
  end.

Fixpoint all_reports (reports : list ari_report_t) : Forall report_all reports :=
  match reports with
  | [] => Forall_nil report_all
  | r :: reports' => Forall_cons r (all_report r) (all_reports reports')
  end.

Definition all_value (v : ari_value ari_t) : value_all v :=
  match v with
  | as_ac items => all_items items
  | as_am items => all_pairs items
  | as_tbl _ items => all_items items
  | as_execset nonce targets => conj (rec nonce) (all_items targets)
  | as_rptset nonce reftime reports =>
      conj (rec nonce) (conj (rec reftime) (all_reports reports))
  | _ => I
  end.

Definition all_params (p : ari_params ari_t) : params_all p :=
  match p with
  | ARI_PARAMS_NONE => I
  | ARI_PARAMS_AC items => all_items items
  | ARI_PARAMS_AM items => all_pairs items
  end.

End Containers.

(** Structural induction through the containers of an ARI. *)
Fixpoint ari_t_induction (a : ari_t) : P a :=
  match a with
  | ARI_LIT lit => P_lit lit (all_value ari_t_induction (value lit))
  | ARI_REF ref => P_ref ref (all_params ari_t_induction (params ref))
  end.

End AriInduction.

(* ===================================================================== *)
(** * The visitor and the unassigned status *)

Section VisitFacts.

Context {U : Type}.

Section Ext.

Variables f g : ari_t -> ari_visit_ctx_t -> U -> Z * U.

Definition same_visit (a : ari_t) : Prop := forall ctx u, f a ctx u = g a ctx u.

Lemma ari_visit_ac_ext items :
  Forall same_visit items ->
  forall ctx u, ari_visit_ac f items ctx u = ari_visit_ac g items ctx u.
Proof.
  induction 1 as [|a items Ha _ IH]; intros ctx u; [reflexivity|].
  cbn [ari_visit_ac]. rewrite Ha.
  destruct (g a ctx u) as [r u']. destruct (r =? 0); [apply IH|reflexivity].
Qed.

Lemma ari_visit_am_ext items :
  Forall (pair_all same_visit) items ->
  forall ctx u, ari_visit_am f items ctx u = ari_visit_am g items ctx u.
Proof.
  induction 1 as [|[k v] items [Hk Hv] _ IH]; intros ctx u; [reflexivity|].
  cbn [ari_visit_am fst snd] in *. rewrite Hk.
  destruct (g k _ u) as [r u']. destruct (r =? 0); [|reflexivity].
  rewrite Hv. destruct (g v _ u') as [r' u'']. destruct (r' =? 0); [apply IH|reflexivity].
Qed.

Lemma ari_visit_report_ext r :
  report_all same_visit r ->
  forall ctx u, ari_visit_report f r ctx u = ari_visit_report g r ctx u.
Proof.
  destruct r as [reltime source items]. intros (H1 & H2 & H3) ctx u.
  cbn [ari_visit_report]. rewrite H1.
  destruct (g reltime ctx u) as [r u']. destruct (r =? 0); [|reflexivity].
  rewrite H2. destruct (g source ctx u') as [r' u'']. destruct (r' =? 0); [|reflexivity].
  apply ari_visit_ac_ext, H3.
Qed.

Lemma ari_visit_report_list_ext reports :
  Forall (report_all same_visit) reports ->
  forall ctx u,
    ari_visit_report_list f reports ctx u = ari_visit_report_list g reports ctx u.
Proof.
  induction 1 as [|r reports Hr _ IH]; intros ctx u; [reflexivity|].
  cbn [ari_visit_report_list]. rewrite (ari_visit_report_ext r Hr).
  destruct (ari_visit_report g r ctx u) as [s u']. destruct (s =? 0); [apply IH|reflexivity].
Qed.

Lemma ari_visit_rptset_ext nonce reftime reports :
  same_visit nonce -> same_visit reftime ->
  Forall (report_all same_visit) reports ->
  forall ctx u,
    ari_visit_rptset f nonce reftime reports ctx u
    = ari_visit_rptset g nonce reftime reports ctx u.
Proof.
  intros H1 H2 H3 ctx u. unfold ari_visit_rptset. rewrite H1.
  destruct (g nonce ctx u) as [r u']. destruct (r =? 0); [|reflexivity].
  rewrite H2. destruct (g reftime ctx u') as [r' u'']. destruct (r' =? 0); [|reflexivity].
  apply ari_visit_report_list_ext, H3.
Qed.

End Ext.

(** A visitor whose functions assign [retval] at every node: it has
    [visit_ari], or it has [visit_lit] for the literals and one of
    [visit_ref] and [visit_objpath] for the references. *)
Definition assigns_retval (visitor : ari_visitor_t U) : Prop :=
  visit_ari visitor <> None
  \/ (visit_lit visitor <> None
      /\ (visit_ref visitor <> None \/ visit_objpath visitor <> None)).

Lemma ari_visit_ari_stale (visitor : ari_visitor_t U) (stale1 stale2 : Z) :
  assigns_retval visitor ->
  forall ari ctx u,
    ari_visit_ari stale1 visitor ari ctx u = ari_visit_ari stale2 visitor ari ctx u.
Proof.
  intros Hv.
  apply (ari_t_induction
           (same_visit (ari_visit_ari stale1 visitor) (ari_visit_ari stale2 visitor))).
  - intros lit Hval ctx u. cbn [ari_visit_ari]. unfold if_visit.
    assert (Hsub : forall r u,
      (if has_ari_type lit then
         match ari_type lit, value lit with
         | ARI_TYPE_AC, as_ac items =>
             ari_visit_ac (ari_visit_ari stale1 visitor) items
               (mk_ctx (Some (ARI_LIT lit)) false) u
         | ARI_TYPE_AM, as_am items =>
             ari_visit_am (ari_visit_ari stale1 visitor) items
               (mk_ctx (Some (ARI_LIT lit)) false) u
         | ARI_TYPE_TBL, as_tbl _ items =>
             ari_visit_tbl (ari_visit_ari stale1 visitor) items
               (mk_ctx (Some (ARI_LIT lit)) false) u
         | ARI_TYPE_EXECSET, as_execset _ targets =>
             ari_visit_execset (ari_visit_ari stale1 visitor) targets
               (mk_ctx (Some (ARI_LIT lit)) false) u
         | ARI_TYPE_RPTSET, as_rptset nonce reftime reports =>
             ari_visit_rptset (ari_visit_ari stale1 visitor) nonce reftime reports
               (mk_ctx (Some (ARI_LIT lit)) false) u
         | _, _ => (r, u)
         end
       else (r, u))
      = (if has_ari_type lit then
         match ari_type lit, value lit with
         | ARI_TYPE_AC, as_ac items =>
             ari_visit_ac (ari_visit_ari stale2 visitor) items
               (mk_ctx (Some (ARI_LIT lit)) false) u
         | ARI_TYPE_AM, as_am items =>
             ari_visit_am (ari_visit_ari stale2 visitor) items
               (mk_ctx (Some (ARI_LIT lit)) false) u
         | ARI_TYPE_TBL, as_tbl _ items =>
             ari_visit_tbl (ari_visit_ari stale2 visitor) items
               (mk_ctx (Some (ARI_LIT lit)) false) u
         | ARI_TYPE_EXECSET, as_execset _ targets =>
             ari_visit_execset (ari_visit_ari stale2 visitor) targets
               (mk_ctx (Some (ARI_LIT lit)) false) u
         | ARI_TYPE_RPTSET, as_rptset nonce reftime reports =>
             ari_visit_rptset (ari_visit_ari stale2 visitor) nonce reftime reports
               (mk_ctx (Some (ARI_LIT lit)) false) u
         | _, _ => (r, u)
         end
       else (r, u))).
    { intros r u0. destruct (has_ari_type lit); [|reflexivity].
      destruct (value lit) as [| | | | | | |items|items|nc items|nonce targets
                               |nonce reftime reports];
        destruct (ari_type lit); try reflexivity; cbn [value_all] in Hval.
      - apply ari_visit_ac_ext, Hval.
      - apply ari_visit_am_ext, Hval.
      - apply ari_visit_ac_ext, Hval.
      - apply ari_visit_ac_ext, Hval.
      - destruct Hval as (H1 & H2 & H3). apply ari_visit_rptset_ext; assumption. }
    destruct (visit_ari visitor) as [fa|] eqn:Ea.
    + destruct (fa (ARI_LIT lit) ctx u) as [r u']. destruct (r =? 0); [|reflexivity].
      destruct (visit_lit visitor) as [fl|]; [|apply Hsub].
      destruct (fl lit _ u') as [r' u'']. destruct (r' =? 0); [apply Hsub|reflexivity].
    + destruct (visit_lit visitor) as [fl|] eqn:El.
      * destruct (fl lit _ u) as [r' u'']. destruct (r' =? 0); [apply Hsub|reflexivity].
      * exfalso. destruct Hv as [Hv|[Hv _]]; congruence.
  - intros ref Hpar ctx u. cbn [ari_visit_ari]. unfold if_visit.
    assert (Hsub : forall r u,
      match params ref with
      | ARI_PARAMS_NONE => (r, u)
      | ARI_PARAMS_AC items =>
          ari_visit_ac (ari_visit_ari stale1 visitor) items
            (mk_ctx (Some (ARI_REF ref)) false) u
      | ARI_PARAMS_AM items =>
          ari_visit_am (ari_visit_ari stale1 visitor) items
            (mk_ctx (Some (ARI_REF ref)) false) u
      end
      = match params ref with
        | ARI_PARAMS_NONE => (r, u)
        | ARI_PARAMS_AC items =>
            ari_visit_ac (ari_visit_ari stale2 visitor) items
              (mk_ctx (Some (ARI_REF ref)) false) u
        | ARI_PARAMS_AM items =>
            ari_visit_am (ari_visit_ari stale2 visitor) items
              (mk_ctx (Some (ARI_REF ref)) false) u
        end).
    { intros r u0. destruct (params ref); cbn [params_all] in Hpar.
      - reflexivity.
      - apply ari_visit_ac_ext, Hpar.
      - apply ari_visit_am_ext, Hpar. }
    assert (Hobj : forall r u,
      match visit_objpath visitor with
      | Some f =>
          let '(retval, u0) := f (objpath ref) (mk_ctx (Some (ARI_REF ref)) false) u in
          if retval =? 0 then
            match params ref with
            | ARI_PARAMS_NONE => (retval, u0)
            | ARI_PARAMS_AC items =>
                ari_visit_ac (ari_visit_ari stale1 visitor) items
                  (mk_ctx (Some (ARI_REF ref)) false) u0
            | ARI_PARAMS_AM items =>
                ari_visit_am (ari_visit_ari stale1 visitor) items
                  (mk_ctx (Some (ARI_REF ref)) false) u0
            end
          else (retval, u0)
      | None =>
          match params ref with
          | ARI_PARAMS_NONE => (r, u)
          | ARI_PARAMS_AC items =>
              ari_visit_ac (ari_visit_ari stale1 visitor) items
                (mk_ctx (Some (ARI_REF ref)) false) u
          | ARI_PARAMS_AM items =>
              ari_visit_am (ari_visit_ari stale1 visitor) items
                (mk_ctx (Some (ARI_REF ref)) false) u
          end
      end
      = match visit_objpath visitor with
        | Some f =>
            let '(retval, u0) := f (objpath ref) (mk_ctx (Some (ARI_REF ref)) false) u in
            if retval =? 0 then
              match params ref with
              | ARI_PARAMS_NONE => (retval, u0)
              | ARI_PARAMS_AC items =>
                  ari_visit_ac (ari_visit_ari stale2 visitor) items
                    (mk_ctx (Some (ARI_REF ref)) false) u0
              | ARI_PARAMS_AM items =>
                  ari_visit_am (ari_visit_ari stale2 visitor) items
                    (mk_ctx (Some (ARI_REF ref)) false) u0
              end
            else (retval, u0)
        | None =>
            match params ref with
            | ARI_PARAMS_NONE => (r, u)
            | ARI_PARAMS_AC items =>
                ari_visit_ac (ari_visit_ari stale2 visitor) items
                  (mk_ctx (Some (ARI_REF ref)) false) u
            | ARI_PARAMS_AM items =>
                ari_visit_am (ari_visit_ari stale2 visitor) items
                  (mk_ctx (Some (ARI_REF ref)) false) u
            end
        end).
    { intros r u0. destruct (visit_objpath visitor) as [fo|]; [|apply Hsub].
      destruct (fo _ _ u0) as [r' u'']. destruct (r' =? 0); [apply Hsub|reflexivity]. }
    destruct (visit_ari visitor) as [fa|] eqn:Ea.
    + destruct (fa (ARI_REF ref) ctx u) as [r u']. destruct (r =? 0); [|reflexivity].
      destruct (visit_ref visitor) as [fr|]; [|apply Hobj].
      destruct (fr ref _ u') as [r' u'']. destruct (r' =? 0); [apply Hobj|reflexivity].
    + destruct (visit_ref visitor) as [fr|] eqn:Er.
      * destruct (fr ref _ u) as [r' u'']. destruct (r' =? 0); [apply Hobj|reflexivity].
      * destruct (visit_objpath visitor) as [fo|] eqn:Eo.
        -- destruct (fo _ _ u) as [r' u'']. destruct (r' =? 0); [apply Hsub|reflexivity].
        -- exfalso. destruct Hv as [Hv|[_ [Hv|Hv]]]; congruence.
Qed.

End VisitFacts.

Section VisitZero.

Context {U : Type}.

Section Zero.

Variable f : ari_t -> ari_visit_ctx_t -> U -> Z * U.

Definition zero_visit (a : ari_t) : Prop := forall ctx u, fst (f a ctx u) = 0.

Lemma ari_visit_ac_zero items :
  Forall zero_visit items -> forall ctx u, fst (ari_visit_ac f items ctx u) = 0.
Proof.
  induction 1 as [|a items Ha _ IH]; intros ctx u; [reflexivity|].
  cbn [ari_visit_ac]. specialize (Ha ctx u).
  destruct (f a ctx u) as [r u']. cbn [fst] in Ha. subst r. apply IH.
Qed.

Lemma ari_visit_am_zero items :
  Forall (pair_all zero_visit) items ->
  forall ctx u, fst (ari_visit_am f items ctx u) = 0.
Proof.
  induction 1 as [|[k v] items [Hk Hv] _ IH]; intros ctx u; [reflexivity|].
  cbn [ari_visit_am fst snd] in *.
  specialize (Hk (mk_ctx (parent ctx) true) u).
  destruct (f k _ u) as [r u']. cbn [fst] in Hk. subst r. cbn [Z.eqb].
  specialize (Hv (mk_ctx (parent ctx) false) u').
  destruct (f v _ u') as [r' u'']. cbn [fst] in Hv. subst r'. apply IH.
Qed.

Lemma ari_visit_report_zero r :
  report_all zero_visit r -> forall ctx u, fst (ari_visit_report f r ctx u) = 0.
Proof.
  destruct r as [reltime source items]. intros (H1 & H2 & H3) ctx u.
  cbn [ari_visit_report]. specialize (H1 ctx u).
  destruct (f reltime ctx u) as [r u']. cbn [fst] in H1. subst r. cbn [Z.eqb].
  specialize (H2 ctx u').
  destruct (f source ctx u') as [r' u'']. cbn [fst] in H2. subst r'.
  apply ari_visit_ac_zero, H3.
Qed.

Lemma ari_visit_report_list_zero reports :
  Forall (report_all zero_visit) reports ->
  forall ctx u, fst (ari_visit_report_list f reports ctx u) = 0.
Proof.
  induction 1 as [|r reports Hr _ IH]; intros ctx u; [reflexivity|].
  cbn [ari_visit_report_list].
  pose proof (ari_visit_report_zero r Hr ctx u) as H.
  destruct (ari_visit_report f r ctx u) as [s u']. cbn [fst] in H. subst s.
  apply IH.
Qed.

Lemma ari_visit_rptset_zero nonce reftime reports :
  zero_visit nonce -> zero_visit reftime ->
  Forall (report_all zero_visit) reports ->
  forall ctx u, fst (ari_visit_rptset f nonce reftime reports ctx u) = 0.
Proof.
  intros H1 H2 H3 ctx u. unfold ari_visit_rptset. specialize (H1 ctx u).
  destruct (f nonce ctx u) as [r u']. cbn [fst] in H1. subst r. cbn [Z.eqb].
  specialize (H2 ctx u').
  destruct (f reftime ctx u') as [r' u'']. cbn [fst] in H2. subst r'.
  apply ari_visit_report_list_zero, H3.
Qed.

End Zero.

(** Every function of the visitor returns zero on every node. *)
Definition returns_zero (visitor : ari_visitor_t U) : Prop :=
  (forall f, visit_ari visitor = Some f -> forall a c u, fst (f a c u) = 0)
  /\ (forall f, visit_ref visitor = Some f -> forall a c u, fst (f a c u) = 0)
  /\ (forall f, visit_objpath visitor = Some f -> forall a c u, fst (f a c u) = 0)
  /\ (forall f, visit_lit visitor = Some f -> forall a c u, fst (f a c u) = 0).

Lemma ari_visit_ari_zero (visitor : ari_visitor_t U) :
  returns_zero visitor ->
  forall ari ctx u, fst (ari_visit_ari 0 visitor ari ctx u) = 0.
Proof.
  intros (Za & Zr & Zo & Zl).
  apply (ari_t_induction (zero_visit (ari_visit_ari 0 visitor))).
  - intros lit Hval ctx u. cbn [ari_visit_ari]. unfold if_visit.
    assert (Hsub : forall u,
      fst (if has_ari_type lit then
         match ari_type lit, value lit with
         | ARI_TYPE_AC, as_ac items =>
             ari_visit_ac (ari_visit_ari 0 visitor) items
               (mk_ctx (Some (ARI_LIT lit)) false) u
         | ARI_TYPE_AM, as_am items =>
             ari_visit_am (ari_visit_ari 0 visitor) items
               (mk_ctx (Some (ARI_LIT lit)) false) u
         | ARI_TYPE_TBL, as_tbl _ items =>
             ari_visit_tbl (ari_visit_ari 0 visitor) items
               (mk_ctx (Some (ARI_LIT lit)) false) u
         | ARI_TYPE_EXECSET, as_execset _ targets =>
             ari_visit_execset (ari_visit_ari 0 visitor) targets
               (mk_ctx (Some (ARI_LIT lit)) false) u
         | ARI_TYPE_RPTSET, as_rptset nonce reftime reports =>
             ari_visit_rptset (ari_visit_ari 0 visitor) nonce reftime reports
               (mk_ctx (Some (ARI_LIT lit)) false) u
         | _, _ => (0, u)
         end
       else (0, u)) = 0).
    { intros u0. destruct (has_ari_type lit); [|reflexivity].
      destruct (value lit) as [| | | | | | |items|items|nc items|nonce targets
                               |nonce reftime reports];
        destruct (ari_type lit); try reflexivity; cbn [value_all] in Hval.
      - apply ari_visit_ac_zero, Hval.
      - apply ari_visit_am_zero, Hval.
      - apply ari_visit_ac_zero, Hval.
      - apply ari_visit_ac_zero, Hval.
      - destruct Hval as (H1 & H2 & H3). apply ari_visit_rptset_zero; assumption. }
    destruct (visit_ari visitor) as [fa|] eqn:Ea.
    + pose proof (Za fa eq_refl (ARI_LIT lit) ctx u) as H.
      destruct (fa (ARI_LIT lit) ctx u) as [r u']. cbn [fst] in H. subst r.
      cbn [Z.eqb].
      destruct (visit_lit visitor) as [fl|]; [|apply Hsub].
      pose proof (Zl fl eq_refl lit (mk_ctx (Some (ARI_LIT lit)) false) u') as H.
      destruct (fl lit _ u') as [r' u'']. cbn [fst] in H. subst r'. apply Hsub.
    + destruct (visit_lit visitor) as [fl|]; [|apply Hsub].
      pose proof (Zl fl eq_refl lit (mk_ctx (Some (ARI_LIT lit)) false) u) as H.
      destruct (fl lit _ u) as [r' u'']. cbn [fst] in H. subst r'. apply Hsub.
  - intros ref Hpar ctx u. cbn [ari_visit_ari]. unfold if_visit.
    assert (Hsub : forall u,
      fst match params ref with
      | ARI_PARAMS_NONE => (0, u)
      | ARI_PARAMS_AC items =>
          ari_visit_ac (ari_visit_ari 0 visitor) items
            (mk_ctx (Some (ARI_REF ref)) false) u
      | ARI_PARAMS_AM items =>
          ari_visit_am (ari_visit_ari 0 visitor) items
            (mk_ctx (Some (ARI_REF ref)) false) u
      end = 0).
    { intros u0. destruct (params ref); cbn [params_all] in Hpar.
      - reflexivity.
      - apply ari_visit_ac_zero, Hpar.
      - apply ari_visit_am_zero, Hpar. }
    assert (Hobj : forall u,
      fst match visit_objpath visitor with
      | Some f =>
          let '(retval, u0) := f (objpath ref) (mk_ctx (Some (ARI_REF ref)) false) u in
          if retval =? 0 then
            match params ref with
            | ARI_PARAMS_NONE => (retval, u0)
            | ARI_PARAMS_AC items =>
                ari_visit_ac (ari_visit_ari 0 visitor) items
                  (mk_ctx (Some (ARI_REF ref)) false) u0
            | ARI_PARAMS_AM items =>
                ari_visit_am (ari_visit_ari 0 visitor) items
                  (mk_ctx (Some (ARI_REF ref)) false) u0
            end
          else (retval, u0)
      | None =>
          match params ref with
          | ARI_PARAMS_NONE => (0, u)
          | ARI_PARAMS_AC items =>
              ari_visit_ac (ari_visit_ari 0 visitor) items
                (mk_ctx (Some (ARI_REF ref)) false) u
          | ARI_PARAMS_AM items =>
              ari_visit_am (ari_visit_ari 0 visitor) items
                (mk_ctx (Some (ARI_REF ref)) false) u
          end
      end = 0).
    { intros u0. destruct (visit_objpath visitor) as [fo|]; [|apply Hsub].
      pose proof (Zo fo eq_refl (objpath ref) (mk_ctx (Some (ARI_REF ref)) false) u0) as H.
      destruct (fo _ _ u0) as [r' u'']. cbn [fst] in H. subst r'. apply Hsub. }
    destruct (visit_ari visitor) as [fa|] eqn:Ea.
    + pose proof (Za fa eq_refl (ARI_REF ref) ctx u) as H.
      destruct (fa (ARI_REF ref) ctx u) as [r u']. cbn [fst] in H. subst r.
      cbn [Z.eqb].
      destruct (visit_ref visitor) as [fr|]; [|apply Hobj].
      pose proof (Zr fr eq_refl ref (mk_ctx (Some (ARI_REF ref)) false) u') as H.
      destruct (fr ref _ u') as [r' u'']. cbn [fst] in H. subst r'. apply Hobj.
    + destruct (visit_ref visitor) as [fr|]; [|apply Hobj].
      pose proof (Zr fr eq_refl ref (mk_ctx (Some (ARI_REF ref)) false) u) as H.
      destruct (fr ref _ u) as [r' u'']. cbn [fst] in H. subst r'. apply Hobj.
Qed.

End VisitZero.

(** A visitor that counts the nodes it is shown. *)
Definition count_nodes : ari_visitor_t nat :=
  mk_visitor (Some (fun _ _ n => (0, S n))) None None None.

(** When the visitor has [visit_ari], or has [visit_lit] and one of
    [visit_ref] and [visit_objpath], every read of the local [retval]
    of [ari_visit_ari] follows an assignment: the status and the user
    data that [ari_visit] returns do not depend on what the unassigned
    variable held, on any ARI. *)
Theorem ari_visit_assigned {U : Type} (visitor : ari_visitor_t U)
    (stale1 stale2 : Z) (ari : ari_t) (u : U) :
  assigns_retval visitor ->
  ari_visit stale1 visitor ari u = ari_visit stale2 visitor ari u.
Proof.
  intros Hv. unfold ari_visit. apply ari_visit_ari_stale, Hv.
Qed.

Lemma ari_visit_assigned_witness :
  ari_visit 7 count_nodes
    (tagged ARI_TYPE_AC ARI_PRIM_OTHER (as_ac [null_lit; ARI_REF (mk_ref ctrl7 ARI_PARAMS_NONE)])) O
  = ari_visit 0 count_nodes
      (tagged ARI_TYPE_AC ARI_PRIM_OTHER (as_ac [null_lit; ARI_REF (mk_ref ctrl7 ARI_PARAMS_NONE)])) O.
Proof.
  apply (ari_visit_assigned count_nodes 7 0). left. discriminate.
Defined.

(** When moreover every function of the visitor returns zero on every
    node, [ari_visit] returns zero on every ARI, whatever the unassigned
    variable held. *)
Theorem ari_visit_returns_zero {U : Type} (visitor : ari_visitor_t U)
    (stale : Z) (ari : ari_t) (u : U) :
  assigns_retval visitor -> returns_zero visitor ->
  fst (ari_visit stale visitor ari u) = 0.
Proof.
  intros Hv Hz. unfold ari_visit.
  rewrite (ari_visit_ari_stale visitor stale 0 Hv).
  apply ari_visit_ari_zero, Hz.
Qed.

Lemma ari_visit_returns_zero_witness :
  fst (ari_visit 7 count_nodes
         (tagged ARI_TYPE_AC ARI_PRIM_OTHER
            (as_ac [null_lit; ARI_REF (mk_ref ctrl7 ARI_PARAMS_NONE)])) O) = 0.
Proof.
  apply (ari_visit_returns_zero count_nodes 7).
  - left. discriminate.
  - unfold returns_zero, count_nodes. cbn [visit_ari visit_ref visit_objpath visit_lit].
    repeat split; intros f E; try discriminate.
    injection E as <-. reflexivity.
Defined.

(** [ari_hash] hands [ari_visit] a function for the literals and one
    for the object paths, so the hash of an ARI does not depend on the
    unassigned variable of [ari_visit_ari]. *)
Theorem ari_hash_assigned (type_code : ari_type_t -> Z) (H : hash_ops)
    (stale1 stale2 : Z) (ari : ari_t) :
  ari_hash type_code H stale1 ari = ari_hash type_code H stale2 ari.
Proof.
  unfold ari_hash.
  rewrite (ari_visit_ari_stale (ari_hash_visitor type_code H) stale1 stale2
             ltac:(right; split; [|right]; discriminate)
             ari (mk_ctx None false) (M_HASH_SEED H)
           : ari_visit stale1 _ ari _ = ari_visit stale2 _ ari _).
  reflexivity.
Qed.

Lemma ari_visit_ac_ctx {U : Type} (f : ari_t -> ari_visit_ctx_t -> U -> Z * U)
    (ctx1 ctx2 : ari_visit_ctx_t) :
  (forall a u, f a ctx1 u = f a ctx2 u) ->
  forall items u, ari_visit_ac f items ctx1 u = ari_visit_ac f items ctx2 u.
Proof.
  intros Hf. induction items as [|a items IH]; intros u; [reflexivity|].
  cbn [ari_visit_ac]. rewrite Hf.
  destruct (f a ctx2 u) as [r u']. destruct (r =? 0); [apply IH|reflexivity].
Qed.

(** The nonce of an EXECSET does not enter its hash: [ari_hash_visit_lit]
    adds the tags only and [ari_visit_execset] walks the targets only,
    so two EXECSET literals with the same targets have the same hash
    whatever their nonces are. *)
Theorem ari_hash_execset_nonce (type_code : ari_type_t -> Z) (H : hash_ops)
    (stale : Z) (nonce1 nonce2 : ari_t) (targets : list ari_t) :
  ari_hash type_code H stale
    (tagged ARI_TYPE_EXECSET ARI_PRIM_OTHER (as_execset nonce1 targets))
  = ari_hash type_code H stale
      (tagged ARI_TYPE_EXECSET ARI_PRIM_OTHER (as_execset nonce2 targets)).
Proof.
  unfold ari_hash, ari_visit, tagged.
  cbn [ari_visit_ari ari_hash_visitor visit_ari visit_ref visit_objpath visit_lit
       if_visit has_ari_type ari_type value prim_type ari_hash_visit_lit
       ari_visit_execset Z.eqb fst snd].
  rewrite (ari_visit_ac_ctx _
             (mk_ctx (Some (ARI_LIT (mk_lit true ARI_TYPE_EXECSET ARI_PRIM_OTHER
                                       (as_execset nonce1 targets)))) false)
             (mk_ctx (Some (ARI_LIT (mk_lit true ARI_TYPE_EXECSET ARI_PRIM_OTHER
                                       (as_execset nonce2 targets)))) false)).
  - reflexivity.
  - intros a u. destruct a; reflexivity.
Qed.

Lemma slash_unescape_slash_text quote t :
  quote = DQUOTE \/ quote = ch "'" ->
  Forall (fun c => is_ascii c /\ c <> ch "\") t ->
  slash_unescape [] (slash_text quote t) = (0, t).
Proof.
  intros Hq Ht.
  destruct (slash_text_nonzero quote t Hq Ht) as [Hnz Hne].
  destruct (text_real_len_nonzero _ Hnz) as [Hl1 _].
  unfold slash_unescape. rewrite Hl1.
  destruct t as [|c t']; [reflexivity|].
  assert (Hpos : length (slash_text quote (c :: t')) <> O).
  { intros C. apply length_zero_iff_nil in C. apply Hne in C; [exact C|discriminate]. }
  replace (length (slash_text quote (c :: t')) =? 0)%nat with false
    by (symmetry; apply Nat.eqb_neq; exact Hpos).
  rewrite <- (app_nil_r (slash_text quote (c :: t'))) at 2.
  apply (slash_unescape_loop_text quote [] Hq ltac:(left; reflexivity)
           (c :: t') Ht _ [] []). lia.
Qed.

Lemma slash_text_bytes quote t :
  quote = DQUOTE \/ quote = ch "'" ->
  Forall is_ascii t -> Forall is_byte (slash_text quote t).
Proof.
  intros Hq Ht. induction Ht as [|c t Hc _ IH]; [constructor|].
  unfold slash_text in *. cbn [flat_map]. apply Forall_app. split; [|exact IH].
  pose (P := fun q c =>
    forallb (fun x => (0 <=? x) && (x <? 256)) (slash_escape_char q c)).
  assert (H : forall q, q = DQUOTE \/ q = ch "'" ->
                forallb (P q) byte_range = true)
    by (intros q [-> | ->]; vm_compute; reflexivity).
  pose proof (byte_range_forall _ (H quote Hq) c
                ltac:(unfold is_ascii in Hc; unfold is_byte; lia)) as Hp.
  unfold P in Hp. rewrite forallb_forall in Hp.
  apply Forall_forall. intros x Hx. specialize (Hp x Hx). unfold is_byte. lia.
Qed.

(* ===================================================================== *)
(** * Literals in text form *)

Section LiteralText.

Variable type_code : ari_type_t -> Z.
Variable printf_double : Z -> Z -> list Z.
Variable strftime_unspecified : list Z.

(** The scheme that starts the text of an outermost value. *)
Definition scheme_text (o : ari_text_enc_opts_t) : list Z :=
  match scheme_prefix o with
  | ARI_TEXT_SCHEME_NONE => []
  | _ => cstr "ari:"
  end.

(** The opening of a byte string in one of the two binary forms. *)
Definition bstr_open (o : ari_text_enc_opts_t) : list Z :=
  match bstr_form o with
  | ARI_TEXT_BSTR_BASE64URL => cstr "b64'"
  | _ => cstr "h'"
  end.

Lemma ari_text_encode_untagged text p v o :
  ari_text_encode type_code printf_double strftime_unspecified text
    (untagged p v) o
  = (0, out (snd (ari_text_encode_lit type_code printf_double strftime_unspecified
                    (ari_text_encode_stream type_code printf_double
                       strftime_unspecified)
                    (mk_state [] 0 o)
                    (mk_lit false ARI_TYPE_NULL p v)))).
Proof.
  unfold ari_text_encode, untagged. cbn [ari_text_encode_stream].
  destruct (ari_text_encode_lit _ _ _ _ _ _) as [r s]. reflexivity.
Qed.

Lemma ari_text_encode_prefix_top o :
  ari_text_encode_prefix (mk_state [] 0 o) = mk_state (scheme_text o) 0 o.
Proof.
  unfold ari_text_encode_prefix, scheme_text. cbn [opts depth Z.ltb Z.compare].
  destruct (scheme_prefix o); reflexivity.
Qed.

(** A byte string in base16 or base64url form is written between
    [h'] or [b64'] and a closing quote, after the scheme, and the text
    between the quotes is read back by the decoder of that form as the
    bytes of the literal. *)
Theorem ari_text_encode_bstr_decodes (text data old : list Z)
    (o : ari_text_enc_opts_t) :
  Forall is_byte data -> Z.of_nat (length data) < 2 ^ 62 ->
  bstr_form o <> ARI_TEXT_BSTR_RAW ->
  exists body,
    ari_text_encode type_code printf_double strftime_unspecified text
      (untagged ARI_PRIM_BSTR (as_data data)) o
    = (0, scheme_text o ++ bstr_open o ++ body ++ cstr "'")
    /\ match bstr_form o with
       | ARI_TEXT_BSTR_BASE64URL => base64_decode body = (0, data)
       | _ => base16_decode old body = (0, data)
       end.
Proof.
  intros Hb Hlen Hform. rewrite ari_text_encode_untagged.
  unfold ari_text_encode_lit. rewrite ari_text_encode_prefix_top.
  cbn [has_ari_type prim_type value opts out]. unfold bstr_open.
  destruct (bstr_form o) eqn:Ef; [contradiction| |].
  - exists (flat_map (fmt_02X true) data).
    unfold cat_str, push_back, set_out, base16_encode.
    cbn [out depth opts snd]. rewrite fold_left_app_flat_map.
    split; [rewrite <- !app_assoc; reflexivity|].
    unfold base16_decode. rewrite flat_map_fmt_02X_length by assumption.
    replace ((2 * length data) mod 2 =? 0)%nat with true
      by (symmetry; apply Nat.eqb_eq; rewrite Nat.mul_comm; apply Nat.Div0.mod_mul).
    cbn [negb]. apply base16_decode_loop_encoded, Hb.
  - exists (base64_text base64url_alphabet data).
    unfold cat_str, push_back, set_out, base64_encode.
    cbn [out depth opts snd]. rewrite base64_encode_loop_text.
    split; [rewrite <- !app_assoc; reflexivity|].
    unfold base64_decode.
    pose proof (base64_text_length base64url_alphabet data) as Htl.
    assert (Hdiv : (3 * ((length data + 2) / 3) <= length data + 2)%nat)
      by (apply Nat.Div0.mul_div_le).
    assert (Hdiv' : (length data + 2 < 3 * S ((length data + 2) / 3))%nat)
      by (apply Nat.mul_succ_div_gt; lia).
    pose proof (base64_decode_loop_text base64url_alphabet data
                  ltac:(right; reflexivity) Hb [] []
                  (Z.of_nat (length (base64_text base64url_alphabet data)) / 4 * 3 + 2)
                  (S (length (base64_text base64url_alphabet data)))) as Hloop.
    cbn [app length Nat.add] in Hloop. rewrite Hloop.
    + rewrite skipn_all. cbn [Libc.strspn Z.of_nat]. reflexivity.
    + rewrite Htl, Nat2Z.inj_mul. change (Z.of_nat 4) with 4.
      rewrite (Z.mul_comm 4), Z.div_mul by lia. lia.
    + lia.
    + lia.
Qed.

(** A text string of ASCII characters without a backslash that is not
    written as an identifier is written, after the scheme, as a text
    that [uri_percent_decode] reads back as the escaped text between
    two double quotes, and [slash_unescape] reads what is between the
    quotes back as the text of the literal. *)
Theorem ari_text_encode_tstr_decodes (text t : list Z) (o : ari_text_enc_opts_t) :
  Forall (fun c => is_ascii c /\ c <> ch "\") t ->
  text_identity o && ari_text_is_identity (t ++ [0]) = false ->
  exists enc quoted,
    ari_text_encode type_code printf_double strftime_unspecified text
      (untagged ARI_PRIM_TSTR (as_data (t ++ [0]))) o
    = (0, scheme_text o ++ enc)
    /\ uri_percent_decode [] enc = (0, DQUOTE :: quoted ++ [DQUOTE])
    /\ slash_unescape [] quoted = (0, t).
Proof.
  intros Ht Hid.
  assert (Ha : Forall is_ascii t)
    by (revert Ht; apply Forall_impl; intros c [H _]; exact H).
  set (A := unreserved ++ c_string uri_safe).
  set (buf := DQUOTE :: slash_text DQUOTE t ++ [DQUOTE]).
  exists (pct_text A buf), (slash_text DQUOTE t).
  assert (Hbytes : Forall is_byte buf).
  { unfold buf. constructor; [unfold is_byte, DQUOTE; lia|].
    apply Forall_app. split; [apply slash_text_bytes; auto|].
    repeat constructor; unfold is_byte, DQUOTE; lia. }
  assert (Hnzb : Forall (fun c => c <> 0) buf).
  { unfold buf. constructor; [discriminate|].
    apply Forall_app. split; [apply slash_text_nonzero; auto|].
    repeat constructor; discriminate. }
  split; [|split].
  - rewrite ari_text_encode_untagged. unfold ari_text_encode_lit.
    rewrite ari_text_encode_prefix_top.
    cbn [has_ari_type prim_type value opts out]. rewrite Hid.
    rewrite (slash_escape_ascii [DQUOTE] t [] DQUOTE Ha).
    unfold ari_text_percent_helper. rewrite uri_percent_encode_text.
    unfold set_out. cbn [out snd]. f_equal. f_equal. fold A. f_equal.
    change (([DQUOTE] ++ slash_text DQUOTE t) ++ [DQUOTE]) with buf.
    destruct (text_real_len_nonzero buf Hnzb) as [_ Hl]. rewrite Hl.
    rewrite firstn_app, Nat.sub_diag, firstn_all. cbn [firstn].
    apply app_nil_r.
  - assert (HA : mem (ch "%") A = false) by reflexivity.
    pose proof (pct_text_nonzero A buf Hbytes) as Hnz.
    destruct (text_real_len_nonzero _ Hnz) as [Hl1 _].
    unfold uri_percent_decode. rewrite Hl1.
    rewrite (uri_percent_decode_loop_spec A HA _ buf [] []); auto;
      try lia; try (left; reflexivity).
    rewrite app_nil_r. reflexivity.
  - apply slash_unescape_slash_text; auto.
Qed.

(** In the raw form a byte string that holds a zero byte is never
    written as quoted text: it is written in upper-case base16 between
    [h'] and a quote, and [base16_decode] reads the digits back as the
    bytes of the literal. *)
Theorem ari_text_encode_bstr_raw_binary (text data old : list Z)
    (o : ari_text_enc_opts_t) :
  Forall is_byte data -> In 0 data -> bstr_form o = ARI_TEXT_BSTR_RAW ->
  exists body,
    ari_text_encode type_code printf_double strftime_unspecified text
      (untagged ARI_PRIM_BSTR (as_data data)) o
    = (0, scheme_text o ++ cstr "h'" ++ body ++ cstr "'")
    /\ base16_decode old body = (0, data).
Proof.
  intros Hb Hin Hform. exists (flat_map (fmt_02X true) data).
  assert (Hutf : ari_data_is_utf8 (data ++ [0]) = false).
  { unfold ari_data_is_utf8. destruct (data ++ [0]) eqn:E.
    - apply app_eq_nil in E. destruct E; discriminate.
    - rewrite <- E, removelast_last.
      replace (forallb (fun c => negb (c =? 0)) data) with false; [reflexivity|].
      symmetry. apply not_true_is_false. intros C.
      rewrite forallb_forall in C. specialize (C 0 Hin). discriminate. }
  split.
  - rewrite ari_text_encode_untagged. unfold ari_text_encode_lit.
    rewrite ari_text_encode_prefix_top.
    cbn [has_ari_type prim_type value opts out]. rewrite Hform, Hutf.
    unfold cat_str, push_back, set_out, base16_encode.
    cbn [out depth opts snd]. rewrite fold_left_app_flat_map.
    rewrite <- !app_assoc. reflexivity.
  - unfold base16_decode. rewrite flat_map_fmt_02X_length by assumption.
    replace ((2 * length data) mod 2 =? 0)%nat with true
      by (symmetry; apply Nat.eqb_eq; rewrite Nat.mul_comm; apply Nat.Div0.mod_mul).
    cbn [negb]. apply base16_decode_loop_encoded, Hb.
Qed.

End LiteralText.

Lemma ari_text_encode_bstr_decodes_witness :
  exists body,
    ari_text_encode iana_type_code (fun _ _ => []) [] []
      (untagged ARI_PRIM_BSTR (as_data [0; 74; 255])) ARI_TEXT_ENC_OPTS_DEFAULT
    = (0, scheme_text ARI_TEXT_ENC_OPTS_DEFAULT ++ bstr_open ARI_TEXT_ENC_OPTS_DEFAULT
          ++ body ++ cstr "'")
    /\ match bstr_form ARI_TEXT_ENC_OPTS_DEFAULT with
       | ARI_TEXT_BSTR_BASE64URL => base64_decode body = (0, [0; 74; 255])
       | _ => base16_decode [9] body = (0, [0; 74; 255])
       end.
Proof.
  apply (ari_text_encode_bstr_decodes iana_type_code (fun _ _ => []) [] []
           [0; 74; 255] [9] ARI_TEXT_ENC_OPTS_DEFAULT).
  - repeat constructor; unfold is_byte; lia.
  - cbn. lia.
  - discriminate.
Defined.

Lemma ari_text_encode_tstr_decodes_witness :
  exists enc quoted,
    ari_text_encode iana_type_code (fun _ _ => []) [] []
      (untagged ARI_PRIM_TSTR (as_data (cstr "hi there" ++ [0])))
      ARI_TEXT_ENC_OPTS_DEFAULT
    = (0, scheme_text ARI_TEXT_ENC_OPTS_DEFAULT ++ enc)
    /\ uri_percent_decode [] enc = (0, DQUOTE :: quoted ++ [DQUOTE])
    /\ slash_unescape [] quoted = (0, cstr "hi there").
Proof.
  apply (ari_text_encode_tstr_decodes iana_type_code (fun _ _ => []) [] []
           (cstr "hi there") ARI_TEXT_ENC_OPTS_DEFAULT).
  - repeat constructor; unfold is_ascii; chs; lia.
  - reflexivity.
Defined.

Lemma ari_text_encode_bstr_raw_binary_witness :
  exists body,
    ari_text_encode iana_type_code (fun _ _ => []) [] []
      (untagged ARI_PRIM_BSTR (as_data [104; 0; 105]))
      (mk_opts ARI_TEXT_SCHEME_FIRST ARI_TEXT_ARITYPE_TEXT ARI_TEXT_INT_BASE10
         (ch "g") true ARI_TEXT_BSTR_RAW true)
    = (0, scheme_text (mk_opts ARI_TEXT_SCHEME_FIRST ARI_TEXT_ARITYPE_TEXT
                         ARI_TEXT_INT_BASE10 (ch "g") true ARI_TEXT_BSTR_RAW true)
          ++ cstr "h'" ++ body ++ cstr "'")
    /\ base16_decode [9] body = (0, [104; 0; 105]).
Proof.
  apply (ari_text_encode_bstr_raw_binary iana_type_code (fun _ _ => []) [] []
           [104; 0; 105] [9]
           (mk_opts ARI_TEXT_SCHEME_FIRST ARI_TEXT_ARITYPE_TEXT ARI_TEXT_INT_BASE10
              (ch "g") true ARI_TEXT_BSTR_RAW true)).
  - repeat constructor; unfold is_byte; lia.
  - cbn. auto.
  - reflexivity.
Defined.

(* ===================================================================== *)
(** * The encoder state across a value *)

Section EncoderState.

Variable type_code : ari_type_t -> Z.
Variable printf_double : Z -> Z -> list Z.
Variable strftime_unspecified : list Z.

Let enc := ari_text_encode_stream type_code printf_double strftime_unspecified.

Lemma enc_let {B : Type} s a (F : Z -> ari_text_enc_state_t -> B) :
  (let '(ret, state) := enc s a in F ret state) = F 0 (snd (enc s a)).
Proof.
  pose proof (ari_text_encode_stream_zero type_code printf_double
                strftime_unspecified s a) as H.
  fold enc in H. destruct (enc s a) as [r s']. cbn [fst snd] in *. subst r.
  reflexivity.
Qed.

Lemma items_cons a items sep s :
  ari_text_encode_items enc (a :: items) sep s
  = ari_text_encode_items enc items true
      (snd (enc (if sep then push_back s (ch ",") else s) a)).
Proof. cbn [ari_text_encode_items]. rewrite enc_let. reflexivity. Qed.

Lemma pairs_cons k v items sep s :
  ari_text_encode_pairs enc ((k, v) :: items) sep s
  = ari_text_encode_pairs enc items true
      (snd (enc (push_back
                   (snd (enc (if sep then push_back s (ch ",") else s) k))
                   (ch "=")) v)).
Proof. cbn [ari_text_encode_pairs]. rewrite !enc_let. reflexivity. Qed.

Lemma cells_cons ncols nrows a items row_ix col_ix sep s :
  ari_text_encode_cells enc ncols nrows (a :: items) row_ix col_ix sep s
  = let state := snd (enc (if sep then push_back s (ch ",") else s) a) in
    if col_ix + 1 <? ncols
    then ari_text_encode_cells enc ncols nrows items row_ix (col_ix + 1) true state
    else if row_ix + 1 <? nrows
         then ari_text_encode_cells enc ncols nrows items (row_ix + 1) 0 false
                (push_back (push_back state (ch ")")) (ch "("))
         else (0, push_back state (ch ")")).
Proof. cbn [ari_text_encode_cells]. rewrite enc_let. reflexivity. Qed.

Lemma field_eq s label val :
  ari_text_encode_field enc s label val
  = push_back (snd (enc (cat_str s label) val)) (ch ";").
Proof. unfold ari_text_encode_field. rewrite enc_let. reflexivity. Qed.

(** ** Depth and options are restored *)

(** The function leaves the depth and the options as it found them. *)
Definition keeps (f : ari_text_enc_state_t -> Z * ari_text_enc_state_t) : Prop :=
  forall s, depth (snd (f s)) = depth s /\ opts (snd (f s)) = opts s.

Definition keeps_ari (a : ari_t) : Prop := keeps (fun s => enc s a).

Lemma keeps_items items :
  Forall keeps_ari items -> forall sep, keeps (ari_text_encode_items enc items sep).
Proof.
  induction 1 as [|a items Ha _ IH]; intros sep s.
  - split; reflexivity.
  - rewrite items_cons. destruct (IH true (snd (enc (if sep then push_back s (ch ",") else s) a)))
      as [H1 H2].
    destruct (Ha (if sep then push_back s (ch ",") else s)) as [H3 H4].
    rewrite H1, H2, H3, H4. destruct sep; split; reflexivity.
Qed.

Lemma keeps_pairs items :
  Forall (pair_all keeps_ari) items ->
  forall sep, keeps (ari_text_encode_pairs enc items sep).
Proof.
  induction 1 as [|[k v] items [Hk Hv] _ IH]; intros sep s.
  - split; reflexivity.
  - rewrite pairs_cons. cbn [fst snd] in Hk, Hv.
    match goal with
    | |- context [ari_text_encode_pairs enc items true ?st] =>
        destruct (IH true st) as [H1 H2]
    end.
    match goal with
    | _ : context [snd (enc ?st v)] |- _ => destruct (Hv st) as [H3 H4]
    end.
    destruct (Hk (if sep then push_back s (ch ",") else s)) as [H5 H6].
    rewrite H1, H2, H3, H4. cbn [push_back depth opts]. rewrite H5, H6.
    destruct sep; split; reflexivity.
Qed.

Lemma keeps_cells items :
  Forall keeps_ari items ->
  forall ncols nrows row_ix col_ix sep,
    keeps (ari_text_encode_cells enc ncols nrows items row_ix col_ix sep).
Proof.
  induction 1 as [|a items Ha _ IH]; intros ncols nrows row_ix col_ix sep s.
  - split; reflexivity.
  - rewrite cells_cons. cbv zeta.
    destruct (Ha (if sep then push_back s (ch ",") else s)) as [H3 H4].
    assert (Hd : depth (if sep then push_back s (ch ",") else s) = depth s)
      by (destruct sep; reflexivity).
    assert (Ho : opts (if sep then push_back s (ch ",") else s) = opts s)
      by (destruct sep; reflexivity).
    destruct (col_ix + 1 <? ncols).
    + match goal with
      | |- context [ari_text_encode_cells enc ?a ?b items ?c ?d ?e ?st] =>
          destruct (IH a b c d e st) as [H1 H2]
      end.
      rewrite H1, H2, H3, H4, Hd, Ho. split; reflexivity.
    + destruct (row_ix + 1 <? nrows).
      * match goal with
        | |- context [ari_text_encode_cells enc ?a ?b items ?c ?d ?e ?st] =>
            destruct (IH a b c d e st) as [H1 H2]
        end.
        rewrite H1, H2. cbn [push_back depth opts]. rewrite H3, H4, Hd, Ho.
        split; reflexivity.
      * cbn [snd push_back depth opts]. rewrite H3, H4, Hd, Ho. split; reflexivity.
Qed.

Lemma keeps_report r :
  report_all keeps_ari r -> keeps (fun s => ari_text_encode_report enc s r).
Proof.
  destruct r as [reltime source items]. intros (H1 & H2 & H3) s.
  cbn [ari_text_encode_report]. rewrite !field_eq.
  match goal with
  | |- context [ari_text_encode_items enc items false ?st] =>
      destruct (keeps_items items H3 false st) as [Hd Ho];
      destruct (ari_text_encode_items enc items false st) as [r st']
  end.
  cbn [snd push_back depth opts set_opts cat_str] in *. rewrite Hd, Ho.
  match goal with
  | |- context [snd (enc ?st source)] => destruct (H2 st) as [Hd2 Ho2]
  end.
  cbn [snd push_back depth opts set_opts cat_str] in *. rewrite Hd2.
  match goal with
  | |- context [snd (enc ?st reltime)] => destruct (H1 st) as [Hd1 Ho1]
  end.
  cbn [snd push_back depth opts set_opts cat_str] in *. rewrite Hd1.
  split; reflexivity.
Qed.

Lemma keeps_reports reports :
  Forall (report_all keeps_ari) reports ->
  keeps (ari_text_encode_reports enc reports).
Proof.
  induction 1 as [|r reports Hr _ IH]; intros s.
  - split; reflexivity.
  - cbn [ari_text_encode_reports].
    destruct (keeps_report r Hr s) as [Hd Ho]. cbv beta in Hd, Ho.
    destruct (ari_text_encode_report enc s r) as [ret s1]. cbn [snd] in *.
    destruct (ret =? 0).
    + destruct (IH s1) as [H1 H2]. rewrite H1, H2, Hd, Ho. split; reflexivity.
    + cbn [snd]. split; assumption.
Qed.

Lemma keeps_ac items :
  Forall keeps_ari items -> keeps (fun s => ari_text_encode_ac enc s items).
Proof.
  intros H s. unfold ari_text_encode_ac.
  match goal with
  | |- context [ari_text_encode_items enc items false ?st] =>
      destruct (keeps_items items H false st) as [Hd Ho];
      destruct (ari_text_encode_items enc items false st) as [r st']
  end.
  cbn [snd push_back add_depth depth opts] in *. rewrite Hd, Ho.
  split; [lia|reflexivity].
Qed.

Lemma keeps_am items :
  Forall (pair_all keeps_ari) items ->
  keeps (fun s => ari_text_encode_am enc s items).
Proof.
  intros H s. unfold ari_text_encode_am.
  match goal with
  | |- context [ari_text_encode_pairs enc items false ?st] =>
      destruct (keeps_pairs items H false st) as [Hd Ho];
      destruct (ari_text_encode_pairs enc items false st) as [r st']
  end.
  cbn [snd push_back add_depth depth opts] in *. rewrite Hd, Ho.
  split; [lia|reflexivity].
Qed.

Lemma keeps_tbl ncols items :
  Forall keeps_ari items ->
  keeps (fun s => ari_text_encode_tbl enc s ncols items).
Proof.
  intros H s. unfold ari_text_encode_tbl.
  destruct (ncols =? 0); [split; reflexivity|].
  destruct (0 <? Z.of_nat (length items) / ncols).
  - match goal with
    | |- context [ari_text_encode_cells enc ?a ?b items ?c ?d ?e ?st] =>
        destruct (keeps_cells items H a b c d e st) as [Hd Ho];
        destruct (ari_text_encode_cells enc a b items c d e st) as [r st']
    end.
    cbn [snd push_back add_depth cat_str depth opts] in *. rewrite Hd, Ho.
    split; [lia|reflexivity].
  - cbn [snd push_back add_depth cat_str depth opts]. split; [lia|reflexivity].
Qed.

Lemma keeps_execset nonce targets :
  keeps_ari nonce -> Forall keeps_ari targets ->
  keeps (fun s => ari_text_encode_execset enc s nonce targets).
Proof.
  intros Hn H s. unfold ari_text_encode_execset. rewrite field_eq.
  match goal with
  | |- context [ari_text_encode_items enc targets false ?st] =>
      destruct (keeps_items targets H false st) as [Hd Ho];
      destruct (ari_text_encode_items enc targets false st) as [r st']
  end.
  cbn [snd push_back add_depth set_opts cat_str depth opts] in *. rewrite Hd, Ho.
  match goal with
  | |- context [snd (enc ?st nonce)] => destruct (Hn st) as [Hd1 Ho1]
  end.
  cbn [snd push_back add_depth set_opts cat_str depth opts] in *. rewrite Hd1.
  split; [lia|reflexivity].
Qed.

Lemma keeps_rptset nonce reftime reports :
  keeps_ari nonce -> keeps_ari reftime ->
  Forall (report_all keeps_ari) reports ->
  keeps (fun s => ari_text_encode_rptset enc s nonce reftime reports).
Proof.
  intros Hn Hr H s. unfold ari_text_encode_rptset. rewrite !field_eq.
  match goal with
  | |- context [ari_text_encode_reports enc reports ?st] =>
      destruct (keeps_reports reports H st) as [Hd Ho];
      destruct (ari_text_encode_reports enc reports st) as [r st']
  end.
  cbn [snd push_back add_depth set_opts cat_str depth opts] in *. rewrite Hd, Ho.
  match goal with
  | |- context [snd (enc ?st reftime)] => destruct (Hr st) as [Hd2 Ho2]
  end.
  cbn [snd push_back add_depth set_opts cat_str depth opts] in *. rewrite Hd2.
  match goal with
  | |- context [snd (enc ?st nonce)] => destruct (Hn st) as [Hd1 Ho1]
  end.
  cbn [snd push_back add_depth set_opts cat_str depth opts] in *. rewrite Hd1.
  split; [lia|reflexivity].
Qed.


(** ** The two encoders after the scheme prefix *)

(** The primitive values of [ari_text_encode_lit], the part after any
    tagged payload. *)
Definition lit_prims (obj : ari_lit_t) (state : ari_text_enc_state_t)
  : Z * ari_text_enc_state_t :=
  ltac:(let t := eval cbv beta delta [ari_text_encode_lit] in
                 (ari_text_encode_lit type_code printf_double strftime_unspecified) in
        lazymatch t with
        | (fun es st o => let state0 := _ in let prims := @?P es st o in _) =>
            let r := eval cbv beta in (P enc state obj state) in exact r
        end).

(** [ari_text_encode_lit] after [ari_text_encode_prefix]. *)
Definition lit_body (obj : ari_lit_t) (state : ari_text_enc_state_t)
  : Z * ari_text_enc_state_t :=
  if has_ari_type obj then
    let state := push_back state (ch "/") in
    let state := ari_text_encode_aritype type_code state (ari_type obj) None in
    let state := push_back state (ch "/") in
    match ari_type obj, value obj with
    | ARI_TYPE_TP, as_timespec ts =>
        if time_text (opts state) then
          let '(ret, o) := utctime_encode strftime_unspecified (out state) ts false in
          if ret =? 0 then lit_prims obj (set_out state o) else (2, set_out state o)
        else
          let '(ret, o) := decfrac_encode (out state) ts in
          if ret =? 0 then lit_prims obj (set_out state o) else (2, set_out state o)
    | ARI_TYPE_TD, as_timespec ts =>
        if time_text (opts state) then
          let '(ret, o) := timeperiod_encode (out state) ts in
          if ret =? 0 then lit_prims obj (set_out state o) else (2, set_out state o)
        else
          let '(ret, o) := decfrac_encode (out state) ts in
          if ret =? 0 then lit_prims obj (set_out state o) else (2, set_out state o)
    | ARI_TYPE_AC, as_ac items =>
        lit_prims obj (snd (ari_text_encode_ac enc state items))
    | ARI_TYPE_AM, as_am items =>
        lit_prims obj (snd (ari_text_encode_am enc state items))
    | ARI_TYPE_TBL, as_tbl ncols items =>
        lit_prims obj (snd (ari_text_encode_tbl enc state ncols items))
    | ARI_TYPE_EXECSET, as_execset nonce targets =>
        lit_prims obj (snd (ari_text_encode_execset enc state nonce targets))
    | ARI_TYPE_RPTSET, as_rptset nonce reftime reports =>
        lit_prims obj (snd (ari_text_encode_rptset enc state nonce reftime reports))
    | _, _ => lit_prims obj state
    end
  else lit_prims obj state.

Lemma lit_eq state obj :
  ari_text_encode_lit type_code printf_double strftime_unspecified enc state obj
  = lit_body obj (ari_text_encode_prefix state).
Proof. reflexivity. Qed.

(** [ari_text_encode_objref] after [ari_text_encode_prefix]. *)
Definition objref_body (obj : ari_ref_t) (state : ari_text_enc_state_t)
  : Z * ari_text_enc_state_t :=
  let state := cat_str state (cstr "//") in
  let state := snd (ari_text_encode_idseg state (ns_id (objpath obj))) in
  let state := push_back state (ch "/") in
  match type_id (objpath obj) with
  | ARI_IDSEG_NULL => (0, state)
  | _ =>
      let state :=
        if objpath_has_ari_type (objpath obj)
        then ari_text_encode_aritype type_code state (objpath_ari_type (objpath obj))
               (Some (type_id (objpath obj)))
        else snd (ari_text_encode_idseg state (type_id (objpath obj))) in
      let state := push_back state (ch "/") in
      let state := snd (ari_text_encode_idseg state (obj_id (objpath obj))) in
      match params obj with
      | ARI_PARAMS_NONE => (0, state)
      | ARI_PARAMS_AC items => (0, snd (ari_text_encode_ac enc state items))
      | ARI_PARAMS_AM items => (0, snd (ari_text_encode_am enc state items))
      end
  end.

Lemma objref_eq state obj :
  ari_text_encode_objref type_code enc state obj
  = objref_body obj (ari_text_encode_prefix state).
Proof.
  unfold ari_text_encode_objref, objref_body. cbv zeta.
  repeat match goal with
         | |- context [ari_text_encode_idseg ?s ?i] =>
             destruct (ari_text_encode_idseg s i); cbn [snd]
         end.
  reflexivity.
Qed.

Lemma stream_lit state obj :
  enc state (ARI_LIT obj) = (0, snd (lit_body obj (ari_text_encode_prefix state))).
Proof.
  unfold enc. cbn [ari_text_encode_stream]. fold enc. rewrite lit_eq.
  destruct (lit_body obj (ari_text_encode_prefix state)). reflexivity.
Qed.

Lemma stream_ref state obj :
  enc state (ARI_REF obj) = (0, snd (objref_body obj (ari_text_encode_prefix state))).
Proof.
  unfold enc. cbn [ari_text_encode_stream]. fold enc. rewrite objref_eq.
  destruct (objref_body obj (ari_text_encode_prefix state)). reflexivity.
Qed.

Lemma keeps_prefix s :
  depth (ari_text_encode_prefix s) = depth s
  /\ opts (ari_text_encode_prefix s) = opts s.
Proof.
  unfold ari_text_encode_prefix.
  destruct (scheme_prefix (opts s)); try destruct (0 <? depth s);
    split; reflexivity.
Qed.

Lemma keeps_idseg i : keeps (fun s => ari_text_encode_idseg s i).
Proof. intros s. destruct i; split; reflexivity. Qed.

Lemma keeps_aritype s v i :
  depth (ari_text_encode_aritype type_code s v i) = depth s
  /\ opts (ari_text_encode_aritype type_code s v i) = opts s.
Proof.
  unfold ari_text_encode_aritype.
  destruct (show_ari_type (opts s)); try destruct i as [i|];
    try destruct (ari_type_to_name _);
    first [split; reflexivity | exact (keeps_idseg i s)].
Qed.

Ltac leaf_cases :=
  repeat match goal with
         | |- context [ari_uint64_encode ?a ?b ?c] =>
             destruct (ari_uint64_encode a b c)
         | |- context [ari_float64_encode ?p ?a ?b ?c] =>
             destruct (ari_float64_encode p a b c)
         | |- context [slash_escape ?a ?b ?c] => destruct (slash_escape a b c)
         | |- context [ari_text_percent_helper ?a ?b] =>
             destruct (ari_text_percent_helper a b)
         | |- context [base16_encode ?a ?b ?c] => destruct (base16_encode a b c)
         | |- context [base64_encode ?a ?b ?c] => destruct (base64_encode a b c)
         | |- context [utctime_encode ?p ?a ?b ?c] =>
             destruct (utctime_encode p a b c)
         | |- context [decfrac_encode ?a ?b] => destruct (decfrac_encode a b)
         | |- context [timeperiod_encode ?a ?b] => destruct (timeperiod_encode a b)
         | |- context [if ?b then _ else _] => destruct b
         | |- context [match bstr_form ?o with _ => _ end] => destruct (bstr_form o)
         end.

Lemma keeps_prims obj : keeps (lit_prims obj).
Proof.
  intros s. unfold lit_prims.
  destruct (prim_type obj), (value obj); leaf_cases; split; reflexivity.
Qed.

Lemma keeps_then (f : ari_text_enc_state_t -> Z * ari_text_enc_state_t) s s' :
  keeps f -> depth s' = depth s -> opts s' = opts s ->
  depth (snd (f s')) = depth s /\ opts (snd (f s')) = opts s.
Proof. intros Hf Hd Ho. destruct (Hf s') as [H1 H2]. rewrite H1, H2. auto. Qed.

Lemma keeps_lit_body obj :
  value_all keeps_ari (value obj) -> keeps (lit_body obj).
Proof.
  intros Hv s. unfold lit_body.
  destruct (has_ari_type obj); [|apply keeps_prims].
  cbv zeta.
  set (s1 := push_back (ari_text_encode_aritype type_code (push_back s (ch "/"))
                          (ari_type obj) None) (ch "/")).
  assert (H1 : depth s1 = depth s /\ opts s1 = opts s).
  { subst s1. cbn [push_back depth opts].
    destruct (keeps_aritype (push_back s (ch "/")) (ari_type obj) None) as [A B].
    rewrite A, B. split; reflexivity. }
  destruct H1 as [Hd Ho]. clearbody s1.
  destruct (ari_type obj), (value obj); cbn [value_all] in Hv;
    try (apply keeps_then; [apply keeps_prims|assumption|assumption]);
    try (leaf_cases;
         try (apply keeps_then; [apply keeps_prims|assumption|assumption]);
         split; assumption).
  - destruct (keeps_ac items Hv s1) as [A B].
    apply keeps_then; [apply keeps_prims|congruence|congruence].
  - destruct (keeps_am items Hv s1) as [A B].
    apply keeps_then; [apply keeps_prims|congruence|congruence].
  - destruct (keeps_tbl ncols items Hv s1) as [A B].
    apply keeps_then; [apply keeps_prims|congruence|congruence].
  - destruct Hv as [Hn Ht].
    destruct (keeps_execset nonce targets Hn Ht s1) as [A B].
    apply keeps_then; [apply keeps_prims|congruence|congruence].
  - destruct Hv as (Hn & Hr & Ht).
    destruct (keeps_rptset nonce reftime reports Hn Hr Ht s1) as [A B].
    apply keeps_then; [apply keeps_prims|congruence|congruence].
Qed.

Lemma keeps_objref_body obj :
  params_all keeps_ari (params obj) -> keeps (objref_body obj).
Proof.
  intros Hv s. unfold objref_body. cbv zeta.
  set (s1 := push_back (snd (ari_text_encode_idseg (cat_str s (cstr "//"))
                               (ns_id (objpath obj)))) (ch "/")).
  assert (H1 : depth s1 = depth s /\ opts s1 = opts s).
  { subst s1. cbn [push_back depth opts].
    destruct (keeps_idseg (ns_id (objpath obj)) (cat_str s (cstr "//"))) as [A B].
    cbv beta in A, B. rewrite A, B. split; reflexivity. }
  destruct H1 as [Hd Ho]. clearbody s1.
  destruct (type_id (objpath obj)) eqn:Et; [split; assumption| |].
  all: match goal with
       | |- context [ari_text_encode_idseg (push_back ?t _) (obj_id _)] =>
           set (s2 := t);
           assert (H2 : depth s2 = depth s /\ opts s2 = opts s)
       end.
  1, 3: subst s2; destruct (objpath_has_ari_type (objpath obj));
        [destruct (keeps_aritype s1 (objpath_ari_type (objpath obj))
                     (Some (type_id (objpath obj)))) as [A B]; rewrite Et in A, B;
         split; congruence
        |match goal with
         | |- context [ari_text_encode_idseg ?t ?i] =>
             destruct (keeps_idseg i t) as [A B]; cbv beta in A, B;
             split; congruence
         end].
  all: destruct H2 as [Hd2 Ho2]; clearbody s2;
       match goal with
       | |- context [ari_text_encode_idseg ?t (obj_id ?p)] =>
           destruct (keeps_idseg (obj_id p) t) as [A B]; cbv beta in A, B;
           cbn [push_back depth opts] in A, B;
           set (s3 := snd (ari_text_encode_idseg t (obj_id p))) in *
       end;
       clearbody s3;
       destruct (params obj) as [|items|items]; cbn [params_all snd] in *;
       [split; congruence
       |destruct (keeps_ac items Hv s3); split; congruence
       |destruct (keeps_am items Hv s3); split; congruence].
Qed.

Lemma keeps_all a : keeps_ari a.
Proof.
  induction a using ari_t_induction.
  - intros s. rewrite stream_lit. cbn [snd].
    destruct (keeps_prefix s) as [A B].
    apply keeps_then; [apply keeps_lit_body; assumption|assumption|assumption].
  - intros s. rewrite stream_ref. cbn [snd].
    destruct (keeps_prefix s) as [A B].
    apply keeps_then; [apply keeps_objref_body; assumption|assumption|assumption].
Qed.


(** ** The encoders only append *)

Lemma ari_uint64_encode_app x o v b :
  ari_uint64_encode (x ++ o) v b
  = (fst (ari_uint64_encode o v b), x ++ snd (ari_uint64_encode o v b)).
Proof.
  unfold ari_uint64_encode.
  repeat match goal with |- context [if ?c then _ else _] => destruct c end;
    cbn [fst snd]; rewrite <- ?app_assoc; reflexivity.
Qed.

Lemma ari_float64_encode_app x o v f :
  ari_float64_encode printf_double (x ++ o) v f
  = (fst (ari_float64_encode printf_double o v f),
     x ++ snd (ari_float64_encode printf_double o v f)).
Proof.
  unfold ari_float64_encode.
  repeat match goal with |- context [if ?c then _ else _] => destruct c end;
    cbn [fst snd]; rewrite <- ?app_assoc; reflexivity.
Qed.

Lemma subsec_encode_app x o n :
  subsec_encode (x ++ o) n
  = (fst (subsec_encode o n), x ++ snd (subsec_encode o n)).
Proof.
  unfold subsec_encode. destruct (n =? 0); [reflexivity|].
  destruct (subsec_trim 20 n 9). cbn [fst snd]. rewrite <- app_assoc. reflexivity.
Qed.

Lemma decfrac_encode_app x o ts :
  decfrac_encode (x ++ o) ts
  = (fst (decfrac_encode o ts), x ++ snd (decfrac_encode o ts)).
Proof.
  unfold decfrac_encode. rewrite <- app_assoc, subsec_encode_app.
  destruct (subsec_encode _ _). reflexivity.
Qed.

Lemma timeperiod_encode_part_app U L f x o :
  timeperiod_encode_part U L f (x ++ o)
  = (fst (timeperiod_encode_part U L f o),
     x ++ snd (timeperiod_encode_part U L f o)).
Proof.
  unfold timeperiod_encode_part. destruct (U <=? f); cbn [fst snd];
    rewrite <- ?app_assoc; reflexivity.
Qed.

Ltac app_steps x :=
  repeat (rewrite <- ?app_assoc;
          match goal with
          | |- context [timeperiod_encode_part ?U ?L ?f (x ++ ?o')] =>
              rewrite (timeperiod_encode_part_app U L f x o');
              destruct (timeperiod_encode_part U L f o'); cbn [fst snd]
          | |- context [subsec_encode (x ++ ?o') ?n] =>
              rewrite (subsec_encode_app x o' n);
              destruct (subsec_encode o' n); cbn [fst snd]
          end).

Lemma timeperiod_encode_app x o ts :
  timeperiod_encode (x ++ o) ts
  = (fst (timeperiod_encode o ts), x ++ snd (timeperiod_encode o ts)).
Proof.
  unfold timeperiod_encode.
  destruct ((tv_sec ts =? 0) && (tv_nsec ts =? 0));
    [cbn [fst snd]; rewrite <- app_assoc; reflexivity|].
  cbv zeta. destruct (tv_sec ts <? 0); app_steps x;
    match goal with |- context [if ?c then _ else _] => destruct c end;
    app_steps x; rewrite <- ?app_assoc; reflexivity.
Qed.

Lemma utctime_encode_app x o ts sep :
  utctime_encode strftime_unspecified (x ++ o) ts sep
  = (fst (utctime_encode strftime_unspecified o ts sep),
     x ++ snd (utctime_encode strftime_unspecified o ts sep)).
Proof.
  unfold utctime_encode. destruct (LibcTime.gmtime_r _); [|reflexivity].
  cbv zeta. app_steps x. rewrite <- ?app_assoc. reflexivity.
Qed.

Lemma ari_text_percent_helper_app x o buf :
  ari_text_percent_helper (x ++ o) buf
  = (fst (ari_text_percent_helper o buf),
     x ++ snd (ari_text_percent_helper o buf)).
Proof.
  unfold ari_text_percent_helper. rewrite !uri_percent_encode_text.
  cbn [fst snd]. rewrite <- app_assoc. reflexivity.
Qed.

Lemma base16_encode_app x o data u :
  base16_encode (x ++ o) data u
  = (fst (base16_encode o data u), x ++ snd (base16_encode o data u)).
Proof.
  unfold base16_encode. rewrite !fold_left_app_flat_map.
  cbn [fst snd]. rewrite <- app_assoc. reflexivity.
Qed.

Lemma base64_encode_app x o data u :
  base64_encode (x ++ o) data u
  = (fst (base64_encode o data u), x ++ snd (base64_encode o data u)).
Proof.
  unfold base64_encode. rewrite !base64_encode_loop_text.
  cbn [fst snd]. rewrite <- app_assoc. reflexivity.
Qed.

(** ** Depth and options after each encoder *)

Lemma all_keep items : Forall keeps_ari items.
Proof. apply Forall_forall. intros a _. apply keeps_all. Qed.

Lemma all_keep_pairs items : Forall (pair_all keeps_ari) items.
Proof. apply Forall_forall. intros [k v] _. split; apply keeps_all. Qed.

Lemma all_keep_reports reports : Forall (report_all keeps_ari) reports.
Proof.
  apply Forall_forall. intros [t s items] _.
  repeat split; try apply keeps_all. apply all_keep.
Qed.

Lemma enc_depth s a : depth (snd (enc s a)) = depth s.
Proof. apply (keeps_all a s). Qed.

Lemma enc_opts s a : opts (snd (enc s a)) = opts s.
Proof. apply (keeps_all a s). Qed.

Lemma items_depth items sep s :
  depth (snd (ari_text_encode_items enc items sep s)) = depth s.
Proof. apply (keeps_items items (all_keep items) sep s). Qed.

Lemma items_opts items sep s :
  opts (snd (ari_text_encode_items enc items sep s)) = opts s.
Proof. apply (keeps_items items (all_keep items) sep s). Qed.

Lemma report_depth r s : depth (snd (ari_text_encode_report enc s r)) = depth s.
Proof. apply (keeps_report r (all_report keeps_ari keeps_all r) s). Qed.

Lemma report_opts r s : opts (snd (ari_text_encode_report enc s r)) = opts s.
Proof. apply (keeps_report r (all_report keeps_ari keeps_all r) s). Qed.

Lemma aritype_depth s v i :
  depth (ari_text_encode_aritype type_code s v i) = depth s.
Proof. apply keeps_aritype. Qed.

Lemma aritype_opts s v i :
  opts (ari_text_encode_aritype type_code s v i) = opts s.
Proof. apply keeps_aritype. Qed.

Lemma idseg_depth s i : depth (snd (ari_text_encode_idseg s i)) = depth s.
Proof. apply (keeps_idseg i s). Qed.

Lemma idseg_opts s i : opts (snd (ari_text_encode_idseg s i)) = opts s.
Proof. apply (keeps_idseg i s). Qed.

Ltac st_simpl :=
  repeat (cbn [depth opts push_back cat_str add_depth set_opts set_out snd
               set_scheme_prefix scheme_prefix];
          rewrite ?enc_depth, ?enc_opts, ?items_depth, ?items_opts,
            ?report_depth, ?report_opts, ?aritype_depth, ?aritype_opts,
            ?idseg_depth, ?idseg_opts).

(** ** The status of the loops *)

Lemma items_zero items :
  forall sep s, fst (ari_text_encode_items enc items sep s) = 0.
Proof.
  induction items as [|a items IH]; intros sep s; [reflexivity|].
  rewrite items_cons. apply IH.
Qed.

Lemma report_snd s reltime source items :
  ari_text_encode_report enc s (mk_report reltime source items)
  = (0, push_back
          (push_back
             (snd (ari_text_encode_items enc items false
                     (push_back
                        (set_opts
                           (ari_text_encode_field enc
                              (ari_text_encode_field enc
                                 (set_opts (push_back s (ch "("))
                                    (set_scheme_prefix (opts (push_back s (ch "(")))
                                       ARI_TEXT_SCHEME_NONE))
                                 (cstr "t=") reltime)
                              (cstr "s=") source)
                           (opts (push_back s (ch "("))))
                        (ch "("))))
             (ch ")"))
          (ch ")")).
Proof.
  cbn [ari_text_encode_report]. cbv zeta.
  match goal with
  | |- context [ari_text_encode_items enc items false ?st] =>
      pose proof (items_zero items false st) as Hz;
      destruct (ari_text_encode_items enc items false st) as [r st']
  end.
  cbn [fst snd] in *. subst r. reflexivity.
Qed.

Lemma reports_cons r reports s :
  ari_text_encode_reports enc (r :: reports) s
  = ari_text_encode_reports enc reports (snd (ari_text_encode_report enc s r)).
Proof.
  cbn [ari_text_encode_reports]. destruct r as [t src items].
  rewrite report_snd. reflexivity.
Qed.

Lemma reports_depth reports :
  forall s, depth (snd (ari_text_encode_reports enc reports s)) = depth s.
Proof. intros s. apply (keeps_reports reports (all_keep_reports reports) s). Qed.

Lemma ac_snd s items :
  snd (ari_text_encode_ac enc s items)
  = push_back
      (add_depth
         (snd (ari_text_encode_items enc items false
                 (push_back (add_depth s 1) (ch "("))))
         (-1))
      (ch ")").
Proof.
  unfold ari_text_encode_ac. cbv zeta.
  destruct (ari_text_encode_items enc items false _). reflexivity.
Qed.

Lemma am_snd s items :
  snd (ari_text_encode_am enc s items)
  = push_back
      (add_depth
         (snd (ari_text_encode_pairs enc items false
                 (push_back (add_depth s 1) (ch "("))))
         (-1))
      (ch ")").
Proof.
  unfold ari_text_encode_am. cbv zeta.
  destruct (ari_text_encode_pairs enc items false _). reflexivity.
Qed.

Lemma tbl_snd s ncols items :
  snd (ari_text_encode_tbl enc s ncols items)
  = let state := cat_str s (cstr "c=" ++ Libc.fmt_u ncols ++ cstr ";") in
    if ncols =? 0 then state
    else
      add_depth
        (if 0 <? Z.of_nat (length items) / ncols
         then snd (ari_text_encode_cells enc ncols
                     (Z.of_nat (length items) / ncols) items 0 0 false
                     (push_back (add_depth state 1) (ch "(")))
         else add_depth state 1)
        (-1).
Proof.
  unfold ari_text_encode_tbl. cbv zeta.
  destruct (ncols =? 0); [reflexivity|].
  destruct (0 <? Z.of_nat (length items) / ncols); [|reflexivity].
  destruct (ari_text_encode_cells enc _ _ _ _ _ _ _). reflexivity.
Qed.

Lemma execset_snd s nonce targets :
  snd (ari_text_encode_execset enc s nonce targets)
  = push_back
      (add_depth
         (snd (ari_text_encode_items enc targets false
                 (push_back
                    (add_depth
                       (set_opts
                          (ari_text_encode_field enc
                             (set_opts s
                                (set_scheme_prefix (opts s) ARI_TEXT_SCHEME_NONE))
                             (cstr "n=") nonce)
                          (opts s))
                       1)
                    (ch "("))))
         (-1))
      (ch ")").
Proof.
  unfold ari_text_encode_execset. cbv zeta.
  destruct (ari_text_encode_items enc targets false _). reflexivity.
Qed.

Lemma rptset_snd s nonce reftime reports :
  snd (ari_text_encode_rptset enc s nonce reftime reports)
  = add_depth
      (snd (ari_text_encode_reports enc reports
              (set_opts
                 (ari_text_encode_field enc
                    (ari_text_encode_field enc
                       (set_opts (add_depth s 1)
                          (set_scheme_prefix (opts (add_depth s 1))
                             ARI_TEXT_SCHEME_NONE))
                       (cstr "n=") nonce)
                    (cstr "r=") reftime)
                 (opts (add_depth s 1)))))
      (-1).
Proof.
  unfold ari_text_encode_rptset. cbv zeta.
  destruct (ari_text_encode_reports enc reports _). reflexivity.
Qed.


Lemma field_depth s label val :
  depth (ari_text_encode_field enc s label val) = depth s.
Proof. rewrite field_eq. st_simpl. reflexivity. Qed.

Lemma field_opts s label val :
  opts (ari_text_encode_field enc s label val) = opts s.
Proof. rewrite field_eq. st_simpl. reflexivity. Qed.

Ltac st_norm :=
  repeat (st_simpl; rewrite ?field_depth, ?field_opts).

(** ** Text in front of the output and the scheme option *)

Section Morph.

Variable x : list Z.
Variable b : bool.
Variable k : Z.

(** The state with [x] in front of its output, [k] levels deeper and,
    when [b] is set, the scheme prefix switched off. *)
Definition morph (s : ari_text_enc_state_t) : ari_text_enc_state_t :=
  mk_state (x ++ out s) (depth s + k)
    (if b then set_scheme_prefix (opts s) ARI_TEXT_SCHEME_NONE else opts s).

(** States at which [ari_text_encode_prefix] emits the same text before
    and after [morph]: nothing when [b] is set. *)
Definition calm (s : ari_text_enc_state_t) : Prop :=
  if b
  then scheme_prefix (opts s) = ARI_TEXT_SCHEME_NONE
       \/ (scheme_prefix (opts s) = ARI_TEXT_SCHEME_FIRST /\ 0 < depth s)
  else k = 0 \/ scheme_prefix (opts s) <> ARI_TEXT_SCHEME_FIRST
       \/ (0 < depth s /\ 0 < depth s + k).

(** States whose contained values are encoded at calm states. *)
Definition okb (s : ari_text_enc_state_t) : Prop :=
  if b
  then scheme_prefix (opts s) = ARI_TEXT_SCHEME_NONE
       \/ (scheme_prefix (opts s) = ARI_TEXT_SCHEME_FIRST /\ 0 <= depth s)
  else k = 0 \/ scheme_prefix (opts s) <> ARI_TEXT_SCHEME_FIRST
       \/ (0 <= depth s /\ 0 <= depth s + k).

Lemma calm_of s s' :
  opts s' = opts s -> depth s <= depth s' -> calm s -> calm s'.
Proof.
  clear enc type_code printf_double strftime_unspecified x.
  unfold calm. intros Ho Hd. rewrite Ho. case b; intros H; intuition lia.
Qed.

Lemma calm_in s s' :
  opts s' = opts s -> depth s < depth s' -> okb s -> calm s'.
Proof.
  clear enc type_code printf_double strftime_unspecified x.
  unfold calm, okb. intros Ho Hd. rewrite Ho. case b; intros H; intuition lia.
Qed.

Lemma calm_none s : scheme_prefix (opts s) = ARI_TEXT_SCHEME_NONE -> calm s.
Proof.
  unfold calm. intros H. rewrite H. case b; [left; reflexivity|].
  right; left. discriminate.
Qed.

Lemma okb_of s s' :
  opts s' = opts s -> depth s <= depth s' -> okb s -> okb s'.
Proof.
  clear enc type_code printf_double strftime_unspecified x.
  unfold okb. intros Ho Hd. rewrite Ho. case b; intros H; intuition lia.
Qed.

Lemma calm_okb s : calm s -> okb s.
Proof.
  clear enc type_code printf_double strftime_unspecified x.
  unfold calm, okb. case b; intros H; intuition lia.
Qed.

Ltac calm_tac :=
  match goal with
  | |- calm _ => apply calm_none; st_norm; reflexivity
  | H : calm ?s |- calm ?s' =>
      apply (calm_of s s'); [st_norm; reflexivity|st_norm; lia|exact H]
  | H : okb ?s |- calm ?s' =>
      apply (calm_in s s'); [st_norm; reflexivity|st_norm; lia|exact H]
  | H : okb ?s |- okb ?s' =>
      apply (okb_of s s'); [st_norm; reflexivity|st_norm; lia|exact H]
  | H : calm ?s |- okb ?s' =>
      apply (okb_of s s'); [st_norm; reflexivity|st_norm; lia|exact (calm_okb s H)]
  end.

Lemma morph_out s : out (morph s) = x ++ out s.
Proof. reflexivity. Qed.

Lemma morph_push s c : push_back (morph s) c = morph (push_back s c).
Proof.
  unfold morph, push_back. cbn [out depth opts]. rewrite app_assoc. reflexivity.
Qed.

Lemma morph_cat s t : cat_str (morph s) t = morph (cat_str s t).
Proof.
  unfold morph, cat_str. cbn [out depth opts]. rewrite app_assoc. reflexivity.
Qed.

Lemma morph_depth s d : add_depth (morph s) d = morph (add_depth s d).
Proof.
  unfold morph, add_depth. cbn [out depth opts]. f_equal. lia.
Qed.

Lemma morph_set_out s o : set_out (morph s) (x ++ o) = morph (set_out s o).
Proof. reflexivity. Qed.

Lemma morph_bare s :
  set_opts (morph s) (set_scheme_prefix (opts (morph s)) ARI_TEXT_SCHEME_NONE)
  = morph (set_opts s (set_scheme_prefix (opts s) ARI_TEXT_SCHEME_NONE)).
Proof. unfold morph. case b; reflexivity. Qed.

Lemma morph_restore t s :
  set_opts (morph t) (opts (morph s)) = morph (set_opts t (opts s)).
Proof. reflexivity. Qed.

Lemma morph_show s : show_ari_type (opts (morph s)) = show_ari_type (opts s).
Proof. unfold morph. case b; reflexivity. Qed.

Lemma morph_time_text s : time_text (opts (morph s)) = time_text (opts s).
Proof. unfold morph. case b; reflexivity. Qed.

Lemma morph_prefix s :
  calm s -> ari_text_encode_prefix (morph s) = morph (ari_text_encode_prefix s).
Proof.
  unfold calm, ari_text_encode_prefix, morph. case b;
    cbn [opts depth scheme_prefix set_scheme_prefix].
  - intros [H|[H Hd]]; rewrite H; [reflexivity|].
    destruct (0 <? depth s) eqn:E; [reflexivity|lia].
  - intros H. destruct (scheme_prefix (opts s)) eqn:E;
      [reflexivity| |cbn [cat_str out depth opts]; rewrite app_assoc; reflexivity].
    destruct (0 <? depth s) eqn:E1, (0 <? depth s + k) eqn:E2;
      cbn [cat_str out depth opts]; rewrite ?app_assoc; try reflexivity;
      exfalso; destruct H as [H|[H|H]]; try congruence; lia.
Qed.

Lemma morph_idseg s i :
  ari_text_encode_idseg (morph s) i
  = (fst (ari_text_encode_idseg s i), morph (snd (ari_text_encode_idseg s i))).
Proof. destruct i; cbn [ari_text_encode_idseg fst snd]; rewrite ?morph_cat; reflexivity. Qed.

Lemma morph_aritype s v i :
  ari_text_encode_aritype type_code (morph s) v i
  = morph (ari_text_encode_aritype type_code s v i).
Proof.
  unfold ari_text_encode_aritype. rewrite morph_show.
  destruct (show_ari_type (opts s)); try destruct i as [i|];
    try destruct (ari_type_to_name _ _);
    rewrite ?morph_cat, ?morph_idseg; reflexivity.
Qed.

(** Encoding [a] commutes with [morph] at calm states. *)
Definition carries (a : ari_t) : Prop :=
  forall s, calm s -> snd (enc (morph s) a) = morph (snd (enc s a)).

Lemma morph_sep (sep : bool) s :
  (if sep then push_back (morph s) (ch ",") else morph s)
  = morph (if sep then push_back s (ch ",") else s).
Proof. destruct sep; [apply morph_push|reflexivity]. Qed.

Lemma carries_items items :
  Forall carries items ->
  forall sep s, calm s ->
    snd (ari_text_encode_items enc items sep (morph s))
    = morph (snd (ari_text_encode_items enc items sep s)).
Proof.
  induction 1 as [|a items Ha _ IH]; intros sep s Hc; [reflexivity|].
  rewrite !items_cons, morph_sep.
  rewrite Ha by (destruct sep; calm_tac).
  apply IH. destruct sep; calm_tac.
Qed.

Lemma carries_pairs items :
  Forall (pair_all carries) items ->
  forall sep s, calm s ->
    snd (ari_text_encode_pairs enc items sep (morph s))
    = morph (snd (ari_text_encode_pairs enc items sep s)).
Proof.
  induction 1 as [|[key v] items [Hk Hv] _ IH]; intros sep s Hc; [reflexivity|].
  cbn [fst snd] in Hk, Hv.
  rewrite !pairs_cons, morph_sep.
  rewrite Hk by (destruct sep; calm_tac).
  rewrite morph_push.
  rewrite Hv by (destruct sep; calm_tac).
  apply IH. destruct sep; calm_tac.
Qed.

Lemma carries_cells items :
  Forall carries items ->
  forall ncols nrows row_ix col_ix sep s, calm s ->
    snd (ari_text_encode_cells enc ncols nrows items row_ix col_ix sep (morph s))
    = morph (snd (ari_text_encode_cells enc ncols nrows items row_ix col_ix sep s)).
Proof.
  induction 1 as [|a items Ha _ IH]; intros ncols nrows row_ix col_ix sep s Hc;
    [reflexivity|].
  rewrite !cells_cons, morph_sep. cbv zeta.
  rewrite Ha by (destruct sep; calm_tac).
  destruct (col_ix + 1 <? ncols).
  - apply IH. destruct sep; calm_tac.
  - destruct (row_ix + 1 <? nrows).
    + rewrite !morph_push. apply IH. destruct sep; calm_tac.
    + cbn [snd]. apply morph_push.
Qed.

Lemma carries_field s label val :
  carries val -> scheme_prefix (opts s) = ARI_TEXT_SCHEME_NONE ->
  ari_text_encode_field enc (morph s) label val
  = morph (ari_text_encode_field enc s label val).
Proof.
  intros Hv Hn. rewrite !field_eq, morph_cat.
  rewrite Hv by (apply calm_none; exact Hn).
  apply morph_push.
Qed.

Lemma carries_ac s items :
  okb s -> Forall carries items ->
  snd (ari_text_encode_ac enc (morph s) items)
  = morph (snd (ari_text_encode_ac enc s items)).
Proof.
  intros Hs H. rewrite !ac_snd, morph_depth, morph_push.
  rewrite carries_items by (auto; calm_tac).
  rewrite morph_depth, morph_push. reflexivity.
Qed.

Lemma carries_am s items :
  okb s -> Forall (pair_all carries) items ->
  snd (ari_text_encode_am enc (morph s) items)
  = morph (snd (ari_text_encode_am enc s items)).
Proof.
  intros Hs H. rewrite !am_snd, morph_depth, morph_push.
  rewrite carries_pairs by (auto; calm_tac).
  rewrite morph_depth, morph_push. reflexivity.
Qed.

Lemma carries_tbl s ncols items :
  okb s -> Forall carries items ->
  snd (ari_text_encode_tbl enc (morph s) ncols items)
  = morph (snd (ari_text_encode_tbl enc s ncols items)).
Proof.
  intros Hs H. rewrite !tbl_snd. cbv zeta. rewrite morph_cat.
  destruct (ncols =? 0); [reflexivity|].
  destruct (0 <? Z.of_nat (length items) / ncols).
  - rewrite morph_depth, morph_push.
    rewrite carries_cells by (auto; calm_tac).
    apply morph_depth.
  - rewrite !morph_depth. reflexivity.
Qed.

Lemma carries_execset s nonce targets :
  okb s -> carries nonce -> Forall carries targets ->
  snd (ari_text_encode_execset enc (morph s) nonce targets)
  = morph (snd (ari_text_encode_execset enc s nonce targets)).
Proof.
  intros Hs Hn H. rewrite !execset_snd, morph_bare.
  rewrite carries_field by (auto; reflexivity).
  rewrite morph_restore, morph_depth, morph_push.
  rewrite carries_items by (auto; calm_tac).
  rewrite morph_depth, morph_push. reflexivity.
Qed.

Lemma carries_report r s :
  calm s -> report_all carries r ->
  snd (ari_text_encode_report enc (morph s) r)
  = morph (snd (ari_text_encode_report enc s r)).
Proof.
  destruct r as [reltime source items]. intros Hs (Ht & Hsrc & H).
  rewrite !report_snd. cbn [snd]. rewrite morph_push, morph_bare.
  rewrite carries_field by (auto; reflexivity).
  rewrite carries_field by (auto; st_norm; reflexivity).
  rewrite morph_restore, morph_push.
  rewrite carries_items by (auto; calm_tac).
  rewrite !morph_push. reflexivity.
Qed.

Lemma carries_reports reports :
  Forall (report_all carries) reports ->
  forall s, calm s ->
    snd (ari_text_encode_reports enc reports (morph s))
    = morph (snd (ari_text_encode_reports enc reports s)).
Proof.
  induction 1 as [|r reports Hr _ IH]; intros s Hc; [reflexivity|].
  rewrite !reports_cons. rewrite carries_report by assumption.
  apply IH. calm_tac.
Qed.

Lemma carries_rptset s nonce reftime reports :
  okb s -> carries nonce -> carries reftime ->
  Forall (report_all carries) reports ->
  snd (ari_text_encode_rptset enc (morph s) nonce reftime reports)
  = morph (snd (ari_text_encode_rptset enc s nonce reftime reports)).
Proof.
  intros Hs Hn Hr H. rewrite !rptset_snd, morph_depth, morph_bare.
  rewrite carries_field by (auto; reflexivity).
  rewrite carries_field by (auto; st_norm; reflexivity).
  rewrite morph_restore.
  rewrite carries_reports by (auto; calm_tac).
  apply morph_depth.
Qed.

Ltac leaf_norm :=
  unfold cat_str, push_back, set_out;
  cbn [out depth opts cat_str push_back set_out set_scheme_prefix
       scheme_prefix show_ari_type int_base float_form text_identity
       bstr_form time_text fst snd];
  rewrite <- ?app_assoc.

Ltac leaf_apps :=
  repeat (leaf_norm;
          match goal with
          | |- context [ari_uint64_encode (x ++ ?o) ?v ?c] =>
              rewrite (ari_uint64_encode_app x o v c);
              destruct (ari_uint64_encode o v c)
          | |- context [ari_float64_encode printf_double (x ++ ?o) ?v ?c] =>
              rewrite (ari_float64_encode_app x o v c);
              destruct (ari_float64_encode printf_double o v c)
          | |- context [ari_text_percent_helper (x ++ ?o) ?v] =>
              rewrite (ari_text_percent_helper_app x o v);
              destruct (ari_text_percent_helper o v)
          | |- context [base16_encode (x ++ ?o) ?v ?c] =>
              rewrite (base16_encode_app x o v c);
              destruct (base16_encode o v c)
          | |- context [base64_encode (x ++ ?o) ?v ?c] =>
              rewrite (base64_encode_app x o v c);
              destruct (base64_encode o v c)
          | |- context [utctime_encode strftime_unspecified (x ++ ?o) ?v ?c] =>
              rewrite (utctime_encode_app x o v c);
              destruct (utctime_encode strftime_unspecified o v c)
          | |- context [decfrac_encode (x ++ ?o) ?v] =>
              rewrite (decfrac_encode_app x o v);
              destruct (decfrac_encode o v)
          | |- context [timeperiod_encode (x ++ ?o) ?v] =>
              rewrite (timeperiod_encode_app x o v);
              destruct (timeperiod_encode o v)
          | |- context [slash_escape ?a ?v ?c] => destruct (slash_escape a v c)
          | |- context [if ?c then _ else _] => destruct c
          | |- context [match bstr_form ?o with _ => _ end] =>
              destruct (bstr_form o)
          end).

Lemma prims_morph obj s :
  snd (lit_prims obj (morph s)) = morph (snd (lit_prims obj s)).
Proof.
  unfold lit_prims, morph. case b;
    destruct (prim_type obj), (value obj); leaf_apps; leaf_norm; reflexivity.
Qed.

Lemma lit_body_morph obj s :
  okb s -> value_all carries (value obj) ->
  snd (lit_body obj (morph s)) = morph (snd (lit_body obj s)).
Proof.
  intros Hs Hv. unfold lit_body.
  destruct (has_ari_type obj); [|apply prims_morph].
  cbv zeta. rewrite morph_push, morph_aritype, morph_push.
  set (s1 := push_back (ari_text_encode_aritype type_code (push_back s (ch "/"))
                          (ari_type obj) None) (ch "/")).
  assert (H1 : okb s1) by (subst s1; calm_tac).
  clearbody s1. rewrite ?morph_time_text, ?morph_out.
  destruct (ari_type obj), (value obj); cbn [value_all] in Hv;
    try apply prims_morph;
    try (repeat match goal with
                | |- context [if time_text ?o then _ else _] =>
                    destruct (time_text o)
                | |- context [utctime_encode strftime_unspecified (x ++ ?o) ?v ?c] =>
                    rewrite (utctime_encode_app x o v c);
                    destruct (utctime_encode strftime_unspecified o v c)
                | |- context [decfrac_encode (x ++ ?o) ?v] =>
                    rewrite (decfrac_encode_app x o v);
                    destruct (decfrac_encode o v)
                | |- context [timeperiod_encode (x ++ ?o) ?v] =>
                    rewrite (timeperiod_encode_app x o v);
                    destruct (timeperiod_encode o v)
                end;
         cbn [fst snd];
         match goal with |- context [if ?c then _ else _] => destruct c end;
         rewrite morph_set_out; first [apply prims_morph|reflexivity]).
  - rewrite carries_ac by assumption. apply prims_morph.
  - rewrite carries_am by assumption. apply prims_morph.
  - rewrite carries_tbl by assumption. apply prims_morph.
  - destruct Hv as [Hn Ht].
    rewrite carries_execset by assumption. apply prims_morph.
  - destruct Hv as (Hn & Hr & Ht).
    rewrite carries_rptset by assumption. apply prims_morph.
Qed.

Lemma objref_body_morph obj s :
  okb s -> params_all carries (params obj) ->
  snd (objref_body obj (morph s)) = morph (snd (objref_body obj s)).
Proof.
  intros Hs Hv. unfold objref_body. cbv zeta.
  rewrite morph_cat, morph_idseg. cbn [snd]. rewrite morph_push.
  destruct (type_id (objpath obj)) eqn:Et; [reflexivity| |].
  all: destruct (objpath_has_ari_type (objpath obj));
       rewrite ?morph_aritype, ?morph_idseg; cbn [snd];
       rewrite morph_push, morph_idseg; cbn [snd];
       destruct (params obj) as [|items|items]; cbn [params_all snd] in *;
       [reflexivity
       |apply carries_ac; [calm_tac|assumption]
       |apply carries_am; [calm_tac|assumption]
       |reflexivity
       |apply carries_ac; [calm_tac|assumption]
       |apply carries_am; [calm_tac|assumption]].
Qed.

Lemma carries_all a : carries a.
Proof.
  induction a using ari_t_induction.
  - intros s Hc. rewrite !stream_lit. cbn [snd].
    rewrite morph_prefix by assumption.
    apply lit_body_morph; [|assumption].
    destruct (keeps_prefix s). apply (okb_of s); [assumption|lia|].
    apply calm_okb. assumption.
  - intros s Hc. rewrite !stream_ref. cbn [snd].
    rewrite morph_prefix by assumption.
    apply objref_body_morph; [|assumption].
    destruct (keeps_prefix s). apply (okb_of s); [assumption|lia|].
    apply calm_okb. assumption.
Qed.

End Morph.

End EncoderState.

(* ===================================================================== *)
(** * The text of a value and of its parts *)

(** The texts of the items of a container, separated by commas. *)
Definition join_items (texts : list (list Z)) : list Z :=
  match texts with
  | [] => []
  | t :: texts' => t ++ flat_map (fun u => ch "," :: u) texts'
  end.

Section EncoderText.

Variable type_code : ari_type_t -> Z.
Variable printf_double : Z -> Z -> list Z.
Variable strftime_unspecified : list Z.

Local Abbreviation enc :=
  (ari_text_encode_stream type_code printf_double strftime_unspecified).

(** The output of a value encoded into an empty stream at depth zero. *)
Definition text_of (o : ari_text_enc_opts_t) (ari : ari_t) : list Z :=
  out (snd (enc (mk_state [] 0 o) ari)).

Lemma morph_self s :
  morph (out s) false (depth s) (mk_state [] 0 (opts s)) = s.
Proof.
  destruct s as [o d op]. unfold morph. cbn [out depth opts].
  rewrite app_nil_r. reflexivity.
Qed.

Lemma enc_out s ari :
  scheme_prefix (opts s) <> ARI_TEXT_SCHEME_FIRST ->
  out (snd (enc s ari)) = out s ++ text_of (opts s) ari.
Proof.
  intros H. rewrite <- (morph_self s) at 1.
  rewrite (carries_all type_code printf_double strftime_unspecified)
    by (right; left; exact H).
  reflexivity.
Qed.

Lemma aritype_out s v i :
  out (ari_text_encode_aritype type_code s v i)
  = out s ++ out (ari_text_encode_aritype type_code (mk_state [] 0 (opts s)) v i).
Proof.
  rewrite <- (morph_self s) at 1. rewrite morph_aritype. reflexivity.
Qed.

Lemma ari_text_encode_out text ari o :
  ari_text_encode type_code printf_double strftime_unspecified text ari o
  = (0, text_of o ari).
Proof. unfold ari_text_encode. rewrite enc_let. reflexivity. Qed.

Lemma items_out items :
  forall sep s,
    scheme_prefix (opts s) <> ARI_TEXT_SCHEME_FIRST ->
    out (snd (ari_text_encode_items enc items sep s))
    = out s ++ (if sep
                then flat_map (fun u => ch "," :: u) (map (text_of (opts s)) items)
                else join_items (map (text_of (opts s)) items)).
Proof.
  induction items as [|a items IH]; intros sep s H.
  - destruct sep; cbn; rewrite app_nil_r; reflexivity.
  - rewrite items_cons.
    rewrite IH by (rewrite enc_opts; destruct sep; exact H).
    rewrite enc_opts, enc_out by (destruct sep; exact H).
    destruct sep; cbn [map flat_map join_items push_back out opts];
      rewrite <- ?app_assoc; reflexivity.
Qed.

(** [ari_text_encode_stream] returns the state with the nesting
    depth and the options it was given, whatever the value. *)
Theorem ari_text_encode_stream_restores (state : ari_text_enc_state_t)
    (ari : ari_t) :
  depth (snd (ari_text_encode_stream type_code printf_double
                strftime_unspecified state ari)) = depth state
  /\ opts (snd (ari_text_encode_stream type_code printf_double
                  strftime_unspecified state ari)) = opts state.
Proof.
  destruct (keeps_all type_code printf_double strftime_unspecified ari state)
    as [Hd Ho].
  split; assumption.
Qed.

(** [ari_text_encode_stream] only appends: text already in the
    output stream comes back unchanged in front of the text that the same
    call appends to a stream without it. *)
Theorem ari_text_encode_stream_appends (x o : list Z) (d : Z)
    (op : ari_text_enc_opts_t) (ari : ari_t) :
  out (snd (ari_text_encode_stream type_code printf_double strftime_unspecified
              (mk_state (x ++ o) d op) ari))
  = x ++ out (snd (ari_text_encode_stream type_code printf_double
                     strftime_unspecified (mk_state o d op) ari)).
Proof.
  replace (mk_state (x ++ o) d op) with (morph x false 0 (mk_state o d op))
    by (unfold morph; cbn [out depth opts]; f_equal; lia).
  rewrite (carries_all type_code printf_double strftime_unspecified)
    by (left; reflexivity).
  reflexivity.
Qed.

(** The nesting depth changes the text only through the scheme
    prefix: with another option than ARI_TEXT_SCHEME_FIRST, or at two
    depths above zero, the same text is produced. *)
Theorem ari_text_encode_stream_depth (o : list Z) (d d' : Z)
    (op : ari_text_enc_opts_t) (ari : ari_t) :
  scheme_prefix op <> ARI_TEXT_SCHEME_FIRST \/ (0 < d /\ 0 < d') ->
  out (snd (ari_text_encode_stream type_code printf_double strftime_unspecified
              (mk_state o d op) ari))
  = out (snd (ari_text_encode_stream type_code printf_double
                strftime_unspecified (mk_state o d' op) ari)).
Proof.
  intros H.
  replace (mk_state o d' op) with (morph [] false (d' - d) (mk_state o d op))
    by (unfold morph; cbn [out depth opts app]; f_equal; lia).
  rewrite (carries_all type_code printf_double strftime_unspecified).
  - reflexivity.
  - unfold calm. cbn [opts depth]. right.
    destruct H as [H|H]; [left; exact H|right; lia].
Qed.

(** With ARI_TEXT_SCHEME_FIRST the text is [ari:] followed by the
    text produced with ARI_TEXT_SCHEME_NONE: contained values get no scheme
    prefix. *)
Theorem ari_text_encode_scheme_first (text : list Z) (ari : ari_t)
    (o : ari_text_enc_opts_t) :
  scheme_prefix o = ARI_TEXT_SCHEME_FIRST ->
  ari_text_encode type_code printf_double strftime_unspecified text ari o
  = (0, cstr "ari:"
        ++ snd (ari_text_encode type_code printf_double strftime_unspecified
                  text ari (set_scheme_prefix o ARI_TEXT_SCHEME_NONE))).
Proof.
  intros H. rewrite !ari_text_encode_out. cbn [snd]. f_equal.
  unfold text_of.
  set (s0 := mk_state [] 0 o).
  set (s' := mk_state [] 0 (set_scheme_prefix o ARI_TEXT_SCHEME_NONE)).
  assert (Hs0 : okb true 0 s0) by (right; split; [exact H|cbn; lia]).
  assert (Htop : snd (enc (morph [] true 0 (ari_text_encode_prefix s0)) ari)
                 = morph [] true 0 (snd (enc s0 ari))).
  { assert (Hp : okb true 0 (ari_text_encode_prefix s0)).
    { destruct (keeps_prefix s0) as [Hd Ho].
      apply (okb_of true 0 s0); [exact Ho|lia|exact Hs0]. }
    destruct ari as [obj|obj].
    - rewrite !stream_lit. cbn [snd].
      apply lit_body_morph; [exact Hp|].
      apply all_value. apply carries_all.
    - rewrite !stream_ref. cbn [snd].
      apply objref_body_morph; [exact Hp|].
      apply all_params. apply carries_all. }
  assert (Happ : snd (enc (morph (cstr "ari:") false 0 s') ari)
                 = morph (cstr "ari:") false 0 (snd (enc s' ari))).
  { apply carries_all. left. reflexivity. }
  assert (E : morph [] true 0 (ari_text_encode_prefix s0)
              = morph (cstr "ari:") false 0 s').
  { unfold ari_text_encode_prefix, s0, s', morph. cbn [opts depth out].
    rewrite H. reflexivity. }
  rewrite E, Happ in Htop.
  apply (f_equal out) in Htop. cbn [morph out app] in Htop.
  symmetry. exact Htop.
Qed.

(** The text of an AC literal is the type name between slashes
    and, in parentheses, the texts of the items separated by commas, each
    item as [ari_text_encode] gives it on its own; with
    ARI_TEXT_SCHEME_FIRST excluded, where the items lose their prefix. *)
Theorem ari_text_encode_ac_items (text : list Z) (items : list ari_t)
    (o : ari_text_enc_opts_t) :
  scheme_prefix o <> ARI_TEXT_SCHEME_FIRST ->
  ari_text_encode type_code printf_double strftime_unspecified text
    (tagged ARI_TYPE_AC ARI_PRIM_OTHER (as_ac items)) o
  = (0, scheme_text o ++ cstr "/"
        ++ out (ari_text_encode_aritype type_code (mk_state [] 0 o)
                  ARI_TYPE_AC None)
        ++ cstr "/("
        ++ join_items
             (map (fun item =>
                     snd (ari_text_encode type_code printf_double
                            strftime_unspecified text item o)) items)
        ++ cstr ")").
Proof.
  intros H. rewrite ari_text_encode_out. f_equal.
  rewrite (map_ext _ (text_of o))
    by (intros a; rewrite ari_text_encode_out; reflexivity).
  unfold text_of, tagged. rewrite stream_lit. cbn [snd].
  unfold lit_body. cbn [has_ari_type ari_type value prim_type lit_prims snd].
  rewrite ac_snd. cbn [push_back out].
  rewrite ari_text_encode_prefix_top.
  set (s1 := push_back _ (ch "(")).
  assert (Ho : opts s1 = o)
    by (subst s1; cbn [push_back add_depth opts]; rewrite aritype_opts;
        reflexivity).
  cbn [add_depth out].
  rewrite items_out by (rewrite Ho; exact H).
  rewrite Ho. subst s1. cbn [push_back add_depth out opts].
  rewrite aritype_out. cbn [push_back out opts].
  rewrite <- !app_assoc. reflexivity.
Qed.

End EncoderText.

Lemma ari_text_encode_stream_depth_witness :
  out (snd (ari_text_encode_stream iana_type_code (fun _ _ => []) []
              (mk_state [] 1 ARI_TEXT_ENC_OPTS_DEFAULT)
              (tagged ARI_TYPE_AC ARI_PRIM_OTHER
                 (as_ac [untagged ARI_PRIM_UINT64 (as_uint64 7)]))))
  = out (snd (ari_text_encode_stream iana_type_code (fun _ _ => []) []
                (mk_state [] 5 ARI_TEXT_ENC_OPTS_DEFAULT)
                (tagged ARI_TYPE_AC ARI_PRIM_OTHER
                   (as_ac [untagged ARI_PRIM_UINT64 (as_uint64 7)])))).
Proof.
  apply (ari_text_encode_stream_depth iana_type_code (fun _ _ => []) []).
  right. lia.
Defined.

Lemma ari_text_encode_scheme_first_witness :
  ari_text_encode iana_type_code (fun _ _ => []) [] []
    (tagged ARI_TYPE_AC ARI_PRIM_OTHER
       (as_ac [untagged ARI_PRIM_UINT64 (as_uint64 7);
               untagged ARI_PRIM_BOOL (as_bool true)]))
    ARI_TEXT_ENC_OPTS_DEFAULT
  = (0, cstr "ari:"
        ++ snd (ari_text_encode iana_type_code (fun _ _ => []) [] []
                  (tagged ARI_TYPE_AC ARI_PRIM_OTHER
                     (as_ac [untagged ARI_PRIM_UINT64 (as_uint64 7);
                             untagged ARI_PRIM_BOOL (as_bool true)]))
                  (set_scheme_prefix ARI_TEXT_ENC_OPTS_DEFAULT
                     ARI_TEXT_SCHEME_NONE))).
Proof.
  apply (ari_text_encode_scheme_first iana_type_code (fun _ _ => []) [] []).
  reflexivity.
Defined.

Lemma ari_text_encode_ac_items_witness :
  ari_text_encode iana_type_code (fun _ _ => []) [] []
    (tagged ARI_TYPE_AC ARI_PRIM_OTHER
       (as_ac [untagged ARI_PRIM_UINT64 (as_uint64 7);
               untagged ARI_PRIM_BOOL (as_bool true)]))
    (set_scheme_prefix ARI_TEXT_ENC_OPTS_DEFAULT ARI_TEXT_SCHEME_ALL)
  = (0, scheme_text (set_scheme_prefix ARI_TEXT_ENC_OPTS_DEFAULT ARI_TEXT_SCHEME_ALL)
        ++ cstr "/"
        ++ out (ari_text_encode_aritype iana_type_code
                  (mk_state [] 0 (set_scheme_prefix ARI_TEXT_ENC_OPTS_DEFAULT
                                    ARI_TEXT_SCHEME_ALL))
                  ARI_TYPE_AC None)
        ++ cstr "/("
        ++ join_items
             (map (fun item =>
                     snd (ari_text_encode iana_type_code (fun _ _ => []) [] []
                            item (set_scheme_prefix ARI_TEXT_ENC_OPTS_DEFAULT
                                    ARI_TEXT_SCHEME_ALL)))
                [untagged ARI_PRIM_UINT64 (as_uint64 7);
                 untagged ARI_PRIM_BOOL (as_bool true)])
        ++ cstr ")").
Proof.
  apply (ari_text_encode_ac_items iana_type_code (fun _ _ => []) [] []).
  discriminate.
Defined.

(* ===================================================================== *)
(** * A backslash at the end of the text *)

Lemma take_str_plain t rest :
  Forall (fun c => c <> 0 /\ c <> ch "\") t ->
  Libc.take_str (length t) (t ++ rest) = t.
Proof.
  induction 1 as [|c t [Hc _] _ IH]; cbn [length app Libc.take_str];
    [reflexivity|].
  replace (c =? 0) with false by lia. rewrite IH. reflexivity.
Qed.

Lemma slash_unescape_loop_trailing f out t tail :
  Forall (fun c => c <> 0 /\ c <> ch "\") t ->
  slash_unescape_loop (S f) (t ++ ch "\" :: tail) (S (length t)) O out
  = (3, out ++ t).
Proof.
  intros Ht. cbn [slash_unescape_loop skipn].
  change (0 <? S (length t))%nat with true. cbv iota.
  rewrite strchr_hit
    by (eapply Forall_impl; [|exact Ht]; cbv beta; intros c [H0 Hb]; auto).
  cbn [Nat.add]. rewrite Nat.sub_0_r, take_str_plain by exact Ht.
  replace (S (length t) <? length t + 1)%nat with false
    by (symmetry; apply Nat.ltb_ge; lia).
  replace (length t + 1 =? S (length t))%nat with true
    by (symmetry; apply Nat.eqb_eq; lia).
  destruct t; cbn [length Nat.eqb]; [rewrite app_nil_r|]; reflexivity.
Qed.

(** A backslash that ends the text, with or without a terminating NUL
    after it, makes [slash_unescape] return 3; the text before the
    backslash has been appended to the output by then. *)
Theorem slash_unescape_trailing_backslash (out t : list Z) :
  Forall (fun c => c <> 0 /\ c <> ch "\") t ->
  slash_unescape out (t ++ [ch "\"]) = (3, out ++ t)
  /\ slash_unescape out (t ++ [ch "\"; 0]) = (3, out ++ t).
Proof.
  intros Ht. unfold slash_unescape.
  assert (L1 : text_real_len (t ++ [ch "\"]) = S (length t))
    by (rewrite text_real_len_snoc; reflexivity).
  assert (L2 : text_real_len (t ++ [ch "\"; 0]) = S (length t)).
  { change [ch "\"; 0] with ([ch "\"] ++ [0]).
    rewrite app_assoc, text_real_len_snoc, length_app. cbn. lia. }
  rewrite L1, L2. cbn [Nat.eqb].
  split; apply slash_unescape_loop_trailing; exact Ht.
Qed.

Lemma slash_unescape_trailing_backslash_witness :
  slash_unescape (cstr "x") (cstr "ab" ++ [ch "\"]) = (3, cstr "x" ++ cstr "ab")
  /\ slash_unescape (cstr "x") (cstr "ab" ++ [ch "\"; 0])
     = (3, cstr "x" ++ cstr "ab").
Proof.
  apply (slash_unescape_trailing_backslash (cstr "x") (cstr "ab")).
  repeat constructor; chs; lia.
Defined.

(* ===================================================================== *)
(** * The rows of a table *)

(** The first [rows] runs of [n] items of a flat array. *)
Fixpoint chunks {A : Type} (n rows : nat) (items : list A) : list (list A) :=
  match rows with
  | O => []
  | S rows' => firstn n items :: chunks n rows' (skipn n items)
  end.

Section TableText.

Variable type_code : ari_type_t -> Z.
Variable printf_double : Z -> Z -> list Z.
Variable strftime_unspecified : list Z.

Local Abbreviation enc :=
  (ari_text_encode_stream type_code printf_double strftime_unspecified).
Local Abbreviation text_of' :=
  (text_of type_code printf_double strftime_unspecified).

(** The text of one row between its parentheses. *)
Definition row_text (o : ari_text_enc_opts_t) (row : list ari_t) : list Z :=
  ch "(" :: join_items (map (text_of' o) row) ++ [ch ")"].

Lemma cells_row ncols nrows row :
  row <> [] ->
  forall rest row_ix col_ix sep s,
    col_ix + Z.of_nat (length row) = ncols ->
    ari_text_encode_cells enc ncols nrows (row ++ rest) row_ix col_ix sep s
    = if row_ix + 1 <? nrows
      then ari_text_encode_cells enc ncols nrows rest (row_ix + 1) 0 false
             (push_back
                (push_back (snd (ari_text_encode_items enc row sep s)) (ch ")"))
                (ch "("))
      else (0, push_back (snd (ari_text_encode_items enc row sep s)) (ch ")")).
Proof.
  induction row as [|a row IH]; [congruence|].
  intros _ rest row_ix col_ix sep s Hc.
  cbn [app]. rewrite cells_cons, items_cons. cbv zeta.
  destruct row as [|b row].
  - cbn [length] in Hc.
    replace (col_ix + 1 <? ncols) with false by lia.
    reflexivity.
  - cbn [length] in Hc.
    replace (col_ix + 1 <? ncols) with true by lia.
    apply IH; [discriminate|]. cbn [length]. lia.
Qed.

Lemma cells_rows ncols nrows n :
  n = Z.to_nat ncols -> 0 < ncols ->
  forall r items row_ix s,
    scheme_prefix (opts s) <> ARI_TEXT_SCHEME_FIRST ->
    row_ix + Z.of_nat (S r) = nrows ->
    (S r * n <= length items)%nat ->
    out (snd (ari_text_encode_cells enc ncols nrows items row_ix 0 false
                (push_back s (ch "("))))
    = out s ++ flat_map (row_text (opts s)) (chunks n (S r) items).
Proof.
  intros Hn Hpos. induction r as [|r IH]; intros items row_ix s Hs Hr Hl.
  - rewrite <- (firstn_skipn n items) at 1.
    rewrite cells_row.
    + replace (row_ix + 1 <? nrows) with false by lia.
      cbn [snd push_back out chunks flat_map].
      rewrite items_out by exact Hs.
      cbn [push_back out opts]. unfold row_text.
      rewrite app_nil_r, <- ?app_assoc. cbn [app]. reflexivity.
    + intros E. apply (f_equal (@length _)) in E.
      rewrite length_firstn in E. cbn [length] in E. lia.
    + rewrite length_firstn. lia.
  - rewrite <- (firstn_skipn n items) at 1.
    rewrite cells_row.
    + replace (row_ix + 1 <? nrows) with true by lia.
      rewrite IH.
      * cbn [push_back out opts]. rewrite items_opts, items_out by exact Hs.
        cbn [push_back out opts].
        change (chunks n (S (S r)) items)
          with (firstn n items :: chunks n (S r) (skipn n items)).
        cbn [flat_map]. unfold row_text.
        rewrite <- ?app_assoc. cbn [app]. rewrite <- ?app_assoc.
        reflexivity.
      * cbn [push_back opts]. rewrite items_opts. exact Hs.
      * lia.
      * rewrite length_skipn. cbn [Nat.mul] in Hl |- *. lia.
    + intros E. apply (f_equal (@length _)) in E.
      rewrite length_firstn in E. cbn [length] in E. cbn [Nat.mul] in Hl. lia.
    + rewrite length_firstn. cbn [Nat.mul] in Hl. lia.
Qed.

(** The text of a TBL literal is the type name between slashes, the
    column count as [c=N;] and one parenthesised row of comma-separated
    item texts for each full row of the flat array of items: items that
    do not fill a row, and all items when the column count is zero, are
    not written. *)
Theorem ari_text_encode_tbl_rows (text : list Z) (ncols : Z)
    (items : list ari_t) (o : ari_text_enc_opts_t) :
  scheme_prefix o <> ARI_TEXT_SCHEME_FIRST -> 0 <= ncols ->
  ari_text_encode type_code printf_double strftime_unspecified text
    (tagged ARI_TYPE_TBL ARI_PRIM_OTHER (as_tbl ncols items)) o
  = (0, scheme_text o ++ cstr "/"
        ++ out (ari_text_encode_aritype type_code (mk_state [] 0 o)
                  ARI_TYPE_TBL None)
        ++ cstr "/c=" ++ Libc.fmt_u ncols ++ cstr ";"
        ++ flat_map
             (fun row =>
                cstr "("
                ++ join_items
                     (map (fun item =>
                             snd (ari_text_encode type_code printf_double
                                    strftime_unspecified text item o)) row)
                ++ cstr ")")
             (chunks (Z.to_nat ncols) (length items / Z.to_nat ncols) items)).
Proof.
  intros H Hnc. rewrite ari_text_encode_out. f_equal.
  rewrite (flat_map_ext _ (row_text o)).
  2: { intros row. unfold row_text.
       rewrite (map_ext _ (text_of' o))
         by (intros a; rewrite ari_text_encode_out; reflexivity).
       reflexivity. }
  unfold text_of, tagged. rewrite stream_lit. cbn [snd].
  unfold lit_body. cbn [has_ari_type ari_type value prim_type lit_prims snd].
  rewrite tbl_snd. cbv zeta. rewrite ari_text_encode_prefix_top.
  set (s1 := cat_str _ (cstr "c=" ++ Libc.fmt_u ncols ++ cstr ";")).
  assert (Ho : opts s1 = o)
    by (subst s1; cbn [cat_str push_back opts]; rewrite aritype_opts;
        reflexivity).
  assert (Hout : out s1 = scheme_text o ++ cstr "/"
                   ++ out (ari_text_encode_aritype type_code (mk_state [] 0 o)
                             ARI_TYPE_TBL None)
                   ++ cstr "/c=" ++ Libc.fmt_u ncols ++ cstr ";").
  { subst s1. cbn [cat_str push_back out]. rewrite aritype_out.
    cbn [push_back out opts]. rewrite <- ?app_assoc. reflexivity. }
  clearbody s1.
  destruct (ncols =? 0) eqn:E0.
  - apply Z.eqb_eq in E0. subst ncols. cbn [Z.to_nat Nat.div chunks flat_map].
    rewrite Hout, app_nil_r. rewrite <- ?app_assoc. reflexivity.
  - apply Z.eqb_neq in E0. cbn [add_depth out].
    assert (Hdiv : Z.of_nat (length items) / ncols
                   = Z.of_nat (length items / Z.to_nat ncols)).
    { rewrite Nat2Z.inj_div, Z2Nat.id by lia. reflexivity. }
    rewrite Hdiv.
    destruct (length items / Z.to_nat ncols)%nat as [|r] eqn:Er.
    + cbn [Z.of_nat Z.ltb Z.compare add_depth out chunks flat_map].
      rewrite Hout, app_nil_r. rewrite <- ?app_assoc. reflexivity.
    + replace (0 <? Z.of_nat (S r)) with true
        by (symmetry; apply Z.ltb_lt; lia).
      rewrite (cells_rows ncols (Z.of_nat (S r)) (Z.to_nat ncols) eq_refl)
        with (r := r).
      * cbn [add_depth out opts]. rewrite Ho, Hout.
        rewrite <- ?app_assoc. reflexivity.
      * lia.
      * cbn [add_depth opts]. rewrite Ho. exact H.
      * lia.
      * rewrite <- Er. rewrite Nat.mul_comm.
        apply Nat.Div0.mul_div_le.
Qed.

End TableText.

Lemma ari_text_encode_tbl_rows_witness :
  ari_text_encode iana_type_code (fun _ _ => []) [] []
    (tagged ARI_TYPE_TBL ARI_PRIM_OTHER
       (as_tbl 2 [untagged ARI_PRIM_UINT64 (as_uint64 1);
                  untagged ARI_PRIM_UINT64 (as_uint64 2);
                  untagged ARI_PRIM_UINT64 (as_uint64 3);
                  untagged ARI_PRIM_UINT64 (as_uint64 4);
                  untagged ARI_PRIM_UINT64 (as_uint64 5)]))
    (set_scheme_prefix ARI_TEXT_ENC_OPTS_DEFAULT ARI_TEXT_SCHEME_NONE)
  = (0, scheme_text (set_scheme_prefix ARI_TEXT_ENC_OPTS_DEFAULT
                       ARI_TEXT_SCHEME_NONE)
        ++ cstr "/"
        ++ out (ari_text_encode_aritype iana_type_code
                  (mk_state [] 0 (set_scheme_prefix ARI_TEXT_ENC_OPTS_DEFAULT
                                    ARI_TEXT_SCHEME_NONE))
                  ARI_TYPE_TBL None)
        ++ cstr "/c=" ++ Libc.fmt_u 2 ++ cstr ";"
        ++ flat_map
             (fun row =>
                cstr "("
                ++ join_items
                     (map (fun item =>
                             snd (ari_text_encode iana_type_code
                                    (fun _ _ => []) [] [] item
                                    (set_scheme_prefix ARI_TEXT_ENC_OPTS_DEFAULT
                                       ARI_TEXT_SCHEME_NONE))) row)
                ++ cstr ")")
             (chunks (Z.to_nat 2)
                (length [untagged ARI_PRIM_UINT64 (as_uint64 1);
                         untagged ARI_PRIM_UINT64 (as_uint64 2);
                         untagged ARI_PRIM_UINT64 (as_uint64 3);
                         untagged ARI_PRIM_UINT64 (as_uint64 4);
                         untagged ARI_PRIM_UINT64 (as_uint64 5)]
                 / Z.to_nat 2)
                [untagged ARI_PRIM_UINT64 (as_uint64 1);
                 untagged ARI_PRIM_UINT64 (as_uint64 2);
                 untagged ARI_PRIM_UINT64 (as_uint64 3);
                 untagged ARI_PRIM_UINT64 (as_uint64 4);
                 untagged ARI_PRIM_UINT64 (as_uint64 5)])).
Proof.
  apply (ari_text_encode_tbl_rows iana_type_code (fun _ _ => []) [] []).
  - discriminate.
  - lia.
Defined.
